(** * An M/M/2 carwash simulation (src/main.py) on a model of the SimPy kernel

    The program of [src/main.py] is a set of generator functions ([setup],
    [car], [CarwashMM2.wash], [track_queue_length], [staggered_repair_person])
    driven by a discrete-event kernel: an event queue ordered by
    [(time, priority, eid)], event objects with callback lists, processes that
    are resumed by the callbacks of the event they wait for, and a
    [Resource] with a list of users and a FIFO queue of pending requests.

    The kernel is SimPy's, which the program imports: the definitions
    below follow [Environment.schedule], [step] and [run], [Event.succeed],
    [Timeout], [Initialize], [Process._resume], [Put.__init__],
    [Put.cancel], [Request.__exit__], [Resource._do_put], [_do_get] and
    [BaseResource._trigger_put] of SimPy 4. A generator function of the
    program is embedded by the points at which it is suspended, with the
    local variables that are live there; [resume] runs it from one point
    to the next. The calls of [print] and the plots change nothing of the
    state and are left out.

    Simulated time and the tracking values are Python floats in the
    program. A finite float is a rational number, so they are held as [Q],
    and every operation of the program on floats rounds its exact result
    with [fl], the rounding of the arithmetic. The random module is a
    parameter of the development. *)

From Stdlib Require Import QArith Qabs Lqa ZArith Lia Sorted.
From Stdlib Require PrimFloat SpecFloat FloatOps Uint63.
From stdpp Require Import base option list sets.

#[local] Set Warnings "-clear-no-such-hyp".

(** ** Simulation parameters (lines 6-13) *)

Definition RANDOM_SEED : Z := 42.
Definition SIM_TIME : Q := 500%Q.
Definition LAMBDA : Q := (1 # 4)%Q.
Definition MU : Q := (1 # 5)%Q.
Definition NUM_MACHINES : nat := 2.
Definition REPAIR_DURATION : Z := 30.
Definition REPAIR_INTERVAL_MIN : Z := 40.
Definition REPAIR_INTERVAL_MAX : Z := 60.

(** ** Event objects *)

(** An event object is a plain event (a [Timeout], an [Initialize], a
    [Release] or the event [Environment.run] stops at), a [Request] or a
    [Process]; each kind lives in a table of its own and is named by its
    index there. *)
Inductive event : Type :=
  | Ev (i : nat)
  | Req (r : nat)
  | Proc (p : nat).

#[global] Instance event_eq_dec : EqDecision event.
Proof. solve_decision. Defined.

(** The callbacks that the program ever attaches to an event:
    [Process._resume] of a process, [BaseResource._trigger_put] and
    [BaseResource._trigger_get] of the machine pool, and
    [StopSimulation.callback]. *)
Inductive callback : Type :=
  | resume_cb (p : nat)
  | trigger_put_cb
  | trigger_get_cb
  | stop_simulation_cb.

(** An entry of [Environment._queue]: the tuple
    [(time, priority, eid, event)]. *)
Record scheduled : Type := Scheduled {
  at_time : Q;
  priority : nat;
  sid : nat;
  item : event
}.

Definition URGENT : nat := 0.
Definition NORMAL : nat := 1.

(** Python's tuple ordering on [(time, priority, eid)]; the [eid] of two
    entries never coincide, so the event itself is never compared. *)
Definition scheduled_lt (a b : scheduled) : bool :=
  match (at_time a ?= at_time b)%Q with
  | Lt => true
  | Gt => false
  | Eq =>
      if (priority a <? priority b)%nat then true
      else if (priority b <? priority a)%nat then false
      else (sid a <? sid b)%nat
  end.

(** [heappush]: the queue is kept as a list in increasing order, so that
    [heappop] is the head of the list. *)
Fixpoint heappush (x : scheduled) (q : list scheduled) : list scheduled :=
  match q with
  | [] => [x]
  | y :: q' => if scheduled_lt x y then x :: y :: q' else y :: heappush x q'
  end.

(** [list.remove(x)] guarded by [except ValueError: pass]: the first
    occurrence goes, if there is one. *)
Fixpoint list_remove_first (x : nat) (l : list nat) : list nat :=
  match l with
  | [] => []
  | y :: l' => if decide (x = y) then l' else y :: list_remove_first x l'
  end.

(** ** Generators

    A generator object is the function it runs, the point at which it is
    suspended and the local variables that are live there. A finished
    generator of [wash] keeps the locals of its last frame. *)
Inductive generator : Type :=
  (* setup(env, carwash) *)
  | setup_start
  | setup_L59 (car_count : nat)
  (* track_queue_length(env, carwash) *)
  | track_start
  | track_L68
  (* staggered_repair_person(env, carwash) *)
  | repair_start
  | repair_L75
  | repair_L82 (req1 : nat)
  | repair_L83 (req1 : nat)
  | repair_L90 (req2 : nat)
  | repair_L91 (req2 : nat)
  (* car(env, carwash, name) *)
  | car_start (name : nat)
  | car_L42 (name : nat) (arrival_time : Q) (request : nat)
  | car_L48 (name : nat) (arrival_time : Q) (request : nat)
            (wait_time start_busy_time : Q)
  | car_end (name : nat)
  (* CarwashMM2.wash(self, car) *)
  | wash_start (car : nat)
  | wash_L31 (car : nat) (service_time : Q)
  | wash_end (car : nat) (service_time : Q).

(** A [Process] is an event with a generator and the event the generator
    waits for ([Process._target]). *)
Record Process : Type := {
  proc_callbacks : option (list callback);
  gen : generator;
  target : option event
}.

(** A [Request] is an event with the process that issued it ([Put.proc])
    and, once granted, the time of the grant ([usage_since]). *)
Record Request : Type := {
  req_callbacks : option (list callback);
  proc : nat;
  usage_since : option Q
}.

(** What a call into the kernel can raise. [Unmodelled] stands for the
    paths of the kernel that this program never takes (resuming a finished
    generator, processing an event twice, yielding an event that has been
    processed). *)
Inductive exception : Type :=
  | StopSimulation
  | EmptySchedule
  | NegativeDelay (delay : Q)
  | Unmodelled.

(** ** The random module

    [random.seed], [random.expovariate] and [random.randint] over the
    hidden state of the generator. *)
Class Random : Type := {
  rng : Type;
  seed : Z -> rng;
  expovariate : Q -> rng -> Q * rng;
  randint : Z -> Z -> rng -> Z * rng
}.

(** ** Floating-point arithmetic

    [fl] rounds the exact result of an operation to the float that the
    operation returns. *)
Class Rounding : Type := { fl : Q -> Q }.

Section Simulation.

Context {F : Rounding} {R : Random}.

(** ** The state of a run

    The environment ([now], [queue], [eid]), the three tables of event
    objects, the machine pool ([capacity], [users], [put_queue]), the state
    of the random module and the tracking variables of lines 16-20. *)
Record state : Type := {
  now : Q;
  queue : list scheduled;
  eid : nat;
  events : list (option (list callback));
  procs : list Process;
  reqs : list Request;
  capacity : nat;
  users : list nat;
  put_queue : list nat;
  random : rng;
  wait_times : list Q;
  queue_lengths : list nat;
  queue_time : list Q;
  processed_cars : nat;
  busy_time : Q
}.

Definition set_now (x : Q) (s : state) : state :=
  {| now := x;  queue := queue s;  eid := eid s;  events := events s;  procs := procs s;
     reqs := reqs s;  capacity := capacity s;  users := users s;  put_queue := put_queue s;  random := random s;
     wait_times := wait_times s;  queue_lengths := queue_lengths s;  queue_time := queue_time s;  processed_cars := processed_cars s;  busy_time := busy_time s |}.
Definition set_queue (x : list scheduled) (s : state) : state :=
  {| now := now s;  queue := x;  eid := eid s;  events := events s;  procs := procs s;
     reqs := reqs s;  capacity := capacity s;  users := users s;  put_queue := put_queue s;  random := random s;
     wait_times := wait_times s;  queue_lengths := queue_lengths s;  queue_time := queue_time s;  processed_cars := processed_cars s;  busy_time := busy_time s |}.
Definition set_eid (x : nat) (s : state) : state :=
  {| now := now s;  queue := queue s;  eid := x;  events := events s;  procs := procs s;
     reqs := reqs s;  capacity := capacity s;  users := users s;  put_queue := put_queue s;  random := random s;
     wait_times := wait_times s;  queue_lengths := queue_lengths s;  queue_time := queue_time s;  processed_cars := processed_cars s;  busy_time := busy_time s |}.
Definition set_events (x : list (option (list callback))) (s : state) : state :=
  {| now := now s;  queue := queue s;  eid := eid s;  events := x;  procs := procs s;
     reqs := reqs s;  capacity := capacity s;  users := users s;  put_queue := put_queue s;  random := random s;
     wait_times := wait_times s;  queue_lengths := queue_lengths s;  queue_time := queue_time s;  processed_cars := processed_cars s;  busy_time := busy_time s |}.
Definition set_procs (x : list Process) (s : state) : state :=
  {| now := now s;  queue := queue s;  eid := eid s;  events := events s;  procs := x;
     reqs := reqs s;  capacity := capacity s;  users := users s;  put_queue := put_queue s;  random := random s;
     wait_times := wait_times s;  queue_lengths := queue_lengths s;  queue_time := queue_time s;  processed_cars := processed_cars s;  busy_time := busy_time s |}.
Definition set_reqs (x : list Request) (s : state) : state :=
  {| now := now s;  queue := queue s;  eid := eid s;  events := events s;  procs := procs s;
     reqs := x;  capacity := capacity s;  users := users s;  put_queue := put_queue s;  random := random s;
     wait_times := wait_times s;  queue_lengths := queue_lengths s;  queue_time := queue_time s;  processed_cars := processed_cars s;  busy_time := busy_time s |}.
Definition set_capacity (x : nat) (s : state) : state :=
  {| now := now s;  queue := queue s;  eid := eid s;  events := events s;  procs := procs s;
     reqs := reqs s;  capacity := x;  users := users s;  put_queue := put_queue s;  random := random s;
     wait_times := wait_times s;  queue_lengths := queue_lengths s;  queue_time := queue_time s;  processed_cars := processed_cars s;  busy_time := busy_time s |}.
Definition set_users (x : list nat) (s : state) : state :=
  {| now := now s;  queue := queue s;  eid := eid s;  events := events s;  procs := procs s;
     reqs := reqs s;  capacity := capacity s;  users := x;  put_queue := put_queue s;  random := random s;
     wait_times := wait_times s;  queue_lengths := queue_lengths s;  queue_time := queue_time s;  processed_cars := processed_cars s;  busy_time := busy_time s |}.
Definition set_put_queue (x : list nat) (s : state) : state :=
  {| now := now s;  queue := queue s;  eid := eid s;  events := events s;  procs := procs s;
     reqs := reqs s;  capacity := capacity s;  users := users s;  put_queue := x;  random := random s;
     wait_times := wait_times s;  queue_lengths := queue_lengths s;  queue_time := queue_time s;  processed_cars := processed_cars s;  busy_time := busy_time s |}.
Definition set_random (x : rng) (s : state) : state :=
  {| now := now s;  queue := queue s;  eid := eid s;  events := events s;  procs := procs s;
     reqs := reqs s;  capacity := capacity s;  users := users s;  put_queue := put_queue s;  random := x;
     wait_times := wait_times s;  queue_lengths := queue_lengths s;  queue_time := queue_time s;  processed_cars := processed_cars s;  busy_time := busy_time s |}.
Definition set_wait_times (x : list Q) (s : state) : state :=
  {| now := now s;  queue := queue s;  eid := eid s;  events := events s;  procs := procs s;
     reqs := reqs s;  capacity := capacity s;  users := users s;  put_queue := put_queue s;  random := random s;
     wait_times := x;  queue_lengths := queue_lengths s;  queue_time := queue_time s;  processed_cars := processed_cars s;  busy_time := busy_time s |}.
Definition set_queue_lengths (x : list nat) (s : state) : state :=
  {| now := now s;  queue := queue s;  eid := eid s;  events := events s;  procs := procs s;
     reqs := reqs s;  capacity := capacity s;  users := users s;  put_queue := put_queue s;  random := random s;
     wait_times := wait_times s;  queue_lengths := x;  queue_time := queue_time s;  processed_cars := processed_cars s;  busy_time := busy_time s |}.
Definition set_queue_time (x : list Q) (s : state) : state :=
  {| now := now s;  queue := queue s;  eid := eid s;  events := events s;  procs := procs s;
     reqs := reqs s;  capacity := capacity s;  users := users s;  put_queue := put_queue s;  random := random s;
     wait_times := wait_times s;  queue_lengths := queue_lengths s;  queue_time := x;  processed_cars := processed_cars s;  busy_time := busy_time s |}.
Definition set_processed_cars (x : nat) (s : state) : state :=
  {| now := now s;  queue := queue s;  eid := eid s;  events := events s;  procs := procs s;
     reqs := reqs s;  capacity := capacity s;  users := users s;  put_queue := put_queue s;  random := random s;
     wait_times := wait_times s;  queue_lengths := queue_lengths s;  queue_time := queue_time s;  processed_cars := x;  busy_time := busy_time s |}.
Definition set_busy_time (x : Q) (s : state) : state :=
  {| now := now s;  queue := queue s;  eid := eid s;  events := events s;  procs := procs s;
     reqs := reqs s;  capacity := capacity s;  users := users s;  put_queue := put_queue s;  random := random s;
     wait_times := wait_times s;  queue_lengths := queue_lengths s;  queue_time := queue_time s;  processed_cars := processed_cars s;  busy_time := x |}.

Inductive outcome : Type :=
  | Return (s : state)
  | Raise (e : exception) (s : state).

(** ** Environment *)

(** [Environment.schedule(event, priority, delay)] *)
Definition schedule (ev : event) (prio : nat) (delay : Q) (s : state) : state :=
  set_eid (S (eid s))
    (set_queue (heappush (Scheduled (fl (now s + delay)) prio (eid s) ev) (queue s)) s).

(** [Event.succeed()] *)
Definition succeed (ev : event) (s : state) : state :=
  schedule ev NORMAL 0%Q s.

(** [env.timeout(delay)]: a negative delay raises [ValueError]. *)
Definition timeout (delay : Q) (s : state) : option (event * state) :=
  if Qlt_le_dec delay 0%Q then None
  else
    let i := length (events s) in
    Some (Ev i, schedule (Ev i) NORMAL delay (set_events (events s ++ [Some []]) s)).

(** [env.process(generator)]: the new process waits for its [Initialize]
    event, which is scheduled as urgent. *)
Definition process (g : generator) (s : state) : nat * state :=
  let p := length (procs s) in
  let i := length (events s) in
  let s := set_procs (procs s ++ [{| proc_callbacks := Some []; gen := g; target := Some (Ev i) |}]) s in
  let s := set_events (events s ++ [Some [resume_cb p]]) s in
  (p, schedule (Ev i) URGENT 0%Q s).

Definition get_callbacks (ev : event) (s : state) : option (list callback) :=
  match ev with
  | Ev i => mjoin (events s !! i)
  | Req r => reqs s !! r ≫= req_callbacks
  | Proc p => procs s !! p ≫= proc_callbacks
  end.

Definition with_proc_callbacks (cbs : option (list callback)) (pr : Process) : Process :=
  {| proc_callbacks := cbs; gen := gen pr; target := target pr |}.

Definition with_req_callbacks (cbs : option (list callback)) (rq : Request) : Request :=
  {| req_callbacks := cbs; proc := proc rq; usage_since := usage_since rq |}.

Definition set_callbacks (ev : event) (cbs : option (list callback)) (s : state) : state :=
  match ev with
  | Ev i => set_events (<[i := cbs]> (events s)) s
  | Req r => set_reqs (alter (with_req_callbacks cbs) r (reqs s)) s
  | Proc p => set_procs (alter (with_proc_callbacks cbs) p (procs s)) s
  end.

(** ** Resource *)

(** [Event.triggered] of a request: it has been granted. *)
Definition triggered (r : nat) (s : state) : bool :=
  match reqs s !! r with
  | Some rq => bool_decide (is_Some (usage_since rq))
  | None => false
  end.

Definition with_usage_since (t : Q) (rq : Request) : Request :=
  {| req_callbacks := req_callbacks rq; proc := proc rq; usage_since := Some t |}.

(** [Resource._do_put(event)] *)
Definition do_put (r : nat) (s : state) : state :=
  if (length (users s) <? capacity s)%nat then
    succeed (Req r)
      (set_reqs (alter (with_usage_since (now s)) r (reqs s))
         (set_users (users s ++ [r]) s))
  else s.

(** [BaseResource._trigger_put]: [_do_put] returns [None], so the loop
    over [put_queue] stops after its first request. *)
Definition trigger_put (s : state) : state :=
  match put_queue s with
  | [] => s
  | r :: rest =>
      let s := do_put r s in
      if triggered r s then set_put_queue rest s else s
  end.

(** [carwash.machine.request()] called by process [p]: [Put.__init__]. *)
Definition request (p : nat) (s : state) : nat * state :=
  let r := length (reqs s) in
  let s := set_reqs (reqs s ++ [{| req_callbacks := Some []; proc := p; usage_since := None |}]) s in
  let s := set_put_queue (put_queue s ++ [r]) s in
  let s := set_reqs (alter (with_req_callbacks (Some [trigger_get_cb])) r (reqs s)) s in
  (r, trigger_put s).

(** [Put.cancel()] *)
Definition cancel (r : nat) (s : state) : state :=
  if triggered r s then s else set_put_queue (list_remove_first r (put_queue s)) s.

(** [resource.release(request)]: [Get.__init__] runs [_trigger_get], whose
    [_do_get] removes the request from [users] and triggers the [Release]
    event at once, so no [Release] is ever left in [get_queue]. *)
Definition release (r : nat) (s : state) : state :=
  let i := length (events s) in
  let s := set_events (events s ++ [Some [trigger_put_cb]]) s in
  let s := set_users (list_remove_first r (users s)) s in
  succeed (Ev i) s.

(** [Request.__exit__] at the end of a [with] block. *)
Definition exit_request (r : nat) (s : state) : state :=
  release r (cancel r s).

(** ** Process *)

Definition with_gen (g : generator) (tg : option event) (pr : Process) : Process :=
  {| proc_callbacks := proc_callbacks pr; gen := g; target := tg |}.

(** The generator of [p] yields [ev] and is left at [g]: the tail of
    [Process._resume]. *)
Definition yield_ (p : nat) (g : generator) (ev : event) (s : state) : outcome :=
  match get_callbacks ev s with
  | Some cbs =>
      let s := set_callbacks ev (Some (cbs ++ [resume_cb p])) s in
      Return (set_procs (alter (with_gen g (Some ev)) p (procs s)) s)
  | None => Raise Unmodelled s
  end.

(** [yield env.timeout(delay)] *)
Definition yield_timeout (p : nat) (g : generator) (delay : Q) (s : state) : outcome :=
  match timeout delay s with
  | Some (ev, s) => yield_ p g ev s
  | None => Raise (NegativeDelay delay) s
  end.

(** The generator of [p] returns: [StopIteration] in [Process._resume]. *)
Definition stop_iteration (p : nat) (g : generator) (s : state) : outcome :=
  Return (succeed (Proc p) (set_procs (alter (with_gen g None) p (procs s)) s)).

(** ** The generator functions of src/main.py

    [resume p s] runs the generator of process [p] from the point where it
    is suspended to its next [yield] or to its end. *)
Definition resume (p : nat) (s : state) : outcome :=
  match procs s !! p with
  | None => Raise Unmodelled s
  | Some pr =>
      match gen pr with
      (* setup: lines 56-59 *)
      | setup_start =>
          let '(interarrival_time, g) := expovariate LAMBDA (random s) in
          yield_timeout p (setup_L59 0) interarrival_time (set_random g s)
      (* setup: lines 60-61, then 58-59 *)
      | setup_L59 car_count =>
          let car_count := S car_count in
          let '(_, s) := process (car_start car_count) s in
          let '(interarrival_time, g) := expovariate LAMBDA (random s) in
          yield_timeout p (setup_L59 car_count) interarrival_time (set_random g s)
      (* track_queue_length: lines 66-68 *)
      | track_start | track_L68 =>
          let s := set_queue_lengths (queue_lengths s ++ [length (put_queue s)]) s in
          let s := set_queue_time (queue_time s ++ [now s]) s in
          yield_timeout p track_L68 1%Q s
      (* staggered_repair_person: lines 74-75 *)
      | repair_start =>
          let '(repair_interval, g) :=
            randint REPAIR_INTERVAL_MIN REPAIR_INTERVAL_MAX (random s) in
          yield_timeout p repair_L75 (inject_Z repair_interval) (set_random g s)
      (* lines 77-82 *)
      | repair_L75 =>
          let '(req1, s) := request p s in
          yield_ p (repair_L82 req1) (Req req1) s
      (* line 83 *)
      | repair_L82 req1 =>
          yield_timeout p (repair_L83 req1) (inject_Z (REPAIR_DURATION / 2)) s
      (* end of the first with block, lines 85-90 *)
      | repair_L83 req1 =>
          let s := exit_request req1 s in
          let '(req2, s) := request p s in
          yield_ p (repair_L90 req2) (Req req2) s
      (* line 91 *)
      | repair_L90 req2 =>
          yield_timeout p (repair_L91 req2) (inject_Z (REPAIR_DURATION / 2)) s
      (* end of the second with block, line 93, then 74-75 *)
      | repair_L91 req2 =>
          let s := exit_request req2 s in
          let '(repair_interval, g) :=
            randint REPAIR_INTERVAL_MIN REPAIR_INTERVAL_MAX (random s) in
          yield_timeout p repair_L75 (inject_Z repair_interval) (set_random g s)
      (* car: lines 38-42 *)
      | car_start name =>
          let arrival_time := now s in
          let '(request, s) := request p s in
          yield_ p (car_L42 name arrival_time request) (Req request) s
      (* car: lines 44-48 *)
      | car_L42 name arrival_time request =>
          let wait_time := fl (now s - arrival_time) in
          let s := set_wait_times (wait_times s ++ [wait_time]) s in
          let start_busy_time := now s in
          let '(w, s) := process (wash_start name) s in
          yield_ p (car_L48 name arrival_time request wait_time start_busy_time) (Proc w) s
      (* car: lines 49-52 and the end of the with block *)
      | car_L48 name arrival_time request wait_time start_busy_time =>
          let end_busy_time := now s in
          let s := set_busy_time (fl (busy_time s + fl (end_busy_time - start_busy_time))) s in
          let s := set_processed_cars (processed_cars s + 1) s in
          let s := exit_request request s in
          stop_iteration p (car_end name) s
      (* wash: lines 30-31 *)
      | wash_start car =>
          let '(service_time, g) := expovariate MU (random s) in
          yield_timeout p (wash_L31 car service_time) service_time (set_random g s)
      (* wash: line 32 *)
      | wash_L31 car service_time =>
          stop_iteration p (wash_end car service_time) s
      | car_end _ | wash_end _ _ => Raise Unmodelled s
      end
  end.

Definition run_callback (cb : callback) (s : state) : outcome :=
  match cb with
  | resume_cb p => resume p s
  | trigger_put_cb => Return (trigger_put s)
  | trigger_get_cb => Return s
  | stop_simulation_cb => Raise StopSimulation s
  end.

Fixpoint run_callbacks (cbs : list callback) (s : state) : outcome :=
  match cbs with
  | [] => Return s
  | cb :: cbs' =>
      match run_callback cb s with
      | Return s' => run_callbacks cbs' s'
      | Raise e s' => Raise e s'
      end
  end.

(** [Environment.step()] *)
Definition step (s : state) : outcome :=
  match queue s with
  | [] => Raise EmptySchedule s
  | x :: q =>
      let s := set_queue q (set_now (at_time x) s) in
      match get_callbacks (item x) s with
      | Some cbs => run_callbacks cbs (set_callbacks (item x) None s)
      | None => Raise Unmodelled s
      end
  end.

(** ** The script (lines 140-147) *)

(** [simpy.Environment()] and [CarwashMM2(env, NUM_MACHINES)], with the
    tracking variables of lines 16-20. *)
Definition Environment (g : rng) : state :=
  {| now := 0%Q; queue := []; eid := 0; events := []; procs := []; reqs := [];
     capacity := NUM_MACHINES; users := []; put_queue := [];
     random := g;
     wait_times := []; queue_lengths := []; queue_time := [];
     processed_cars := 0; busy_time := 0%Q |}.

(** The head of [env.run(until=SIM_TIME)]: an urgent event at [SIM_TIME]
    with [StopSimulation.callback]. *)
Definition run_until (at_ : Q) (s : state) : state :=
  let i := length (events s) in
  schedule (Ev i) URGENT (fl (at_ - now s))
    (set_events (events s ++ [Some [stop_simulation_cb]]) s).

(** The state in which the loop of [env.run] takes its first step. *)
Definition main_from (g : rng) : state :=
  let s := Environment g in
  let s := snd (process setup_start s) in
  let s := snd (process track_start s) in
  let s := snd (process repair_start s) in
  run_until SIM_TIME s.

Definition main : state := main_from (seed RANDOM_SEED).

(** [random.seed(a)], line 141: the generator of the random module, in
    whatever state [g0] it was, is put in the state of the seed. *)
Definition random_seed (a : Z) (g0 : rng) : rng := seed a.

(** The script from its first line, [g0] being the state in which the
    random module is when the program starts, which the operating system
    has seeded. *)
Definition script (g0 : rng) : state := main_from (random_seed RANDOM_SEED g0).

(** [n] iterations of the loop of [env.run], stopping at the first
    exception. *)
Fixpoint run (n : nat) (s : state) : outcome :=
  match n with
  | O => Return s
  | S n' =>
      match step s with
      | Return s' => run n' s'
      | Raise e s' => Raise e s'
      end
  end.

(** The state in which [n] iterations leave the run. *)
Definition final_state (o : outcome) : state :=
  match o with
  | Return s | Raise _ s => s
  end.

(** The states that the loop of [env.run] goes through. *)
Inductive reachable (g : rng) : state -> Prop :=
  | reachable_main : reachable g (main_from g)
  | reachable_step s s' : reachable g s -> step s = Return s' -> reachable g s'.

(** ** calculate_metrics (lines 95-104) *)

Definition sum_Q (l : list Q) : Q := foldr Qplus 0%Q l.
Definition sum_nat (l : list nat) : nat := foldr Nat.add 0%nat l.

(** Python's [sum] of a list of floats: the items are added from the
    left, to 0, and every sum rounds. (CPython 3.12 and later compensate
    the rounding errors of such a sum; no statement of this development is
    about the rounding of a sum of waiting times.) *)
Definition sum (l : list Q) : Q := foldl (λ acc x, fl (acc + x)) 0%Q l.

(** Python's [/]: [ZeroDivisionError] on a zero divisor. *)
Definition truediv (x y : Q) : option Q :=
  if Qeq_bool y 0 then None else Some (fl (x / y)).

Definition of_nat (n : nat) : Q := inject_Z (Z.of_nat n).

Record metrics : Type := {
  avg_wait_time : Q;
  avg_queue_length : Q;
  utilization : Q;
  throughput : Q
}.

(** The four figures that [calculate_metrics] prints, or [None] when one
    of its divisions raises. *)
Definition calculate_metrics (s : state) : option metrics :=
  avg_wait_time ←
    (if bool_decide (wait_times s = []) then Some 0%Q
     else truediv (sum (wait_times s)) (of_nat (length (wait_times s))));
  avg_queue_length ←
    (if bool_decide (queue_lengths s = []) then Some 0%Q
     else truediv (of_nat (sum_nat (queue_lengths s))) (of_nat (length (queue_lengths s))));
  utilization ← truediv (busy_time s) (SIM_TIME * of_nat NUM_MACHINES);
  throughput ← truediv (of_nat (processed_cars s)) SIM_TIME;
  Some {| avg_wait_time := avg_wait_time; avg_queue_length := avg_queue_length;
          utilization := utilization; throughput := throughput |}.


(** ** Runs *)

(** A run of the loop of [env.run] from [s] to the exception that ends it. *)
Inductive runs_to : state -> exception -> state -> Prop :=
  | runs_raise s e s' : step s = Raise e s' -> runs_to s e s'
  | runs_step s s1 e s' : step s = Return s1 -> runs_to s1 e s' -> runs_to s e s'.

(** ** Observations on a state *)

Definition gen_of (s : state) (p : nat) : option generator := gen <$> procs s !! p.
Definition target_of (s : state) (p : nat) : option event := procs s !! p ≫= target.
Definition usage_of (s : state) (r : nat) : option Q := reqs s !! r ≫= usage_since.
Definition owner_of (s : state) (r : nat) : option nat := proc <$> reqs s !! r.

(** The request that a generator holds inside a [with] block. *)
Definition holds (g : generator) : option nat :=
  match g with
  | repair_L82 r | repair_L83 r | repair_L90 r | repair_L91 r => Some r
  | car_L42 _ _ r | car_L48 _ _ r _ _ => Some r
  | _ => None
  end.

(** The generator is suspended at [yield request]. *)
Definition awaits (g : generator) : option nat :=
  match g with
  | repair_L82 r | repair_L90 r | car_L42 _ _ r => Some r
  | _ => None
  end.

Definition ended (g : generator) : bool :=
  match g with
  | car_end _ | wash_end _ _ => true
  | _ => false
  end.

(** The function that a generator runs. *)
Inductive function : Type := setup_fn | track_fn | repair_fn | car_fn | wash_fn.

Definition function_of (g : generator) : function :=
  match g with
  | setup_start | setup_L59 _ => setup_fn
  | track_start | track_L68 => track_fn
  | repair_start | repair_L75 | repair_L82 _ | repair_L83 _
  | repair_L90 _ | repair_L91 _ => repair_fn
  | car_start _ | car_L42 _ _ _ | car_L48 _ _ _ _ _ | car_end _ => car_fn
  | wash_start _ | wash_L31 _ _ | wash_end _ _ => wash_fn
  end.

(** The local variable [car_count] of [setup], the first process of the
    script. *)
Definition car_count_of (g : generator) : nat :=
  match g with
  | setup_L59 n => n
  | _ => 0
  end.

Definition car_count (s : state) : nat := from_option car_count_of 0 (gen_of s 0).

(** A user of the pool that is the repair person and not a car: a machine
    held offline. *)
Definition offline (s : state) (r : nat) : bool :=
  match owner_of s r ≫= gen_of s with
  | Some g => match function_of g with repair_fn => true | _ => false end
  | None => false
  end.

Definition offline_count (s : state) : nat := length (filter (λ r, offline s r = true) (users s)).

(** The time for which the current users of the pool have held their
    machine. *)
Definition held_for (s : state) (r : nat) : Q := (now s - default 0 (usage_of s r))%Q.
Definition held (s : state) : Q := sum_Q (held_for s <$> users s).

(** ** Invariants of a run *)

(** The clock never runs backwards: every entry of the queue is due now or
    later, and the queue is in the order of its times. *)
Definition time_ok (s : state) : Prop :=
  (0 <= now s)%Q /\
  Forall (λ x, (now s <= at_time x)%Q) (queue s) /\
  StronglySorted (λ a b, (at_time a <= at_time b)%Q) (queue s).

Definition res_ok (s : state) : Prop :=
  length (users s) <= capacity s /\ capacity s = NUM_MACHINES.

(** Users are granted requests, the queue holds pending ones. *)
Definition reqs_ok (s : state) : Prop :=
  NoDup (users s) /\ NoDup (put_queue s) /\
  (forall r, r ∈ users s -> exists u, usage_of s r = Some u /\ (u <= now s)%Q) /\
  (forall r, r ∈ put_queue s -> r < length (reqs s) /\ usage_of s r = None).

(** A request is scheduled for the time of its grant. *)
Definition qreq_ok (s : state) : Prop :=
  forall x r, x ∈ queue s -> item x = Req r ->
    exists u, usage_of s r = Some u /\ (u == at_time x)%Q.

(** Only a finished process is scheduled. *)
Definition qproc_ok (s : state) : Prop :=
  forall x p, x ∈ queue s -> item x = Proc p ->
    exists g, gen_of s p = Some g /\ ended g = true.

(** A plain event in the queue is an event of the table. *)
Definition range_ok (s : state) : Prop :=
  forall x i, x ∈ queue s -> item x = Ev i -> i < length (events s).

(** The event that stops the run is in the queue, at [SIM_TIME] or before. *)
Definition until_ok (s : state) : Prop :=
  exists x i, x ∈ queue s /\ item x = Ev i /\ (at_time x <= SIM_TIME)%Q /\
    events s !! i = Some (Some [stop_simulation_cb]).

(** The callbacks of an event that has not been processed: at most one
    process waits for it, and this event is its target. *)
Definition cbs_ok (s : state) (ev : event) (cbs : list callback) : Prop :=
  cbs = [] \/ cbs = [trigger_put_cb] \/ cbs = [stop_simulation_cb] \/
  exists q, (cbs = [resume_cb q] \/ cbs = [trigger_get_cb; resume_cb q]) /\
    target_of s q = Some ev.

Definition cb_ok (s : state) : Prop :=
  forall ev cbs, get_callbacks ev s = Some cbs -> cbs_ok s ev cbs.

(** No event will resume [p]. *)
Definition idle (s : state) (p : nat) : Prop :=
  forall ev cbs, get_callbacks ev s = Some cbs -> resume_cb p ∉ cbs.

(** A request in the pool or in its queue is held by the process that issued it. *)
Definition own_ok (s : state) : Prop :=
  forall r, r ∈ users s ++ put_queue s ->
    exists p g, owner_of s r = Some p /\ gen_of s p = Some g /\ holds g = Some r.

(** No request of [p] is in the pool or in its queue. *)
Definition unowned (s : state) (p : nat) : Prop :=
  forall r, r ∈ users s ++ put_queue s -> owner_of s r <> Some p.

(** What a generator inside a [with] block knows of its request. *)
Definition hold_ok_at (s : state) (p : nat) (g : generator) (tg : option event) : Prop :=
  (forall r, holds g = Some r -> owner_of s r = Some p) /\
  match g with
  | car_L42 _ _ r | repair_L82 r | repair_L90 r =>
      tg = Some (Req r) /\ (is_Some (usage_of s r) -> r ∈ users s)
  | repair_L83 r | repair_L91 r => is_Some (usage_of s r)
  | car_L48 _ _ r _ start_busy_time =>
      r ∈ users s /\ exists u, usage_of s r = Some u /\ (u == start_busy_time)%Q
  | _ => True
  end.

Definition hold_ok_except (s : state) (p : nat) : Prop :=
  forall q pr, q <> p -> procs s !! q = Some pr -> hold_ok_at s q (gen pr) (target pr).

Definition hold_ok (s : state) : Prop :=
  forall p pr, procs s !! p = Some pr -> hold_ok_at s p (gen pr) (target pr).

(** The machines are never busy for longer than the time that has passed. *)
Definition sum_ok (s : state) : Prop :=
  (0 <= busy_time s)%Q /\ (busy_time s + held s <= of_nat (capacity s) * now s)%Q.

(** When the wash of a car that started at [start] will be over: [w] is
    the process of the wash, [g] its generator and [tg] its target. *)
Definition wash_timing (s : state) (start : Q) (w : nat) (g : generator)
    (tg : option event) : Prop :=
  match g with
  | wash_start _ =>
      exists i, tg = Some (Ev i) /\ i < length (events s) /\
        forall x, x ∈ queue s -> item x = Ev i -> (at_time x == start)%Q
  | wash_L31 _ service_time =>
      exists i, tg = Some (Ev i) /\ i < length (events s) /\
        forall x, x ∈ queue s -> item x = Ev i -> (at_time x == start + service_time)%Q
  | wash_end _ service_time =>
      forall x, x ∈ queue s -> item x = Proc w -> (at_time x == start + service_time)%Q
  | _ => False
  end.

Definition wash_ok (s : state) : Prop :=
  forall c name arrival_time request wait_time start,
    gen_of s c = Some (car_L48 name arrival_time request wait_time start) ->
    exists w g, target_of s c = Some (Proc w) /\ gen_of s w = Some g /\
      wash_timing s start w g (target_of s w).

(** What the time of the entry that has just been popped tells of the
    washes in progress, [ev] being its event. *)
Definition woken_ok (s : state) (ev : event) : Prop :=
  forall c name arrival_time request wait_time start w g,
    gen_of s c = Some (car_L48 name arrival_time request wait_time start) ->
    target_of s c = Some (Proc w) -> gen_of s w = Some g ->
    match g with
    | wash_start _ => target_of s w = Some ev -> (now s == start)%Q
    | wash_L31 _ service_time =>
        target_of s w = Some ev -> (now s == start + service_time)%Q
    | wash_end _ service_time => ev = Proc w -> (now s == start + service_time)%Q
    | _ => True
    end.

(** Process [p] is resumed by the callbacks of [ev], which has just been
    popped. *)
Record ready (s : state) (p : nat) (ev : event) : Prop := {
  ready_idle : idle s p;
  ready_target : target_of s p = Some ev;
  ready_req : forall r, ev = Req r -> exists u, usage_of s r = Some u /\ (u == now s)%Q;
  ready_proc : forall q, ev = Proc q -> exists g, gen_of s q = Some g /\ ended g = true;
  ready_woken : woken_ok s ev
}.

(** The first three processes are those of lines 144-146; every later one is
    a car or its wash. *)
Definition function_at (p : nat) (f : function) : Prop :=
  match p with
  | 0 => f = setup_fn
  | 1 => f = track_fn
  | 2 => f = repair_fn
  | _ => f = car_fn \/ f = wash_fn
  end.

Definition kind_ok (s : state) : Prop :=
  3 <= length (procs s) /\
  forall p g, gen_of s p = Some g -> function_at p (function_of g).

(** The cars that have arrived and have not left. *)
Definition in_service (g : generator) : nat :=
  match g with
  | car_start _ | car_L42 _ _ _ | car_L48 _ _ _ _ _ => 1
  | _ => 0
  end.

Definition cars_in_service (l : list Process) : nat :=
  sum_list_with (λ pr, in_service (gen pr)) l.

Definition count_ok (s : state) : Prop :=
  processed_cars s + cars_in_service (procs s) = car_count s.

(** Every event that has not been processed in [s] has not been processed
    in [s'] either. *)
Definition kept (s s' : state) : Prop :=
  forall ev, is_Some (get_callbacks ev s) -> is_Some (get_callbacks ev s').

(** Nothing that is scheduled, that waits for a machine or that runs has
    been processed: the entries of the queue are distinct events with their
    callbacks, so are the pending requests and the processes whose
    generator has not ended; and a process whose generator has ended waits
    for no event. *)
Definition live_ok (s : state) : Prop :=
  NoDup (item <$> queue s) /\
  (forall x, x ∈ queue s -> is_Some (get_callbacks (item x) s)) /\
  (forall r, r ∈ put_queue s -> is_Some (get_callbacks (Req r) s)) /\
  (forall p g, gen_of s p = Some g -> ended g = false ->
     is_Some (get_callbacks (Proc p) s)) /\
  (forall p g, gen_of s p = Some g -> ended g = true -> target_of s p = None).

(** What one step does to the machine pool: at most one user leaves, at
    most one request joins the tail of the queue, and only the head of the
    queue is granted, when a slot is free. *)
Definition fifo_step (s s' : state) : Prop :=
  exists U new,
    (U = users s \/ exists r, U = list_remove_first r (users s)) /\
    (new = [] \/ new = [length (reqs s)]) /\
    ((users s' = U /\ put_queue s' = put_queue s ++ new) \/
     (exists h rest, put_queue s ++ new = h :: rest /\ length U < capacity s /\
        users s' = U ++ [h] /\ put_queue s' = rest)).

Record wf (s : state) : Prop := {
  wf_time : time_ok s;
  wf_res : res_ok s;
  wf_reqs : reqs_ok s;
  wf_qreq : qreq_ok s;
  wf_qproc : qproc_ok s;
  wf_range : range_ok s;
  wf_until : until_ok s;
  wf_cb : cb_ok s;
  wf_own : own_ok s;
  wf_hold : hold_ok s;
  wf_sum : sum_ok s;
  wf_wash : wash_ok s;
  wf_kind : kind_ok s;
  wf_count : count_ok s
}.

(** ** What a segment of a generator does to the state

    The state after [yield env.timeout(delay)], after [env.process(g)],
    after a request has been queued and yielded, after [yield env.process(g)]
    and after the end of a generator. *)

Definition after_timeout (p : nat) (g : generator) (delay : Q) (s : state) : state :=
  set_procs (alter (with_gen g (Some (Ev (length (events s))))) p (procs s))
    (schedule (Ev (length (events s))) NORMAL delay
       (set_events (events s ++ [Some [resume_cb p]]) s)).

Definition spawn (g : generator) (s : state) : state :=
  schedule (Ev (length (events s))) URGENT 0%Q
    (set_events (events s ++ [Some [resume_cb (length (procs s))]])
       (set_procs (procs s ++ [{| proc_callbacks := Some []; gen := g;
                                  target := Some (Ev (length (events s))) |}]) s)).

Definition enqueue (p : nat) (g : generator) (s : state) : state :=
  set_procs (alter (with_gen g (Some (Req (length (reqs s))))) p (procs s))
    (set_put_queue (put_queue s ++ [length (reqs s)])
       (set_reqs (reqs s ++ [{| req_callbacks := Some [trigger_get_cb; resume_cb p];
                               proc := p; usage_since := None |}]) s)).

Definition spawn_wait (p : nat) (g gw : generator) (s : state) : state :=
  schedule (Ev (length (events s))) URGENT 0%Q
    (set_events (events s ++ [Some [resume_cb (length (procs s))]])
       (set_procs (alter (with_gen g (Some (Proc (length (procs s))))) p (procs s)
                   ++ [{| proc_callbacks := Some [resume_cb p]; gen := gw;
                          target := Some (Ev (length (events s))) |}]) s)).

Definition finish (p : nat) (g : generator) (s : state) : state :=
  succeed (Proc p) (set_procs (alter (with_gen g None) p (procs s)) s).

(** The state after [_do_put] has granted request [h], the head of the
    queue, whose tail is [rest]. *)
Definition grant (h : nat) (rest : list nat) (s : state) : state :=
  set_put_queue rest
    (succeed (Req h)
       (set_reqs (alter (with_usage_since (now s)) h (reqs s))
          (set_users (users s ++ [h]) s))).

(** The state in which the callbacks of the entry [x] run, [q] being the
    rest of the queue. *)
Definition popped (x : scheduled) (q : list scheduled) (s : state) : state :=
  set_callbacks (item x) None (set_queue q (set_now (at_time x) s)).

(** The segment of its generator that [resume p] runs, state to state. *)
Definition segment (p : nat) (g : generator) (s s' : state) : Prop :=
  match g with
  | setup_start =>
      exists x g', expovariate LAMBDA (random s) = (x, g') /\
        s' = after_timeout p (setup_L59 0) x (set_random g' s)
  | setup_L59 n =>
      exists x g', expovariate LAMBDA (random s) = (x, g') /\
        s' = after_timeout p (setup_L59 (S n)) x (set_random g' (spawn (car_start (S n)) s))
  | track_start | track_L68 =>
      s' = after_timeout p track_L68 1%Q
             (set_queue_time (queue_time s ++ [now s])
                (set_queue_lengths (queue_lengths s ++ [length (put_queue s)]) s))
  | repair_start =>
      exists z g', randint REPAIR_INTERVAL_MIN REPAIR_INTERVAL_MAX (random s) = (z, g') /\
        s' = after_timeout p repair_L75 (inject_Z z) (set_random g' s)
  | repair_L75 =>
      s' = trigger_put (enqueue p (repair_L82 (length (reqs s))) s)
  | repair_L82 r =>
      s' = after_timeout p (repair_L83 r) (inject_Z (REPAIR_DURATION / 2)) s
  | repair_L83 r =>
      s' = trigger_put (enqueue p (repair_L90 (length (reqs s))) (exit_request r s))
  | repair_L90 r =>
      s' = after_timeout p (repair_L91 r) (inject_Z (REPAIR_DURATION / 2)) s
  | repair_L91 r =>
      exists z g', randint REPAIR_INTERVAL_MIN REPAIR_INTERVAL_MAX (random s) = (z, g') /\
        s' = after_timeout p repair_L75 (inject_Z z) (set_random g' (exit_request r s))
  | car_start n =>
      s' = trigger_put (enqueue p (car_L42 n (now s) (length (reqs s))) s)
  | car_L42 n a r =>
      s' = spawn_wait p (car_L48 n a r (fl (now s - a)) (now s)) (wash_start n)
             (set_wait_times (wait_times s ++ [fl (now s - a)]) s)
  | car_L48 n a r wt start =>
      s' = finish p (car_end n)
             (exit_request r
                (set_processed_cars (processed_cars s + 1)
                   (set_busy_time (fl (busy_time s + fl (now s - start))) s)))
  | wash_start n =>
      exists x g', expovariate MU (random s) = (x, g') /\
        s' = after_timeout p (wash_L31 n x) x (set_random g' s)
  | wash_L31 n st => s' = finish p (wash_end n st) s
  | car_end _ | wash_end _ _ => False
  end.

(** ** Further observations and invariants *)

(** The cars that are being washed: their generator is suspended at line
    48. *)
Definition in_wash (g : generator) : nat :=
  match g with
  | car_L48 _ _ _ _ _ => 1
  | _ => 0
  end.

Definition wash_req (g : generator) : option nat :=
  match g with
  | car_L48 _ _ r _ _ => Some r
  | _ => None
  end.

Definition washing (s : state) : nat := sum_list_with (λ pr, in_wash (gen pr)) (procs s).

(** The cars that are at [yield request], line 42. *)
Definition at_request (g : generator) : nat :=
  match g with
  | car_L42 _ _ _ => 1
  | _ => 0
  end.

(** The tables of [s'] are those of [s] with new event objects: every
    event that has not been processed keeps its callbacks, and no new
    callback stops the run. *)
Definition grows (s s' : state) : Prop :=
  forall ev cbs,
    (get_callbacks ev s = Some cbs -> get_callbacks ev s' = Some cbs) /\
    (get_callbacks ev s' = Some cbs -> stop_simulation_cb ∈ cbs ->
     get_callbacks ev s = Some cbs).

(** The queue of [s'] is that of [s] with new entries, whose plain events
    are new in the table. *)
Definition pushes (s s' : state) : Prop :=
  length (events s) <= length (events s') /\
  (forall x, x ∈ queue s -> x ∈ queue s') /\
  (forall x, x ∈ queue s' ->
     x ∈ queue s \/ forall i, item x = Ev i -> length (events s) <= i).

(** The event at which [env.run(until=SIM_TIME)] stops is the only one
    that stops the run; it is urgent and due at [SIM_TIME], and every
    entry of the queue ahead of it is due earlier. *)
Definition stop_ok (s : state) : Prop :=
  (now s < SIM_TIME)%Q /\
  exists l x k, queue s = l ++ x :: k /\
    Forall (λ y, (at_time y < SIM_TIME)%Q) l /\
    (at_time x == SIM_TIME)%Q /\ priority x = URGENT /\ sid x < eid s /\
    get_callbacks (item x) s = Some [stop_simulation_cb] /\
    forall ev cbs, get_callbacks ev s = Some cbs -> stop_simulation_cb ∈ cbs ->
      ev = item x.

(** The samples of [track_queue_length], the second process of the
    script: as many lengths as times, the times are the minutes
    0, 1, 2, ... before [SIM_TIME], and the timeout that the process waits
    for is due at the next minute. *)
Definition track_ok (s : state) : Prop :=
  length (queue_lengths s) = length (queue_time s) /\
  (forall k t, queue_time s !! k = Some t -> (t == of_nat k)%Q) /\
  Forall (λ t, (t < SIM_TIME)%Q) (queue_time s) /\
  exists i x, target_of s 1 = Some (Ev i) /\
    events s !! i = Some (Some [resume_cb 1]) /\
    x ∈ queue s /\ item x = Ev i /\
    forall y, y ∈ queue s -> item y = Ev i ->
      (at_time y == of_nat (length (queue_time s)))%Q.

(** A car that waits for its machine has arrived in the past, and no car
    has waited a negative time or [SIM_TIME] and more. *)
Definition arrive_ok (s : state) : Prop :=
  (forall c n a r, gen_of s c = Some (car_L42 n a r) -> (0 <= a)%Q /\ (a <= now s)%Q) /\
  Forall (λ w, (0 <= w)%Q /\ (w < SIM_TIME)%Q) (wait_times s).

(** Every car that has been granted a machine has recorded one waiting
    time. *)
Definition waits_ok (s : state) : Prop :=
  length (wait_times s) = processed_cars s + washing s.

(** The cars whose process has been started and has not run yet. *)
Definition at_start (g : generator) : nat :=
  match g with
  | car_start _ => 1
  | _ => 0
  end.

Definition new_cars (s : state) : nat := sum_list_with (λ pr, at_start (gen pr)) (procs s).

(** The request for which a generator waits in the queue of the pool: it
    is at [yield request] and the request has not been granted. *)
Definition waits_for (s : state) (g : generator) : option nat :=
  r ← awaits g; if triggered r s then None else Some r.

Definition car_waits (s : state) (g : generator) : nat :=
  match function_of g, waits_for s g with
  | car_fn, Some _ => 1
  | _, _ => 0
  end.

Definition repair_waits (s : state) (g : generator) : nat :=
  match function_of g, waits_for s g with
  | repair_fn, Some _ => 1
  | _, _ => 0
  end.

(** The cars that wait in the queue, and whether the repair person, the
    third process of the script, does. *)
Definition waiting_cars (s : state) : nat :=
  sum_list_with (λ pr, car_waits s (gen pr)) (procs s).

Definition repair_waiting (s : state) : nat := from_option (repair_waits s) 0 (gen_of s 2).

(** Every request that has not been granted is in the queue of the pool:
    none has been cancelled. *)
Definition queued_ok (s : state) : Prop :=
  forall r, r < length (reqs s) -> usage_of s r = None -> r ∈ put_queue s.

(** The entries of the queue that serve the queue of the pool now: the
    [Release] events, whose callback is [_trigger_put], that are due at
    the current time. *)
Definition releases_cb (o : option (list callback)) : bool :=
  match o with
  | Some [trigger_put_cb] => true
  | _ => false
  end.

Definition is_release (s : state) (x : scheduled) : bool :=
  releases_cb (get_callbacks (item x) s) && Qeq_bool (at_time x) (now s).

Definition releases (s : state) : nat :=
  length (filter (λ x, is_release s x = true) (queue s)).

(** No machine is free while a request waits, unless a release that
    serves the queue is due now. *)
Definition serve_ok (s : state) : Prop :=
  put_queue s = [] \/ capacity s <= length (users s) + releases s.

(** The states of the random module that draws of [random.expovariate]
    and of [random.randint] reach from [g]. *)
Inductive drawn (g : rng) : rng -> Prop :=
  | drawn_none : drawn g g
  | drawn_expovariate lambd g1 : drawn g g1 -> drawn g (snd (expovariate lambd g1))
  | drawn_randint a b g1 : drawn g g1 -> drawn g (snd (randint a b g1)).

(** The entries of the queue are in the order of their
    [(time, priority, eid)], strictly, so that no two of them tie and the
    first is the least; their [eid] are below the next one. *)
Definition tie_ok (s : state) : Prop :=
  Forall (λ x, sid x < eid s) (queue s) /\
  StronglySorted (λ a b, scheduled_lt a b = true) (queue s).

(** Requests are granted in the order in which they were made: the queue
    of the pool is in the order of the requests, a request was granted in
    the past, and a request that was made before a granted one was granted
    no later. *)
Definition order_ok (s : state) : Prop :=
  StronglySorted lt (put_queue s) /\
  (forall r t, usage_of s r = Some t -> (t <= now s)%Q) /\
  (forall r1 r2 t2, r1 < r2 -> usage_of s r2 = Some t2 ->
     exists t1, usage_of s r1 = Some t1 /\ (t1 <= t2)%Q).

(** ** plot_graphs (lines 115-136)

    What [plot_graphs] hands to [plt.plot]: the queue lengths over their
    times, and the waiting times over [range(len(wait_times))]. [plt.plot]
    raises [ValueError] when its two arguments do not have the same
    length; the titles, the labels and the layout of the figure are left
    out. *)
Record series : Type := { xs : list Q; ys : list Q }.

Definition plot (x y : list Q) : option series :=
  if decide (length x = length y) then Some {| xs := x; ys := y |} else None.

Definition range (n : nat) : list Q := of_nat <$> seq 0 n.

Definition plot_graphs (s : state) : option (series * series) :=
  queue_plot ← plot (queue_time s) (of_nat <$> queue_lengths s);
  wait_plot ← plot (range (length (wait_times s))) (wait_times s);
  Some (queue_plot, wait_plot).

End Simulation.

(** ** Exact arithmetic and binary64

    The arithmetic that rounds nothing, in which time is a rational number,
    and that of Python's floats, which rounds to the nearest binary64
    number, to the even one of two that are as near. *)
#[export] Instance unrounded : Rounding := {| fl := λ q, q |}.

(** The exponent of the binade of [q]: [2 ^ floor_log2 q <= q], for a
    positive [q]. *)
Definition floor_log2 (q : Q) : Z :=
  let e := (Z.log2 (Qnum q) - Z.log2 (Zpos (Qden q)))%Z in
  if Qle_bool (2 ^ e) q then e else (e - 1)%Z.

Definition round_half_even (q : Q) : Z :=
  let n := Qnum q in
  let d := Zpos (Qden q) in
  let f := (n / d)%Z in
  match (2 * (n mod d) ?= d)%Z with
  | Lt => f
  | Gt => (f + 1)%Z
  | Eq => if Z.even f then f else (f + 1)%Z
  end.

(** The binary64 number nearest to [q]: a multiple of [2 ^ k] with a
    significand of 53 bits, or of [2 ^ -1074] for a subnormal number. The
    exponent has no upper bound here: the overflow to [inf] of a result of
    [2 ^ 1024] and more is left out. *)
Definition round64 (q : Q) : Q :=
  if Qeq_bool q 0 then 0%Q
  else
    let k := Z.max (floor_log2 (Qabs q) - 52) (-1074) in
    Qred (inject_Z (round_half_even (q / 2 ^ k)) * 2 ^ k).

Definition binary64 : Rounding := {| fl := round64 |}.

(** The rational number that a float of the kernel is, and the float that
    a small natural number is, to compare [round64] with the operations of
    the kernel on binary64 numbers. *)
Definition float_to_Q (x : PrimFloat.float) : Q :=
  match FloatOps.Prim2SF x with
  | SpecFloat.S754_finite s m e =>
      Qred ((if s then -1 else 1) * inject_Z (Zpos m) * 2 ^ e)
  | _ => 0%Q
  end.

Definition float_of_Z (z : Z) : PrimFloat.float := PrimFloat.of_uint63 (Uint63.of_Z z).


(** ** A scripted random module

    A state of the random module that replays three lists of draws: the
    inter-arrival gaps (rate [LAMBDA]), the service times (any other rate)
    and the repair intervals; an exhausted list repeats its default. The
    state of a seed has three gaps and one repair interval that are read
    off the seed. *)
Module Script.

Record t : Type := {
  gaps : list Q;
  services : list Q;
  intervals : list Z
}.

Definition seed_ (a : Z) : t :=
  {| gaps := replicate 3 (inject_Z (Z.abs a mod 16)); services := [35; 100; 7]%Q;
     intervals := [a] |}.

Definition expovariate (lambd : Q) (g : t) : Q * t :=
  if Qeq_bool lambd LAMBDA then
    match gaps g with
    | [] => (1000%Q, g)
    | x :: l => (Qabs x, {| gaps := l; services := services g; intervals := intervals g |})
    end
  else
    match services g with
    | [] => (1%Q, g)
    | x :: l => (Qabs x, {| gaps := gaps g; services := l; intervals := intervals g |})
    end.

Definition randint (a b : Z) (g : t) : Z * t :=
  match intervals g with
  | [] => (a, g)
  | x :: l => ((a + x mod (b - a + 1))%Z,
               {| gaps := gaps g; services := services g; intervals := l |})
  end.

End Script.

#[export] Instance script_random : Random :=
  {| rng := Script.t; seed := Script.seed_; expovariate := Script.expovariate;
     randint := Script.randint |}.

(** The draws of a run in which three cars arrive ten minutes apart, are
    washed for 35, 100 and 7 minutes, and the first repair is due after the
    shortest interval. *)
Definition three_cars : Script.t :=
  {| Script.gaps := [10; 10; 10]%Q; Script.services := [35; 100; 7]%Q;
     Script.intervals := [0%Z] |}.

(** The state of the run on these draws after [n] iterations of the loop
    of [env.run]. *)
Definition scripted (n : nat) : state := final_state (run n (main_from three_cars)).

(** ** Draws for runs in binary64 *)

(** One car arrives after the float that Python writes [0.1], and is
    washed for the float [0.2]. *)
Definition one_car : Script.t :=
  {| Script.gaps := [round64 (1 # 10)]; Script.services := [round64 (2 # 10)];
     Script.intervals := [] |}.

(** Eight cars arrive at time 0; the washes of the first two take 256
    minutes, and those of the others end before [SIM_TIME]. Every draw is a
    binary64 number. *)
Definition ulp : Q := 2 ^ (-44).

Definition eight_cars : Script.t :=
  {| Script.gaps := [0; 0; 0; 0; 0; 0; 0; 0]%Q;
     Script.services :=
       [256; 256; 3 * ulp; 244 - ulp; 3 * ulp; 3 * ulp; 3 * ulp; 244 - 13 * ulp]%Q;
     Script.intervals := [] |}.

#[local] Arguments Nat.ltb : simpl never.
#[local] Arguments Nat.leb : simpl never.
#[local] Arguments Qplus : simpl never.
#[local] Arguments Qminus : simpl never.
#[local] Arguments Qmult : simpl never.
#[local] Arguments Qopp : simpl never.
#[local] Arguments Qdiv : simpl never.
#[local] Arguments Qcompare : simpl never.
#[local] Arguments inject_Z : simpl never.
#[local] Arguments Z.div : simpl never.
#[local] Arguments heappush : simpl never.

(** Two states with the same fields are equal. *)
Lemma state_eq {R : Random} (s1 s2 : state) :
  now s1 = now s2 -> queue s1 = queue s2 -> eid s1 = eid s2 ->
  events s1 = events s2 -> procs s1 = procs s2 -> reqs s1 = reqs s2 ->
  capacity s1 = capacity s2 -> users s1 = users s2 -> put_queue s1 = put_queue s2 ->
  random s1 = random s2 -> wait_times s1 = wait_times s2 ->
  queue_lengths s1 = queue_lengths s2 -> queue_time s1 = queue_time s2 ->
  processed_cars s1 = processed_cars s2 -> busy_time s1 = busy_time s2 ->
  s1 = s2.
Proof. destruct s1, s2; cbn; intros; by subst. Qed.

Ltac state_eq := apply state_eq; cbn; try reflexivity.


(** ** Lists used as tables *)

Lemma insert_snoc {A} (l : list A) (x y : A) :
  <[length l := y]> (l ++ [x]) = l ++ [y].
Proof.
  rewrite insert_app_r_alt by lia. by rewrite Nat.sub_diag.
Qed.

Lemma alter_snoc {A} (f : A -> A) (l : list A) (x : A) :
  alter f (length l) (l ++ [x]) = l ++ [f x].
Proof.
  rewrite alter_app_r_alt by lia. by rewrite Nat.sub_diag.
Qed.

Lemma lookup_snoc {A} (l : list A) (x : A) :
  (l ++ [x]) !! length l = Some x.
Proof. by rewrite list_lookup_middle. Qed.

Lemma lookup_alter_snoc {A} (f : A -> A) (p : nat) (l : list A) (x : A) :
  (alter f p l ++ [x]) !! length l = Some x.
Proof.
  rewrite lookup_app_r by (rewrite length_alter; lia).
  by rewrite length_alter, Nat.sub_diag.
Qed.

Lemma elem_of_heappush (x y : scheduled) (q : list scheduled) :
  y ∈ heappush x q <-> y = x \/ y ∈ q.
Proof.
  unfold heappush. induction q as [|z q IH]; [set_solver|].
  fold heappush in *. destruct (scheduled_lt x z); set_solver.
Qed.

Lemma scheduled_lt_time (x y : scheduled) :
  scheduled_lt x y = true -> (at_time x <= at_time y)%Q.
Proof.
  unfold scheduled_lt. destruct (at_time x ?= at_time y)%Q eqn:Hc; [| |done].
  - apply Qeq_alt in Hc. lra.
  - apply Qlt_alt in Hc. lra.
Qed.

Lemma scheduled_lt_time_false (x y : scheduled) :
  scheduled_lt x y = false -> (at_time y <= at_time x)%Q.
Proof.
  unfold scheduled_lt. destruct (at_time x ?= at_time y)%Q eqn:Hc; [|done|].
  - apply Qeq_alt in Hc. lra.
  - apply Qgt_alt in Hc. lra.
Qed.

Lemma heappush_sorted (x : scheduled) (q : list scheduled) :
  StronglySorted (λ a b, (at_time a <= at_time b)%Q) q ->
  StronglySorted (λ a b, (at_time a <= at_time b)%Q) (heappush x q).
Proof.
  unfold heappush. induction 1 as [|z q Hq IH Hz]; [repeat constructor|].
  fold heappush in *. destruct (scheduled_lt x z) eqn:Hlt.
  - apply scheduled_lt_time in Hlt. constructor; [by constructor|].
    constructor; [done|]. eapply Forall_impl; [exact Hz|]. cbn. intros; lra.
  - apply scheduled_lt_time_false in Hlt. constructor; [done|].
    apply Forall_forall. intros y Hy. apply elem_of_heappush in Hy as [->|Hy]; [done|].
    rewrite Forall_forall in Hz. by apply Hz.
Qed.

Lemma elem_of_list_remove_first (x y : nat) (l : list nat) :
  y ∈ list_remove_first x l -> y ∈ l.
Proof.
  induction l as [|z l IH]; cbn; [done|]. case_decide; set_solver.
Qed.

Lemma elem_of_list_remove_first_ne (x y : nat) (l : list nat) :
  y ∈ l -> y <> x -> y ∈ list_remove_first x l.
Proof.
  induction l as [|z l IH]; cbn; [done|]. case_decide; set_solver.
Qed.

Lemma NoDup_list_remove_first (x : nat) (l : list nat) :
  NoDup l -> NoDup (list_remove_first x l) /\ x ∉ list_remove_first x l.
Proof.
  induction 1 as [|z l Hz Hl [IH1 IH2]]; cbn; [split; [constructor|set_solver]|].
  case_decide as Hx; [subst; done|]. split.
  - constructor; [|done]. intros Hin. by apply elem_of_list_remove_first in Hin.
  - set_solver.
Qed.

Lemma list_remove_first_notin (x : nat) (l : list nat) :
  x ∉ l -> list_remove_first x l = l.
Proof.
  induction l as [|z l IH]; cbn; [done|]. intros Hx.
  case_decide; [set_solver|]. f_equal. apply IH. set_solver.
Qed.

Lemma alter_commute {A} (f g : A -> A) (i j : nat) (l : list A) :
  (forall x, f (g x) = g (f x)) ->
  alter f i (alter g j l) = alter g j (alter f i l).
Proof.
  intros Hfg. apply list_eq. intros k.
  destruct (decide (i = k)) as [->|Hik], (decide (j = k)) as [->|Hjk];
    repeat first [rewrite list_lookup_alter_eq | rewrite list_lookup_alter_ne by done];
    try done.
  destruct (l !! k); cbn; by rewrite ?Hfg.
Qed.


(** The statements of this section are over exact arithmetic: [unrounded] is
    the instance of [Rounding] that they are elaborated with, so that [fl]
    is the identity in them. What differs in binary64 is shown on runs of
    the same definitions with the instance [binary64], after the
    section. *)
Section Proofs.

Context {R : Random}.

(** What the development assumes of the random module: an exponential
    variate is not negative, and [randint a b] lies in [[a, b]]. *)
Hypothesis expovariate_nonneg :
  forall (lambd : Q) (g : rng), (0 < lambd)%Q -> (0 <= fst (expovariate lambd g))%Q.
Hypothesis randint_range :
  forall (a b : Z) (g : rng), (a <= b)%Z -> (a <= fst (randint a b g) <= b)%Z.

(** ** Symbolic execution of the kernel calls *)

Lemma timeout_eq (delay : Q) (s : state) :
  (0 <= delay)%Q ->
  timeout delay s =
    Some (Ev (length (events s)),
          schedule (Ev (length (events s))) NORMAL delay
            (set_events (events s ++ [Some []]) s)).
Proof.
  intros Hd. unfold timeout.
  destruct (Qlt_le_dec delay 0) as [Hlt|_]; [lra|reflexivity].
Qed.

Lemma yield_timeout_eq (p : nat) (g : generator) (delay : Q) (s : state) :
  (0 <= delay)%Q ->
  yield_timeout p g delay s = Return (after_timeout p g delay s).
Proof.
  intros Hd. unfold yield_timeout. rewrite timeout_eq by done.
  unfold yield_, get_callbacks. cbn.
  rewrite lookup_snoc. cbn. rewrite insert_snoc. reflexivity.
Qed.

Lemma yield_timeout_inv (p : nat) (g : generator) (delay : Q) (s s' : state) :
  yield_timeout p g delay s = Return s' ->
  (0 <= delay)%Q /\ s' = after_timeout p g delay s.
Proof.
  intros H. destruct (Qlt_le_dec delay 0) as [Hlt|Hle].
  - unfold yield_timeout, timeout in H.
    destruct (Qlt_le_dec delay 0); [done|lra].
  - rewrite yield_timeout_eq in H by done. by simplify_eq.
Qed.

Lemma triggered_alter_callbacks cbs r r' s :
  triggered r' (set_reqs (alter (with_req_callbacks cbs) r (reqs s)) s) = triggered r' s.
Proof.
  unfold triggered. cbn. destruct (decide (r = r')) as [->|Hne].
  - rewrite list_lookup_alter_eq. by destruct (reqs s !! r').
  - by rewrite list_lookup_alter_ne.
Qed.

Lemma do_put_alter_callbacks cbs r h s :
  do_put h (set_reqs (alter (with_req_callbacks cbs) r (reqs s)) s) =
  set_reqs (alter (with_req_callbacks cbs) r (reqs (do_put h s))) (do_put h s).
Proof.
  unfold do_put. cbn. destruct (length (users s) <? capacity s)%nat; [|done].
  state_eq. by apply alter_commute.
Qed.

Lemma trigger_put_alter_callbacks cbs r s :
  trigger_put (set_reqs (alter (with_req_callbacks cbs) r (reqs s)) s) =
  set_reqs (alter (with_req_callbacks cbs) r (reqs (trigger_put s))) (trigger_put s).
Proof.
  unfold trigger_put. cbn. destruct (put_queue s) as [|h rest]; [done|].
  rewrite do_put_alter_callbacks, triggered_alter_callbacks.
  by destruct (triggered h (do_put h s)).
Qed.

Lemma do_put_set_procs x h s :
  do_put h (set_procs x s) = set_procs x (do_put h s).
Proof.
  unfold do_put. cbn. by destruct (length (users s) <? capacity s)%nat.
Qed.

Lemma trigger_put_set_procs x s :
  trigger_put (set_procs x s) = set_procs x (trigger_put s).
Proof.
  unfold trigger_put. cbn. destruct (put_queue s) as [|h rest]; [done|].
  rewrite do_put_set_procs. unfold triggered. cbn.
  by destruct (reqs (do_put h s) !! h) as [rq|]; [destruct (bool_decide _)|].
Qed.

(** What [trigger_put] leaves alone. *)
Lemma trigger_put_frame (s : state) :
  let s' := trigger_put s in
  now s' = now s /\ events s' = events s /\ procs s' = procs s /\
  capacity s' = capacity s /\ random s' = random s /\
  wait_times s' = wait_times s /\ queue_lengths s' = queue_lengths s /\
  queue_time s' = queue_time s /\ processed_cars s' = processed_cars s /\
  busy_time s' = busy_time s /\ length (reqs s') = length (reqs s).
Proof.
  unfold trigger_put, do_put. destruct (put_queue s) as [|h rest]; [done|].
  destruct (length (users s) <? capacity s)%nat; cbn;
    match goal with |- context [triggered ?a ?b] => destruct (triggered a b) end;
    cbn; rewrite ?length_alter; done.
Qed.

Lemma trigger_put_callbacks (s : state) (r : nat) :
  reqs (trigger_put s) !! r ≫= req_callbacks = reqs s !! r ≫= req_callbacks.
Proof.
  unfold trigger_put, do_put. destruct (put_queue s) as [|h rest]; [done|].
  destruct (length (users s) <? capacity s)%nat; cbn;
    match goal with |- context [triggered ?a ?b] => destruct (triggered a b) end;
    cbn; try done.
  all: destruct (decide (h = r)) as [->|Hne];
    [rewrite list_lookup_alter_eq; by destruct (reqs s !! r)
    |by rewrite list_lookup_alter_ne].
Qed.

Lemma trigger_put_procs (s : state) : procs (trigger_put s) = procs s.
Proof. by destruct (trigger_put_frame s) as (_ & _ & Hp & _). Qed.

Lemma request_yield_eq (p : nat) (g : nat -> generator) (s : state) :
  (let '(r, s1) := request p s in yield_ p (g r) (Req r) s1) =
  Return (trigger_put (enqueue p (g (length (reqs s))) s)).
Proof.
  unfold request. cbn. rewrite alter_snoc. cbn.
  unfold yield_, get_callbacks. rewrite trigger_put_callbacks. cbn.
  rewrite lookup_snoc. cbn. f_equal.
  unfold set_callbacks. rewrite <- trigger_put_alter_callbacks. cbn.
  rewrite alter_snoc. rewrite trigger_put_procs.
  rewrite <- trigger_put_set_procs. f_equal.
Qed.

Lemma spawn_yield_eq (p : nat) (g gw : generator) (s : state) :
  p < length (procs s) ->
  (let '(w, s1) := process gw s in yield_ p g (Proc w) s1) =
  Return (spawn_wait p g gw s).
Proof.
  intros Hp. unfold process, yield_, get_callbacks. cbn.
  rewrite lookup_snoc. cbn. f_equal.
  state_eq. rewrite alter_snoc. cbn. by rewrite alter_app_l.
Qed.

(** What [exit_request] leaves alone. *)
Lemma exit_request_frame (r : nat) (s : state) :
  let s' := exit_request r s in
  now s' = now s /\ reqs s' = reqs s /\ procs s' = procs s /\
  capacity s' = capacity s /\ random s' = random s /\
  wait_times s' = wait_times s /\ queue_lengths s' = queue_lengths s /\
  queue_time s' = queue_time s /\ processed_cars s' = processed_cars s /\
  busy_time s' = busy_time s.
Proof.
  unfold exit_request, release, cancel. by destruct (triggered r s).
Qed.

Lemma cancel_procs r s : procs (cancel r s) = procs s.
Proof. unfold cancel. by destruct (triggered r s). Qed.

Lemma exit_request_random r s : random (exit_request r s) = random s.
Proof. by destruct (exit_request_frame r s) as (_ & _ & _ & _ & H & _). Qed.

Lemma exit_request_reqs r s : reqs (exit_request r s) = reqs s.
Proof. by destruct (exit_request_frame r s) as (_ & H & _). Qed.

Lemma exit_request_procs r s : procs (exit_request r s) = procs s.
Proof. by destruct (exit_request_frame r s) as (_ & _ & H & _). Qed.

(** [resume] runs the segment at which the generator is suspended. *)
Lemma resume_segment (p : nat) (s s' : state) :
  resume p s = Return s' ->
  exists pr, procs s !! p = Some pr /\ segment p (gen pr) s s'.
Proof.
  unfold resume. destruct (procs s !! p) as [pr|] eqn:Hp; [|done].
  intros H. exists pr. split; [done|].
  destruct (gen pr) eqn:Hg; cbn; try done.
  - destruct (expovariate LAMBDA (random s)) as [x g'] eqn:Hx.
    apply yield_timeout_inv in H as [_ ->]. eauto.
  - change (process (car_start (S car_count0)) s)
      with (length (procs s), spawn (car_start (S car_count0)) s) in H. cbn iota in H.
    change (random (spawn (car_start (S car_count0)) s)) with (random s) in H.
    destruct (expovariate LAMBDA (random s)) as [x g'] eqn:Hx.
    apply yield_timeout_inv in H as [_ ->]. eauto.
  - by apply yield_timeout_inv in H as [_ ->].
  - by apply yield_timeout_inv in H as [_ ->].
  - destruct (randint _ _ (random s)) as [z g'] eqn:Hz.
    apply yield_timeout_inv in H as [_ ->]. eauto.
  - rewrite (request_yield_eq p repair_L82) in H. by simplify_eq.
  - by apply yield_timeout_inv in H as [_ ->].
  - rewrite (request_yield_eq p repair_L90) in H. rewrite exit_request_reqs in H.
    by simplify_eq.
  - by apply yield_timeout_inv in H as [_ ->].
  - rewrite exit_request_random in H.
    destruct (randint _ _ (random s)) as [z g'] eqn:Hz.
    apply yield_timeout_inv in H as [_ ->]. eauto.
  - rewrite (request_yield_eq p (car_L42 name (now s))) in H. by simplify_eq.
  - rewrite spawn_yield_eq in H by (by eapply lookup_lt_Some). by simplify_eq.
  - unfold stop_iteration in H. simplify_eq. unfold finish.
    rewrite exit_request_procs, cancel_procs. reflexivity.
  - destruct (expovariate MU (random s)) as [x g'] eqn:Hx.
    apply yield_timeout_inv in H as [_ ->]. eauto.
  - unfold stop_iteration in H. by simplify_eq.
Qed.

(** ** The calls on the machine pool, case by case *)

Lemma triggered_true (r : nat) (s : state) :
  triggered r s = true <-> is_Some (usage_of s r).
Proof.
  unfold triggered, usage_of. destruct (reqs s !! r) as [rq|]; cbn.
  - by rewrite bool_decide_eq_true.
  - split; [done|]. by intros [? ?].
Qed.

Lemma triggered_false (r : nat) (s : state) :
  triggered r s = false <-> usage_of s r = None.
Proof.
  rewrite <- not_true_iff_false, triggered_true, <- eq_None_not_Some. done.
Qed.

Lemma trigger_put_cases (s : state) :
  (forall r, r ∈ put_queue s -> r < length (reqs s) /\ usage_of s r = None) ->
  (trigger_put s = s /\ (put_queue s = [] \/ capacity s <= length (users s))) \/
  (exists h rest, put_queue s = h :: rest /\ length (users s) < capacity s /\
     trigger_put s = grant h rest s).
Proof.
  intros Hq. unfold trigger_put. destruct (put_queue s) as [|h rest] eqn:Hpq; [by auto|].
  destruct (Hq h) as (Hlt & Hu); [set_solver|].
  apply lookup_lt_is_Some_2 in Hlt as [rq Hrq].
  unfold do_put. destruct (length (users s) <? capacity s)%nat eqn:Hlt.
  - apply Nat.ltb_lt in Hlt. right. exists h, rest. split; [done|]. split; [done|].
    assert (triggered h (succeed (Req h)
              (set_reqs (alter (with_usage_since (now s)) h (reqs s))
                 (set_users (users s ++ [h]) s))) = true) as ->; [|done].
    apply triggered_true. unfold usage_of. simpl.
    rewrite list_lookup_alter_eq, Hrq. by eexists.
  - apply Nat.ltb_ge in Hlt. left.
    assert (triggered h s = false) as ->; [|by auto].
    by apply triggered_false.
Qed.

Lemma exit_request_release (r : nat) (s : state) :
  is_Some (usage_of s r) -> exit_request r s = release r s.
Proof.
  intros Hr. apply triggered_true in Hr. unfold exit_request, cancel. by rewrite Hr.
Qed.

Lemma step_inv (s s' : state) :
  step s = Return s' ->
  exists x q cbs, queue s = x :: q /\ get_callbacks (item x) s = Some cbs /\
    run_callbacks cbs (popped x q s) = Return s'.
Proof.
  unfold step. destruct (queue s) as [|x q]; [done|].
  destruct (get_callbacks (item x) _) as [cbs|] eqn:Hcb; [|done].
  intros H. exists x, q, cbs. split; [done|]. split; [|done].
  by destruct (item x).
Qed.

(** ** Delays are never negative *)

Lemma lambda_pos : (0 < LAMBDA)%Q.
Proof. reflexivity. Qed.

Lemma mu_pos : (0 < MU)%Q.
Proof. reflexivity. Qed.

Lemma half_repair_nonneg : (0 <= inject_Z (REPAIR_DURATION / 2))%Q.
Proof. by vm_compute. Qed.

Lemma half_repair_eq : inject_Z (REPAIR_DURATION / 2) = 15%Q.
Proof. reflexivity. Qed.

Lemma repair_interval_range (g : rng) :
  (40 <= fst (randint REPAIR_INTERVAL_MIN REPAIR_INTERVAL_MAX g) <= 60)%Z.
Proof. by apply randint_range. Qed.

Lemma repair_interval_nonneg (g : rng) :
  (0 <= inject_Z (fst (randint REPAIR_INTERVAL_MIN REPAIR_INTERVAL_MAX g)))%Q.
Proof.
  change 0%Q with (inject_Z 0). rewrite <- Zle_Qle.
  pose proof (repair_interval_range g). lia.
Qed.

Lemma resume_no_negative_delay (p : nat) (s s' : state) (d : Q) :
  resume p s <> Raise (NegativeDelay d) s'.
Proof.
  unfold resume. destruct (procs s !! p) as [pr|] eqn:Hp; [|done].
  destruct (gen pr) eqn:Hg; try done.
  - pose proof (expovariate_nonneg LAMBDA (random s) lambda_pos) as Hx.
    destruct (expovariate LAMBDA (random s)) as [x g']. by rewrite yield_timeout_eq.
  - change (process (car_start (S car_count0)) s)
      with (length (procs s), spawn (car_start (S car_count0)) s). cbn iota.
    change (random (spawn (car_start (S car_count0)) s)) with (random s).
    pose proof (expovariate_nonneg LAMBDA (random s) lambda_pos) as Hx.
    destruct (expovariate LAMBDA (random s)) as [x g']. by rewrite yield_timeout_eq.
  - by rewrite yield_timeout_eq.
  - by rewrite yield_timeout_eq.
  - pose proof (repair_interval_nonneg (random s)) as Hz.
    destruct (randint _ _ (random s)) as [z g']. by rewrite yield_timeout_eq.
  - by rewrite (request_yield_eq p repair_L82).
  - by rewrite yield_timeout_eq by apply half_repair_nonneg.
  - by rewrite (request_yield_eq p repair_L90).
  - by rewrite yield_timeout_eq by apply half_repair_nonneg.
  - rewrite exit_request_random.
    pose proof (repair_interval_nonneg (random s)) as Hz.
    destruct (randint _ _ (random s)) as [z g']. by rewrite yield_timeout_eq.
  - by rewrite (request_yield_eq p (car_L42 name (now s))).
  - by rewrite spawn_yield_eq by (by eapply lookup_lt_Some).
  - pose proof (expovariate_nonneg MU (random s) mu_pos) as Hx.
    destruct (expovariate MU (random s)) as [x g']. by rewrite yield_timeout_eq.
Qed.

Lemma run_callbacks_no_negative_delay (cbs : list callback) (s s' : state) (d : Q) :
  run_callbacks cbs s <> Raise (NegativeDelay d) s'.
Proof.
  revert s. induction cbs as [|cb cbs IH]; intros s; cbn; [done|].
  destruct (run_callback cb s) as [s1|e s1] eqn:Hcb; [apply IH|].
  intros ?; simplify_eq. destruct cb; cbn in Hcb; try done.
  by apply resume_no_negative_delay in Hcb.
Qed.

Lemma step_no_negative_delay (s s' : state) (d : Q) :
  step s <> Raise (NegativeDelay d) s'.
Proof.
  unfold step. destruct (queue s) as [|x q]; [done|].
  destruct (get_callbacks _ _); [|done].
  apply run_callbacks_no_negative_delay.
Qed.

(** C9: no delay that a process of the program passes to [env.timeout] is
    negative (the exponential gaps and service times, the sampler's period
    of one minute, the repair interval in [[40, 60]] and half the repair
    duration), so that no run of the program, however long, ends in the
    [ValueError] that a negative delay raises. *)
Theorem no_negative_delay (g : rng) (n : nat) (d : Q) (s' : state) :
  run n (main_from g) <> Raise (NegativeDelay d) s'.
Proof.
  generalize (main_from g). induction n as [|n IH]; intros s; cbn; [done|].
  destruct (step s) as [s1|e s1] eqn:Hs; [apply IH|].
  intros ?; simplify_eq. by apply step_no_negative_delay in Hs.
Qed.


(** ** calculate_metrics *)

Lemma of_nat_succ_nonzero (n : nat) : Qeq_bool (of_nat (S n)) 0 = false.
Proof.
  apply not_true_is_false. intros H. apply Qeq_bool_iff in H.
  unfold of_nat, inject_Z, Qeq in H. cbn in H. lia.
Qed.

Lemma truediv_of_nat (x : Q) (n : nat) :
  n <> 0 -> truediv x (of_nat n) = Some (x / of_nat n)%Q.
Proof.
  intros Hn. destruct n as [|n]; [done|].
  unfold truediv. by rewrite of_nat_succ_nonzero.
Qed.

(** An average that is guarded by [if samples else 0]. *)
Lemma guarded_average {A} (l : list A) (total : Q) :
  exists a, (if bool_decide (l = []) then Some 0%Q
             else truediv total (of_nat (length l))) = Some a /\
    (l = [] -> a = 0%Q).
Proof.
  case_bool_decide as Hl; [by eauto|].
  rewrite truediv_of_nat by (by destruct l). by eexists.
Qed.

Lemma calculate_metrics_defined (s : state) : exists m, calculate_metrics s = Some m.
Proof.
  unfold calculate_metrics.
  destruct (guarded_average (wait_times s) (sum (wait_times s))) as (a & -> & _).
  destruct (guarded_average (queue_lengths s) (of_nat (sum_nat (queue_lengths s))))
    as (b & -> & _).
  cbn. eauto.
Qed.

(** C10: [calculate_metrics] never fails with a division by zero, and it
    reports an average wait time of 0 when no wait time was recorded and an
    average queue length of 0 when no queue length was recorded. *)
Theorem calculate_metrics_guarded (s : state) :
  exists m, calculate_metrics s = Some m /\
    (wait_times s = [] -> avg_wait_time m = 0%Q) /\
    (queue_lengths s = [] -> avg_queue_length m = 0%Q).
Proof.
  unfold calculate_metrics.
  destruct (guarded_average (wait_times s) (sum (wait_times s))) as (a & -> & Ha).
  destruct (guarded_average (queue_lengths s) (of_nat (sum_nat (queue_lengths s))))
    as (b & -> & Hb).
  cbn. eexists. split; [reflexivity|]. by split.
Qed.

(** ** The machine pool never exceeds its capacity *)

(** Peels the outermost call off the state of the goal when the fields
    that the invariant reads are not touched by it. *)
Ltac peel ext :=
  lazymatch goal with
  | |- _ (?f ?s) => apply (ext s); [simpl; reflexivity ..|]
  end.

Lemma res_ok_ext (s s' : state) :
  users s' = users s -> capacity s' = capacity s -> res_ok s -> res_ok s'.
Proof. unfold res_ok. by intros -> ->. Qed.

Lemma length_list_remove_first (x : nat) (l : list nat) :
  length (list_remove_first x l) <= length l.
Proof.
  induction l as [|y l IH]; cbn; [lia|]. case_decide; cbn; lia.
Qed.

Lemma do_put_res_ok (r : nat) (s : state) : res_ok s -> res_ok (do_put r s).
Proof.
  intros [Hle Hcap]. unfold do_put, res_ok.
  destruct (length (users s) <? capacity s)%nat eqn:Hlt; [|done].
  apply Nat.ltb_lt in Hlt. cbn. rewrite length_app. cbn. lia.
Qed.

Lemma trigger_put_res_ok (s : state) : res_ok s -> res_ok (trigger_put s).
Proof.
  intros Hs. unfold trigger_put. destruct (put_queue s) as [|r rest]; [done|].
  pose proof (do_put_res_ok r s Hs) as H.
  destruct (triggered r (do_put r s)); [|done]. exact H.
Qed.

Lemma request_res_ok (p : nat) (s : state) : res_ok s -> res_ok (request p s).2.
Proof. intros Hs. unfold request. cbn. by apply trigger_put_res_ok. Qed.

Lemma exit_request_res_ok (r : nat) (s : state) : res_ok s -> res_ok (exit_request r s).
Proof.
  intros [Hle Hcap]. unfold exit_request, release, cancel, res_ok.
  destruct (triggered r s); cbn; pose proof (length_list_remove_first r (users s)); lia.
Qed.

Ltac destruct_segment :=
  repeat match goal with
    | H : exists _, _ |- _ => destruct H
    | H : _ /\ _ |- _ => destruct H
    | H : False |- _ => destruct H
    end; subst.

Ltac res_ok_tac :=
  repeat lazymatch goal with
    | H : res_ok ?s |- res_ok ?s => exact H
    | |- res_ok (trigger_put _) => apply trigger_put_res_ok
    | |- res_ok (exit_request _ _) => apply exit_request_res_ok
    | |- _ => peel res_ok_ext
    end.

Lemma segment_res_ok (p : nat) (g : generator) (s s' : state) :
  res_ok s -> segment p g s s' -> res_ok s'.
Proof.
  intros Hs Hseg. destruct g; unfold segment in Hseg; destruct_segment; res_ok_tac.
Qed.

Lemma resume_res_ok (p : nat) (s s' : state) :
  res_ok s -> resume p s = Return s' -> res_ok s'.
Proof.
  intros Hs H. apply resume_segment in H as (pr & _ & H).
  by eapply segment_res_ok.
Qed.

Lemma run_callbacks_res_ok (cbs : list callback) (s s' : state) :
  res_ok s -> run_callbacks cbs s = Return s' -> res_ok s'.
Proof.
  revert s. induction cbs as [|cb cbs IH]; intros s Hs H; cbn in H; [by simplify_eq|].
  destruct (run_callback cb s) as [s1|] eqn:Hcb; [|done].
  apply (IH s1); [|done]. destruct cb; cbn in Hcb; simplify_eq; try done.
  - by eapply resume_res_ok.
  - by apply trigger_put_res_ok.
Qed.

Lemma step_res_ok (s s' : state) : res_ok s -> step s = Return s' -> res_ok s'.
Proof.
  unfold step. intros Hs H. destruct (queue s) as [|x q]; [done|].
  destruct (get_callbacks _ _) as [cbs|]; [|done].
  eapply run_callbacks_res_ok; [|exact H]. by destruct (item x).
Qed.

Lemma main_res_ok (g : rng) : res_ok (main_from g).
Proof. split; cbn; [unfold NUM_MACHINES; lia|done]. Qed.

(** C1: at every state of every run the number of granted slots of the
    machine pool is between 0 and its capacity, which stays at
    [NUM_MACHINES]; and a request, a release at the end of a [with] block
    and the callback that serves the queue keep this bound, from whatever
    state that has it. *)
Theorem pool_within_capacity (g : rng) (s : state) :
  reachable g s ->
  (0 <= length (users s) <= capacity s /\ capacity s = NUM_MACHINES) /\
  (forall s0 : state,
     length (users s0) <= capacity s0 /\ capacity s0 = NUM_MACHINES ->
     (forall p, length (users (request p s0).2) <= capacity (request p s0).2 /\
                capacity (request p s0).2 = NUM_MACHINES) /\
     (forall r, length (users (exit_request r s0)) <= capacity (exit_request r s0) /\
                capacity (exit_request r s0) = NUM_MACHINES) /\
     (length (users (trigger_put s0)) <= capacity (trigger_put s0) /\
      capacity (trigger_put s0) = NUM_MACHINES)).
Proof.
  intros Hr. assert (res_ok s) as Hs.
  { induction Hr as [|s s' _ IH Hstep]; [apply main_res_ok|by eapply step_res_ok]. }
  split; [destruct Hs; split; [lia|done]|].
  intros s0 Hs0. split; [intros p; by apply request_res_ok|].
  split; [intros r; by apply exit_request_res_ok|].
  by apply trigger_put_res_ok.
Qed.


(** ** The clock *)

Lemma time_ok_ext (s s' : state) :
  now s' = now s -> queue s' = queue s -> time_ok s -> time_ok s'.
Proof. unfold time_ok. by intros -> ->. Qed.

Lemma time_ok_schedule (ev : event) (prio : nat) (d : Q) (s : state) :
  (0 <= d)%Q -> time_ok s -> time_ok (schedule ev prio d s).
Proof.
  intros Hd (Hnow & Hall & Hsort). unfold time_ok. simpl.
  split; [done|]. split; [|by apply heappush_sorted].
  apply Forall_forall. intros y Hy.
  apply elem_of_heappush in Hy as [->|Hy]; [simpl; lra|].
  rewrite Forall_forall in Hall. by apply Hall.
Qed.

Lemma time_ok_do_put (r : nat) (s : state) : time_ok s -> time_ok (do_put r s).
Proof.
  intros Hs. unfold do_put. destruct (_ <? _)%nat; [|done].
  apply time_ok_schedule; [lra|]. by eapply time_ok_ext.
Qed.

Lemma time_ok_trigger_put (s : state) : time_ok s -> time_ok (trigger_put s).
Proof.
  intros Hs. unfold trigger_put. destruct (put_queue s) as [|h rest]; [done|].
  pose proof (time_ok_do_put h s Hs).
  destruct (triggered h (do_put h s)); [|done]. by eapply time_ok_ext.
Qed.

Lemma time_ok_exit_request (r : nat) (s : state) : time_ok s -> time_ok (exit_request r s).
Proof.
  intros Hs. unfold exit_request, release, succeed.
  apply time_ok_schedule; [lra|].
  unfold cancel. destruct (triggered r s); by eapply time_ok_ext.
Qed.

Lemma time_ok_popped (x : scheduled) (q : list scheduled) (s : state) :
  queue s = x :: q -> time_ok s -> time_ok (popped x q s).
Proof.
  intros Hq (Hnow & Hall & Hsort). rewrite Hq in Hall, Hsort.
  apply Forall_cons in Hall as [Hx _]. apply StronglySorted_inv in Hsort as [Hsort Hle].
  assert (time_ok (set_queue q (set_now (at_time x) s))) as H.
  { unfold time_ok. simpl. split; [lra|done]. }
  unfold popped. destruct (item x); by eapply time_ok_ext.
Qed.

Ltac unfold_macros :=
  unfold after_timeout, spawn, enqueue, grant, spawn_wait, finish, succeed.

Ltac time_ok_tac :=
  unfold_macros;
  repeat lazymatch goal with
    | H : time_ok ?s |- time_ok ?s => exact H
    | |- time_ok (schedule _ _ _ _) => apply time_ok_schedule; [first [done|lra]|]
    | |- time_ok (trigger_put _) => apply time_ok_trigger_put
    | |- time_ok (exit_request _ _) => apply time_ok_exit_request
    | |- _ => peel time_ok_ext
    end.

(** What is known of the draws of a segment. *)
Ltac draws :=
  repeat match goal with
    | H : expovariate LAMBDA ?g = (?x, _) |- _ =>
        lazymatch goal with
        | _ : (0 <= x)%Q |- _ => fail
        | _ => let Hx := fresh "Hx" in
               pose proof (expovariate_nonneg LAMBDA g lambda_pos) as Hx;
               rewrite H in Hx; simpl in Hx
        end
    | H : expovariate MU ?g = (?x, _) |- _ =>
        lazymatch goal with
        | _ : (0 <= x)%Q |- _ => fail
        | _ => let Hx := fresh "Hx" in
               pose proof (expovariate_nonneg MU g mu_pos) as Hx;
               rewrite H in Hx; simpl in Hx
        end
    | H : randint REPAIR_INTERVAL_MIN REPAIR_INTERVAL_MAX ?g = (?z, _) |- _ =>
        lazymatch goal with
        | _ : (0 <= inject_Z z)%Q |- _ => fail
        | _ => let Hx := fresh "Hx" in
               pose proof (repair_interval_nonneg g) as Hx;
               rewrite H in Hx; simpl in Hx
        end
    end;
  try pose proof half_repair_nonneg.

Lemma segment_time_ok (p : nat) (g : generator) (s s' : state) :
  time_ok s -> segment p g s s' -> time_ok s'.
Proof.
  intros Hs Hseg. destruct g; unfold segment in Hseg; destruct_segment; draws;
    time_ok_tac.
Qed.

(** ** Granted and pending requests *)

Lemma usage_of_app (s s' : state) (l : list Request) (r : nat) :
  reqs s' = reqs s ++ l -> r < length (reqs s) -> usage_of s' r = usage_of s r.
Proof. intros Hr Hlt. unfold usage_of. by rewrite Hr, lookup_app_l. Qed.

Lemma usage_of_lt (s : state) (r : nat) (u : Q) :
  usage_of s r = Some u -> r < length (reqs s).
Proof.
  unfold usage_of. intros H. destruct (reqs s !! r) eqn:Hr; [|done].
  by apply lookup_lt_Some in Hr.
Qed.

Lemma usage_of_alter_usage (s s' : state) (t : Q) (h r : nat) :
  reqs s' = alter (with_usage_since t) h (reqs s) ->
  usage_of s' r =
    if decide (h = r) then (if decide (r < length (reqs s)) then Some t else None)
    else usage_of s r.
Proof.
  intros Hr. unfold usage_of. rewrite Hr, list_lookup_alter.
  destruct (decide (h = r)) as [->|]; [|done].
  destruct (decide (r < length (reqs s))) as [Hlt|Hge].
  - apply lookup_lt_is_Some_2 in Hlt as [rq ->]. done.
  - rewrite lookup_ge_None_2 by lia. done.
Qed.

Lemma usage_of_alter_callbacks (s s' : state) (cbs : option (list callback)) (h r : nat) :
  reqs s' = alter (with_req_callbacks cbs) h (reqs s) ->
  usage_of s' r = usage_of s r.
Proof.
  intros Hr. unfold usage_of. rewrite Hr, list_lookup_alter.
  destruct (decide (h = r)) as [->|]; [|done]. by destruct (reqs s !! r).
Qed.

Lemma reqs_ok_ext (s s' : state) :
  users s' = users s -> put_queue s' = put_queue s -> now s' = now s ->
  reqs s' = reqs s -> reqs_ok s -> reqs_ok s'.
Proof. unfold reqs_ok, usage_of. by intros -> -> -> ->. Qed.

Lemma reqs_ok_enqueue (p : nat) (g : generator) (s : state) :
  reqs_ok s -> reqs_ok (enqueue p g s).
Proof.
  intros (Hu & Hq & Husers & Hpend). unfold reqs_ok. simpl.
  split; [done|]. split; [|split].
  - apply NoDup_app. split; [done|]. split; [|apply NoDup_singleton].
    intros r Hr ->%list_elem_of_singleton. apply Hpend in Hr. lia.
  - intros r Hr. destruct (Husers r Hr) as (u & Hru & Hle). exists u. split; [|done].
    rewrite <- Hru. eapply (usage_of_app s); [simpl; reflexivity|by eapply usage_of_lt].
  - intros r [Hr| ->%list_elem_of_singleton]%elem_of_app.
    + destruct (Hpend r Hr) as [Hlt Hnone]. rewrite length_app. split; [lia|].
      rewrite <- Hnone. by eapply (usage_of_app s); [simpl; reflexivity|].
    + rewrite length_app. simpl. split; [lia|].
      unfold usage_of. simpl. by rewrite lookup_snoc.
Qed.

Lemma reqs_ok_grant (h : nat) (rest : list nat) (s : state) :
  put_queue s = h :: rest -> reqs_ok s -> reqs_ok (grant h rest s).
Proof.
  intros Hpq (Hu & Hq & Husers & Hpend). rewrite Hpq in Hq, Hpend.
  apply NoDup_cons in Hq as [Hh Hrest].
  destruct (Hpend h) as [Hlt Hnone]; [set_solver|].
  assert (h ∉ users s) as Hhu.
  { intros Hin. destruct (Husers h Hin) as (u & Hru & _). congruence. }
  unfold reqs_ok. simpl. split; [|split; [done|split]].
  - apply NoDup_app. split; [done|]. split; [|apply NoDup_singleton].
    by intros r Hr ->%list_elem_of_singleton.
  - intros r [Hr| ->%list_elem_of_singleton]%elem_of_app.
    + destruct (Husers r Hr) as (u & Hru & Hle). exists u. split; [|done].
      erewrite usage_of_alter_usage by (simpl; reflexivity).
      destruct (decide (h = r)) as [->|]; done.
    + exists (now s). split; [|lra].
      erewrite usage_of_alter_usage by (simpl; reflexivity).
      rewrite decide_True by done. by rewrite decide_True.
  - intros r Hr. destruct (Hpend r) as [Hrl Hrn]; [set_solver|].
    rewrite length_alter. split; [done|].
    erewrite usage_of_alter_usage by (simpl; reflexivity).
    destruct (decide (h = r)) as [->|]; done.
Qed.

Lemma reqs_ok_pending (s : state) :
  reqs_ok s ->
  forall r, r ∈ put_queue s -> r < length (reqs s) /\ usage_of s r = None.
Proof. by intros (_ & _ & _ & H). Qed.

Lemma reqs_ok_trigger_put (s : state) : reqs_ok s -> reqs_ok (trigger_put s).
Proof.
  intros Hs.
  destruct (trigger_put_cases s (reqs_ok_pending s Hs))
    as [[-> _]|(h & rest & Hpq & _ & ->)]; [done|].
  by apply reqs_ok_grant.
Qed.

Lemma reqs_ok_exit_request (r : nat) (s : state) :
  reqs_ok s -> reqs_ok (exit_request r s).
Proof.
  intros (Hu & Hq & Husers & Hpend).
  pose proof (NoDup_list_remove_first r _ Hu) as [Hu' _].
  pose proof (NoDup_list_remove_first r _ Hq) as [Hq' _].
  unfold exit_request, release, cancel, reqs_ok.
  destruct (triggered r s); simpl; (split; [done|]); (split; [done|]); split.
  all: try (intros r' Hr'%elem_of_list_remove_first; by apply Husers).
  all: try (intros r' Hr'%elem_of_list_remove_first; by apply Hpend).
  by apply Hpend.
Qed.

Lemma reqs_ok_popped (x : scheduled) (q : list scheduled) (s : state) :
  (now s <= at_time x)%Q -> reqs_ok s -> reqs_ok (popped x q s).
Proof.
  intros Hx (Hu & Hq & Husers & Hpend).
  assert (forall r, usage_of (popped x q s) r = usage_of s r) as Hus.
  { intros r. unfold popped. destruct (item x); simpl; try done.
    by eapply usage_of_alter_callbacks. }
  assert (users (popped x q s) = users s) as Hus1 by (unfold popped; by destruct (item x)).
  assert (put_queue (popped x q s) = put_queue s) as Hus2 by (unfold popped; by destruct (item x)).
  assert (now (popped x q s) = at_time x) as Hus3 by (unfold popped; by destruct (item x)).
  assert (length (reqs (popped x q s)) = length (reqs s)) as Hus4.
  { unfold popped. destruct (item x); simpl; try done. by rewrite length_alter. }
  unfold reqs_ok. rewrite Hus1, Hus2, Hus3, Hus4. split; [done|]. split; [done|]. split.
  - intros r Hr. rewrite Hus. destruct (Husers r Hr) as (u & Hru & Hle).
    exists u. split; [done|lra].
  - intros r Hr. rewrite Hus. by apply Hpend.
Qed.

Ltac reqs_ok_tac :=
  unfold after_timeout, spawn, spawn_wait, finish, succeed;
  repeat lazymatch goal with
    | H : reqs_ok ?s |- reqs_ok ?s => exact H
    | |- reqs_ok (trigger_put _) => apply reqs_ok_trigger_put
    | |- reqs_ok (exit_request _ _) => apply reqs_ok_exit_request
    | |- reqs_ok (enqueue _ _ _) => apply reqs_ok_enqueue
    | |- _ => peel reqs_ok_ext
    end.

Lemma segment_reqs_ok (p : nat) (g : generator) (s s' : state) :
  reqs_ok s -> segment p g s s' -> reqs_ok s'.
Proof.
  intros Hs Hseg. destruct g; unfold segment in Hseg; destruct_segment; reqs_ok_tac.
Qed.

(** ** Requests in the event queue *)

Lemma qreq_ok_ext (s s' : state) :
  queue s' = queue s -> reqs s' = reqs s -> qreq_ok s -> qreq_ok s'.
Proof. unfold qreq_ok, usage_of. by intros -> ->. Qed.

Lemma qreq_ok_schedule (ev : event) (prio : nat) (d : Q) (s : state) :
  (forall r, ev <> Req r) -> qreq_ok s -> qreq_ok (schedule ev prio d s).
Proof.
  intros Hev Hs x r Hx Hr. simpl in Hx.
  apply elem_of_heappush in Hx as [->|Hx]; [by destruct (Hev r)|].
  by apply Hs.
Qed.

Lemma qreq_ok_enqueue (p : nat) (g : generator) (s : state) :
  qreq_ok s -> qreq_ok (enqueue p g s).
Proof.
  intros Hs x r Hx Hr. destruct (Hs x r Hx Hr) as (u & Hu & Heq).
  exists u. split; [|done]. rewrite <- Hu.
  eapply (usage_of_app s); [simpl; reflexivity|by eapply usage_of_lt].
Qed.

Lemma qreq_ok_grant (h : nat) (rest : list nat) (s : state) :
  put_queue s = h :: rest -> reqs_ok s -> qreq_ok s -> qreq_ok (grant h rest s).
Proof.
  intros Hpq Hreqs Hs x r Hx Hr.
  destruct (reqs_ok_pending s Hreqs h) as [Hlt Hnone]; [rewrite Hpq; set_solver|].
  erewrite usage_of_alter_usage by (simpl; reflexivity).
  simpl in Hx. apply elem_of_heappush in Hx as [->|Hx].
  - simpl in *. simplify_eq. rewrite decide_True by done. rewrite decide_True by done.
    exists (now s). split; [done|lra].
  - destruct (Hs x r Hx Hr) as (u & Hu & Heq).
    destruct (decide (h = r)) as [->|]; [congruence|]. by exists u.
Qed.

Lemma qreq_ok_trigger_put (s : state) :
  reqs_ok s -> qreq_ok s -> qreq_ok (trigger_put s).
Proof.
  intros Hreqs Hs.
  destruct (trigger_put_cases s (reqs_ok_pending s Hreqs))
    as [[-> _]|(h & rest & Hpq & _ & ->)]; [done|].
  by apply qreq_ok_grant.
Qed.

Lemma qreq_ok_exit_request (r : nat) (s : state) :
  qreq_ok s -> qreq_ok (exit_request r s).
Proof.
  intros Hs. unfold exit_request, release, succeed.
  apply qreq_ok_schedule; [done|].
  unfold cancel. destruct (triggered r s); by eapply qreq_ok_ext.
Qed.

Lemma qreq_ok_popped (x : scheduled) (q : list scheduled) (s : state) :
  queue s = x :: q -> qreq_ok s -> qreq_ok (popped x q s).
Proof.
  intros Hq Hs y r Hy Hr.
  assert (y ∈ queue s) as Hy'.
  { rewrite Hq. unfold popped in Hy. destruct (item x); simpl in Hy; set_solver. }
  destruct (Hs y r Hy' Hr) as (u & Hu & Heq). exists u. split; [|done].
  rewrite <- Hu. unfold popped. destruct (item x); simpl; try done.
  by eapply usage_of_alter_callbacks.
Qed.

Ltac qreq_ok_tac :=
  unfold after_timeout, spawn, spawn_wait, finish, succeed;
  repeat lazymatch goal with
    | H : qreq_ok ?s |- qreq_ok ?s => exact H
    | |- qreq_ok (trigger_put _) => apply qreq_ok_trigger_put; [reqs_ok_tac|]
    | |- qreq_ok (exit_request _ _) => apply qreq_ok_exit_request
    | |- qreq_ok (enqueue _ _ _) => apply qreq_ok_enqueue
    | |- qreq_ok (schedule _ _ _ _) => apply qreq_ok_schedule; [done|]
    | |- _ => peel qreq_ok_ext
    end.

Lemma segment_qreq_ok (p : nat) (g : generator) (s s' : state) :
  reqs_ok s -> qreq_ok s -> segment p g s s' -> qreq_ok s'.
Proof.
  intros Hr Hs Hseg. destruct g; unfold segment in Hseg; destruct_segment; qreq_ok_tac.
Qed.

(** ** The end of the run stays scheduled *)

Lemma until_ok_ext (s s' : state) :
  queue s' = queue s -> events s' = events s -> until_ok s -> until_ok s'.
Proof. unfold until_ok. by intros -> ->. Qed.

Lemma until_ok_schedule (ev : event) (prio : nat) (d : Q) (s : state) :
  until_ok s -> until_ok (schedule ev prio d s).
Proof.
  intros (x & i & Hx & Hi & Ht & He). exists x, i. simpl.
  split; [apply elem_of_heappush; by right|done].
Qed.

Lemma until_ok_events (l : list (option (list callback))) (s : state) :
  until_ok s -> until_ok (set_events (events s ++ l) s).
Proof.
  intros (x & i & Hx & Hi & Ht & He). exists x, i. simpl.
  repeat (split; [done|]). by apply lookup_app_l_Some.
Qed.

Lemma until_ok_trigger_put (s : state) : until_ok s -> until_ok (trigger_put s).
Proof.
  intros Hs. unfold trigger_put. destruct (put_queue s) as [|h rest]; [done|].
  assert (until_ok (do_put h s)) as H.
  { unfold do_put. destruct (_ <? _)%nat; [|done]. unfold succeed.
    apply until_ok_schedule. by eapply until_ok_ext. }
  destruct (triggered h (do_put h s)); [|done]. by eapply until_ok_ext.
Qed.

Lemma until_ok_exit_request (r : nat) (s : state) :
  until_ok s -> until_ok (exit_request r s).
Proof.
  intros Hs. unfold exit_request, release, succeed. apply until_ok_schedule.
  eapply (until_ok_ext (set_events (events (cancel r s) ++ [Some [trigger_put_cb]]) (cancel r s)));
    [done..|].
  apply until_ok_events. unfold cancel. destruct (triggered r s); by eapply until_ok_ext.
Qed.

Lemma until_ok_popped (x : scheduled) (q : list scheduled) (cbs : list callback) (s : state) :
  queue s = x :: q -> get_callbacks (item x) s = Some cbs ->
  cbs <> [stop_simulation_cb] -> until_ok s -> until_ok (popped x q s).
Proof.
  intros Hq Hcb Hne (y & i & Hy & Hi & Ht & He).
  assert (item x <> Ev i) as Hxi.
  { intros Hxi. rewrite Hxi in Hcb. simpl in Hcb. rewrite He in Hcb. simpl in Hcb. congruence. }
  exists y, i. rewrite Hq in Hy. apply elem_of_cons in Hy as [->|Hy]; [done|].
  unfold popped. destruct (item x) as [j| |]; simpl; repeat (split; [done|]); try done.
  rewrite list_lookup_insert_ne; [done|congruence].
Qed.

Ltac until_ok_tac :=
  unfold after_timeout, spawn, enqueue, spawn_wait, finish, succeed;
  repeat lazymatch goal with
    | H : until_ok ?s |- until_ok ?s => exact H
    | |- until_ok (trigger_put _) => apply until_ok_trigger_put
    | |- until_ok (exit_request _ _) => apply until_ok_exit_request
    | |- until_ok (schedule _ _ _ _) => apply until_ok_schedule
    | |- until_ok (set_events (events ?s ++ _) ?s) => apply until_ok_events
    | |- until_ok (set_events (events ?s ++ ?l) ?s') =>
        apply (until_ok_ext (set_events (events s ++ l) s)); [simpl; reflexivity ..|]
    | |- _ => peel until_ok_ext
    end.

Lemma segment_until_ok (p : nat) (g : generator) (s s' : state) :
  until_ok s -> segment p g s s' -> until_ok s'.
Proof.
  intros Hs Hseg. destruct g; unfold segment in Hseg; destruct_segment; until_ok_tac.
Qed.

(** ** Callbacks and targets *)

Lemma target_of_alter (s s' : state) (g : generator) (tg : option event) (p q : nat) :
  procs s' = alter (with_gen g tg) p (procs s) -> q <> p ->
  target_of s' q = target_of s q.
Proof. intros Hp Hq. unfold target_of. by rewrite Hp, list_lookup_alter_ne. Qed.

Lemma target_of_alter_eq (s s' : state) (g : generator) (tg : option event) (p : nat) :
  procs s' = alter (with_gen g tg) p (procs s) -> is_Some (procs s !! p) ->
  target_of s' p = tg.
Proof.
  intros Hp [pr Hpr]. unfold target_of. by rewrite Hp, list_lookup_alter_eq, Hpr.
Qed.

Lemma target_of_app (s s' : state) (l : list Process) (q : nat) (ev : event) :
  procs s' = procs s ++ l -> target_of s q = Some ev -> target_of s' q = Some ev.
Proof.
  intros Hp. unfold target_of. rewrite Hp.
  destruct (procs s !! q) as [pr|] eqn:Hq; [|done].
  by rewrite (lookup_app_l_Some _ _ _ _ Hq).
Qed.

Lemma cbs_ok_mono (s s' : state) (ev : event) (cbs : list callback) :
  (forall q, resume_cb q ∈ cbs -> target_of s q = Some ev -> target_of s' q = Some ev) ->
  cbs_ok s ev cbs -> cbs_ok s' ev cbs.
Proof.
  intros Ht [->|[->|[->|(q & Hq & Htq)]]]; unfold cbs_ok; auto.
  do 3 right. exists q. split; [done|]. apply Ht; [|done].
  destruct Hq as [-> | ->]; set_solver.
Qed.

(** The callbacks of an event once [p] has yielded a new event or has
    ended, while no older event could resume it. *)
Lemma cbs_ok_retarget (s s' : state) (g : generator) (tg : option event) (p : nat)
    (ev : event) (cbs : list callback) :
  procs s' = alter (with_gen g tg) p (procs s) ->
  resume_cb p ∉ cbs -> cbs_ok s ev cbs -> cbs_ok s' ev cbs.
Proof.
  intros Hp Hidle. apply cbs_ok_mono. intros q Hq Htq.
  rewrite <- Htq. eapply target_of_alter; [done|]. by intros ->.
Qed.

Lemma get_callbacks_ev (s : state) (i : nat) :
  get_callbacks (Ev i) s = mjoin (events s !! i).
Proof. done. Qed.

Lemma proc_callbacks_alter (l : list Process) (g : generator) (tg : option event) (p q : nat) :
  alter (with_gen g tg) p l !! q ≫= proc_callbacks = l !! q ≫= proc_callbacks.
Proof.
  rewrite list_lookup_alter. destruct (decide (p = q)) as [->|]; [|done].
  by destruct (l !! q).
Qed.

Lemma cb_ok_after_timeout (p : nat) (g : generator) (d : Q) (s : state) :
  is_Some (procs s !! p) -> idle s p -> cb_ok s -> cb_ok (after_timeout p g d s).
Proof.
  intros Hp Hidle Hs ev cbs Hev.
  destruct ev as [i|r|q]; simpl in Hev.
  - destruct (decide (i < length (events s))) as [Hlt|Hge].
    + rewrite lookup_app_l in Hev by done.
      eapply cbs_ok_retarget; [simpl; reflexivity|by eapply (Hidle (Ev i))|by apply Hs].
    + destruct (decide (i = length (events s))) as [->|Hne].
      * rewrite lookup_snoc in Hev. simpl in Hev. simplify_eq.
        do 3 right. exists p. split; [by left|].
        by eapply target_of_alter_eq; [simpl; reflexivity|].
      * rewrite lookup_ge_None_2 in Hev; [done|]. rewrite length_app. simpl. lia.
  - eapply cbs_ok_retarget; [simpl; reflexivity|by eapply (Hidle (Req r))|by apply Hs].
  - rewrite proc_callbacks_alter in Hev.
    eapply cbs_ok_retarget; [simpl; reflexivity|by eapply (Hidle (Proc q))|by apply Hs].
Qed.

Lemma cb_ok_same (s s' : state) :
  (forall ev, get_callbacks ev s' = get_callbacks ev s) ->
  (forall q, target_of s' q = target_of s q) ->
  cb_ok s -> cb_ok s'.
Proof.
  intros Hcb Htg Hs ev cbs Hev. rewrite Hcb in Hev.
  eapply cbs_ok_mono; [|by apply Hs]. intros q _. by rewrite Htg.
Qed.

Lemma cb_ok_ext (s s' : state) :
  events s' = events s -> procs s' = procs s -> reqs s' = reqs s ->
  cb_ok s -> cb_ok s'.
Proof.
  intros He Hp Hr. apply cb_ok_same.
  - intros [i|r|q]; simpl; by rewrite ?He, ?Hp, ?Hr.
  - intros q. unfold target_of. by rewrite Hp.
Qed.

Lemma idle_same (s s' : state) (p : nat) :
  (forall ev, get_callbacks ev s' = get_callbacks ev s) -> idle s p -> idle s' p.
Proof. intros Hcb Hs ev cbs Hev. rewrite Hcb in Hev. by eapply Hs. Qed.

Lemma idle_ext (s s' : state) (p : nat) :
  events s' = events s -> procs s' = procs s -> reqs s' = reqs s ->
  idle s p -> idle s' p.
Proof.
  intros He Hp Hr. apply idle_same.
  intros [i|r|q]; simpl; by rewrite ?He, ?Hp, ?Hr.
Qed.

Lemma get_callbacks_trigger_put (ev : event) (s : state) :
  get_callbacks ev (trigger_put s) = get_callbacks ev s.
Proof.
  destruct (trigger_put_frame s) as (_ & He & Hp & _).
  destruct ev as [i|r|q]; simpl; rewrite ?He, ?Hp; [done| |done].
  apply trigger_put_callbacks.
Qed.

Lemma cb_ok_trigger_put (s : state) : cb_ok s -> cb_ok (trigger_put s).
Proof.
  apply cb_ok_same; [intros; apply get_callbacks_trigger_put|].
  intros q. unfold target_of. by rewrite trigger_put_procs.
Qed.

Lemma get_callbacks_events_app (s s' : state) (cbs : list callback) (ev : event) :
  events s' = events s ++ [Some cbs] -> procs s' = procs s -> reqs s' = reqs s ->
  get_callbacks ev s' =
    match ev with
    | Ev i => if decide (i = length (events s)) then Some cbs else get_callbacks ev s
    | _ => get_callbacks ev s
    end.
Proof.
  intros He Hp Hr. destruct ev as [i|r|q]; simpl; rewrite ?He, ?Hp, ?Hr; [|done..].
  destruct (decide (i = length (events s))) as [->|Hne]; [by rewrite lookup_snoc|].
  destruct (decide (i < length (events s))); [by rewrite lookup_app_l|].
  rewrite !lookup_ge_None_2; [done|lia|]. rewrite length_app. simpl. lia.
Qed.

Lemma cb_ok_exit_request (r : nat) (s : state) : cb_ok s -> cb_ok (exit_request r s).
Proof.
  intros Hs ev cbs Hev.
  assert (forall q, target_of (exit_request r s) q = target_of s q) as Htg.
  { intros q. unfold target_of. by rewrite exit_request_procs. }
  erewrite (get_callbacks_events_app s) in Hev; cycle 1.
  { unfold exit_request, release, cancel. destruct (triggered r s); simpl; reflexivity. }
  { apply exit_request_procs. }
  { apply exit_request_reqs. }
  destruct ev as [i| |]; try (eapply cbs_ok_mono; [|by apply Hs]; intros; by rewrite Htg).
  destruct (decide (i = length (events s))); simplify_eq.
  - unfold cbs_ok. auto.
  - eapply cbs_ok_mono; [|by apply Hs]. intros; by rewrite Htg.
Qed.

Lemma idle_exit_request (r p : nat) (s : state) : idle s p -> idle (exit_request r s) p.
Proof.
  intros Hs ev cbs Hev.
  erewrite (get_callbacks_events_app s) in Hev; cycle 1.
  { unfold exit_request, release, cancel. destruct (triggered r s); simpl; reflexivity. }
  { apply exit_request_procs. }
  { apply exit_request_reqs. }
  destruct ev as [i| |]; try by eapply Hs.
  destruct (decide (i = length (events s))); simplify_eq; [set_solver|by eapply Hs].
Qed.

Lemma get_callbacks_spawn (g : generator) (ev : event) (s : state) :
  get_callbacks ev (spawn g s) =
    match ev with
    | Ev i => if decide (i = length (events s)) then Some [resume_cb (length (procs s))]
              else get_callbacks ev s
    | Proc q => if decide (q = length (procs s)) then Some [] else get_callbacks ev s
    | Req _ => get_callbacks ev s
    end.
Proof.
  destruct ev as [i|r|q]; simpl; [|done|].
  - destruct (decide (i = length (events s))) as [->|Hne]; [by rewrite lookup_snoc|].
    destruct (decide (i < length (events s))); [by rewrite lookup_app_l|].
    rewrite !lookup_ge_None_2; [done|lia|]. rewrite length_app. simpl. lia.
  - destruct (decide (q = length (procs s))) as [->|Hne]; [by rewrite lookup_snoc|].
    destruct (decide (q < length (procs s))); [by rewrite lookup_app_l|].
    rewrite !lookup_ge_None_2; [done|lia|]. rewrite length_app. simpl. lia.
Qed.

Lemma target_of_lt (s : state) (q : nat) (ev : event) :
  target_of s q = Some ev -> q < length (procs s).
Proof.
  unfold target_of. destruct (procs s !! q) eqn:Hq; [|done].
  intros _. by eapply lookup_lt_Some.
Qed.

Lemma cb_ok_spawn (g : generator) (s : state) : cb_ok s -> cb_ok (spawn g s).
Proof.
  intros Hs ev cbs Hev. rewrite get_callbacks_spawn in Hev.
  assert (forall ev' cbs', cbs_ok s ev' cbs' -> cbs_ok (spawn g s) ev' cbs') as Hmono.
  { intros ev' cbs'. apply cbs_ok_mono. intros q _ Hq.
    by eapply target_of_app; [simpl; reflexivity|]. }
  destruct ev as [i|r|q].
  - destruct (decide (i = length (events s))) as [->|]; [|by apply Hmono, Hs].
    simplify_eq. do 3 right. eexists. split; [by left|].
    unfold target_of. simpl. by rewrite lookup_snoc.
  - by apply Hmono, Hs.
  - destruct (decide (q = length (procs s))) as [->|]; [|by apply Hmono, Hs].
    simplify_eq. by left.
Qed.

Lemma idle_spawn (g : generator) (p : nat) (s : state) :
  p < length (procs s) -> idle s p -> idle (spawn g s) p.
Proof.
  intros Hp Hs ev cbs Hev. rewrite get_callbacks_spawn in Hev.
  destruct ev as [i|r|q]; [|by eapply Hs|].
  - destruct (decide (i = length (events s))) as [->|]; [|by eapply Hs].
    simplify_eq. intros Hin%list_elem_of_singleton. simplify_eq. lia.
  - destruct (decide (q = length (procs s))) as [->|]; [|by eapply Hs].
    simplify_eq. set_solver.
Qed.

Lemma cb_ok_enqueue (p : nat) (g : generator) (s : state) :
  is_Some (procs s !! p) -> idle s p -> cb_ok s -> cb_ok (enqueue p g s).
Proof.
  intros Hp Hidle Hs ev cbs Hev.
  destruct ev as [i|r|q]; simpl in Hev.
  - eapply cbs_ok_retarget; [simpl; reflexivity|by eapply (Hidle (Ev i))|by apply Hs].
  - destruct (decide (r = length (reqs s))) as [->|Hne].
    + rewrite lookup_snoc in Hev. simpl in Hev. simplify_eq.
      do 3 right. exists p. split; [by right|].
      by eapply target_of_alter_eq; [simpl; reflexivity|].
    + destruct (decide (r < length (reqs s))) as [Hlt|Hge].
      * rewrite lookup_app_l in Hev by done.
        eapply cbs_ok_retarget; [simpl; reflexivity|by eapply (Hidle (Req r))|by apply Hs].
      * rewrite lookup_ge_None_2 in Hev; [done|]. rewrite length_app. simpl. lia.
  - rewrite proc_callbacks_alter in Hev.
    eapply cbs_ok_retarget; [simpl; reflexivity|by eapply (Hidle (Proc q))|by apply Hs].
Qed.

Lemma cb_ok_finish (p : nat) (g : generator) (s : state) :
  idle s p -> cb_ok s -> cb_ok (finish p g s).
Proof.
  intros Hidle Hs ev cbs Hev.
  destruct ev as [i|r|q]; simpl in Hev.
  - eapply cbs_ok_retarget; [simpl; reflexivity|by eapply (Hidle (Ev i))|by apply Hs].
  - eapply cbs_ok_retarget; [simpl; reflexivity|by eapply (Hidle (Req r))|by apply Hs].
  - rewrite proc_callbacks_alter in Hev.
    eapply cbs_ok_retarget; [simpl; reflexivity|by eapply (Hidle (Proc q))|by apply Hs].
Qed.

Lemma cb_ok_spawn_wait (p : nat) (g gw : generator) (s : state) :
  is_Some (procs s !! p) -> idle s p -> cb_ok s -> cb_ok (spawn_wait p g gw s).
Proof.
  intros Hp Hidle Hs ev cbs Hev.
  assert (forall ev' cbs', get_callbacks ev' s = Some cbs' ->
            cbs_ok (spawn_wait p g gw s) ev' cbs') as Hold.
  { intros ev' cbs' Hev'. eapply cbs_ok_mono; [|by apply Hs].
    intros q Hq Htq. unfold target_of. simpl.
    assert (q <> p) by (intros ->; by eapply Hidle).
    pose proof (target_of_lt _ _ _ Htq).
    rewrite lookup_app_l by (by rewrite length_alter).
    by rewrite list_lookup_alter_ne. }
  destruct ev as [i|r|q]; simpl in Hev.
  - destruct (decide (i = length (events s))) as [->|Hne].
    + rewrite lookup_snoc in Hev. simpl in Hev. simplify_eq.
      do 3 right. eexists. split; [by left|]. unfold target_of. simpl.
      by rewrite lookup_alter_snoc.
    + destruct (decide (i < length (events s))) as [Hlt|Hge].
      * rewrite lookup_app_l in Hev by done. by apply Hold.
      * rewrite lookup_ge_None_2 in Hev; [done|]. rewrite length_app. simpl. lia.
  - by apply Hold.
  - destruct (decide (q = length (procs s))) as [->|Hne].
    + rewrite lookup_alter_snoc in Hev. simpl in Hev. simplify_eq.
      do 3 right. exists p. split; [by left|]. unfold target_of. simpl.
      destruct Hp as [pr Hpr].
      rewrite lookup_app_l by (rewrite length_alter; by eapply lookup_lt_Some).
      by rewrite list_lookup_alter_eq, Hpr.
    + destruct (decide (q < length (procs s))) as [Hlt|Hge].
      * rewrite lookup_app_l in Hev by (by rewrite length_alter).
        rewrite proc_callbacks_alter in Hev. by apply Hold.
      * rewrite lookup_ge_None_2 in Hev; [done|].
        rewrite length_app, length_alter. simpl. lia.
Qed.

Lemma get_callbacks_popped (x : scheduled) (q : list scheduled) (ev : event) (s : state) :
  get_callbacks ev (popped x q s) =
    if decide (ev = item x) then None else get_callbacks ev s.
Proof.
  unfold popped. destruct (decide (ev = item x)) as [->|Hne].
  - destruct (item x) as [i|r|p]; simpl.
    + destruct (decide (i < length (events s))).
      * by rewrite list_lookup_insert_eq.
      * rewrite list_insert_ge by lia. by rewrite lookup_ge_None_2 by lia.
    + rewrite list_lookup_alter_eq. by destruct (reqs s !! r).
    + rewrite list_lookup_alter_eq. by destruct (procs s !! p).
  - destruct (item x) as [i|r|p], ev as [i'|r'|p']; simpl; try done.
    + rewrite list_lookup_insert_ne; [done|congruence].
    + rewrite list_lookup_alter_ne; [done|congruence].
    + rewrite list_lookup_alter_ne; [done|congruence].
Qed.

Lemma target_of_popped (x : scheduled) (q : list scheduled) (p : nat) (s : state) :
  target_of (popped x q s) p = target_of s p.
Proof.
  unfold popped, target_of. destruct (item x) as [i|r|p']; simpl; try done.
  rewrite list_lookup_alter. destruct (decide (p' = p)) as [->|]; [|done].
  by destruct (procs s !! p).
Qed.

Lemma cb_ok_popped (x : scheduled) (q : list scheduled) (s : state) :
  cb_ok s -> cb_ok (popped x q s).
Proof.
  intros Hs ev cbs Hev. rewrite get_callbacks_popped in Hev.
  destruct (decide (ev = item x)); [done|].
  eapply cbs_ok_mono; [|by apply Hs]. intros p _. by rewrite target_of_popped.
Qed.

Lemma cbs_ok_resume (s : state) (ev : event) (cbs : list callback) (p : nat) :
  cbs_ok s ev cbs -> resume_cb p ∈ cbs -> target_of s p = Some ev.
Proof.
  intros [->|[->|[->|(q' & [->| ->] & Htq)]]] Hin; set_solver.
Qed.

Lemma idle_popped (x : scheduled) (q : list scheduled) (cbs : list callback) (p : nat)
    (s : state) :
  cb_ok s -> get_callbacks (item x) s = Some cbs -> resume_cb p ∈ cbs ->
  idle (popped x q s) p.
Proof.
  intros Hs Hcb Hp ev cbs' Hev Hin. rewrite get_callbacks_popped in Hev.
  destruct (decide (ev = item x)) as [|Hne]; [done|].
  pose proof (cbs_ok_resume _ _ _ _ (Hs _ _ Hcb) Hp) as H1.
  pose proof (cbs_ok_resume _ _ _ _ (Hs _ _ Hev) Hin) as H2.
  congruence.
Qed.

Lemma is_Some_lookup_app {A} (l k : list A) (i : nat) :
  is_Some (l !! i) -> is_Some ((l ++ k) !! i).
Proof. intros [x Hx]. exists x. by apply lookup_app_l_Some. Qed.

Ltac side_tac :=
  repeat lazymatch goal with
    | H : idle ?s ?p |- idle ?s ?p => exact H
    | H : procs ?s !! ?p = Some _ |- is_Some (procs ?s !! ?p) => by eexists
    | |- idle (spawn _ _) _ => apply idle_spawn; [by eapply lookup_lt_Some|]
    | |- idle (exit_request _ _) _ => apply idle_exit_request
    | |- idle (?f ?s) ?p => apply (idle_ext s); [simpl; reflexivity ..|]
    | |- is_Some (procs (exit_request _ _) !! _) => rewrite exit_request_procs
    | |- is_Some (procs (spawn _ _) !! _) => apply is_Some_lookup_app
    | |- is_Some (procs (_ ?s) !! ?p) => change (is_Some (procs s !! p))
    end.

Ltac cb_ok_tac :=
  repeat lazymatch goal with
    | H : cb_ok ?s |- cb_ok ?s => exact H
    | |- cb_ok (trigger_put _) => apply cb_ok_trigger_put
    | |- cb_ok (exit_request _ _) => apply cb_ok_exit_request
    | |- cb_ok (after_timeout _ _ _ _) => apply cb_ok_after_timeout; [side_tac|side_tac|]
    | |- cb_ok (enqueue _ _ _) => apply cb_ok_enqueue; [side_tac|side_tac|]
    | |- cb_ok (spawn_wait _ _ _ _) => apply cb_ok_spawn_wait; [side_tac|side_tac|]
    | |- cb_ok (finish _ _ _) => apply cb_ok_finish; [side_tac|]
    | |- cb_ok (spawn _ _) => apply cb_ok_spawn
    | |- cb_ok _ => peel cb_ok_ext
    end.

Lemma segment_cb_ok (p : nat) (pr : Process) (s s' : state) :
  procs s !! p = Some pr -> idle s p -> cb_ok s ->
  segment p (gen pr) s s' -> cb_ok s'.
Proof.
  intros Hp Hidle Hs Hseg.
  destruct (gen pr); unfold segment in Hseg; destruct_segment; cb_ok_tac.
Qed.

(** ** Plain events and finished processes in the queue *)

Lemma range_ok_ext (s s' : state) :
  queue s' = queue s -> events s' = events s -> range_ok s -> range_ok s'.
Proof. unfold range_ok. by intros -> ->. Qed.

Lemma range_ok_schedule (ev : event) (prio : nat) (d : Q) (s : state) :
  (forall i, ev = Ev i -> i < length (events s)) ->
  range_ok s -> range_ok (schedule ev prio d s).
Proof.
  intros Hev Hs x i Hx Hi. simpl in Hx.
  apply elem_of_heappush in Hx as [->|Hx]; [by apply Hev|by eapply Hs].
Qed.

Lemma range_ok_events (l : list (option (list callback))) (s : state) :
  range_ok s -> range_ok (set_events (events s ++ l) s).
Proof.
  intros Hs x i Hx Hi. simpl. rewrite length_app.
  pose proof (Hs x i Hx Hi). lia.
Qed.

Lemma range_ok_trigger_put (s : state) : range_ok s -> range_ok (trigger_put s).
Proof.
  intros Hs. unfold trigger_put. destruct (put_queue s) as [|h rest]; [done|].
  assert (range_ok (do_put h s)) as H.
  { unfold do_put. destruct (_ <? _)%nat; [|done]. unfold succeed.
    apply range_ok_schedule; [done|]. by eapply range_ok_ext. }
  destruct (triggered h (do_put h s)); [|done]. by eapply range_ok_ext.
Qed.

Lemma range_ok_exit_request (r : nat) (s : state) :
  range_ok s -> range_ok (exit_request r s).
Proof.
  intros Hs. unfold exit_request, release, succeed.
  apply range_ok_schedule.
  { intros i Hi. simplify_eq. simpl. rewrite length_app. simpl. lia. }
  eapply (range_ok_ext (set_events (events (cancel r s) ++ [Some [trigger_put_cb]]) (cancel r s)));
    [done..|].
  apply range_ok_events. unfold cancel. destruct (triggered r s); by eapply range_ok_ext.
Qed.

Lemma range_ok_popped (x : scheduled) (q : list scheduled) (s : state) :
  queue s = x :: q -> range_ok s -> range_ok (popped x q s).
Proof.
  intros Hq Hs y i Hy Hi.
  assert (y ∈ queue s) as Hy'.
  { rewrite Hq. unfold popped in Hy. destruct (item x); simpl in Hy; set_solver. }
  pose proof (Hs y i Hy' Hi).
  unfold popped. destruct (item x); simpl; try done. by rewrite length_insert.
Qed.

Lemma range_ok_push (i : nat) (prio : nat) (d : Q) (l : list (option (list callback)))
    (s s' : state) :
  queue s' = heappush (Scheduled (now s + d) prio (eid s) (Ev i)) (queue s) ->
  events s' = events s ++ l -> i < length (events s') ->
  range_ok s -> range_ok s'.
Proof.
  intros Hq He Hi Hs x j Hx Hj. rewrite Hq in Hx.
  apply elem_of_heappush in Hx as [->|Hx]; [simpl in Hj; by simplify_eq|].
  pose proof (Hs x j Hx Hj). rewrite He, length_app. lia.
Qed.

Ltac range_ok_push :=
  eapply range_ok_push;
  [simpl; reflexivity|simpl; reflexivity|simpl; rewrite length_app; simpl; lia|].

Lemma range_ok_after_timeout (p : nat) (g : generator) (d : Q) (s : state) :
  range_ok s -> range_ok (after_timeout p g d s).
Proof. intros Hs. by range_ok_push. Qed.

Lemma range_ok_spawn (g : generator) (s : state) : range_ok s -> range_ok (spawn g s).
Proof. intros Hs. by range_ok_push. Qed.

Lemma range_ok_spawn_wait (p : nat) (g gw : generator) (s : state) :
  range_ok s -> range_ok (spawn_wait p g gw s).
Proof. intros Hs. by range_ok_push. Qed.

Lemma range_ok_finish (p : nat) (g : generator) (s : state) :
  range_ok s -> range_ok (finish p g s).
Proof.
  intros Hs. unfold finish, succeed. apply range_ok_schedule; [done|].
  by eapply range_ok_ext.
Qed.

Ltac range_ok_tac :=
  repeat lazymatch goal with
    | H : range_ok ?s |- range_ok ?s => exact H
    | |- range_ok (trigger_put _) => apply range_ok_trigger_put
    | |- range_ok (exit_request _ _) => apply range_ok_exit_request
    | |- range_ok (after_timeout _ _ _ _) => apply range_ok_after_timeout
    | |- range_ok (spawn _ _) => apply range_ok_spawn
    | |- range_ok (spawn_wait _ _ _ _) => apply range_ok_spawn_wait
    | |- range_ok (finish _ _ _) => apply range_ok_finish
    | |- _ => peel range_ok_ext
    end.

Lemma segment_range_ok (p : nat) (g : generator) (s s' : state) :
  range_ok s -> segment p g s s' -> range_ok s'.
Proof.
  intros Hs Hseg. destruct g; unfold segment in Hseg; destruct_segment; range_ok_tac.
Qed.

Lemma gen_of_alter (s s' : state) (g : generator) (tg : option event) (p q : nat) :
  procs s' = alter (with_gen g tg) p (procs s) -> q <> p -> gen_of s' q = gen_of s q.
Proof. intros Hp Hq. unfold gen_of. by rewrite Hp, list_lookup_alter_ne. Qed.

Lemma gen_of_alter_eq (s s' : state) (g : generator) (tg : option event) (p : nat) :
  procs s' = alter (with_gen g tg) p (procs s) -> is_Some (procs s !! p) ->
  gen_of s' p = Some g.
Proof.
  intros Hp [pr Hpr]. unfold gen_of. by rewrite Hp, list_lookup_alter_eq, Hpr.
Qed.

Lemma gen_of_app (s s' : state) (l : list Process) (q : nat) (g : generator) :
  procs s' = procs s ++ l -> gen_of s q = Some g -> gen_of s' q = Some g.
Proof.
  intros Hp. unfold gen_of. rewrite Hp.
  destruct (procs s !! q) as [pr|] eqn:Hq; [|done].
  by rewrite (lookup_app_l_Some _ _ _ _ Hq).
Qed.

Lemma gen_of_Some (s : state) (p : nat) (pr : Process) :
  procs s !! p = Some pr -> gen_of s p = Some (gen pr).
Proof. unfold gen_of. by intros ->. Qed.

Lemma qproc_ok_ext (s s' : state) :
  queue s' = queue s -> procs s' = procs s -> qproc_ok s -> qproc_ok s'.
Proof. unfold qproc_ok, gen_of. by intros -> ->. Qed.

Lemma qproc_ok_schedule (ev : event) (prio : nat) (d : Q) (s : state) :
  (forall p, ev = Proc p -> exists g, gen_of s p = Some g /\ ended g = true) ->
  qproc_ok s -> qproc_ok (schedule ev prio d s).
Proof.
  intros Hev Hs x p Hx Hp. simpl in Hx.
  apply elem_of_heappush in Hx as [->|Hx]; [by apply Hev|by eapply Hs].
Qed.

(** The generator of [p], which has not ended, moves on. *)
Lemma qproc_ok_regen (s s' : state) (g0 g : generator) (tg : option event)
    (l : list Process) (p : nat) :
  queue s' = queue s -> procs s' = alter (with_gen g tg) p (procs s) ++ l ->
  gen_of s p = Some g0 -> ended g0 = false ->
  qproc_ok s -> qproc_ok s'.
Proof.
  intros Hq Hp Hg0 Hend Hs x q Hx Hi. rewrite Hq in Hx.
  destruct (Hs x q Hx Hi) as (g' & Hg' & He). exists g'. split; [|done].
  assert (q <> p) by (intros ->; congruence).
  unfold gen_of in *. rewrite Hp.
  destruct (procs s !! q) as [pq|] eqn:Hpq; [|done].
  rewrite lookup_app_l by (rewrite length_alter; by eapply lookup_lt_Some).
  by rewrite list_lookup_alter_ne, Hpq.
Qed.

Lemma qproc_ok_app (s s' : state) (l : list Process) :
  queue s' = queue s -> procs s' = procs s ++ l -> qproc_ok s -> qproc_ok s'.
Proof.
  intros Hq Hp Hs x q Hx Hi. rewrite Hq in Hx.
  destruct (Hs x q Hx Hi) as (g' & Hg' & He). exists g'. split; [|done].
  by eapply gen_of_app.
Qed.

Lemma qproc_ok_trigger_put (s : state) : qproc_ok s -> qproc_ok (trigger_put s).
Proof.
  intros Hs. unfold trigger_put. destruct (put_queue s) as [|h rest]; [done|].
  assert (qproc_ok (do_put h s)) as H.
  { unfold do_put. destruct (_ <? _)%nat; [|done]. unfold succeed.
    apply qproc_ok_schedule; [done|]. by eapply qproc_ok_ext. }
  destruct (triggered h (do_put h s)); [|done]. by eapply qproc_ok_ext.
Qed.

Lemma qproc_ok_exit_request (r : nat) (s : state) :
  qproc_ok s -> qproc_ok (exit_request r s).
Proof.
  intros Hs. unfold exit_request, release, succeed.
  apply qproc_ok_schedule; [done|].
  unfold cancel. destruct (triggered r s); by eapply qproc_ok_ext.
Qed.

Lemma gen_of_popped (x : scheduled) (q : list scheduled) (p : nat) (s : state) :
  gen_of (popped x q s) p = gen_of s p.
Proof.
  unfold popped, gen_of. destruct (item x) as [i|r|p']; simpl; try done.
  rewrite list_lookup_alter. destruct (decide (p' = p)) as [->|]; [|done].
  by destruct (procs s !! p).
Qed.

Lemma queue_popped (x : scheduled) (q : list scheduled) (s : state) :
  queue (popped x q s) = q.
Proof. unfold popped. by destruct (item x). Qed.

Lemma qproc_ok_popped (x : scheduled) (q : list scheduled) (s : state) :
  queue s = x :: q -> qproc_ok s -> qproc_ok (popped x q s).
Proof.
  intros Hq Hs y p Hy Hp. rewrite queue_popped in Hy. rewrite gen_of_popped.
  apply (Hs y); [rewrite Hq; set_solver|done].
Qed.

Lemma qproc_ok_after_timeout (p : nat) (g0 g : generator) (d : Q) (s : state) :
  gen_of s p = Some g0 -> ended g0 = false ->
  qproc_ok s -> qproc_ok (after_timeout p g d s).
Proof.
  intros Hg0 Hend Hs. unfold after_timeout. apply qproc_ok_ext with
    (s := schedule (Ev (length (events s))) NORMAL d
            (set_procs (alter (with_gen g (Some (Ev (length (events s))))) p (procs s)) s));
    [done..|].
  apply qproc_ok_schedule; [done|].
  eapply (qproc_ok_regen s _ g0 g _ []); [done|simpl; by rewrite app_nil_r|done..].
Qed.

Lemma qproc_ok_spawn (g : generator) (s : state) : qproc_ok s -> qproc_ok (spawn g s).
Proof.
  intros Hs. unfold spawn. apply qproc_ok_schedule; [done|].
  eapply qproc_ok_app; [| |exact Hs]; simpl; reflexivity.
Qed.

Lemma qproc_ok_enqueue (p : nat) (g0 g : generator) (s : state) :
  gen_of s p = Some g0 -> ended g0 = false ->
  qproc_ok s -> qproc_ok (enqueue p g s).
Proof.
  intros Hg0 Hend Hs.
  eapply (qproc_ok_regen s _ g0 g _ []); [done|simpl; by rewrite app_nil_r|done..].
Qed.

Lemma qproc_ok_spawn_wait (p : nat) (g0 g gw : generator) (s : state) :
  gen_of s p = Some g0 -> ended g0 = false ->
  qproc_ok s -> qproc_ok (spawn_wait p g gw s).
Proof.
  intros Hg0 Hend Hs. unfold spawn_wait. apply qproc_ok_schedule; [done|].
  eapply (qproc_ok_regen s _ g0 g); [| |done..]; simpl; reflexivity.
Qed.

Lemma qproc_ok_finish (p : nat) (g : generator) (s : state) :
  is_Some (procs s !! p) -> ended g = true ->
  qproc_ok s -> qproc_ok (finish p g s).
Proof.
  intros Hp Hend Hs x q Hx Hi. simpl in Hx.
  apply elem_of_heappush in Hx as [->|Hx].
  - simpl in Hi. simplify_eq. exists g. split; [|done].
    by eapply gen_of_alter_eq; [simpl; reflexivity|].
  - destruct (Hs x q Hx Hi) as (g' & Hg' & He).
    destruct (decide (q = p)) as [->|Hne].
    + exists g. split; [|done]. by eapply gen_of_alter_eq; [simpl; reflexivity|].
    + exists g'. split; [|done]. rewrite <- Hg'.
      by eapply gen_of_alter; [simpl; reflexivity|].
Qed.

Lemma gen_of_exit_request (r p : nat) (s : state) :
  gen_of (exit_request r s) p = gen_of s p.
Proof. unfold gen_of. by rewrite exit_request_procs. Qed.

Lemma gen_of_ext (s' s : state) (p : nat) :
  procs s' = procs s -> gen_of s' p = gen_of s p.
Proof. unfold gen_of. by intros ->. Qed.

Ltac gen_side :=
  repeat lazymatch goal with
    | H : procs ?s !! ?p = Some ?pr, Hg : gen ?pr = ?g |- gen_of ?s ?p = Some _ =>
        rewrite (gen_of_Some s p pr H), Hg; reflexivity
    | |- gen_of (exit_request _ _) _ = _ => rewrite gen_of_exit_request
    | |- gen_of (spawn ?g ?s) ?p = Some _ =>
        eapply (gen_of_app s (spawn g s)); [simpl; reflexivity|]
    | |- gen_of (?f ?s) ?p = _ => rewrite (gen_of_ext (f s) s p) by (simpl; reflexivity)
    end.

Ltac qproc_ok_tac :=
  repeat lazymatch goal with
    | H : qproc_ok ?s |- qproc_ok ?s => exact H
    | |- qproc_ok (trigger_put _) => apply qproc_ok_trigger_put
    | |- qproc_ok (exit_request _ _) => apply qproc_ok_exit_request
    | |- qproc_ok (after_timeout _ _ _ _) =>
        eapply qproc_ok_after_timeout; [gen_side|reflexivity|]
    | |- qproc_ok (enqueue _ _ _) => eapply qproc_ok_enqueue; [gen_side|reflexivity|]
    | |- qproc_ok (spawn_wait _ _ _ _) =>
        eapply qproc_ok_spawn_wait; [gen_side|reflexivity|]
    | |- qproc_ok (finish _ _ _) => apply qproc_ok_finish; [side_tac|reflexivity|]
    | |- qproc_ok (spawn _ _) => apply qproc_ok_spawn
    | |- qproc_ok _ => peel qproc_ok_ext
    end.

Lemma segment_qproc_ok (p : nat) (pr : Process) (s s' : state) :
  procs s !! p = Some pr -> qproc_ok s ->
  segment p (gen pr) s s' -> qproc_ok s'.
Proof.
  intros Hp Hs Hseg.
  destruct (gen pr) eqn:Hg; unfold segment in Hseg; destruct_segment; qproc_ok_tac.
Qed.

(** ** Who holds which request *)

Lemma own_ok_ext (s s' : state) :
  users s' = users s -> put_queue s' = put_queue s -> reqs s' = reqs s ->
  procs s' = procs s -> own_ok s -> own_ok s'.
Proof. unfold own_ok, owner_of, gen_of. by intros -> -> -> ->. Qed.

Lemma unowned_ext (s s' : state) (p : nat) :
  users s' = users s -> put_queue s' = put_queue s -> reqs s' = reqs s ->
  unowned s p -> unowned s' p.
Proof. unfold unowned, owner_of. by intros -> -> ->. Qed.

Lemma own_ok_regen (s s' : state) (g : generator) (tg : option event)
    (l : list Process) (p : nat) :
  users s' = users s -> put_queue s' = put_queue s -> reqs s' = reqs s ->
  procs s' = alter (with_gen g tg) p (procs s) ++ l ->
  (forall r, r ∈ users s ++ put_queue s -> owner_of s r = Some p -> holds g = Some r) ->
  own_ok s -> own_ok s'.
Proof.
  intros Hu Hq Hr Hp Hside Hs r Hin. rewrite Hu, Hq in Hin.
  destruct (Hs r Hin) as (q & g' & Ho & Hg & Hh).
  unfold owner_of. rewrite Hr. fold (owner_of s r). exists q.
  unfold gen_of in *. rewrite Hp.
  destruct (procs s !! q) as [pq|] eqn:Hpq; [|done].
  rewrite lookup_app_l by (rewrite length_alter; by eapply lookup_lt_Some).
  destruct (decide (q = p)) as [->|Hne].
  - exists g. rewrite list_lookup_alter_eq, Hpq. split; [done|]. split; [done|].
    by apply Hside.
  - exists g'. by rewrite list_lookup_alter_ne, Hpq.
Qed.

Lemma own_ok_same_holds (s : state) (g0 g : generator) (p : nat) :
  own_ok s -> gen_of s p = Some g0 -> holds g = holds g0 ->
  forall r, r ∈ users s ++ put_queue s -> owner_of s r = Some p -> holds g = Some r.
Proof.
  intros Hs Hg0 Hh r Hin Ho. destruct (Hs r Hin) as (q & g' & Ho' & Hg' & Hh').
  congruence.
Qed.

Lemma unowned_holds (s : state) (g : generator) (p : nat) :
  unowned s p ->
  forall r, r ∈ users s ++ put_queue s -> owner_of s r = Some p -> holds g = Some r.
Proof. intros Hs r Hin Ho. by destruct (Hs r Hin). Qed.

Lemma unowned_none (s : state) (g0 : generator) (p : nat) :
  own_ok s -> gen_of s p = Some g0 -> holds g0 = None -> unowned s p.
Proof.
  intros Hs Hg0 Hh r Hin Ho. destruct (Hs r Hin) as (q & g' & Ho' & Hg' & Hh').
  congruence.
Qed.

Lemma pool_exit_request (r r' : nat) (s : state) :
  reqs_ok s -> r' ∈ users (exit_request r s) ++ put_queue (exit_request r s) ->
  r' ∈ users s ++ put_queue s /\ r' <> r.
Proof.
  intros (Hu & Hq & Husers & Hpend).
  pose proof (NoDup_list_remove_first r _ Hu) as [_ Hu'].
  pose proof (NoDup_list_remove_first r _ Hq) as [_ Hq'].
  unfold exit_request, release, cancel.
  destruct (triggered r s) eqn:Htr; simpl; rewrite !elem_of_app.
  - apply triggered_true in Htr as [u Htr].
    intros [Hin|Hin].
    + split; [left; by eapply elem_of_list_remove_first|]. by intros ->.
    + split; [by right|]. intros ->. destruct (Hpend r Hin). congruence.
  - intros [Hin|Hin].
    + split; [left; by eapply elem_of_list_remove_first|]. by intros ->.
    + split; [right; by eapply elem_of_list_remove_first|]. by intros ->.
Qed.

Lemma own_ok_exit_request (r : nat) (s : state) :
  reqs_ok s -> own_ok s -> own_ok (exit_request r s).
Proof.
  intros Hreqs Hs r' Hin. apply pool_exit_request in Hin as [Hin _]; [|done].
  destruct (Hs r' Hin) as (q & g' & Ho & Hg & Hh). exists q, g'.
  unfold owner_of, gen_of. by rewrite exit_request_reqs, exit_request_procs.
Qed.

Lemma unowned_exit_request (r p : nat) (g0 : generator) (s : state) :
  reqs_ok s -> own_ok s -> gen_of s p = Some g0 -> holds g0 = Some r ->
  unowned (exit_request r s) p.
Proof.
  intros Hreqs Hs Hg0 Hh r' Hin Ho. apply pool_exit_request in Hin as [Hin Hne]; [|done].
  destruct (Hs r' Hin) as (q & g' & Ho' & Hg' & Hh').
  unfold owner_of in Ho. rewrite exit_request_reqs in Ho. fold (owner_of s r') in Ho.
  congruence.
Qed.

Lemma owner_of_app (s s' : state) (l : list Request) (r p : nat) :
  reqs s' = reqs s ++ l -> owner_of s r = Some p -> owner_of s' r = Some p.
Proof.
  intros Hr. unfold owner_of. rewrite Hr.
  destruct (reqs s !! r) as [rq|] eqn:Hrq; [|done].
  by rewrite (lookup_app_l_Some _ _ _ _ Hrq).
Qed.

Lemma own_ok_enqueue (p : nat) (g : generator) (s : state) :
  is_Some (procs s !! p) -> holds g = Some (length (reqs s)) -> unowned s p ->
  own_ok s -> own_ok (enqueue p g s).
Proof.
  intros Hp Hg Hun Hs r Hin. simpl in Hin.
  rewrite app_assoc, elem_of_app, list_elem_of_singleton in Hin.
  destruct Hin as [Hin| ->].
  - destruct (Hs r Hin) as (q & g' & Ho & Hg' & Hh). exists q, g'.
    split; [by eapply owner_of_app; [simpl; reflexivity|]|]. split; [|done].
    rewrite <- Hg'. eapply gen_of_alter; [simpl; reflexivity|].
    intros ->. by destruct (Hun r Hin).
  - exists p, g. split; [|split; [|done]].
    + unfold owner_of. simpl. by rewrite lookup_snoc.
    + by eapply gen_of_alter_eq; [simpl; reflexivity|].
Qed.

Lemma owner_of_alter_usage (s s' : state) (t : Q) (h r : nat) :
  reqs s' = alter (with_usage_since t) h (reqs s) -> owner_of s' r = owner_of s r.
Proof.
  intros Hr. unfold owner_of. rewrite Hr, list_lookup_alter.
  destruct (decide (h = r)) as [->|]; [|done]. by destruct (reqs s !! r).
Qed.

Lemma own_ok_grant (h : nat) (rest : list nat) (s : state) :
  put_queue s = h :: rest -> own_ok s -> own_ok (grant h rest s).
Proof.
  intros Hpq Hs r Hin. simpl in Hin.
  assert (r ∈ users s ++ put_queue s) as Hin' by (rewrite Hpq; set_solver).
  destruct (Hs r Hin') as (q & g' & Ho & Hg & Hh). exists q, g'.
  split; [|done]. rewrite <- Ho. by eapply owner_of_alter_usage; simpl.
Qed.

Lemma own_ok_trigger_put (s : state) : reqs_ok s -> own_ok s -> own_ok (trigger_put s).
Proof.
  intros Hreqs Hs.
  destruct (trigger_put_cases s (reqs_ok_pending s Hreqs))
    as [[-> _]|(h & rest & Hpq & _ & ->)]; [done|].
  by apply own_ok_grant.
Qed.

Lemma own_ok_spawn (g : generator) (s : state) : own_ok s -> own_ok (spawn g s).
Proof.
  intros Hs r Hin. destruct (Hs r Hin) as (q & g' & Ho & Hg & Hh). exists q, g'.
  split; [done|]. split; [|done]. by eapply gen_of_app; [simpl; reflexivity|].
Qed.

Lemma unowned_spawn (g : generator) (p : nat) (s : state) :
  unowned s p -> unowned (spawn g s) p.
Proof. by apply unowned_ext. Qed.

Lemma owner_of_popped (x : scheduled) (q : list scheduled) (r : nat) (s : state) :
  owner_of (popped x q s) r = owner_of s r.
Proof.
  unfold popped, owner_of. destruct (item x) as [i|r'|p']; simpl; try done.
  rewrite list_lookup_alter. destruct (decide (r' = r)) as [->|]; [|done].
  by destruct (reqs s !! r).
Qed.

Lemma users_popped (x : scheduled) (q : list scheduled) (s : state) :
  users (popped x q s) = users s.
Proof. unfold popped. by destruct (item x). Qed.

Lemma put_queue_popped (x : scheduled) (q : list scheduled) (s : state) :
  put_queue (popped x q s) = put_queue s.
Proof. unfold popped. by destruct (item x). Qed.

Lemma own_ok_popped (x : scheduled) (q : list scheduled) (s : state) :
  own_ok s -> own_ok (popped x q s).
Proof.
  intros Hs r Hin. rewrite users_popped, put_queue_popped in Hin.
  rewrite owner_of_popped. destruct (Hs r Hin) as (p & g & Ho & Hg & Hh).
  exists p, g. by rewrite gen_of_popped.
Qed.

Lemma own_ok_after_timeout (p : nat) (g : generator) (d : Q) (s : state) :
  (forall r, r ∈ users s ++ put_queue s -> owner_of s r = Some p -> holds g = Some r) ->
  own_ok s -> own_ok (after_timeout p g d s).
Proof.
  intros Hside Hs.
  eapply (own_ok_regen s _ g _ []); [..|exact Hside|exact Hs]; simpl; try reflexivity.
  by rewrite app_nil_r.
Qed.

Lemma own_ok_finish (p : nat) (g : generator) (s : state) :
  (forall r, r ∈ users s ++ put_queue s -> owner_of s r = Some p -> holds g = Some r) ->
  own_ok s -> own_ok (finish p g s).
Proof.
  intros Hside Hs.
  eapply (own_ok_regen s _ g _ []); [..|exact Hside|exact Hs]; simpl; try reflexivity.
  by rewrite app_nil_r.
Qed.

Lemma own_ok_spawn_wait (p : nat) (g gw : generator) (s : state) :
  (forall r, r ∈ users s ++ put_queue s -> owner_of s r = Some p -> holds g = Some r) ->
  own_ok s -> own_ok (spawn_wait p g gw s).
Proof.
  intros Hside Hs.
  eapply (own_ok_regen s _ g); [..|exact Hside|exact Hs]; simpl; reflexivity.
Qed.

Ltac own_ok_tac :=
  repeat lazymatch goal with
    | H : own_ok ?s |- own_ok ?s => exact H
    | |- own_ok (trigger_put _) => apply own_ok_trigger_put; [reqs_ok_tac|]
    | |- own_ok (exit_request _ _) => apply own_ok_exit_request; [reqs_ok_tac|]
    | |- own_ok (spawn _ _) => apply own_ok_spawn
    | |- own_ok (after_timeout _ _ _ _) => apply own_ok_after_timeout; [holds_side|]
    | |- own_ok (finish _ _ _) => apply own_ok_finish; [holds_side|]
    | |- own_ok (spawn_wait _ _ _ _) => apply own_ok_spawn_wait; [holds_side|]
    | |- own_ok (enqueue _ _ _) =>
        apply own_ok_enqueue;
        [side_tac|rewrite ?exit_request_reqs; reflexivity|unowned_side|]
    | |- own_ok _ => peel own_ok_ext
    end
with holds_side :=
  first
    [ solve [eapply own_ok_same_holds; [own_ok_tac|gen_side|reflexivity]]
    | apply unowned_holds; unowned_side ]
with unowned_side :=
  repeat lazymatch goal with
    | |- unowned (exit_request _ _) _ =>
        solve [eapply unowned_exit_request; [reqs_ok_tac|own_ok_tac|gen_side|reflexivity]]
    | |- unowned (?f ?s) ?p => apply (unowned_ext s); [simpl; reflexivity ..|]
    | |- unowned _ _ => solve [eapply unowned_none; [own_ok_tac|gen_side|reflexivity]]
    end.

Lemma segment_own_ok (p : nat) (pr : Process) (s s' : state) :
  procs s !! p = Some pr -> reqs_ok s -> own_ok s ->
  segment p (gen pr) s s' -> own_ok s'.
Proof.
  intros Hp Hreqs Hs Hseg.
  destruct (gen pr) eqn:Hg; unfold segment in Hseg; destruct_segment; own_ok_tac.
Qed.

(** ** What the holder of a request knows *)

Lemma hold_ok_at_ext (s s' : state) (p : nat) (g : generator) (tg : option event) :
  users s' = users s -> reqs s' = reqs s ->
  hold_ok_at s p g tg -> hold_ok_at s' p g tg.
Proof. unfold hold_ok_at, owner_of, usage_of. by intros -> ->. Qed.

Lemma hold_ok_at_none (s : state) (p : nat) (g : generator) (tg : option event) :
  holds g = None -> hold_ok_at s p g tg.
Proof. intros Hg. split; [by rewrite Hg|]. by destruct g. Qed.

Lemma hold_ok_except_intro (s : state) (p : nat) : hold_ok s -> hold_ok_except s p.
Proof. intros Hs q pr _ Hq. by apply Hs. Qed.

Lemma hold_ok_ext (s s' : state) :
  users s' = users s -> reqs s' = reqs s -> procs s' = procs s ->
  hold_ok s -> hold_ok s'.
Proof.
  intros Hu Hr Hp Hs p pr Hpr. rewrite Hp in Hpr.
  eapply hold_ok_at_ext; [done..|]. by apply Hs.
Qed.

Lemma hold_ok_except_ext (s s' : state) (p : nat) :
  users s' = users s -> reqs s' = reqs s -> procs s' = procs s ->
  hold_ok_except s p -> hold_ok_except s' p.
Proof.
  intros Hu Hr Hp Hs q pr Hq Hpr. rewrite Hp in Hpr.
  eapply hold_ok_at_ext; [done..|]. by apply Hs.
Qed.

Lemma hold_ok_except_spawn (g : generator) (p : nat) (s : state) :
  holds g = None -> hold_ok_except s p -> hold_ok_except (spawn g s) p.
Proof.
  intros Hg Hs q pr Hq Hpr. simpl in Hpr.
  apply lookup_snoc_Some in Hpr as [[_ Hpr]|[_ <-]].
  - eapply hold_ok_at_ext; [..|by apply Hs]; done.
  - by apply hold_ok_at_none.
Qed.

Lemma hold_ok_at_owner (s : state) (p : nat) (g : generator) (tg : option event) (r : nat) :
  hold_ok_at s p g tg -> holds g = Some r -> owner_of s r = Some p.
Proof. intros [H _]. apply H. Qed.

Lemma usage_of_exit_request (r r' : nat) (s : state) :
  usage_of (exit_request r s) r' = usage_of s r'.
Proof. unfold usage_of. by rewrite exit_request_reqs. Qed.

Lemma owner_of_exit_request (r r' : nat) (s : state) :
  owner_of (exit_request r s) r' = owner_of s r'.
Proof. unfold owner_of. by rewrite exit_request_reqs. Qed.

Lemma users_exit_request (r : nat) (s : state) :
  users (exit_request r s) = list_remove_first r (users s).
Proof. unfold exit_request, release, cancel. by destruct (triggered r s). Qed.

Lemma hold_ok_except_exit_request (r p : nat) (s : state) :
  owner_of s r = Some p -> hold_ok_except s p -> hold_ok_except (exit_request r s) p.
Proof.
  intros Ho Hs q pr Hq Hpr. rewrite exit_request_procs in Hpr.
  destruct (Hs q pr Hq Hpr) as [Hown Hg]. split.
  - intros r' Hr'. rewrite owner_of_exit_request. by apply Hown.
  - assert (forall r', holds (gen pr) = Some r' -> r' ∈ users s ->
              r' ∈ users (exit_request r s)) as Hkeep.
    { intros r' Hr' Hin. rewrite users_exit_request.
      apply elem_of_list_remove_first_ne; [done|].
      intros ->. apply Hown in Hr'. congruence. }
    destruct (gen pr); try done; rewrite ?usage_of_exit_request; try done.
    + destruct Hg as [Hg1 Hg2]. split; [done|]. intros Hu. apply Hkeep; auto.
    + destruct Hg as [Hg1 Hg2]. split; [done|]. intros Hu. apply Hkeep; auto.
    + destruct Hg as [Hg1 Hg2]. split; [done|]. intros Hu. apply Hkeep; auto.
    + destruct Hg as [Hg1 Hg2]. split; [|done]. apply Hkeep; auto.
Qed.

(** The generator of [p] moves on to [g] and waits for [tg]. *)
Lemma hold_ok_regen (s s' : state) (g : generator) (tg : option event)
    (l : list Process) (p : nat) :
  users s' = users s -> reqs s' = reqs s ->
  procs s' = alter (with_gen g tg) p (procs s) ++ l ->
  Forall (λ pr, holds (gen pr) = None) l ->
  hold_ok_at s p g tg -> hold_ok_except s p -> hold_ok s'.
Proof.
  intros Hu Hr Hp Hl Hnew Hs q pr Hq. rewrite Hp in Hq.
  apply lookup_app_Some in Hq as [Hq|[_ Hq]].
  - destruct (decide (q = p)) as [->|Hne].
    + rewrite list_lookup_alter_eq in Hq.
      destruct (procs s !! p) as [pp|]; [|done]. simpl in Hq. simplify_eq. simpl.
      by eapply hold_ok_at_ext.
    + rewrite list_lookup_alter_ne in Hq by done.
      eapply hold_ok_at_ext; [done..|]. by apply Hs.
  - apply hold_ok_at_none. rewrite Forall_forall in Hl. apply Hl.
    by eapply list_elem_of_lookup_2.
Qed.

Lemma hold_ok_after_timeout (p : nat) (g : generator) (d : Q) (s : state) :
  hold_ok_at s p g (Some (Ev (length (events s)))) ->
  hold_ok_except s p -> hold_ok (after_timeout p g d s).
Proof.
  intros Hnew Hs.
  eapply (hold_ok_regen s _ g _ []); [..|exact Hnew|exact Hs]; simpl; try reflexivity.
  - by rewrite app_nil_r.
  - constructor.
Qed.

Lemma hold_ok_finish (p : nat) (g : generator) (s : state) :
  holds g = None -> hold_ok_except s p -> hold_ok (finish p g s).
Proof.
  intros Hnew Hs.
  eapply (hold_ok_regen s _ g _ []); [..|by apply hold_ok_at_none|exact Hs];
    simpl; try reflexivity.
  - by rewrite app_nil_r.
  - constructor.
Qed.

Lemma hold_ok_spawn_wait (p : nat) (g gw : generator) (s : state) :
  holds gw = None ->
  hold_ok_at s p g (Some (Proc (length (procs s)))) ->
  hold_ok_except s p -> hold_ok (spawn_wait p g gw s).
Proof.
  intros Hgw Hnew Hs.
  eapply (hold_ok_regen s _ g); [..|exact Hnew|exact Hs]; simpl; try reflexivity.
  by repeat constructor.
Qed.

Lemma owner_of_lt (s : state) (r p : nat) :
  owner_of s r = Some p -> r < length (reqs s).
Proof.
  unfold owner_of. destruct (reqs s !! r) eqn:Hr; [|done].
  intros _. by eapply lookup_lt_Some.
Qed.

Lemma hold_ok_at_enqueue (s s' : state) (l : list Request) (q : nat) (g : generator)
    (tg : option event) :
  users s' = users s -> reqs s' = reqs s ++ l ->
  hold_ok_at s q g tg -> hold_ok_at s' q g tg.
Proof.
  intros Hu Hr [Hown Hg].
  assert (forall r, holds g = Some r -> usage_of s' r = usage_of s r) as Hus.
  { intros r Hh. eapply usage_of_app; [done|]. eapply owner_of_lt. by apply Hown. }
  split.
  - intros r Hh. eapply owner_of_app; [done|by apply Hown].
  - destruct g; try done; rewrite ?Hu, Hus by done; done.
Qed.

Lemma hold_ok_enqueue (p : nat) (g : generator) (s : state) :
  is_Some (procs s !! p) -> awaits g = Some (length (reqs s)) ->
  hold_ok_except s p -> hold_ok (enqueue p g s).
Proof.
  intros [pp Hpp] Hg Hs q pr Hq. simpl in Hq.
  destruct (decide (q = p)) as [->|Hne].
  - rewrite list_lookup_alter_eq, Hpp in Hq. simpl in Hq. simplify_eq. simpl.
    assert (owner_of (enqueue p g s) (length (reqs s)) = Some p) as Ho.
    { unfold owner_of. simpl. by rewrite lookup_snoc. }
    assert (usage_of (enqueue p g s) (length (reqs s)) = None) as Hn.
    { unfold usage_of. simpl. by rewrite lookup_snoc. }
    split.
    + intros r Hr. destruct g; simpl in Hg, Hr; simplify_eq; done.
    + destruct g; simpl in Hg; simplify_eq; (split; [done|]); rewrite Hn;
        by intros [? ?].
  - rewrite list_lookup_alter_ne in Hq by done.
    eapply (hold_ok_at_enqueue s); [simpl; reflexivity..|]. by apply Hs.
Qed.

Lemma hold_ok_grant (h : nat) (rest : list nat) (s : state) :
  put_queue s = h :: rest -> reqs_ok s -> hold_ok s -> hold_ok (grant h rest s).
Proof.
  intros Hpq Hreqs Hs q pr Hq.
  destruct (reqs_ok_pending s Hreqs h) as [Hlt Hnone]; [rewrite Hpq; set_solver|].
  destruct (Hs q pr Hq) as [Hown Hg]. split.
  - intros r Hr. erewrite owner_of_alter_usage by (simpl; reflexivity). by apply Hown.
  - assert (forall r, usage_of (grant h rest s) r =
        if decide (h = r) then Some (now s) else usage_of s r) as Hus.
    { intros r. erewrite usage_of_alter_usage by (simpl; reflexivity).
      destruct (decide (h = r)) as [->|]; [|done]. by rewrite decide_True. }
    assert (forall r, r ∈ users s -> r ∈ users (grant h rest s)) as Hin.
    { intros r Hr. simpl. set_solver. }
    assert (forall r, is_Some (usage_of (grant h rest s) r) ->
              (is_Some (usage_of s r) -> r ∈ users s) -> r ∈ users (grant h rest s)) as Haw.
    { intros r Hsome Himp. rewrite Hus in Hsome.
      destruct (decide (h = r)) as [->|]; [simpl; set_solver|]. auto. }
    assert (forall r, is_Some (usage_of s r) -> is_Some (usage_of (grant h rest s) r)) as Hmono.
    { intros r Hr. rewrite Hus. by destruct (decide (h = r)). }
    destruct (gen pr); try done.
    + destruct Hg. split; [done|]. auto.
    + by apply Hmono.
    + destruct Hg. split; [done|]. auto.
    + by apply Hmono.
    + destruct Hg. split; [done|]. auto.
    + destruct Hg as [Hg1 (u & Hu & Heq)]. split; [auto|]. exists u. split; [|done].
      rewrite Hus. case_decide; [subst; congruence|done].
Qed.

Lemma hold_ok_trigger_put (s : state) : reqs_ok s -> hold_ok s -> hold_ok (trigger_put s).
Proof.
  intros Hreqs Hs.
  destruct (trigger_put_cases s (reqs_ok_pending s Hreqs))
    as [[-> _]|(h & rest & Hpq & _ & ->)]; [done|].
  by apply hold_ok_grant.
Qed.

Lemma usage_of_popped (x : scheduled) (q : list scheduled) (r : nat) (s : state) :
  usage_of (popped x q s) r = usage_of s r.
Proof.
  unfold popped. destruct (item x); simpl; try done.
  by eapply usage_of_alter_callbacks.
Qed.

Lemma procs_popped (x : scheduled) (q : list scheduled) (p : nat) (pr : Process)
    (s : state) :
  procs (popped x q s) !! p = Some pr ->
  exists pr', procs s !! p = Some pr' /\ gen pr = gen pr' /\ target pr = target pr'.
Proof.
  unfold popped. destruct (item x) as [i|r|p']; simpl; try by eauto.
  rewrite list_lookup_alter. destruct (decide (p' = p)) as [->|]; [|by eauto].
  destruct (procs s !! p) as [pr'|]; [|done]. simpl. intros; simplify_eq. by eauto.
Qed.

Lemma hold_ok_popped (x : scheduled) (q : list scheduled) (s : state) :
  hold_ok s -> hold_ok (popped x q s).
Proof.
  intros Hs p pr Hp. apply procs_popped in Hp as (pr' & Hp & -> & ->).
  destruct (Hs p pr' Hp) as [Hown Hg]. split.
  - intros r Hr. rewrite owner_of_popped. by apply Hown.
  - destruct (gen pr'); try done; by rewrite ?usage_of_popped, ?users_popped.
Qed.

Lemma owner_of_ext (s' s : state) (r : nat) :
  reqs s' = reqs s -> owner_of s' r = owner_of s r.
Proof. unfold owner_of. by intros ->. Qed.

Lemma usage_of_ext (s' s : state) (r : nat) :
  reqs s' = reqs s -> usage_of s' r = usage_of s r.
Proof. unfold usage_of. by intros ->. Qed.

Ltac owner_side :=
  repeat lazymatch goal with
    | H : owner_of ?s ?r = Some ?p |- owner_of ?s ?r = Some ?p => exact H
    | |- owner_of (exit_request _ _) _ = _ => rewrite owner_of_exit_request
    | |- owner_of (?f ?s) ?r = _ => rewrite (owner_of_ext (f s) s r) by (simpl; reflexivity)
    end.

Ltac hold_ok_tac :=
  repeat lazymatch goal with
    | H : hold_ok ?s |- hold_ok ?s => exact H
    | |- hold_ok (trigger_put _) => apply hold_ok_trigger_put; [reqs_ok_tac|]
    | |- hold_ok (after_timeout _ _ _ _) =>
        apply hold_ok_after_timeout; [by apply hold_ok_at_none|except_side]
    | |- hold_ok (finish _ _ _) => apply hold_ok_finish; [reflexivity|except_side]
    | |- hold_ok (enqueue _ _ _) =>
        apply hold_ok_enqueue; [side_tac|rewrite ?exit_request_reqs; reflexivity|except_side]
    end
with except_side :=
  repeat lazymatch goal with
    | H : hold_ok ?s |- hold_ok_except ?s _ => apply hold_ok_except_intro, H
    | |- hold_ok_except (spawn _ _) _ => apply hold_ok_except_spawn; [reflexivity|]
    | |- hold_ok_except (exit_request _ _) _ =>
        apply hold_ok_except_exit_request; [owner_side|]
    | |- hold_ok_except (?f ?s) ?p => apply (hold_ok_except_ext s); [simpl; reflexivity ..|]
    end.

Lemma segment_hold_ok (p : nat) (pr : Process) (ev : event) (s s' : state) :
  procs s !! p = Some pr -> ready s p ev -> reqs_ok s -> hold_ok s ->
  segment p (gen pr) s s' -> hold_ok s'.
Proof.
  intros Hp Hready Hreqs Hs Hseg.
  pose proof (ready_target _ _ _ Hready) as Htg.
  unfold target_of in Htg. rewrite Hp in Htg. simpl in Htg.
  destruct (gen pr) eqn:Hgen; unfold segment in Hseg; destruct_segment;
    pose proof (Hs p pr Hp) as [Hown Hg]; rewrite Hgen in Hown, Hg;
    try (specialize (Hown _ eq_refl)); try solve [hold_ok_tac].
  - (* repair_L82 to repair_L83 *)
    destruct Hg as [Htg' _]. rewrite Htg in Htg'. simplify_eq.
    destruct (ready_req _ _ _ Hready req1 eq_refl) as (u & Hu & _).
    apply hold_ok_after_timeout; [|except_side].
    split; [by intros ? [= <-]|]. by rewrite Hu.
  - (* repair_L90 to repair_L91 *)
    destruct Hg as [Htg' _]. rewrite Htg in Htg'. simplify_eq.
    destruct (ready_req _ _ _ Hready req2 eq_refl) as (u & Hu & _).
    apply hold_ok_after_timeout; [|except_side].
    split; [by intros ? [= <-]|]. by rewrite Hu.
  - (* car_L42 to car_L48 *)
    destruct Hg as [Htg' Hin]. rewrite Htg in Htg'. simplify_eq.
    destruct (ready_req _ _ _ Hready request0 eq_refl) as (u & Hu & Heq).
    apply hold_ok_spawn_wait; [done| |except_side].
    split; [by intros ? [= <-]|]. split.
    + apply Hin. by rewrite Hu.
    + exists u. split; [done|]. simpl. done.
Qed.

(** ** Busy time *)

Lemma sum_Q_app (l k : list Q) : (sum_Q (l ++ k) == sum_Q l + sum_Q k)%Q.
Proof.
  unfold sum_Q. induction l as [|x l IH]; simpl; [lra|]. rewrite IH. lra.
Qed.

Lemma sum_Q_cons (x : Q) (l : list Q) : sum_Q (x :: l) = (x + sum_Q l)%Q.
Proof. done. Qed.

Lemma held_eq (s s' : state) :
  users s' = users s ->
  (forall r, r ∈ users s -> held_for s' r = held_for s r) ->
  held s' = held s.
Proof.
  intros Hu Hf. unfold held. rewrite Hu. f_equal.
  apply list_fmap_ext. intros i r Hr. apply Hf. by eapply list_elem_of_lookup_2.
Qed.

Lemma held_ext (s s' : state) :
  now s' = now s -> users s' = users s -> reqs s' = reqs s -> held s' = held s.
Proof.
  intros Hn Hu Hr. apply held_eq; [done|]. intros r _.
  unfold held_for, usage_of. by rewrite Hn, Hr.
Qed.

Lemma sum_ok_ext (s s' : state) :
  busy_time s' = busy_time s -> capacity s' = capacity s ->
  now s' = now s -> users s' = users s -> reqs s' = reqs s ->
  sum_ok s -> sum_ok s'.
Proof.
  intros Hb Hc Hn Hu Hr. unfold sum_ok.
  rewrite (held_ext s s') by done. by rewrite Hb, Hc, Hn.
Qed.

Lemma sum_ok_enqueue (p : nat) (g : generator) (s : state) :
  reqs_ok s -> sum_ok s -> sum_ok (enqueue p g s).
Proof.
  intros (_ & _ & Husers & _) Hs. unfold sum_ok.
  assert (held (enqueue p g s) = held s) as ->; [|done].
  apply held_eq; [done|]. intros r Hr. unfold held_for. simpl. f_equal. f_equal.
  destruct (Husers r Hr) as (u & Hu & _).
  eapply (usage_of_app s); [simpl; reflexivity|by eapply usage_of_lt].
Qed.

Lemma held_grant (h : nat) (rest : list nat) (s : state) :
  h < length (reqs s) -> h ∉ users s ->
  (held (grant h rest s) == held s)%Q.
Proof.
  intros Hlt Hh. unfold held. simpl. rewrite fmap_app, sum_Q_app. simpl.
  assert (held_for (grant h rest s) <$> users s = held_for s <$> users s) as ->.
  { apply list_fmap_ext. intros i r Hr. unfold held_for. simpl. f_equal. f_equal.
    erewrite usage_of_alter_usage by (simpl; reflexivity).
    rewrite decide_False; [done|]. intros ->. apply Hh. by eapply list_elem_of_lookup_2. }
  unfold held_for at 2. simpl.
  erewrite usage_of_alter_usage by (simpl; reflexivity).
  rewrite decide_True by done. rewrite decide_True by done. simpl. lra.
Qed.

Lemma sum_ok_grant (h : nat) (rest : list nat) (s : state) :
  put_queue s = h :: rest -> reqs_ok s -> sum_ok s -> sum_ok (grant h rest s).
Proof.
  intros Hpq Hreqs Hs.
  destruct (reqs_ok_pending s Hreqs h) as [Hlt Hnone]; [rewrite Hpq; set_solver|].
  assert (h ∉ users s) as Hh.
  { intros Hin. destruct Hreqs as (_ & _ & Husers & _).
    destruct (Husers h Hin) as (u & Hu & _). congruence. }
  unfold sum_ok. rewrite (held_grant h rest s Hlt Hh). exact Hs.
Qed.

Lemma sum_ok_trigger_put (s : state) : reqs_ok s -> sum_ok s -> sum_ok (trigger_put s).
Proof.
  intros Hreqs Hs.
  destruct (trigger_put_cases s (reqs_ok_pending s Hreqs))
    as [[-> _]|(h & rest & Hpq & _ & ->)]; [done|].
  by apply sum_ok_grant.
Qed.

Lemma sum_Q_remove (f : nat -> Q) (r : nat) (l : list nat) :
  r ∈ l -> (sum_Q (f <$> list_remove_first r l) == sum_Q (f <$> l) - f r)%Q.
Proof.
  induction l as [|y l IH]; [by intros ?%elem_of_nil|].
  intros Hin. rewrite fmap_cons, sum_Q_cons. cbn [list_remove_first].
  case_decide as Hy.
  - subst. lra.
  - rewrite fmap_cons, sum_Q_cons, IH by set_solver. lra.
Qed.

Lemma held_exit_request (r : nat) (s : state) :
  (held (exit_request r s) ==
   held s - (if bool_decide (r ∈ users s) then held_for s r else 0))%Q.
Proof.
  unfold held. rewrite users_exit_request.
  assert (forall l, held_for (exit_request r s) <$> l = held_for s <$> l) as ->.
  { intros l. apply list_fmap_ext. intros i r' _. unfold held_for.
    rewrite usage_of_exit_request. f_equal.
    by destruct (exit_request_frame r s) as (-> & _). }
  case_bool_decide as Hin.
  - by apply sum_Q_remove.
  - rewrite list_remove_first_notin by done. lra.
Qed.

Lemma held_for_nonneg (r : nat) (s : state) :
  reqs_ok s -> r ∈ users s -> (0 <= held_for s r)%Q.
Proof.
  intros (_ & _ & Husers & _) Hin. destruct (Husers r Hin) as (u & Hu & Hle).
  unfold held_for. rewrite Hu. simpl. lra.
Qed.

Lemma sum_ok_exit_request (r : nat) (s : state) :
  reqs_ok s -> sum_ok s -> sum_ok (exit_request r s).
Proof.
  intros Hreqs [Hb Hs]. unfold sum_ok. rewrite held_exit_request.
  destruct (exit_request_frame r s) as (-> & _ & _ & -> & _ & _ & _ & _ & _ & ->).
  split; [done|]. case_bool_decide as Hin; [|lra].
  pose proof (held_for_nonneg r s Hreqs Hin). lra.
Qed.

(** Lines 49-52 and the end of the [with] block of [car]. *)
Lemma sum_ok_car_leaves (r n : nat) (u start : Q) (s : state) :
  reqs_ok s -> r ∈ users s -> usage_of s r = Some u -> (u == start)%Q ->
  sum_ok s ->
  sum_ok (exit_request r
            (set_processed_cars n (set_busy_time (busy_time s + (now s - start))%Q s))).
Proof.
  intros Hreqs Hin Hu Heq [Hb Hs]. unfold sum_ok. rewrite held_exit_request.
  set (s1 := set_processed_cars n (set_busy_time (busy_time s + (now s - start))%Q s)).
  destruct (exit_request_frame r s1) as (-> & _ & _ & -> & _ & _ & _ & _ & _ & ->).
  assert (held s1 = held s) as -> by (by apply held_ext).
  rewrite bool_decide_eq_true_2 by done.
  assert (held_for s1 r = held_for s r) as -> by done.
  destruct Hreqs as (_ & _ & Husers & _). destruct (Husers r Hin) as (u' & Hu' & Hle).
  simplify_eq. unfold held_for. rewrite Hu. subst s1. simpl. split; lra.
Qed.

Lemma sum_Q_shift (f : nat -> Q) (d : Q) (l : list nat) :
  (sum_Q ((λ r, f r + d) <$> l) == sum_Q (f <$> l) + of_nat (length l) * d)%Q.
Proof.
  induction l as [|y l IH].
  - change (of_nat (length [])) with 0%Q. rewrite !fmap_nil. unfold sum_Q. simpl. lra.
  - rewrite !fmap_cons, !sum_Q_cons, IH. cbn [length].
    unfold of_nat. rewrite Nat2Z.inj_succ. unfold Z.succ. rewrite inject_Z_plus.
    change (inject_Z 1) with 1%Q. lra.
Qed.

Lemma sum_Q_fmap_ext (f g : nat -> Q) (l : list nat) :
  (forall r, r ∈ l -> (f r == g r)%Q) -> (sum_Q (f <$> l) == sum_Q (g <$> l))%Q.
Proof.
  induction l as [|y l IH]; intros Hfg; [reflexivity|].
  rewrite !fmap_cons, !sum_Q_cons, IH, (Hfg y) by set_solver. reflexivity.
Qed.

Lemma now_popped (x : scheduled) (q : list scheduled) (s : state) :
  now (popped x q s) = at_time x.
Proof. unfold popped. by destruct (item x). Qed.

Lemma held_popped (x : scheduled) (q : list scheduled) (s : state) :
  (held (popped x q s) == held s + of_nat (length (users s)) * (at_time x - now s))%Q.
Proof.
  unfold held. rewrite users_popped, <- sum_Q_shift.
  apply sum_Q_fmap_ext. intros r _. unfold held_for.
  rewrite now_popped, usage_of_popped. lra.
Qed.

Lemma of_nat_le (n m : nat) : n <= m -> (of_nat n <= of_nat m)%Q.
Proof. intros H. unfold of_nat. rewrite <- Zle_Qle. lia. Qed.

Lemma sum_ok_popped (x : scheduled) (q : list scheduled) (s : state) :
  res_ok s -> (now s <= at_time x)%Q -> sum_ok s -> sum_ok (popped x q s).
Proof.
  intros [Hle _] Hx [Hb Hs]. unfold sum_ok. rewrite held_popped, now_popped.
  assert (busy_time (popped x q s) = busy_time s) as ->.
  { unfold popped. by destruct (item x). }
  assert (capacity (popped x q s) = capacity s) as ->.
  { unfold popped. by destruct (item x). }
  split; [done|]. apply of_nat_le in Hle.
  assert (of_nat (length (users s)) * (at_time x - now s)
          <= of_nat (capacity s) * (at_time x - now s))%Q.
  { apply Qmult_le_compat_r; [done|lra]. }
  lra.
Qed.

Ltac sum_ok_tac :=
  repeat lazymatch goal with
    | H : sum_ok ?s |- sum_ok ?s => exact H
    | |- sum_ok (trigger_put _) => apply sum_ok_trigger_put; [reqs_ok_tac|]
    | |- sum_ok (exit_request _ _) => apply sum_ok_exit_request; [reqs_ok_tac|]
    | |- sum_ok (enqueue _ _ _) => apply sum_ok_enqueue; [reqs_ok_tac|]
    | |- _ => peel sum_ok_ext
    end.

Lemma segment_sum_ok (p : nat) (pr : Process) (s s' : state) :
  procs s !! p = Some pr -> reqs_ok s -> hold_ok s -> sum_ok s ->
  segment p (gen pr) s s' -> sum_ok s'.
Proof.
  intros Hp Hreqs Hhold Hs Hseg.
  destruct (gen pr) eqn:Hgen; unfold segment in Hseg; destruct_segment;
    try solve [sum_ok_tac].
  (* car_L48: the wash is over *)
  pose proof (Hhold p pr Hp) as [_ Hg]. rewrite Hgen in Hg.
  destruct Hg as (Hin & u & Hu & Heq).
  peel sum_ok_ext. by eapply sum_ok_car_leaves.
Qed.

(** ** The timing of the washes *)

Lemma wash_timing_mono (s s' : state) (st : Q) (w : nat) (g : generator)
    (tg : option event) :
  length (events s) <= length (events s') ->
  (forall x, x ∈ queue s' -> x ∈ queue s \/
     (forall i, item x = Ev i -> length (events s) <= i) /\ item x <> Proc w) ->
  wash_timing s st w g tg -> wash_timing s' st w g tg.
Proof.
  intros He Hq. destruct g; simpl; try done.
  - intros (i & Ht & Hi & Hx). exists i. split_and!; [done|lia|].
    intros x Hin Hit. destruct (Hq x Hin) as [Hold|[Hnew _]]; [by apply Hx|].
    specialize (Hnew i Hit). lia.
  - intros (i & Ht & Hi & Hx). exists i. split_and!; [done|lia|].
    intros x Hin Hit. destruct (Hq x Hin) as [Hold|[Hnew _]]; [by apply Hx|].
    specialize (Hnew i Hit). lia.
  - intros Hx x Hin Hit. destruct (Hq x Hin) as [Hold|[_ Hnew]]; [by apply Hx|done].
Qed.

Lemma wash_ok_frame (s s' : state) :
  (forall c, gen_of s' c = gen_of s c) -> (forall c, target_of s' c = target_of s c) ->
  length (events s) <= length (events s') ->
  (forall x, x ∈ queue s' -> x ∈ queue s \/
     (forall i, item x = Ev i -> length (events s) <= i) /\ forall w, item x <> Proc w) ->
  wash_ok s -> wash_ok s'.
Proof.
  intros Hg Ht He Hq Hs c n a r wt st Hc. rewrite Hg in Hc.
  destruct (Hs c n a r wt st Hc) as (w & g & Htc & Hgw & Htm).
  exists w, g. rewrite !Ht, Hg. split_and!; [done..|].
  eapply wash_timing_mono; [done| |done].
  intros x Hx. destruct (Hq x Hx) as [?|[? ?]]; [by left|right; split; auto].
Qed.

Lemma wash_ok_ext (s s' : state) :
  procs s' = procs s -> queue s' = queue s -> events s' = events s ->
  wash_ok s -> wash_ok s'.
Proof.
  intros Hp Hq He. apply wash_ok_frame; unfold gen_of, target_of;
    rewrite ?Hp, ?Hq, ?He; auto.
Qed.

Lemma woken_ok_ext (s s' : state) (ev : event) :
  procs s' = procs s -> now s' = now s -> woken_ok s ev -> woken_ok s' ev.
Proof. unfold woken_ok, gen_of, target_of. by intros -> ->. Qed.

Lemma queue_trigger_put (s : state) (x : scheduled) :
  x ∈ queue (trigger_put s) -> x ∈ queue s \/ exists h, item x = Req h.
Proof.
  unfold trigger_put, do_put. destruct (put_queue s) as [|h rest]; [by left|].
  destruct (length (users s) <? capacity s)%nat; cbn;
    match goal with |- context [triggered ?a ?b] => destruct (triggered a b) end; cbn;
    try (by left).
  all: intros [->|Hx]%elem_of_heappush; [right; by eexists|by left].
Qed.

Lemma wash_ok_trigger_put (s : state) : wash_ok s -> wash_ok (trigger_put s).
Proof.
  destruct (trigger_put_frame s) as (_ & He & Hp & _).
  apply wash_ok_frame.
  - intros c. unfold gen_of. by rewrite Hp.
  - intros c. unfold target_of. by rewrite Hp.
  - by rewrite He.
  - intros x [Hx|[h Hx]]%queue_trigger_put; [by left|right].
    rewrite Hx. by split.
Qed.

Lemma events_exit_request (r : nat) (s : state) :
  events (exit_request r s) = events s ++ [Some [trigger_put_cb]].
Proof. unfold exit_request, release, cancel. by destruct (triggered r s). Qed.

Lemma queue_exit_request (r : nat) (s : state) (x : scheduled) :
  x ∈ queue (exit_request r s) -> x ∈ queue s \/ item x = Ev (length (events s)).
Proof.
  unfold exit_request, release, cancel. destruct (triggered r s); cbn;
    intros [->|Hx]%elem_of_heappush; auto.
Qed.

Lemma wash_ok_exit_request (r : nat) (s : state) :
  wash_ok s -> wash_ok (exit_request r s).
Proof.
  apply wash_ok_frame.
  - intros c. apply gen_of_exit_request.
  - intros c. unfold target_of. by rewrite exit_request_procs.
  - rewrite events_exit_request, length_app. lia.
  - intros x [Hx|Hx]%queue_exit_request; [by left|right].
    rewrite Hx. split; [|done]. intros i [= <-]. lia.
Qed.

Lemma length_events_popped (x : scheduled) (q : list scheduled) (s : state) :
  length (events (popped x q s)) = length (events s).
Proof. unfold popped. destruct (item x); simpl; by rewrite ?length_insert. Qed.

Lemma wash_ok_popped (x : scheduled) (q : list scheduled) (s : state) :
  queue s = x :: q -> wash_ok s -> wash_ok (popped x q s).
Proof.
  intros Hq. apply wash_ok_frame.
  - intros c. apply gen_of_popped.
  - intros c. apply target_of_popped.
  - by rewrite length_events_popped.
  - intros y Hy. rewrite queue_popped in Hy. left. rewrite Hq. set_solver.
Qed.

(** Process [p] moves on to [g] and waits for [tg]; [l] are the processes
    that it has started. *)
Lemma regen_ne (s s' : state) (g : generator) (tg : option event) (p : nat)
    (l : list Process) (c : nat) :
  procs s' = alter (with_gen g tg) p (procs s) ++ l -> c <> p -> c < length (procs s) ->
  gen_of s' c = gen_of s c /\ target_of s' c = target_of s c.
Proof.
  intros Hp Hne Hlt. unfold gen_of, target_of. rewrite Hp.
  rewrite lookup_app_l by (by rewrite length_alter).
  by rewrite list_lookup_alter_ne.
Qed.

Lemma regen_eq (s s' : state) (g : generator) (tg : option event) (p : nat)
    (l : list Process) :
  procs s' = alter (with_gen g tg) p (procs s) ++ l -> p < length (procs s) ->
  gen_of s' p = Some g /\ target_of s' p = tg.
Proof.
  intros Hp Hlt. unfold gen_of, target_of. rewrite Hp.
  rewrite lookup_app_l by (by rewrite length_alter).
  rewrite list_lookup_alter_eq. by apply lookup_lt_is_Some_2 in Hlt as [pr ->].
Qed.

Lemma regen_new (s s' : state) (g : generator) (tg : option event) (p : nat)
    (l : list Process) (c : nat) (g' : generator) :
  procs s' = alter (with_gen g tg) p (procs s) ++ l -> length (procs s) <= c ->
  gen_of s' c = Some g' -> exists pr, pr ∈ l /\ gen pr = g'.
Proof.
  intros Hp Hle. unfold gen_of. rewrite Hp.
  rewrite lookup_app_r by (by rewrite length_alter).
  destruct (l !! _) as [pr|] eqn:Hl; [|done]. intros [= <-].
  exists pr. split; [|done]. by eapply list_elem_of_lookup_2.
Qed.

Lemma gen_of_lt (s : state) (p : nat) (g : generator) :
  gen_of s p = Some g -> p < length (procs s).
Proof.
  unfold gen_of. destruct (procs s !! p) eqn:Hp; [|done].
  intros _. by eapply lookup_lt_Some.
Qed.

Lemma wash_ok_regen (p : nat) (g : generator) (tg : option event) (l : list Process)
    (s s' : state) :
  procs s' = alter (with_gen g tg) p (procs s) ++ l ->
  (forall pr n a r wt st, pr ∈ l -> gen pr <> car_L48 n a r wt st) ->
  length (events s) <= length (events s') ->
  (forall x, x ∈ queue s' -> x ∈ queue s \/
     (forall i, item x = Ev i -> length (events s) <= i) /\
     (forall w, item x = Proc w -> w = p)) ->
  (forall n a r wt st, g = car_L48 n a r wt st ->
     exists w g', tg = Some (Proc w) /\ gen_of s' w = Some g' /\
       wash_timing s' st w g' (target_of s' w)) ->
  (forall c n a r wt st g0,
     gen_of s c = Some (car_L48 n a r wt st) -> target_of s c = Some (Proc p) ->
     gen_of s p = Some g0 -> wash_timing s st p g0 (target_of s p) ->
     wash_timing s' st p g tg) ->
  wash_ok s -> wash_ok s'.
Proof.
  intros Hp Hl He Hq Hcar Hwash Hs c n a r wt st Hc.
  destruct (decide (c < length (procs s))) as [Hlt|Hge].
  - destruct (decide (c = p)) as [->|Hne].
    + destruct (regen_eq _ _ _ _ _ _ Hp Hlt) as [Hg Ht]. rewrite Hg in Hc.
      injection Hc as Hc. destruct (Hcar _ _ _ _ _ Hc) as (w & g' & -> & Hw & Htm).
      exists w, g'. by rewrite Ht.
    + destruct (regen_ne _ _ _ _ _ _ _ Hp Hne Hlt) as [Hg Ht]. rewrite Hg in Hc.
      destruct (Hs _ _ _ _ _ _ Hc) as (w & g0 & Htc & Hgw & Htm).
      rewrite Ht, Htc. pose proof (gen_of_lt _ _ _ Hgw) as Hw.
      destruct (decide (w = p)) as [->|Hnw].
      * destruct (regen_eq _ _ _ _ _ _ Hp Hw) as [Hg' Ht'].
        exists p, g. rewrite Hg', Ht'. split_and!; [done..|]. by eapply Hwash.
      * destruct (regen_ne _ _ _ _ _ _ _ Hp Hnw Hw) as [Hg' Ht'].
        exists w, g0. rewrite Hg', Ht'. split_and!; [done..|].
        eapply wash_timing_mono; [done| |done].
        intros x Hx. destruct (Hq x Hx) as [?|[H1 H2]]; [by left|right].
        split; [done|]. intros Hit. by apply H2 in Hit.
  - assert (length (procs s) <= c) as Hle by lia.
    destruct (regen_new _ _ _ _ _ _ _ _ Hp Hle Hc) as (pr & Hin & Hgen).
    by destruct (Hl pr n a r wt st Hin).
Qed.

Lemma wash_timing_other (s s' : state) (st : Q) (p : nat) (g0 g : generator)
    (tg tg' : option event) :
  function_of g0 <> wash_fn -> wash_timing s st p g0 tg -> wash_timing s' st p g tg'.
Proof. by destruct g0. Qed.

Lemma wash_ok_after_timeout (p : nat) (g0 g : generator) (d : Q) (s : state) :
  gen_of s p = Some g0 -> function_of g0 <> wash_fn ->
  (forall n a r wt st, g <> car_L48 n a r wt st) ->
  wash_ok s -> wash_ok (after_timeout p g d s).
Proof.
  intros Hg0 Hf0 Hg. apply (wash_ok_regen p g (Some (Ev (length (events s)))) []).
  - simpl. by rewrite app_nil_r.
  - set_solver.
  - simpl. rewrite length_app. lia.
  - intros x Hx. simpl in Hx. apply elem_of_heappush in Hx as [->|Hx]; [right|by left].
    simpl. split; [|done]. by intros i [= <-].
  - intros n a r wt st ->. by destruct (Hg n a r wt st).
  - intros c n a r wt st g1 _ _ Hg1 Htm. rewrite Hg0 in Hg1. injection Hg1 as <-.
    by eapply wash_timing_other.
Qed.

Lemma wash_ok_wash_drawn (p n : nat) (x : Q) (ev : event) (s : state) :
  gen_of s p = Some (wash_start n) -> target_of s p = Some ev -> woken_ok s ev ->
  range_ok s -> wash_ok s -> wash_ok (after_timeout p (wash_L31 n x) x s).
Proof.
  intros Hg0 Ht Hw Hr.
  apply (wash_ok_regen p (wash_L31 n x) (Some (Ev (length (events s)))) []).
  - simpl. by rewrite app_nil_r.
  - set_solver.
  - simpl. rewrite length_app. lia.
  - intros y Hy. simpl in Hy. apply elem_of_heappush in Hy as [->|Hy]; [right|by left].
    simpl. split; [|done]. by intros i [= <-].
  - done.
  - intros c n' a r wt st g1 Hc Htc Hg1 Htm. simpl.
    exists (length (events s)). split_and!; [done|simpl; rewrite length_app; simpl; lia|].
    intros y Hy Hit. simpl in Hy. apply elem_of_heappush in Hy as [->|Hy].
    + simpl. pose proof (Hw _ _ _ _ _ _ _ _ Hc Htc Hg0 Ht) as H. simpl in H. lra.
    + pose proof (Hr _ _ Hy Hit). lia.
Qed.

Lemma wash_ok_enqueue (p : nat) (g0 g : generator) (s : state) :
  gen_of s p = Some g0 -> function_of g0 <> wash_fn ->
  (forall n a r wt st, g <> car_L48 n a r wt st) ->
  wash_ok s -> wash_ok (enqueue p g s).
Proof.
  intros Hg0 Hf0 Hg. apply (wash_ok_regen p g (Some (Req (length (reqs s)))) []).
  - simpl. by rewrite app_nil_r.
  - set_solver.
  - done.
  - intros x Hx. by left.
  - intros n a r wt st ->. by destruct (Hg n a r wt st).
  - intros c n a r wt st g1 _ _ Hg1 Htm. rewrite Hg0 in Hg1. injection Hg1 as <-.
    by eapply wash_timing_other.
Qed.

Lemma alter_ge {A} (f : A -> A) (l : list A) (i : nat) :
  length l <= i -> alter f i l = l.
Proof.
  revert i. induction l as [|x l IH]; intros [|i] Hi; simpl in *; try done; [lia|].
  f_equal. apply IH. lia.
Qed.

Lemma wash_ok_spawn (g : generator) (s : state) :
  (forall n a r wt st, g <> car_L48 n a r wt st) -> wash_ok s -> wash_ok (spawn g s).
Proof.
  intros Hg. eapply (wash_ok_regen (length (procs s)) setup_start None).
  - simpl. rewrite alter_ge by lia. reflexivity.
  - intros pr n a r wt st ->%list_elem_of_singleton. simpl. apply Hg.
  - simpl. rewrite length_app. lia.
  - intros x Hx. simpl in Hx. apply elem_of_heappush in Hx as [->|Hx]; [right|by left].
    simpl. split; [|done]. by intros i [= <-].
  - done.
  - intros c n a r wt st g0 _ _ Hg0. apply gen_of_lt in Hg0. lia.
Qed.

Lemma wash_ok_spawn_wait (p n n' : nat) (a : Q) (r : nat) (wt st : Q) (g0 : generator)
    (s : state) :
  gen_of s p = Some g0 -> function_of g0 <> wash_fn -> (now s == st)%Q -> range_ok s ->
  wash_ok s -> wash_ok (spawn_wait p (car_L48 n a r wt st) (wash_start n') s).
Proof.
  intros Hg0 Hf0 Hst Hr.
  eapply (wash_ok_regen p (car_L48 n a r wt st) (Some (Proc (length (procs s))))).
  - simpl. reflexivity.
  - by intros pr ????? ->%list_elem_of_singleton.
  - simpl. rewrite length_app. lia.
  - intros x Hx. simpl in Hx. apply elem_of_heappush in Hx as [->|Hx]; [right|by left].
    simpl. split; [|done]. by intros i [= <-].
  - intros ????? [= <- <- <- <- <-]. exists (length (procs s)), (wash_start n').
    split; [done|]. unfold gen_of, target_of. simpl. rewrite lookup_alter_snoc. simpl.
    split; [done|]. exists (length (events s)).
    split_and!; [done|rewrite length_app; simpl; lia|].
    intros y Hy Hit. apply elem_of_heappush in Hy as [->|Hy].
    + simpl. lra.
    + pose proof (Hr _ _ Hy Hit). lia.
  - intros c ?????? _ _ Hg1 Htm. rewrite Hg0 in Hg1. injection Hg1 as <-.
    by eapply wash_timing_other.
Qed.

Lemma wash_ok_finish (p : nat) (g0 g : generator) (s : state) :
  gen_of s p = Some g0 -> function_of g0 <> wash_fn ->
  (forall n a r wt st, g <> car_L48 n a r wt st) ->
  wash_ok s -> wash_ok (finish p g s).
Proof.
  intros Hg0 Hf0 Hg. apply (wash_ok_regen p g None []).
  - simpl. by rewrite app_nil_r.
  - set_solver.
  - done.
  - intros x Hx. simpl in Hx. apply elem_of_heappush in Hx as [->|Hx]; [right|by left].
    simpl. split; [done|]. by intros w [= <-].
  - intros n a r wt st ->. by destruct (Hg n a r wt st).
  - intros c n a r wt st g1 _ _ Hg1 Htm. rewrite Hg0 in Hg1. injection Hg1 as <-.
    by eapply wash_timing_other.
Qed.

Lemma wash_ok_wash_over (p n : nat) (x : Q) (ev : event) (s : state) :
  gen_of s p = Some (wash_L31 n x) -> target_of s p = Some ev -> woken_ok s ev ->
  qproc_ok s -> wash_ok s -> wash_ok (finish p (wash_end n x) s).
Proof.
  intros Hg0 Ht Hw Hr. apply (wash_ok_regen p (wash_end n x) None []).
  - simpl. by rewrite app_nil_r.
  - set_solver.
  - done.
  - intros y Hy. simpl in Hy. apply elem_of_heappush in Hy as [->|Hy]; [right|by left].
    simpl. split; [done|]. by intros w [= <-].
  - done.
  - intros c n' a r wt st g1 Hc Htc Hg1 Htm. simpl.
    intros y Hy Hit. simpl in Hy. apply elem_of_heappush in Hy as [->|Hy].
    + simpl. pose proof (Hw _ _ _ _ _ _ _ _ Hc Htc Hg0 Ht) as H. simpl in H. lra.
    + destruct (Hr _ _ Hy Hit) as (g' & Hg' & He). rewrite Hg0 in Hg'. by simplify_eq.
Qed.

Ltac wash_ok_tac :=
  repeat lazymatch goal with
    | H : wash_ok ?s |- wash_ok ?s => exact H
    | |- wash_ok (trigger_put _) => apply wash_ok_trigger_put
    | |- wash_ok (exit_request _ _) => apply wash_ok_exit_request
    | |- wash_ok (after_timeout _ _ _ _) =>
        eapply wash_ok_after_timeout; [gen_side|done|done|]
    | |- wash_ok (enqueue _ _ _) => eapply wash_ok_enqueue; [gen_side|done|done|]
    | |- wash_ok (finish _ _ _) => eapply wash_ok_finish; [gen_side|done|done|]
    | |- wash_ok (spawn _ _) => apply wash_ok_spawn; [done|]
    | |- wash_ok (spawn_wait _ _ _ _) =>
        eapply wash_ok_spawn_wait; [gen_side|done|simpl; reflexivity|range_ok_tac|]
    | |- _ => peel wash_ok_ext
    end.

Lemma segment_wash_ok (p : nat) (pr : Process) (ev : event) (s s' : state) :
  procs s !! p = Some pr -> ready s p ev -> range_ok s -> qproc_ok s -> wash_ok s ->
  segment p (gen pr) s s' -> wash_ok s'.
Proof.
  intros Hp Hready Hrange Hqp Hs Hseg.
  pose proof (ready_target _ _ _ Hready) as Htg.
  pose proof (ready_woken _ _ _ Hready) as Hwoken.
  destruct (gen pr) eqn:Hgen; unfold segment in Hseg; destruct_segment;
    try solve [wash_ok_tac].
  - (* wash_start: the service time is drawn *)
    eapply wash_ok_wash_drawn; [gen_side|exact Htg| |range_ok_tac|wash_ok_tac].
    by eapply woken_ok_ext.
  - (* wash_L31: the wash is over *)
    eapply wash_ok_wash_over; [gen_side|exact Htg|exact Hwoken|exact Hqp|exact Hs].
Qed.

(** ** The processes of a run and the count of the cars *)

#[local] Arguments exit_request : simpl never.
#[local] Arguments trigger_put : simpl never.

Lemma trigger_put_processed_cars (s : state) :
  processed_cars (trigger_put s) = processed_cars s.
Proof. by destruct (trigger_put_frame s) as (_ & _ & _ & _ & _ & _ & _ & _ & H & _). Qed.

Lemma exit_request_processed_cars (r : nat) (s : state) :
  processed_cars (exit_request r s) = processed_cars s.
Proof. by destruct (exit_request_frame r s) as (_ & _ & _ & _ & _ & _ & _ & _ & H & _). Qed.

Ltac procs_shape :=
  rewrite ?trigger_put_procs; cbn; rewrite ?exit_request_procs; cbn;
  rewrite ?alter_app_l by done;
  first [reflexivity | by rewrite app_nil_r].

Ltac procs_new :=
  let Hin := fresh in
  intros ? Hin;
  first [by apply elem_of_nil in Hin
        |apply list_elem_of_singleton in Hin; subst; simpl; auto].

(** What a segment does to the table of the processes and to the count of
    the cars. *)
Lemma segment_procs (p : nat) (pr : Process) (s s' : state) :
  procs s !! p = Some pr -> segment p (gen pr) s s' ->
  exists g tg l,
    procs s' = alter (with_gen g tg) p (procs s) ++ l /\
    function_of g = function_of (gen pr) /\
    (forall pr', pr' ∈ l ->
       function_of (gen pr') = car_fn \/ function_of (gen pr') = wash_fn) /\
    processed_cars s' + in_service g + cars_in_service l + car_count_of (gen pr) =
      processed_cars s + in_service (gen pr) + car_count_of g.
Proof.
  intros Hp Hseg. pose proof (lookup_lt_Some _ _ _ Hp) as Hlt.
  destruct (gen pr) eqn:Hgen; unfold segment in Hseg; destruct_segment;
    eexists _, _, _; (split; [procs_shape|]); (split; [reflexivity|]);
    (split; [procs_new|]);
    rewrite ?trigger_put_processed_cars; cbn;
    rewrite ?exit_request_processed_cars; cbn; lia.
Qed.

Lemma function_at_inj (p : nat) (f : function) :
  function_at p f ->
  (f = setup_fn <-> p = 0) /\ (f = track_fn <-> p = 1) /\ (f = repair_fn <-> p = 2).
Proof.
  destruct p as [|[|[|p]]]; simpl; [intros -> ..|intros [-> | ->]];
    (split_and!; split; intros; (done || lia)).
Qed.

Lemma kind_ok_frame (s s' : state) :
  (forall c, gen_of s' c = gen_of s c) -> length (procs s') = length (procs s) ->
  kind_ok s -> kind_ok s'.
Proof.
  intros Hg Hl [Hlen Hs]. split; [lia|]. intros p g. rewrite Hg. apply Hs.
Qed.

Lemma length_procs_popped (x : scheduled) (q : list scheduled) (s : state) :
  length (procs (popped x q s)) = length (procs s).
Proof. unfold popped. destruct (item x); simpl; by rewrite ?length_alter. Qed.

Lemma kind_ok_popped (x : scheduled) (q : list scheduled) (s : state) :
  kind_ok s -> kind_ok (popped x q s).
Proof.
  apply kind_ok_frame; [intros c; apply gen_of_popped|apply length_procs_popped].
Qed.

Lemma kind_ok_trigger_put (s : state) : kind_ok s -> kind_ok (trigger_put s).
Proof.
  apply kind_ok_frame; [intros c; unfold gen_of|]; by rewrite trigger_put_procs.
Qed.

Lemma segment_kind_ok (p : nat) (pr : Process) (s s' : state) :
  procs s !! p = Some pr -> kind_ok s -> segment p (gen pr) s s' -> kind_ok s'.
Proof.
  intros Hp [Hlen Hs] Hseg.
  destruct (segment_procs _ _ _ _ Hp Hseg) as (g & tg & l & Hprocs & Hf & Hl & _).
  pose proof (lookup_lt_Some _ _ _ Hp) as Hlt.
  split. { rewrite Hprocs, length_app, length_alter. lia. }
  intros c g' Hc. destruct (decide (c < length (procs s))) as [Hc'|Hc'].
  - destruct (decide (c = p)) as [->|Hne].
    + destruct (regen_eq _ _ _ _ _ _ Hprocs Hlt) as [Hg _]. rewrite Hg in Hc.
      injection Hc as <-. rewrite Hf. apply Hs. by apply gen_of_Some.
    + destruct (regen_ne _ _ _ _ _ _ _ Hprocs Hne Hc') as [Hg _]. rewrite Hg in Hc.
      by apply Hs.
  - assert (length (procs s) <= c) as Hle by lia.
    destruct (regen_new _ _ _ _ _ _ _ _ Hprocs Hle Hc) as (pr' & Hin & <-).
    destruct c as [|[|[|c]]]; [lia..|]. simpl. by apply Hl.
Qed.

Lemma cars_in_service_app (l k : list Process) :
  cars_in_service (l ++ k) = cars_in_service l + cars_in_service k.
Proof.
  unfold cars_in_service. induction l as [|x l IH]; simpl; [done|]. rewrite IH. lia.
Qed.

Lemma cars_in_service_alter (g : generator) (tg : option event) (p : nat) (pr : Process)
    (l : list Process) :
  l !! p = Some pr ->
  cars_in_service (alter (with_gen g tg) p l) + in_service (gen pr) =
    cars_in_service l + in_service g.
Proof.
  unfold cars_in_service. revert p.
  induction l as [|x l IH]; intros [|p] Hp; simplify_eq/=; try lia.
  specialize (IH p Hp). lia.
Qed.

Lemma cars_in_service_callbacks (cbs : option (list callback)) (p : nat)
    (l : list Process) :
  cars_in_service (alter (with_proc_callbacks cbs) p l) = cars_in_service l.
Proof.
  unfold cars_in_service. revert p.
  induction l as [|x l IH]; intros [|p]; simpl; try done.
  f_equal. apply IH.
Qed.

Lemma car_count_of_other (g : generator) :
  function_of g <> setup_fn -> car_count_of g = 0.
Proof. by destruct g. Qed.

Lemma count_ok_popped (x : scheduled) (q : list scheduled) (s : state) :
  count_ok s -> count_ok (popped x q s).
Proof.
  unfold count_ok, car_count. rewrite gen_of_popped. intros <-.
  unfold popped. destruct (item x); simpl; try done.
  by rewrite cars_in_service_callbacks.
Qed.

Lemma count_ok_trigger_put (s : state) : count_ok s -> count_ok (trigger_put s).
Proof.
  unfold count_ok, car_count, gen_of.
  by rewrite trigger_put_procs, trigger_put_processed_cars.
Qed.

Lemma segment_count_ok (p : nat) (pr : Process) (s s' : state) :
  procs s !! p = Some pr -> kind_ok s -> count_ok s -> segment p (gen pr) s s' ->
  count_ok s'.
Proof.
  intros Hp [Hlen Hk] Hs Hseg.
  destruct (segment_procs _ _ _ _ Hp Hseg) as (g & tg & l & Hprocs & Hf & _ & Hcount).
  pose proof (lookup_lt_Some _ _ _ Hp) as Hlt.
  pose proof (cars_in_service_alter g tg p pr (procs s) Hp) as Halter.
  pose proof (function_at_inj _ _ (Hk p (gen pr) (gen_of_Some _ _ _ Hp))) as (Hsetup & _).
  unfold count_ok in *. rewrite Hprocs, cars_in_service_app.
  unfold car_count in *. destruct (decide (p = 0)) as [->|Hne].
  - destruct (regen_eq _ _ _ _ _ _ Hprocs Hlt) as [-> _].
    rewrite (gen_of_Some _ _ _ Hp) in Hs. simpl in *. lia.
  - assert (0 < length (procs s)) as Hpos by lia.
    destruct (regen_ne _ _ _ _ _ _ _ Hprocs (not_eq_sym Hne) Hpos) as [-> _].
    rewrite (car_count_of_other g) in Hcount by (rewrite Hf; tauto).
    rewrite (car_count_of_other (gen pr)) in Hcount by tauto. lia.
Qed.

(** ** The invariant of a run *)

Lemma res_ok_popped (x : scheduled) (q : list scheduled) (s : state) :
  res_ok s -> res_ok (popped x q s).
Proof.
  unfold res_ok. rewrite users_popped.
  assert (capacity (popped x q s) = capacity s) as ->; [|done].
  unfold popped. by destruct (item x).
Qed.

Lemma head_due (x : scheduled) (q : list scheduled) (s : state) :
  time_ok s -> queue s = x :: q -> (now s <= at_time x)%Q.
Proof.
  intros (_ & Hall & _) Hq. rewrite Hq in Hall. by apply Forall_cons in Hall as [? _].
Qed.

Lemma woken_ok_popped (x : scheduled) (q : list scheduled) (s : state) :
  queue s = x :: q -> wash_ok s -> woken_ok (popped x q s) (item x).
Proof.
  intros Hq Hs c n a r wt st w g. rewrite !gen_of_popped, !target_of_popped, now_popped.
  intros Hc Htc Hgw. destruct (Hs _ _ _ _ _ _ Hc) as (w' & g' & Htc' & Hgw' & Htm).
  rewrite Htc in Htc'. injection Htc' as <-. rewrite Hgw in Hgw'. injection Hgw' as <-.
  assert (x ∈ queue s) as Hx by (rewrite Hq; set_solver).
  destruct g; try done; simpl in Htm.
  - destruct Htm as (i & Hti & _ & Hall). intros Ht. rewrite Hti in Ht.
    injection Ht as Ht. by apply Hall.
  - destruct Htm as (i & Hti & _ & Hall). intros Ht. rewrite Hti in Ht.
    injection Ht as Ht. by apply Hall.
  - intros Hit. by apply Htm.
Qed.

Lemma ready_popped (x : scheduled) (q : list scheduled) (cbs : list callback) (p : nat)
    (s : state) :
  wf s -> queue s = x :: q -> get_callbacks (item x) s = Some cbs -> resume_cb p ∈ cbs ->
  ready (popped x q s) p (item x).
Proof.
  intros Hs Hq Hcb Hp.
  assert (x ∈ queue s) as Hx by (rewrite Hq; set_solver).
  split.
  - by eapply idle_popped; [apply Hs|..].
  - rewrite target_of_popped. eapply cbs_ok_resume; [|done]. by apply (wf_cb _ Hs).
  - intros r Hr. rewrite usage_of_popped, now_popped. by apply (wf_qreq _ Hs).
  - intros c Hc. rewrite gen_of_popped. by apply (wf_qproc _ Hs x).
  - apply woken_ok_popped; [done|apply Hs].
Qed.

Lemma wf_popped (x : scheduled) (q : list scheduled) (cbs : list callback) (s : state) :
  wf s -> queue s = x :: q -> get_callbacks (item x) s = Some cbs ->
  cbs <> [stop_simulation_cb] -> wf (popped x q s).
Proof.
  intros Hs Hq Hcb Hne. pose proof (head_due _ _ _ (wf_time _ Hs) Hq) as Hdue.
  split.
  - apply time_ok_popped; [done|apply Hs].
  - apply res_ok_popped, Hs.
  - apply reqs_ok_popped; [done|apply Hs].
  - apply qreq_ok_popped; [done|apply Hs].
  - apply qproc_ok_popped; [done|apply Hs].
  - apply range_ok_popped; [done|apply Hs].
  - eapply until_ok_popped; [done..|apply Hs].
  - apply cb_ok_popped, Hs.
  - apply own_ok_popped, Hs.
  - apply hold_ok_popped, Hs.
  - apply sum_ok_popped; [apply Hs|done|apply Hs].
  - apply wash_ok_popped; [done|apply Hs].
  - apply kind_ok_popped, Hs.
  - apply count_ok_popped, Hs.
Qed.

Lemma wf_trigger_put (s : state) : wf s -> wf (trigger_put s).
Proof.
  intros Hs. pose proof (wf_reqs _ Hs) as Hreqs. split.
  - apply time_ok_trigger_put, Hs.
  - apply trigger_put_res_ok, Hs.
  - by apply reqs_ok_trigger_put.
  - apply qreq_ok_trigger_put; [done|apply Hs].
  - apply qproc_ok_trigger_put, Hs.
  - apply range_ok_trigger_put, Hs.
  - apply until_ok_trigger_put, Hs.
  - apply cb_ok_trigger_put, Hs.
  - apply own_ok_trigger_put; [done|apply Hs].
  - apply hold_ok_trigger_put; [done|apply Hs].
  - apply sum_ok_trigger_put; [done|apply Hs].
  - apply wash_ok_trigger_put, Hs.
  - apply kind_ok_trigger_put, Hs.
  - apply count_ok_trigger_put, Hs.
Qed.

Lemma wf_segment (p : nat) (pr : Process) (ev : event) (s s' : state) :
  procs s !! p = Some pr -> ready s p ev -> wf s -> segment p (gen pr) s s' -> wf s'.
Proof.
  intros Hp Hready Hs Hseg. pose proof (wf_reqs _ Hs) as Hreqs. split.
  - eapply segment_time_ok; [apply Hs|done].
  - eapply segment_res_ok; [apply Hs|done].
  - by eapply segment_reqs_ok.
  - eapply segment_qreq_ok; [done|apply Hs|done].
  - eapply segment_qproc_ok; [done|apply Hs|done].
  - eapply segment_range_ok; [apply Hs|done].
  - eapply segment_until_ok; [apply Hs|done].
  - eapply segment_cb_ok; [done|apply Hready|apply Hs|done].
  - eapply segment_own_ok; [done|done|apply Hs|done].
  - eapply segment_hold_ok; [done|done|done|apply Hs|done].
  - eapply segment_sum_ok; [done|done|apply Hs|apply Hs|done].
  - eapply segment_wash_ok; [done|done|apply Hs|apply Hs|apply Hs|done].
  - eapply segment_kind_ok; [done|apply Hs|done].
  - eapply segment_count_ok; [done|apply Hs|apply Hs|done].
Qed.

Lemma wf_resume (x : scheduled) (q : list scheduled) (cbs : list callback) (p : nat)
    (s s' : state) :
  wf s -> queue s = x :: q -> get_callbacks (item x) s = Some cbs ->
  cbs = [resume_cb p] \/ cbs = [trigger_get_cb; resume_cb p] ->
  resume p (popped x q s) = Return s' -> wf s'.
Proof.
  intros Hs Hq Hcb Hcbs Hres.
  apply resume_segment in Hres as (pr & Hp & Hseg).
  eapply wf_segment; [done| | |done].
  - eapply ready_popped; [done..|]. destruct Hcbs as [-> | ->]; set_solver.
  - eapply wf_popped; [done..|]. by destruct Hcbs as [-> | ->].
Qed.

Lemma wf_step (s s' : state) : wf s -> step s = Return s' -> wf s'.
Proof.
  intros Hs Hstep. apply step_inv in Hstep as (x & q & cbs & Hq & Hcb & Hrun).
  destruct (wf_cb _ Hs _ _ Hcb) as [->|[->|[->|(p & Hcbs & _)]]].
  - injection Hrun as <-. by eapply wf_popped.
  - injection Hrun as <-. apply wf_trigger_put. by eapply wf_popped.
  - done.
  - assert (resume p (popped x q s) = Return s') as Hres.
    { destruct Hcbs as [-> | ->]; simpl in Hrun;
        by destruct (resume p (popped x q s)). }
    by eapply wf_resume.
Qed.

Lemma main_from_eq (g : rng) :
  main_from g =
  {| now := 0%Q;
     queue := [Scheduled 0%Q URGENT 0 (Ev 0); Scheduled 0%Q URGENT 1 (Ev 1);
               Scheduled 0%Q URGENT 2 (Ev 2); Scheduled 500%Q URGENT 3 (Ev 3)];
     eid := 4;
     events := [Some [resume_cb 0]; Some [resume_cb 1]; Some [resume_cb 2];
                Some [stop_simulation_cb]];
     procs := [{| proc_callbacks := Some []; gen := setup_start; target := Some (Ev 0) |};
               {| proc_callbacks := Some []; gen := track_start; target := Some (Ev 1) |};
               {| proc_callbacks := Some []; gen := repair_start; target := Some (Ev 2) |}];
     reqs := []; capacity := NUM_MACHINES; users := []; put_queue := [];
     random := g; wait_times := []; queue_lengths := []; queue_time := [];
     processed_cars := 0; busy_time := 0%Q |}.
Proof. vm_compute. reflexivity. Qed.

Ltac in_list H :=
  repeat (apply elem_of_cons in H as [->|H]); [..|by apply elem_of_nil in H].

Lemma wf_main_from (g : rng) : wf (main_from g).
Proof.
  rewrite main_from_eq. split.
  - split_and!; [done|repeat constructor; by vm_compute..].
  - split; [simpl; unfold NUM_MACHINES; lia|done].
  - split_and!; simpl; [constructor|constructor|set_solver|set_solver].
  - intros x r Hx Hr. simpl in Hx. in_list Hx; done.
  - intros x p Hx Hp. simpl in Hx. in_list Hx; done.
  - intros x i Hx Hi. simpl in Hx. in_list Hx; simpl in Hi; simplify_eq; simpl; lia.
  - exists (Scheduled 500%Q URGENT 3 (Ev 3)), 3. simpl.
    split_and!; [set_solver|done|by vm_compute|done].
  - intros [i|r|p] cbs; simpl.
    + destruct i as [|[|[|[|i]]]]; simpl; intros [= <-]; unfold cbs_ok;
        try (do 3 right; eexists; split; [left; reflexivity|reflexivity]).
      right; right; by left.
    + done.
    + destruct p as [|[|[|p]]]; simpl; intros [= <-]; by left.
  - intros r Hr. simpl in Hr. by apply elem_of_nil in Hr.
  - intros p pr. destruct p as [|[|[|p]]]; simpl; intros [= <-]; by split.
  - split; simpl; [done|]. by vm_compute.
  - intros c n a r wt st. unfold gen_of. simpl.
    by destruct c as [|[|[|c]]].
  - split; [simpl; lia|]. intros p g'. unfold gen_of. simpl.
    destruct p as [|[|[|p]]]; simpl; by intros [= <-].
  - reflexivity.
Qed.

(** Every state of a run satisfies the invariant. *)
Lemma reachable_wf (g : rng) (s : state) : reachable g s -> wf s.
Proof.
  induction 1 as [|s s' _ IH Hstep]; [apply wf_main_from|by eapply wf_step].
Qed.

(** ** The steps of a run *)

Lemma runs_to_last (g : rng) (s0 s' : state) (e : exception) :
  reachable g s0 -> runs_to s0 e s' -> exists s, reachable g s /\ step s = Raise e s'.
Proof.
  intros Hr Hrun. induction Hrun as [s e s' Hs|s s1 e s' Hs _ IH]; [by eauto|].
  apply IH. by eapply reachable_step.
Qed.

Lemma run_reachable (g : rng) (n : nat) (s : state) :
  run n (main_from g) = Return s -> reachable g s.
Proof.
  assert (forall s0, reachable g s0 -> run n s0 = Return s -> reachable g s) as H.
  { induction n as [|n IH]; intros s0 Hr; simpl; [by intros [= <-]|].
    destruct (step s0) as [s1|] eqn:Hs; [|done]. apply IH. by eapply reachable_step. }
  apply H, reachable_main.
Qed.

Lemma run_runs_to (n : nat) (s s' : state) (e : exception) :
  run n s = Raise e s' -> runs_to s e s'.
Proof.
  revert s. induction n as [|n IH]; intros s; simpl; [done|].
  destruct (step s) as [s1|e1 s1] eqn:Hs.
  - intros Hrun. eapply runs_step; [done|by apply IH].
  - intros [= <- <-]. by apply runs_raise.
Qed.

(** What a step does: it pops the head of the queue and either runs no
    callback, or serves the queue of the pool, or resumes one process. *)
Lemma step_cases (s s' : state) :
  wf s -> step s = Return s' ->
  exists x q, queue s = x :: q /\ wf (popped x q s) /\
    (s' = popped x q s \/ s' = trigger_put (popped x q s) \/
     exists p pr, procs (popped x q s) !! p = Some pr /\
       ready (popped x q s) p (item x) /\ segment p (gen pr) (popped x q s) s').
Proof.
  intros Hs Hstep. apply step_inv in Hstep as (x & q & cbs & Hq & Hcb & Hrun).
  exists x, q. split; [done|].
  destruct (wf_cb _ Hs _ _ Hcb) as [->|[->|[->|(p & Hcbs & _)]]].
  - injection Hrun as <-. split; [by eapply wf_popped|by left].
  - injection Hrun as <-. split; [by eapply wf_popped|right; by left].
  - done.
  - assert (resume p (popped x q s) = Return s') as Hres.
    { destruct Hcbs as [-> | ->]; simpl in Hrun;
        by destruct (resume p (popped x q s)). }
    split; [eapply wf_popped; [done..|]; by destruct Hcbs as [-> | ->]|].
    apply resume_segment in Hres as (pr & Hp & Hseg). do 2 right.
    exists p, pr. split_and!; [done| |done].
    eapply ready_popped; [done..|]. destruct Hcbs as [-> | ->]; set_solver.
Qed.

(** A step that moves process [c] on runs the segment at which [c] was
    suspended. *)
Lemma step_of (s s' : state) (c : nat) (g0 : generator) :
  wf s -> step s = Return s' -> gen_of s c = Some g0 -> gen_of s' c <> Some g0 ->
  exists x q, queue s = x :: q /\ wf (popped x q s) /\
    ready (popped x q s) c (item x) /\ segment c g0 (popped x q s) s'.
Proof.
  intros Hs Hstep Hc Hne.
  destruct (step_cases _ _ Hs Hstep)
    as (x & q & Hq & Hwf & [->|[->|(p & pr & Hp & Hready & Hseg)]]).
  - by rewrite gen_of_popped in Hne.
  - rewrite (gen_of_ext _ (popped x q s)), gen_of_popped in Hne
      by apply trigger_put_procs. done.
  - rewrite <- (gen_of_popped x q) in Hc. destruct (decide (p = c)) as [->|Hpc].
    + exists x, q. rewrite (gen_of_Some _ _ _ Hp) in Hc. injection Hc as <-. done.
    + destruct (segment_procs _ _ _ _ Hp Hseg) as (g1 & tg & l & Hprocs & _).
      destruct (regen_ne _ _ _ _ _ _ c Hprocs (not_eq_sym Hpc) (gen_of_lt _ _ _ Hc))
        as [Hg _].
      congruence.
Qed.

(** ** The clock and the busy time *)

Lemma now_le_SIM_TIME (s : state) : wf s -> (now s <= SIM_TIME)%Q.
Proof.
  intros Hs. destruct (wf_until _ Hs) as (x & i & Hx & _ & Hle & _).
  destruct (wf_time _ Hs) as (_ & Hall & _).
  rewrite Forall_forall in Hall. specialize (Hall x Hx). lra.
Qed.

Lemma held_nonneg (s : state) : reqs_ok s -> (0 <= held s)%Q.
Proof.
  intros (_ & _ & Husers & _). unfold held.
  induction (users s) as [|r l IH]; [done|].
  rewrite fmap_cons, sum_Q_cons.
  assert (0 <= held_for s r)%Q.
  { destruct (Husers r) as (u & Hu & Hle); [set_solver|].
    unfold held_for. rewrite Hu. simpl. lra. }
  assert (0 <= sum_Q (held_for s <$> l))%Q by (apply IH; intros; apply Husers; set_solver).
  lra.
Qed.

Lemma busy_time_bounds (s : state) :
  wf s -> (0 <= busy_time s)%Q /\ (busy_time s <= SIM_TIME * of_nat NUM_MACHINES)%Q.
Proof.
  intros Hs. destruct (wf_sum _ Hs) as [H0 Hsum].
  pose proof (held_nonneg _ (wf_reqs _ Hs)) as Hheld.
  pose proof (now_le_SIM_TIME _ Hs) as Hnow.
  destruct (wf_res _ Hs) as [_ Hcap]. rewrite Hcap in Hsum.
  split; [done|]. unfold NUM_MACHINES in *.
  change (of_nat 2) with 2%Q in *. lra.
Qed.

Lemma calculate_metrics_Some (s : state) (m : metrics) :
  calculate_metrics s = Some m ->
  utilization m = (busy_time s / (SIM_TIME * of_nat NUM_MACHINES))%Q /\
  throughput m = (of_nat (processed_cars s) / SIM_TIME)%Q.
Proof.
  unfold calculate_metrics.
  destruct (if bool_decide (wait_times s = []) then _ else _) as [a|]; [|done].
  destruct (if bool_decide (queue_lengths s = []) then _ else _) as [b|]; [|done].
  cbn. by intros [= <-].
Qed.

(** ** The machines that are offline *)

Lemma filter_at_most_one {A} (P : A -> Prop) `{!forall x, Decision (P x)} (l : list A) :
  NoDup l -> (forall x y, x ∈ l -> y ∈ l -> P x -> P y -> x = y) ->
  length (filter P l) <= 1.
Proof.
  induction 1 as [|x l Hx Hnd IH]; intros Heq; [simpl; lia|].
  rewrite filter_cons. destruct (decide (P x)) as [HP|HP].
  - assert (filter P l = []) as ->; [|simpl; lia].
    destruct (filter P l) as [|y k] eqn:Hf; [done|].
    assert (y ∈ filter P l) as Hy by (rewrite Hf; set_solver).
    apply list_elem_of_filter in Hy as [HPy Hy].
    assert (x = y) by (apply Heq; set_solver). by subst.
  - apply IH. intros; apply Heq; set_solver.
Qed.

Lemma offline_owner (s : state) (r : nat) :
  wf s -> r ∈ users s -> offline s r = true ->
  exists g2, gen_of s 2 = Some g2 /\ holds g2 = Some r.
Proof.
  intros Hs Hin Hoff. destruct (wf_own _ Hs r) as (p & g & Ho & Hg & Hh); [set_solver|].
  unfold offline in Hoff. rewrite Ho in Hoff. simpl in Hoff. rewrite Hg in Hoff.
  destruct (function_of g) eqn:Hf; try done.
  destruct (wf_kind _ Hs) as [_ Hk]. pose proof (Hk p g Hg) as Hat. rewrite Hf in Hat.
  apply function_at_inj in Hat as (_ & _ & [Hp _]). rewrite (Hp eq_refl) in Hg. eauto.
Qed.

Lemma offline_count_le (s : state) : wf s -> offline_count s <= 1.
Proof.
  intros Hs. apply filter_at_most_one; [apply (wf_reqs _ Hs)|].
  intros x y Hx Hy Hox Hoy.
  destruct (offline_owner _ _ Hs Hx Hox) as (g2 & Hg2 & Hh).
  destruct (offline_owner _ _ Hs Hy Hoy) as (g2' & Hg2' & Hh'). congruence.
Qed.

(** ** The order in which the pool serves its queue *)

Lemma fifo_trigger_put (s s1 : state) (U new : list nat) :
  (U = users s \/ exists r, U = list_remove_first r (users s)) ->
  (new = [] \/ new = [length (reqs s)]) ->
  users s1 = U -> put_queue s1 = put_queue s ++ new -> capacity s1 = capacity s ->
  reqs_ok s1 -> fifo_step s (trigger_put s1).
Proof.
  intros HU Hnew Hu Hq Hc Hreqs. exists U, new. split; [done|]. split; [done|].
  destruct (trigger_put_cases s1 (reqs_ok_pending s1 Hreqs))
    as [[-> _]|(h & rest & Hpq & Hlt & ->)]; [by left|].
  right. exists h, rest. rewrite <- Hq, <- Hc, <- Hu. by split_and!.
Qed.

Lemma fifo_same (s s' : state) :
  users s' = users s -> put_queue s' = put_queue s -> fifo_step s s'.
Proof.
  intros Hu Hq. exists (users s), []. split; [by left|]. split; [by left|].
  left. by rewrite app_nil_r.
Qed.

Lemma fifo_release (r : nat) (s s' : state) :
  users s' = list_remove_first r (users s) -> put_queue s' = put_queue s ->
  fifo_step s s'.
Proof.
  intros Hu Hq. exists (list_remove_first r (users s)), [].
  split; [right; by exists r|]. split; [by left|]. left. by rewrite app_nil_r.
Qed.

Lemma segment_fifo (p : nat) (pr : Process) (s s' : state) :
  procs s !! p = Some pr -> wf s -> segment p (gen pr) s s' -> fifo_step s s'.
Proof.
  intros Hp Hs Hseg. pose proof (wf_reqs _ Hs) as Hreqs.
  destruct (gen pr) eqn:Hgen; unfold segment in Hseg; destruct_segment;
    try (by apply fifo_same);
    pose proof (wf_hold _ Hs p pr Hp) as [_ Hhold]; rewrite Hgen in Hhold.
  - (* repair_L75 *)
    eapply fifo_trigger_put; [by left|by right|simpl; reflexivity..|reqs_ok_tac].
  - (* repair_L83 *)
    assert (reqs_ok (enqueue p (repair_L90 (length (reqs s))) (exit_request req1 s)))
      as Hreqs' by reqs_ok_tac.
    revert Hreqs'. rewrite (exit_request_release req1 s Hhold). intros Hreqs'.
    eapply fifo_trigger_put;
      [right; by exists req1|by right|simpl; reflexivity..|exact Hreqs'].
  - (* repair_L91 *)
    rewrite (exit_request_release req2 s Hhold). by apply (fifo_release req2).
  - (* car_start *)
    eapply fifo_trigger_put; [by left|by right|simpl; reflexivity..|reqs_ok_tac].
  - (* car_L48 *)
    destruct Hhold as (_ & u & Hu & _).
    rewrite exit_request_release by (by rewrite (usage_of_ext _ s)).
    by apply (fifo_release request0).
Qed.

Lemma fifo_step_popped (x : scheduled) (q : list scheduled) (s s' : state) :
  fifo_step (popped x q s) s' -> fifo_step s s'.
Proof.
  unfold fifo_step. rewrite users_popped, put_queue_popped.
  assert (capacity (popped x q s) = capacity s) as -> by (unfold popped; by destruct (item x)).
  assert (length (reqs (popped x q s)) = length (reqs s)) as ->; [|done].
  unfold popped. destruct (item x); simpl; by rewrite ?length_alter.
Qed.

Lemma step_fifo (s s' : state) : wf s -> step s = Return s' -> fifo_step s s'.
Proof.
  intros Hs Hstep.
  destruct (step_cases _ _ Hs Hstep)
    as (x & q & Hq & Hwf & [->|[->|(p & pr & Hp & Hready & Hseg)]]);
    apply (fifo_step_popped x q).
  - by apply fifo_same.
  - eapply fifo_trigger_put; [by left|by left|done|by rewrite app_nil_r|done|apply Hwf].
  - by eapply segment_fifo.
Qed.

(** ** Nothing that is scheduled has been processed *)

Lemma heappush_perm (x : scheduled) (q : list scheduled) : heappush x q ≡ₚ x :: q.
Proof.
  unfold heappush. induction q as [|y q IH]; [done|]. fold heappush in *.
  destruct (scheduled_lt x y); [done|]. rewrite IH. apply Permutation_swap.
Qed.

Lemma NoDup_items_heappush (x : scheduled) (q : list scheduled) :
  item x ∉ item <$> q -> NoDup (item <$> q) -> NoDup (item <$> heappush x q).
Proof.
  intros Hx Hq. rewrite (heappush_perm x q). simpl. by apply NoDup_cons.
Qed.

Lemma fresh_event (s : state) :
  range_ok s -> Ev (length (events s)) ∉ item <$> queue s.
Proof.
  intros Hr (x & Hx & Hin)%list_elem_of_fmap.
  pose proof (Hr x _ Hin (eq_sym Hx)). lia.
Qed.

Lemma kept_ext (s s' : state) :
  events s' = events s -> procs s' = procs s -> reqs s' = reqs s -> kept s s'.
Proof. intros He Hp Hr [i|r|q]; simpl; by rewrite ?He, ?Hp, ?Hr. Qed.

Lemma kept_trans (s1 s2 s3 : state) : kept s1 s2 -> kept s2 s3 -> kept s1 s3.
Proof. intros H1 H2 ev Hev. by apply H2, H1. Qed.

Lemma is_Some_events_app (l k : list (option (list callback))) (i : nat) :
  is_Some (mjoin (l !! i)) -> is_Some (mjoin ((l ++ k) !! i)).
Proof.
  destruct (l !! i) as [o|] eqn:Hl; [|by intros [? ?]].
  by rewrite (lookup_app_l_Some _ _ _ _ Hl).
Qed.

Lemma is_Some_bind_app {A B} (f : A -> option B) (l k : list A) (i : nat) :
  is_Some (l !! i ≫= f) -> is_Some ((l ++ k) !! i ≫= f).
Proof.
  destruct (l !! i) as [o|] eqn:Hl; [|by intros [? ?]].
  by rewrite (lookup_app_l_Some _ _ _ _ Hl).
Qed.

(** The tables of [s'] are those of [s] with new events, new requests and
    new processes at their ends, and with other generators or usage times
    in the old ones. *)
Lemma kept_tables (s s' : state) (le : list (option (list callback)))
    (fr : Request -> Request) (r : nat) (lr : list Request)
    (fp : Process -> Process) (p : nat) (lp : list Process) :
  events s' = events s ++ le ->
  reqs s' = alter fr r (reqs s) ++ lr ->
  procs s' = alter fp p (procs s) ++ lp ->
  (forall rq, req_callbacks (fr rq) = req_callbacks rq) ->
  (forall pr, proc_callbacks (fp pr) = proc_callbacks pr) ->
  kept s s'.
Proof.
  intros He Hr Hp Hfr Hfp [i|r'|q]; simpl; rewrite ?He, ?Hr, ?Hp.
  - apply is_Some_events_app.
  - intros H. apply is_Some_bind_app. rewrite list_lookup_alter.
    destruct (decide (r = r')) as [->|]; [|done].
    destruct (reqs s !! r') as [rq|]; [|done]. simpl in *. by rewrite Hfr.
  - intros H. apply is_Some_bind_app. rewrite list_lookup_alter.
    destruct (decide (p = q)) as [->|]; [|done].
    destruct (procs s !! q) as [pr|]; [|done]. simpl in *. by rewrite Hfp.
Qed.

Lemma live_ok_intro (s s' : state) :
  kept s s' ->
  NoDup (item <$> queue s') ->
  (forall x, x ∈ queue s' -> x ∈ queue s \/ is_Some (get_callbacks (item x) s')) ->
  (forall r, r ∈ put_queue s' -> r ∈ put_queue s \/ is_Some (get_callbacks (Req r) s')) ->
  (forall p g, gen_of s' p = Some g -> ended g = false ->
     (exists g0, gen_of s p = Some g0 /\ ended g0 = false) \/
     is_Some (get_callbacks (Proc p) s')) ->
  (forall p g, gen_of s' p = Some g -> ended g = true ->
     target_of s' p = None \/ (gen_of s p = Some g /\ target_of s' p = target_of s p)) ->
  live_ok s -> live_ok s'.
Proof.
  intros Hk Hnd Hq Hp Hg Ht (_ & Hsq & Hsp & Hsg & Hst). split_and!; [done|..].
  - intros x Hx. destruct (Hq x Hx) as [Hold|?]; [|done]. by apply Hk, Hsq.
  - intros r Hr. destruct (Hp r Hr) as [Hold|?]; [|done]. by apply Hk, Hsp.
  - intros p g Hgp He. destruct (Hg p g Hgp He) as [(g0 & Hg0 & He0)|?]; [|done].
    by eapply Hk, Hsg.
  - intros p g Hgp He. destruct (Ht p g Hgp He) as [?|[Hg0 ->]]; [done|].
    by eapply Hst.
Qed.

(** The generators and the targets once [p] has moved on to [g] and waits
    for [tg], having started the processes [l]. *)
Lemma live_regen (s s' : state) (g : generator) (tg : option event) (p : nat)
    (l : list Process) :
  procs s' = alter (with_gen g tg) p (procs s) ++ l ->
  (forall g0, gen_of s p = Some g0 -> ended g0 = false) ->
  (ended g = true -> tg = None) ->
  Forall (λ pr, ended (gen pr) = false /\ is_Some (proc_callbacks pr)) l ->
  (forall q g', gen_of s' q = Some g' -> ended g' = false ->
     (exists g1, gen_of s q = Some g1 /\ ended g1 = false) \/
     is_Some (get_callbacks (Proc q) s')) /\
  (forall q g', gen_of s' q = Some g' -> ended g' = true ->
     target_of s' q = None \/
     (gen_of s q = Some g' /\ target_of s' q = target_of s q)).
Proof.
  intros Hp Hg0 Hg Hl.
  assert (forall q g', gen_of s' q = Some g' -> length (procs s) <= q ->
            ended g' = false /\ is_Some (get_callbacks (Proc q) s')) as Hnew.
  { intros q g' Hq Hle. unfold gen_of in Hq. simpl. rewrite Hp in Hq |- *.
    rewrite lookup_app_r in Hq |- * by (by rewrite length_alter).
    destruct (l !! _) as [pr|] eqn:Hpr; [|done]. injection Hq as <-.
    rewrite Forall_forall in Hl. by apply Hl, (list_elem_of_lookup_2 _ _ _ Hpr). }
  split; intros q g' Hq He.
  - destruct (decide (q < length (procs s))) as [Hq'|Hq'].
    + left. destruct (decide (q = p)) as [->|Hne].
      { apply lookup_lt_is_Some_2 in Hq' as [pr Hpr].
        exists (gen pr). rewrite (gen_of_Some _ _ _ Hpr). split; [done|].
        apply Hg0. by apply gen_of_Some. }
      destruct (regen_ne _ _ _ _ _ _ _ Hp Hne Hq') as [Hgq _].
      rewrite Hgq in Hq. by eauto.
    + right. apply (Hnew q g' Hq). lia.
  - destruct (decide (q < length (procs s))) as [Hq'|Hq'].
    + destruct (decide (q = p)) as [->|Hne].
      * destruct (regen_eq _ _ _ _ _ _ Hp Hq') as [Hgp Htp].
        rewrite Hgp in Hq. injection Hq as <-. left. rewrite Htp. by apply Hg.
      * destruct (regen_ne _ _ _ _ _ _ _ Hp Hne Hq') as [Hgq Htq].
        rewrite Hgq in Hq. by right.
    + assert (length (procs s) <= q) as Hle by lia.
      destruct (Hnew q g' Hq Hle) as [? _]. congruence.
Qed.

Lemma live_ok_ext (s s' : state) :
  queue s' = queue s -> put_queue s' = put_queue s -> events s' = events s ->
  procs s' = procs s -> reqs s' = reqs s -> live_ok s -> live_ok s'.
Proof.
  intros Hq Hpq He Hp Hr. unfold live_ok, gen_of, target_of.
  assert (forall ev, get_callbacks ev s' = get_callbacks ev s) as Hcb.
  { intros [i|r|q]; simpl; by rewrite ?He, ?Hp, ?Hr. }
  rewrite Hq, Hpq, Hp. intros (H1 & H2 & H3 & H4 & H5).
  split_and!; [done|..|done]; intros; rewrite Hcb; eauto.
Qed.

Lemma live_ok_after_timeout (p : nat) (g0 g : generator) (d : Q) (s : state) :
  gen_of s p = Some g0 -> ended g0 = false -> ended g = false -> range_ok s ->
  live_ok s -> live_ok (after_timeout p g d s).
Proof.
  intros Hg0 He0 He Hr Hs.
  destruct (live_regen s (after_timeout p g d s) g (Some (Ev (length (events s)))) p [])
    as [HG HT]; [simpl; by rewrite app_nil_r|congruence|congruence|done|].
  apply (live_ok_intro s); [| | | |done|done|done].
  - eapply (kept_tables _ _ _ id 0 [] _ p []); simpl;
      [reflexivity|by rewrite list_alter_id, app_nil_r|by rewrite app_nil_r|done..].
  - simpl. apply NoDup_items_heappush; [by apply fresh_event|apply Hs].
  - intros x [->|Hx]%elem_of_heappush; [right|by left]. simpl.
    by rewrite lookup_snoc.
  - intros r Hr'. by left.
Qed.

Lemma live_ok_spawn (g : generator) (s : state) :
  ended g = false -> range_ok s -> live_ok s -> live_ok (spawn g s).
Proof.
  intros He Hr Hs.
  destruct (live_regen s (spawn g s) setup_start (Some (Ev 0)) (length (procs s))
              [{| proc_callbacks := Some []; gen := g;
                  target := Some (Ev (length (events s))) |}])
    as [HG HT]; [simpl; by rewrite alter_ge|..].
  { intros g0 Hg0%gen_of_lt. lia. }
  { done. }
  { by repeat constructor. }
  apply (live_ok_intro s); [| | | |done|done|done].
  - eapply (kept_tables _ _ _ id 0 [] id 0); simpl;
      [reflexivity|by rewrite list_alter_id, app_nil_r|by rewrite list_alter_id|done..].
  - simpl. apply NoDup_items_heappush; [by apply fresh_event|apply Hs].
  - intros x [->|Hx]%elem_of_heappush; [right|by left]. simpl.
    by rewrite lookup_snoc.
  - intros r Hr'. by left.
Qed.

Lemma live_ok_spawn_wait (p : nat) (g0 g gw : generator) (s : state) :
  gen_of s p = Some g0 -> ended g0 = false -> ended g = false -> ended gw = false ->
  range_ok s -> live_ok s -> live_ok (spawn_wait p g gw s).
Proof.
  intros Hg0 He0 He Hew Hr Hs.
  destruct (live_regen s (spawn_wait p g gw s) g (Some (Proc (length (procs s)))) p
              [{| proc_callbacks := Some [resume_cb p]; gen := gw;
                  target := Some (Ev (length (events s))) |}])
    as [HG HT]; [simpl; reflexivity|congruence|congruence|by repeat constructor|].
  apply (live_ok_intro s); [| | | |done|done|done].
  - eapply (kept_tables _ _ _ id 0 [] _ p); simpl;
      [reflexivity|by rewrite list_alter_id, app_nil_r|reflexivity|done..].
  - simpl. apply NoDup_items_heappush; [by apply fresh_event|apply Hs].
  - intros x [->|Hx]%elem_of_heappush; [right|by left]. simpl.
    by rewrite lookup_snoc.
  - intros r Hr'. by left.
Qed.

Lemma live_ok_enqueue (p : nat) (g0 g : generator) (s : state) :
  gen_of s p = Some g0 -> ended g0 = false -> ended g = false ->
  live_ok s -> live_ok (enqueue p g s).
Proof.
  intros Hg0 He0 He Hs.
  destruct (live_regen s (enqueue p g s) g (Some (Req (length (reqs s)))) p [])
    as [HG HT]; [simpl; by rewrite app_nil_r|congruence|congruence|done|].
  apply (live_ok_intro s); [| | | |done|done|done].
  - eapply (kept_tables _ _ [] id 0 _ _ p []); simpl;
      [by rewrite app_nil_r|by rewrite list_alter_id|by rewrite app_nil_r|done..].
  - apply Hs.
  - intros x Hx. by left.
  - intros r [Hr| ->%list_elem_of_singleton]%elem_of_app; [by left|right]. simpl.
    by rewrite lookup_snoc.
Qed.

Lemma live_ok_finish (p : nat) (g0 g : generator) (s : state) :
  gen_of s p = Some g0 -> ended g0 = false -> qproc_ok s ->
  live_ok s -> live_ok (finish p g s).
Proof.
  intros Hg0 He0 Hqp Hs.
  destruct (live_regen s (finish p g s) g None p [])
    as [HG HT]; [simpl; by rewrite app_nil_r|congruence|done|done|].
  assert (kept s (finish p g s)) as Hk.
  { eapply (kept_tables _ _ [] id 0 [] _ p []); simpl;
      [by rewrite app_nil_r|by rewrite list_alter_id, app_nil_r|by rewrite app_nil_r
      |done..]. }
  apply (live_ok_intro s); [done| | | |done|done|done].
  - simpl. apply NoDup_items_heappush; [|apply Hs].
    intros (x & Hx & Hin)%list_elem_of_fmap.
    destruct (Hqp x p Hin (eq_sym Hx)) as (g' & Hg' & He'). congruence.
  - intros x [->|Hx]%elem_of_heappush; [right|by left].
    destruct Hs as (_ & _ & _ & Hsg & _). by eapply Hk, Hsg.
  - intros r Hr'. by left.
Qed.

Lemma live_same_procs (s s' : state) :
  procs s' = procs s ->
  (forall q g', gen_of s' q = Some g' -> ended g' = false ->
     (exists g1, gen_of s q = Some g1 /\ ended g1 = false) \/
     is_Some (get_callbacks (Proc q) s')) /\
  (forall q g', gen_of s' q = Some g' -> ended g' = true ->
     target_of s' q = None \/
     (gen_of s q = Some g' /\ target_of s' q = target_of s q)).
Proof.
  intros Hp. unfold gen_of, target_of. rewrite Hp. split; intros q g' Hq He.
  - left. by exists g'.
  - by right.
Qed.

Lemma queue_exit_request_eq (r : nat) (s : state) :
  queue (exit_request r s) =
    heappush (Scheduled (now s + 0)%Q NORMAL (eid s) (Ev (length (events s)))) (queue s).
Proof. unfold exit_request, release, cancel. by destruct (triggered r s). Qed.

Lemma put_queue_exit_request (r r' : nat) (s : state) :
  r' ∈ put_queue (exit_request r s) -> r' ∈ put_queue s.
Proof.
  unfold exit_request, release, cancel. destruct (triggered r s); simpl; [done|].
  apply elem_of_list_remove_first.
Qed.

Lemma live_ok_exit_request (r : nat) (s : state) :
  range_ok s -> live_ok s -> live_ok (exit_request r s).
Proof.
  intros Hr Hs.
  destruct (live_same_procs s (exit_request r s) (exit_request_procs r s)) as [HG HT].
  apply (live_ok_intro s); [| | | |done|done|done].
  - eapply (kept_tables _ _ _ id 0 [] id 0 []);
      [apply events_exit_request
      |by rewrite exit_request_reqs, list_alter_id, app_nil_r
      |by rewrite exit_request_procs, list_alter_id, app_nil_r|done..].
  - rewrite queue_exit_request_eq.
    apply NoDup_items_heappush; [by apply fresh_event|apply Hs].
  - intros x [Hx|Hx]%queue_exit_request; [by left|right].
    rewrite Hx. unfold get_callbacks. by rewrite events_exit_request, lookup_snoc.
  - intros r' Hr'%put_queue_exit_request. by left.
Qed.

Lemma live_ok_grant (h : nat) (rest : list nat) (s : state) :
  put_queue s = h :: rest -> usage_of s h = None -> qreq_ok s ->
  live_ok s -> live_ok (grant h rest s).
Proof.
  intros Hpq Hu Hq Hs.
  destruct (live_same_procs s (grant h rest s) eq_refl) as [HG HT].
  assert (kept s (grant h rest s)) as Hk.
  { eapply (kept_tables _ _ [] (with_usage_since (now s)) h [] id 0 []); simpl;
      [by rewrite app_nil_r|by rewrite app_nil_r|by rewrite list_alter_id, app_nil_r
      |done..]. }
  apply (live_ok_intro s); [done| | | |done|done|done].
  - simpl. apply NoDup_items_heappush; [|apply Hs].
    intros (x & Hx & Hin)%list_elem_of_fmap.
    destruct (Hq x h Hin (eq_sym Hx)) as (u & Hu' & _). congruence.
  - intros x [->|Hx]%elem_of_heappush; [right|by left].
    destruct Hs as (_ & _ & Hsp & _). apply Hk, Hsp. rewrite Hpq. set_solver.
  - intros r Hr. left. simpl in Hr. rewrite Hpq. set_solver.
Qed.

Lemma live_ok_trigger_put (s : state) :
  reqs_ok s -> qreq_ok s -> live_ok s -> live_ok (trigger_put s).
Proof.
  intros Hreqs Hq Hs.
  destruct (trigger_put_cases s (reqs_ok_pending s Hreqs))
    as [[-> _]|(h & rest & Hpq & _ & ->)]; [done|].
  apply live_ok_grant; [done| |done..].
  apply (reqs_ok_pending s Hreqs). rewrite Hpq. set_solver.
Qed.

Lemma live_ok_popped (x : scheduled) (q : list scheduled) (s : state) :
  queue s = x :: q -> reqs_ok s -> qreq_ok s -> qproc_ok s ->
  live_ok s -> live_ok (popped x q s).
Proof.
  intros Hq Hreqs Hqr Hqp (Hnd & Hsq & Hsp & Hsg & Hst).
  assert (x ∈ queue s) as Hx by (rewrite Hq; set_solver).
  rewrite Hq in Hnd. simpl in Hnd. apply NoDup_cons in Hnd as [Hnot Hnd].
  unfold live_ok. rewrite queue_popped, put_queue_popped.
  split_and!; [done|..].
  - intros y Hy. rewrite get_callbacks_popped. rewrite decide_False.
    + apply Hsq. rewrite Hq. set_solver.
    + intros Heq. apply Hnot. rewrite <- Heq. by apply list_elem_of_fmap_2.
  - intros r Hr. rewrite get_callbacks_popped. rewrite decide_False; [by apply Hsp|].
    intros Heq. destruct (Hqr x r Hx (eq_sym Heq)) as (u & Hu & _).
    destruct (reqs_ok_pending s Hreqs r Hr) as [_ Hnone]. congruence.
  - intros p g. rewrite gen_of_popped, get_callbacks_popped. intros Hg He.
    rewrite decide_False; [by eapply Hsg|].
    intros Heq. destruct (Hqp x p Hx (eq_sym Heq)) as (g' & Hg' & He'). congruence.
  - intros p g. rewrite gen_of_popped, target_of_popped. apply Hst.
Qed.

Ltac live_ok_tac :=
  repeat lazymatch goal with
    | H : live_ok ?s |- live_ok ?s => exact H
    | |- live_ok (trigger_put _) => apply live_ok_trigger_put; [reqs_ok_tac|qreq_ok_tac|]
    | |- live_ok (exit_request _ _) => apply live_ok_exit_request; [range_ok_tac|]
    | |- live_ok (after_timeout _ _ _ _) =>
        eapply live_ok_after_timeout; [gen_side|done|done|range_ok_tac|]
    | |- live_ok (enqueue _ _ _) => eapply live_ok_enqueue; [gen_side|done|done|]
    | |- live_ok (finish _ _ _) => eapply live_ok_finish; [gen_side|done|qproc_ok_tac|]
    | |- live_ok (spawn _ _) => apply live_ok_spawn; [done|range_ok_tac|]
    | |- live_ok (spawn_wait _ _ _ _) =>
        eapply live_ok_spawn_wait; [gen_side|done|done|done|range_ok_tac|]
    | |- _ => peel live_ok_ext
    end.

Lemma segment_live_ok (p : nat) (pr : Process) (s s' : state) :
  procs s !! p = Some pr -> wf s -> live_ok s -> segment p (gen pr) s s' -> live_ok s'.
Proof.
  intros Hp Hwf Hs Hseg.
  pose proof (wf_reqs _ Hwf) as Hreqs. pose proof (wf_qreq _ Hwf) as Hqreq.
  pose proof (wf_range _ Hwf) as Hrange. pose proof (wf_qproc _ Hwf) as Hqproc.
  destruct (gen pr) eqn:Hgen; unfold segment in Hseg; destruct_segment; live_ok_tac.
Qed.

Lemma live_ok_main_from (g : rng) : live_ok (main_from g).
Proof.
  rewrite main_from_eq. unfold live_ok, gen_of, target_of. simpl. split_and!.
  - repeat (apply NoDup_cons; split; [set_solver|]). apply NoDup_nil_2.
  - intros x Hx. in_list Hx; simpl; by eexists.
  - intros r Hr. by apply elem_of_nil in Hr.
  - intros p g'. destruct p as [|[|[|p]]]; simpl; [by eexists..|done].
  - intros p g'. destruct p as [|[|[|p]]]; simpl; intros [= <-]; done.
Qed.

Lemma reachable_live_ok (g : rng) (s : state) : reachable g s -> live_ok s.
Proof.
  induction 1 as [|s s' Hr IH Hstep]; [apply live_ok_main_from|].
  pose proof (reachable_wf _ _ Hr) as Hs.
  destruct (step_cases _ _ Hs Hstep)
    as (x & q & Hq & Hwf & [->|[->|(p & pr & Hp & Hready & Hseg)]]).
  - apply live_ok_popped; [done|apply Hs..|done].
  - apply live_ok_trigger_put; [apply Hwf..|].
    apply live_ok_popped; [done|apply Hs..|done].
  - eapply segment_live_ok; [done..| |done].
    apply live_ok_popped; [done|apply Hs..|done].
Qed.

(** ** A run never fails *)

Lemma resume_returns (p : nat) (pr : Process) (s : state) :
  procs s !! p = Some pr -> ended (gen pr) = false -> exists s', resume p s = Return s'.
Proof.
  intros Hp He. unfold resume. rewrite Hp.
  destruct (gen pr) eqn:Hg; try done; cbv beta iota;
    lazymatch goal with
    | |- exists _, stop_iteration _ _ _ = _ => by eexists
    | |- _ => idtac
    end.
  - pose proof (expovariate_nonneg LAMBDA (random s) lambda_pos) as Hx.
    destruct (expovariate LAMBDA (random s)) as [x g'].
    rewrite yield_timeout_eq by done. by eexists.
  - change (process (car_start (S car_count0)) s)
      with (length (procs s), spawn (car_start (S car_count0)) s). cbn iota.
    change (random (spawn (car_start (S car_count0)) s)) with (random s).
    pose proof (expovariate_nonneg LAMBDA (random s) lambda_pos) as Hx.
    destruct (expovariate LAMBDA (random s)) as [x g'].
    rewrite yield_timeout_eq by done. by eexists.
  - rewrite yield_timeout_eq by done. by eexists.
  - rewrite yield_timeout_eq by done. by eexists.
  - pose proof (repair_interval_nonneg (random s)) as Hz.
    destruct (randint _ _ (random s)) as [z g'].
    rewrite yield_timeout_eq by done. by eexists.
  - rewrite (request_yield_eq p repair_L82). by eexists.
  - rewrite yield_timeout_eq by apply half_repair_nonneg. by eexists.
  - rewrite (request_yield_eq p repair_L90). by eexists.
  - rewrite yield_timeout_eq by apply half_repair_nonneg. by eexists.
  - rewrite exit_request_random.
    pose proof (repair_interval_nonneg (random s)) as Hz.
    destruct (randint _ _ (random s)) as [z g'].
    rewrite yield_timeout_eq by done. by eexists.
  - rewrite (request_yield_eq p (car_L42 name (now s))). by eexists.
  - rewrite spawn_yield_eq by (by eapply lookup_lt_Some). by eexists.
  - pose proof (expovariate_nonneg MU (random s) mu_pos) as Hx.
    destruct (expovariate MU (random s)) as [x g'].
    rewrite yield_timeout_eq by done. by eexists.
Qed.

Lemma step_eq (x : scheduled) (q : list scheduled) (cbs : list callback) (s : state) :
  queue s = x :: q -> get_callbacks (item x) s = Some cbs ->
  step s = run_callbacks cbs (popped x q s).
Proof.
  intros Hq Hcb. unfold step. rewrite Hq.
  assert (get_callbacks (item x) (set_queue q (set_now (at_time x) s)) = Some cbs) as ->
    by (rewrite <- Hcb; by destruct (item x)).
  reflexivity.
Qed.

(** A step of a run either goes on or stops the run at [SIM_TIME]: the
    queue is never empty, no event is processed twice, no process is
    resumed after its end, and no delay is negative. *)
Lemma step_progress (s : state) :
  wf s -> live_ok s ->
  (exists s', step s = Return s') \/
  (exists x q, queue s = x :: q /\ step s = Raise StopSimulation (popped x q s)).
Proof.
  intros Hs Hl. destruct (wf_until _ Hs) as (y & i & Hy & _).
  destruct (queue s) as [|x q] eqn:Hq; [by apply elem_of_nil in Hy|].
  destruct Hl as (_ & Hlq & _ & _ & Hlt).
  destruct (Hlq x) as [cbs Hcb]; [rewrite Hq; set_solver|].
  rewrite (step_eq x q cbs s Hq Hcb).
  destruct (wf_cb _ Hs _ _ Hcb) as [->|[->|[->|(p & Hcbs & Htg)]]].
  - left. by eexists.
  - left. by eexists.
  - right. by exists x, q.
  - left. pose proof (target_of_lt _ _ _ Htg) as Hlt'.
    apply lookup_lt_is_Some_2 in Hlt' as [pr Hp].
    assert (ended (gen pr) = false) as He.
    { destruct (ended (gen pr)) eqn:He; [|done].
      rewrite (Hlt p (gen pr)) in Htg; [done|by apply gen_of_Some|done]. }
    pose proof (gen_of_popped x q p s) as Hg'. rewrite (gen_of_Some _ _ _ Hp) in Hg'.
    unfold gen_of in Hg'.
    destruct (procs (popped x q s) !! p) as [pr'|] eqn:Hp'; [|done].
    injection Hg' as Hg'. rewrite <- Hg' in He.
    destruct (resume_returns p pr' (popped x q s) Hp' He) as (s' & Hres).
    exists s'. destruct Hcbs as [-> | ->]; simpl; by rewrite Hres.
Qed.

(** ** The claims on the runs of the program *)

Lemma popped_frame (x : scheduled) (q : list scheduled) (s : state) :
  wait_times (popped x q s) = wait_times s /\
  busy_time (popped x q s) = busy_time s /\
  processed_cars (popped x q s) = processed_cars s /\
  capacity (popped x q s) = capacity s /\
  random (popped x q s) = random s /\
  length (reqs (popped x q s)) = length (reqs s).
Proof. unfold popped. destruct (item x); simpl; by rewrite ?length_alter. Qed.

Lemma gen_of_lookup (s : state) (p : nat) (g : generator) :
  gen_of s p = Some g -> exists pr, procs s !! p = Some pr /\ gen pr = g.
Proof.
  unfold gen_of. destruct (procs s !! p) as [pr|]; [|done].
  intros [= <-]. by exists pr.
Qed.

Lemma target_of_lookup (s : state) (p : nat) (pr : Process) :
  procs s !! p = Some pr -> target_of s p = target pr.
Proof. unfold target_of. by intros ->. Qed.

Lemma owner_of_trigger_put (s : state) (r : nat) :
  owner_of (trigger_put s) r = owner_of s r.
Proof.
  unfold owner_of, trigger_put, do_put. destruct (put_queue s) as [|h rest]; [done|].
  destruct (length (users s) <? capacity s)%nat; cbn;
    match goal with |- context [triggered ?a ?b] => destruct (triggered a b) end;
    cbn; try done.
  all: destruct (decide (h = r)) as [->|Hne];
    [rewrite list_lookup_alter_eq; by destruct (reqs s !! r)
    |by rewrite list_lookup_alter_ne].
Qed.



Lemma car_arrives (s s' : state) (c n : nat) :
  wf s -> step s = Return s' ->
  gen_of s c = Some (car_start n) -> gen_of s' c <> Some (car_start n) ->
  exists r, gen_of s' c = Some (car_L42 n (now s') r).
Proof.
  intros Hs Hstep Hg Hne.
  destruct (step_of _ _ _ _ Hs Hstep Hg Hne) as (x & q & Hq & Hwf & Hready & Hseg).
  unfold segment in Hseg. rewrite <- (gen_of_popped x q) in Hg.
  apply gen_of_lookup in Hg as (pr & Hp & Hgen).
  set (s0 := popped x q s) in *. exists (length (reqs s0)).
  assert (now s' = now s0) as ->.
  { rewrite Hseg. by destruct (trigger_put_frame (enqueue c (car_L42 n (now s0)
      (length (reqs s0))) s0)) as (-> & _). }
  rewrite Hseg, (gen_of_ext _ (enqueue c (car_L42 n (now s0) (length (reqs s0))) s0))
    by apply trigger_put_procs.
  eapply gen_of_alter_eq; [cbn; reflexivity|by eexists].
Qed.

Lemma car_waited (s s' : state) (c n : nat) (a : Q) (r : nat) :
  wf s -> step s = Return s' ->
  gen_of s c = Some (car_L42 n a r) -> gen_of s' c <> Some (car_L42 n a r) ->
  exists u w, usage_of s r = Some u /\ (now s' == u)%Q /\
    wait_times s' = wait_times s ++ [w] /\ (w == u - a)%Q /\
    gen_of s' c = Some (car_L48 n a r w (now s')).
Proof.
  intros Hs Hstep Hg Hne.
  destruct (step_of _ _ _ _ Hs Hstep Hg Hne) as (x & q & Hq & Hwf & Hready & Hseg).
  unfold segment in Hseg. rewrite <- (gen_of_popped x q) in Hg.
  apply gen_of_lookup in Hg as (pr & Hp & Hgen).
  destruct (wf_hold _ Hwf c pr Hp) as [_ Hhold]. rewrite Hgen in Hhold.
  destruct Hhold as [Htg _].
  pose proof (ready_target _ _ _ Hready) as Ht.
  rewrite (target_of_lookup _ _ _ Hp), Htg in Ht. injection Ht as Ht.
  destruct (ready_req _ _ _ Hready r (eq_sym Ht)) as (u & Hu & Hnow).
  rewrite usage_of_popped in Hu.
  destruct (popped_frame x q s) as (Hwt & _).
  set (s0 := popped x q s) in *.
  assert (now s' = now s0) as Hn by (by rewrite Hseg).
  assert (wait_times s' = wait_times s0 ++ [(now s0 - a)%Q]) as Hw by (by rewrite Hseg).
  assert (procs s' = alter (with_gen (car_L48 n a r (now s0 - a)%Q (now s0))
                              (Some (Proc (length (procs s0))))) c (procs s0) ++
                     [{| proc_callbacks := Some [resume_cb c]; gen := wash_start n;
                         target := Some (Ev (length (events s0))) |}]) as Hprocs
    by (by rewrite Hseg).
  exists u, (now s0 - a)%Q. rewrite Hn, Hw, Hwt.
  split_and!; [done|lra|done|lra|].
  by destruct (regen_eq _ _ _ _ _ _ Hprocs (lookup_lt_Some _ _ _ Hp)).
Qed.

Lemma wash_draws (s s' : state) (w n : nat) :
  wf s -> step s = Return s' ->
  gen_of s w = Some (wash_start n) -> gen_of s' w <> Some (wash_start n) ->
  gen_of s' w = Some (wash_L31 n (fst (expovariate MU (random s)))).
Proof.
  intros Hs Hstep Hg Hne.
  destruct (step_of _ _ _ _ Hs Hstep Hg Hne) as (x & q & Hq & Hwf & Hready & Hseg).
  unfold segment in Hseg. destruct Hseg as (d & g' & Hd & ->).
  rewrite <- (gen_of_popped x q) in Hg.
  apply gen_of_lookup in Hg as (pr & Hp & Hgen).
  destruct (popped_frame x q s) as (_ & _ & _ & _ & Hrand & _).
  rewrite <- Hrand, Hd.
  eapply gen_of_alter_eq; [cbn; reflexivity|by eexists].
Qed.

Lemma car_leaves (s s' : state) (c n : nat) (a : Q) (r : nat) (wt start : Q) :
  wf s -> step s = Return s' ->
  gen_of s c = Some (car_L48 n a r wt start) ->
  gen_of s' c <> Some (car_L48 n a r wt start) ->
  exists w n' st, target_of s c = Some (Proc w) /\
    gen_of s w = Some (wash_end n' st) /\
    busy_time s' = (busy_time s + (now s' - start))%Q /\
    (now s' - start == st)%Q /\
    processed_cars s' = processed_cars s + 1.
Proof.
  intros Hs Hstep Hg Hne.
  destruct (step_of _ _ _ _ Hs Hstep Hg Hne) as (x & q & Hq & Hwf & Hready & Hseg).
  unfold segment in Hseg. rewrite <- (gen_of_popped x q) in Hg.
  destruct (wf_wash _ Hwf _ _ _ _ _ _ Hg) as (w & gw & Htc & Hgw & Htm).
  pose proof (ready_target _ _ _ Hready) as Ht. rewrite Htc in Ht.
  injection Ht as Ht.
  destruct (ready_proc _ _ _ Hready w (eq_sym Ht)) as (gw' & Hgw' & Hended).
  rewrite Hgw in Hgw'. injection Hgw' as <-.
  pose proof (ready_woken _ _ _ Hready _ _ _ _ _ _ _ _ Hg Htc Hgw) as Hwoken.
  destruct gw; simpl in Hended, Htm; try done. specialize (Hwoken (eq_sym Ht)).
  rewrite target_of_popped in Htc. rewrite gen_of_popped in Hgw.
  destruct (popped_frame x q s) as (_ & Hbusy & Hproc & _).
  set (s0 := popped x q s) in *.
  set (s1 := set_processed_cars (processed_cars s0 + 1)
               (set_busy_time (busy_time s0 + (now s0 - start))%Q s0)) in *.
  destruct (exit_request_frame r s1)
    as (Hn & _ & _ & _ & _ & _ & _ & _ & Hp1 & Hb1).
  assert (now s' = now s0) as Hn' by (by rewrite Hseg).
  assert (busy_time s' = (busy_time s0 + (now s0 - start))%Q) as Hb'
    by (by rewrite Hseg).
  assert (processed_cars s' = processed_cars s0 + 1) as Hp' by (by rewrite Hseg).
  exists w, car, service_time. rewrite Hn', Hb', Hp', Hbusy, Hproc.
  split_and!; [done|done|done|lra|done].
Qed.


Lemma unit_interval (b d : Q) :
  (0 < d)%Q -> (0 <= b)%Q -> (b <= d)%Q -> (0 <= b / d)%Q /\ (b / d <= 1)%Q.
Proof.
  intros Hd H0 Hle. split.
  - apply Qle_shift_div_l; [done|]. lra.
  - apply Qle_shift_div_r; [done|]. lra.
Qed.

(** A run ends only where [env.run] pops the event that it has scheduled
    for [SIM_TIME]. *)
Lemma run_end (g : rng) (e : exception) (s' : state) :
  runs_to (main_from g) e s' ->
  e = StopSimulation /\ exists s x q, wf s /\ queue s = x :: q /\ s' = popped x q s.
Proof.
  intros Hrun.
  destruct (runs_to_last g _ _ _ (reachable_main g) Hrun) as (s & Hr & Hstep).
  pose proof (reachable_wf _ _ Hr) as Hs.
  destruct (step_progress s Hs (reachable_live_ok _ _ Hr))
    as [[s1 Hs1]|(x & q & Hq & Hstop)]; [congruence|].
  rewrite Hstep in Hstop. injection Hstop as -> ->. split; [done|]. by exists s, x, q.
Qed.




(** ** The tables of the event objects only grow *)

Lemma grows_refl (s : state) : grows s s.
Proof. by intros ev cbs. Qed.

Lemma grows_trans (s1 s2 s3 : state) : grows s1 s2 -> grows s2 s3 -> grows s1 s3.
Proof.
  intros H1 H2 ev cbs. split.
  - intros H. by apply H2, H1.
  - intros H Hin. apply H1; [|done]. by apply H2.
Qed.

Lemma grows_same (s s' : state) :
  (forall ev, get_callbacks ev s' = get_callbacks ev s) -> grows s s'.
Proof. intros H ev cbs. by rewrite H. Qed.

Lemma grows_ext (s s' : state) :
  events s' = events s -> procs s' = procs s -> reqs s' = reqs s -> grows s s'.
Proof.
  intros He Hp Hr. apply grows_same. intros [i|r|q]; simpl; by rewrite ?He, ?Hp, ?Hr.
Qed.

Lemma lookup_grown {A} (f : A -> option (list callback)) (h : A -> A) (k : nat)
    (l la : list A) (i : nat) (cbs : list callback) :
  (forall a, f (h a) = f a) ->
  Forall (λ a, forall cbs', f a = Some cbs' -> stop_simulation_cb ∉ cbs') la ->
  (l !! i ≫= f = Some cbs -> (alter h k l ++ la) !! i ≫= f = Some cbs) /\
  ((alter h k l ++ la) !! i ≫= f = Some cbs -> stop_simulation_cb ∈ cbs ->
   l !! i ≫= f = Some cbs).
Proof.
  intros Hf Hla.
  assert (alter h k l !! i ≫= f = l !! i ≫= f) as Hold.
  { rewrite list_lookup_alter. destruct (decide (k = i)) as [->|]; [|done].
    destruct (l !! i); [|done]. simpl. apply Hf. }
  destruct (decide (i < length l)) as [Hlt|Hge].
  - rewrite lookup_app_l by (by rewrite length_alter). by rewrite Hold.
  - rewrite lookup_app_r by (rewrite length_alter; lia).
    rewrite (lookup_ge_None_2 l) by lia. split; [done|].
    destruct (la !! _) as [a|] eqn:Ha; [|done]. simpl. intros Hcbs Hin.
    rewrite Forall_forall in Hla.
    by destruct (Hla a (list_elem_of_lookup_2 _ _ _ Ha) cbs Hcbs).
Qed.

(** The tables of [s'] are those of [s] with new events, new requests and
    new processes at their ends, none of which stops the run. *)
Lemma grows_tables (s s' : state) (le : list (option (list callback)))
    (fr : Request -> Request) (r : nat) (lr : list Request)
    (fp : Process -> Process) (p : nat) (lp : list Process) :
  events s' = events s ++ le ->
  reqs s' = alter fr r (reqs s) ++ lr ->
  procs s' = alter fp p (procs s) ++ lp ->
  (forall rq, req_callbacks (fr rq) = req_callbacks rq) ->
  (forall pr, proc_callbacks (fp pr) = proc_callbacks pr) ->
  Forall (λ o, forall cbs, o = Some cbs -> stop_simulation_cb ∉ cbs) le ->
  Forall (λ rq, forall cbs, req_callbacks rq = Some cbs -> stop_simulation_cb ∉ cbs) lr ->
  Forall (λ pr, forall cbs, proc_callbacks pr = Some cbs -> stop_simulation_cb ∉ cbs) lp ->
  grows s s'.
Proof.
  intros He Hr Hp Hfr Hfp Hle Hlr Hlp [i|r'|q] cbs; simpl; rewrite ?He, ?Hr, ?Hp.
  - pose proof (lookup_grown id id 0 (events s) le i cbs (λ _, eq_refl) Hle) as H.
    by rewrite list_alter_id in H.
  - by apply lookup_grown.
  - by apply lookup_grown.
Qed.

Ltac no_stop :=
  repeat constructor; simpl; intros ? [= <-]; set_solver.

Lemma grows_after_timeout (p : nat) (g : generator) (d : Q) (s : state) :
  grows s (after_timeout p g d s).
Proof.
  eapply (grows_tables _ _ _ id 0 [] _ p []); simpl;
    [reflexivity|by rewrite list_alter_id, app_nil_r|by rewrite app_nil_r|done|done|..];
    no_stop.
Qed.

Lemma grows_spawn (g : generator) (s : state) : grows s (spawn g s).
Proof.
  eapply (grows_tables _ _ _ id 0 [] id 0); simpl;
    [reflexivity|by rewrite list_alter_id, app_nil_r|by rewrite list_alter_id|done|done|..];
    no_stop.
Qed.

Lemma grows_spawn_wait (p : nat) (g gw : generator) (s : state) :
  grows s (spawn_wait p g gw s).
Proof.
  eapply (grows_tables _ _ _ id 0 [] _ p); simpl;
    [reflexivity|by rewrite list_alter_id, app_nil_r|reflexivity|done|done|..];
    no_stop.
Qed.

Lemma grows_enqueue (p : nat) (g : generator) (s : state) : grows s (enqueue p g s).
Proof.
  eapply (grows_tables _ _ [] id 0 _ _ p []); simpl;
    [by rewrite app_nil_r|by rewrite list_alter_id|by rewrite app_nil_r|done|done|..];
    no_stop.
Qed.

Lemma grows_finish (p : nat) (g : generator) (s : state) : grows s (finish p g s).
Proof.
  eapply (grows_tables _ _ [] id 0 [] _ p []); simpl;
    [by rewrite app_nil_r|by rewrite list_alter_id, app_nil_r|by rewrite app_nil_r
    |done|done|..];
    no_stop.
Qed.

Lemma grows_exit_request (r : nat) (s : state) : grows s (exit_request r s).
Proof.
  eapply (grows_tables _ _ _ id 0 [] id 0 []);
    [apply events_exit_request
    |by rewrite exit_request_reqs, list_alter_id, app_nil_r
    |by rewrite exit_request_procs, list_alter_id, app_nil_r|done|done|..];
    no_stop.
Qed.

Lemma grows_trigger_put (s : state) : grows s (trigger_put s).
Proof. apply grows_same. intros ev. apply get_callbacks_trigger_put. Qed.

Ltac grows_tac :=
  repeat lazymatch goal with
    | |- grows ?s ?s => apply grows_refl
    | |- grows ?s (trigger_put ?s1) =>
        apply (grows_trans s s1); [|apply grows_trigger_put]
    | |- grows ?s (exit_request _ ?s1) =>
        apply (grows_trans s s1); [|apply grows_exit_request]
    | |- grows ?s (after_timeout _ _ _ ?s1) =>
        apply (grows_trans s s1); [|apply grows_after_timeout]
    | |- grows ?s (enqueue _ _ ?s1) =>
        apply (grows_trans s s1); [|apply grows_enqueue]
    | |- grows ?s (spawn_wait _ _ _ ?s1) =>
        apply (grows_trans s s1); [|apply grows_spawn_wait]
    | |- grows ?s (finish _ _ ?s1) =>
        apply (grows_trans s s1); [|apply grows_finish]
    | |- grows ?s (spawn _ ?s1) =>
        apply (grows_trans s s1); [|apply grows_spawn]
    | |- grows ?s (?f ?s1) =>
        apply (grows_trans s s1); [|apply grows_ext; simpl; reflexivity]
    end.

Lemma segment_grows (p : nat) (g : generator) (s s' : state) :
  segment p g s s' -> grows s s'.
Proof.
  intros Hseg. destruct g; unfold segment in Hseg; destruct_segment; grows_tac.
Qed.

(** ** The event that ends the run *)

Lemma heappush_cons (x y : scheduled) (q : list scheduled) :
  heappush x (y :: q) = if scheduled_lt x y then x :: y :: q else y :: heappush x q.
Proof. reflexivity. Qed.

(** An entry that is pushed when the event that ends the run has been
    scheduled comes ahead of it only if it is due before [SIM_TIME]. *)
Lemma scheduled_lt_stop (z x : scheduled) :
  (at_time x == SIM_TIME)%Q -> priority x = URGENT -> sid x < sid z ->
  scheduled_lt z x = true -> (at_time z < SIM_TIME)%Q.
Proof.
  intros Hx Hp Hsid. unfold scheduled_lt.
  destruct (at_time z ?= at_time x)%Q eqn:Hc; [| |done].
  - rewrite Hp. unfold URGENT.
    destruct (priority z <? 0)%nat eqn:H0; [apply Nat.ltb_lt in H0; lia|].
    destruct (0 <? priority z)%nat; [done|].
    intros Hlt%Nat.ltb_lt. lia.
  - apply Qlt_alt in Hc. intros _. lra.
Qed.

Lemma heappush_stop (z x : scheduled) (l k : list scheduled) :
  Forall (λ y, (at_time y < SIM_TIME)%Q) l ->
  (at_time x == SIM_TIME)%Q -> priority x = URGENT -> sid x < sid z ->
  exists l' k', heappush z (l ++ x :: k) = l' ++ x :: k' /\
    Forall (λ y, (at_time y < SIM_TIME)%Q) l'.
Proof.
  intros Hl Hx Hp Hsid. induction Hl as [|y l Hy Hl IH]; simpl; rewrite heappush_cons.
  - destruct (scheduled_lt z x) eqn:Hlt.
    + exists [z], k. split; [done|]. repeat constructor.
      by eapply scheduled_lt_stop.
    + by exists [], (heappush z k).
  - destruct (scheduled_lt z y) eqn:Hlt.
    + exists (z :: y :: l), k. split; [done|].
      apply scheduled_lt_time in Hlt. repeat (constructor; [lra|]). done.
    + destruct IH as (l' & k' & -> & Hl'). exists (y :: l'), k'. split; [done|].
      by constructor.
Qed.

Lemma stop_ok_push (s s' : state) (z : scheduled) :
  now s' = now s -> queue s' = heappush z (queue s) -> sid z = eid s ->
  eid s' = S (eid s) -> grows s s' -> stop_ok s -> stop_ok s'.
Proof.
  intros Hnow Hq Hz He Hg (Ht & l & x & k & Hqs & Hl & Hx & Hp & Hsid & Hcb & Huniq).
  split; [by rewrite Hnow|]. rewrite Hq, Hqs.
  destruct (heappush_stop z x l k Hl Hx Hp) as (l' & k' & -> & Hl'); [lia|].
  exists l', x, k'. split_and!; [done..|lia| |].
  - by apply Hg.
  - intros ev cbs Hev Hin. apply (Huniq ev cbs); [|done]. by apply Hg.
Qed.

Lemma stop_ok_grow (s s' : state) :
  now s' = now s -> queue s' = queue s -> eid s' = eid s -> grows s s' ->
  stop_ok s -> stop_ok s'.
Proof.
  intros Hnow Hq He Hg (Ht & l & x & k & Hqs & Hl & Hx & Hp & Hsid & Hcb & Huniq).
  split; [by rewrite Hnow|]. rewrite Hq, He. exists l, x, k. split_and!; [done..| |].
  - by apply Hg.
  - intros ev cbs Hev Hin. apply (Huniq ev cbs); [|done]. by apply Hg.
Qed.

Lemma stop_ok_ext (s s' : state) :
  now s' = now s -> queue s' = queue s -> eid s' = eid s ->
  events s' = events s -> procs s' = procs s -> reqs s' = reqs s ->
  stop_ok s -> stop_ok s'.
Proof. intros Hnow Hq He Hev Hp Hr. apply stop_ok_grow; [done..|by apply grows_ext]. Qed.

Lemma stop_ok_schedule (ev : event) (prio : nat) (d : Q) (s : state) :
  stop_ok s -> stop_ok (schedule ev prio d s).
Proof.
  eapply stop_ok_push; [reflexivity|simpl; reflexivity|reflexivity|reflexivity|].
  by apply grows_ext.
Qed.

Lemma stop_ok_after_timeout (p : nat) (g : generator) (d : Q) (s : state) :
  stop_ok s -> stop_ok (after_timeout p g d s).
Proof.
  eapply stop_ok_push; [reflexivity|simpl; reflexivity|reflexivity|reflexivity|].
  apply grows_after_timeout.
Qed.

Lemma stop_ok_spawn (g : generator) (s : state) : stop_ok s -> stop_ok (spawn g s).
Proof.
  eapply stop_ok_push; [reflexivity|simpl; reflexivity|reflexivity|reflexivity|].
  apply grows_spawn.
Qed.

Lemma stop_ok_spawn_wait (p : nat) (g gw : generator) (s : state) :
  stop_ok s -> stop_ok (spawn_wait p g gw s).
Proof.
  eapply stop_ok_push; [reflexivity|simpl; reflexivity|reflexivity|reflexivity|].
  apply grows_spawn_wait.
Qed.

Lemma stop_ok_enqueue (p : nat) (g : generator) (s : state) :
  stop_ok s -> stop_ok (enqueue p g s).
Proof. apply stop_ok_grow; [reflexivity..|apply grows_enqueue]. Qed.

Lemma stop_ok_finish (p : nat) (g : generator) (s : state) :
  stop_ok s -> stop_ok (finish p g s).
Proof.
  eapply stop_ok_push; [reflexivity|simpl; reflexivity|reflexivity|reflexivity|].
  apply grows_finish.
Qed.

Lemma eid_exit_request (r : nat) (s : state) : eid (exit_request r s) = S (eid s).
Proof. unfold exit_request, release, cancel. by destruct (triggered r s). Qed.

Lemma now_exit_request (r : nat) (s : state) : now (exit_request r s) = now s.
Proof. by destruct (exit_request_frame r s) as (H & _). Qed.

Lemma stop_ok_exit_request (r : nat) (s : state) :
  stop_ok s -> stop_ok (exit_request r s).
Proof.
  eapply stop_ok_push;
    [apply now_exit_request|apply queue_exit_request_eq|reflexivity
    |apply eid_exit_request|apply grows_exit_request].
Qed.

Lemma stop_ok_trigger_put (s : state) : stop_ok s -> stop_ok (trigger_put s).
Proof.
  intros Hs. unfold trigger_put. destruct (put_queue s) as [|h rest]; [done|].
  assert (stop_ok (do_put h s)) as H.
  { unfold do_put. destruct (_ <? _)%nat; [|done]. unfold succeed.
    apply stop_ok_schedule. revert Hs. apply stop_ok_grow; [reflexivity..|].
    eapply (grows_tables _ _ [] (with_usage_since (now s)) h [] id 0 []); simpl;
      [by rewrite app_nil_r|by rewrite app_nil_r|by rewrite list_alter_id, app_nil_r
      |done|done|..]; no_stop. }
  destruct (triggered h (do_put h s)); [|done]. by eapply stop_ok_ext.
Qed.

Lemma stop_ok_popped (x : scheduled) (q : list scheduled) (cbs : list callback)
    (s : state) :
  queue s = x :: q -> get_callbacks (item x) s = Some cbs ->
  cbs <> [stop_simulation_cb] -> stop_ok s -> stop_ok (popped x q s).
Proof.
  intros Hq Hcb Hne (Ht & l & y & k & Hqs & Hl & Hy & Hp & Hsid & Hcby & Huniq).
  assert (item y <> item x) as Hxy by (intros Heq; congruence).
  destruct l as [|x' l]; simpl in Hqs; rewrite Hq in Hqs; [congruence|].
  injection Hqs as <- ->. apply Forall_cons in Hl as [Hx Hl].
  split; [by rewrite now_popped|]. rewrite queue_popped.
  exists l, y, k. split_and!; [done..| | |].
  - unfold popped. by destruct (item x).
  - rewrite get_callbacks_popped. by rewrite decide_False.
  - intros ev cbs'. rewrite get_callbacks_popped.
    destruct (decide (ev = item x)); [done|]. apply Huniq.
Qed.

Ltac stop_ok_tac :=
  repeat lazymatch goal with
    | H : stop_ok ?s |- stop_ok ?s => exact H
    | |- stop_ok (trigger_put _) => apply stop_ok_trigger_put
    | |- stop_ok (exit_request _ _) => apply stop_ok_exit_request
    | |- stop_ok (after_timeout _ _ _ _) => apply stop_ok_after_timeout
    | |- stop_ok (enqueue _ _ _) => apply stop_ok_enqueue
    | |- stop_ok (spawn_wait _ _ _ _) => apply stop_ok_spawn_wait
    | |- stop_ok (finish _ _ _) => apply stop_ok_finish
    | |- stop_ok (spawn _ _) => apply stop_ok_spawn
    | |- _ => peel stop_ok_ext
    end.

Lemma segment_stop_ok (p : nat) (g : generator) (s s' : state) :
  stop_ok s -> segment p g s s' -> stop_ok s'.
Proof.
  intros Hs Hseg. destruct g; unfold segment in Hseg; destruct_segment; stop_ok_tac.
Qed.

Lemma stop_ok_main_from (g : rng) : stop_ok (main_from g).
Proof.
  rewrite main_from_eq. split; [done|].
  exists [Scheduled 0%Q URGENT 0 (Ev 0); Scheduled 0%Q URGENT 1 (Ev 1);
          Scheduled 0%Q URGENT 2 (Ev 2)], (Scheduled 500%Q URGENT 3 (Ev 3)), [].
  split_and!; simpl; [done|by repeat constructor|done|done|lia|done|].
  intros [i|r|p] cbs; simpl.
  - destruct i as [|[|[|[|i]]]]; simpl; intros [= <-]; set_solver.
  - done.
  - destruct p as [|[|[|p]]]; simpl; intros [= <-]; set_solver.
Qed.

(** What a step does, with the callbacks of the entry that it pops. *)
Lemma step_outcome (s : state) :
  wf s -> live_ok s ->
  exists x q cbs, queue s = x :: q /\ get_callbacks (item x) s = Some cbs /\
    ((cbs <> [stop_simulation_cb] /\ exists s', step s = Return s') \/
     (cbs = [stop_simulation_cb] /\ step s = Raise StopSimulation (popped x q s))).
Proof.
  intros Hs Hl. destruct (wf_until _ Hs) as (y & i & Hy & _).
  destruct (queue s) as [|x q] eqn:Hq; [by apply elem_of_nil in Hy|].
  destruct Hl as (_ & Hlq & _ & _ & Hlt).
  destruct (Hlq x) as [cbs Hcb]; [rewrite Hq; set_solver|].
  exists x, q, cbs. split; [done|]. split; [done|].
  rewrite (step_eq x q cbs s Hq Hcb).
  destruct (wf_cb _ Hs _ _ Hcb) as [->|[->|[->|(p & Hcbs & Htg)]]].
  - left. split; [done|]. by eexists.
  - left. split; [done|]. by eexists.
  - by right.
  - left. split; [by destruct Hcbs as [-> | ->]|].
    pose proof (target_of_lt _ _ _ Htg) as Hlt'.
    apply lookup_lt_is_Some_2 in Hlt' as [pr Hp].
    assert (ended (gen pr) = false) as He.
    { destruct (ended (gen pr)) eqn:He; [|done].
      rewrite (Hlt p (gen pr)) in Htg; [done|by apply gen_of_Some|done]. }
    pose proof (gen_of_popped x q p s) as Hg'. rewrite (gen_of_Some _ _ _ Hp) in Hg'.
    unfold gen_of in Hg'.
    destruct (procs (popped x q s) !! p) as [pr'|] eqn:Hp'; [|done].
    injection Hg' as Hg'. rewrite <- Hg' in He.
    destruct (resume_returns p pr' (popped x q s) Hp' He) as (s' & Hres).
    exists s'. destruct Hcbs as [-> | ->]; simpl; by rewrite Hres.
Qed.

(** A step that goes on pops an entry with other callbacks than the one
    that stops the run, and then serves the queue of the pool or resumes one
    process. *)
Lemma step_cases_cbs (s s' : state) :
  wf s -> step s = Return s' ->
  exists x q cbs, queue s = x :: q /\ get_callbacks (item x) s = Some cbs /\
    cbs <> [stop_simulation_cb] /\ wf (popped x q s) /\
    ((cbs = [] /\ s' = popped x q s) \/
     (cbs = [trigger_put_cb] /\ s' = trigger_put (popped x q s)) \/
     exists p pr, resume_cb p ∈ cbs /\ procs (popped x q s) !! p = Some pr /\
       ready (popped x q s) p (item x) /\ segment p (gen pr) (popped x q s) s').
Proof.
  intros Hs Hstep. apply step_inv in Hstep as (x & q & cbs & Hq & Hcb & Hrun).
  exists x, q, cbs. split; [done|]. split; [done|].
  destruct (wf_cb _ Hs _ _ Hcb) as [->|[->|[->|(p & Hcbs & _)]]].
  - injection Hrun as <-. split; [done|]. split; [by eapply wf_popped|by left].
  - injection Hrun as <-. split; [done|]. split; [by eapply wf_popped|right; by left].
  - done.
  - assert (resume p (popped x q s) = Return s') as Hres.
    { destruct Hcbs as [-> | ->]; simpl in Hrun;
        by destruct (resume p (popped x q s)). }
    assert (cbs <> [stop_simulation_cb]) as Hne by (by destruct Hcbs as [-> | ->]).
    split; [done|]. split; [by eapply wf_popped|].
    apply resume_segment in Hres as (pr & Hp & Hseg). do 2 right.
    assert (resume_cb p ∈ cbs) as Hin by (destruct Hcbs as [-> | ->]; set_solver).
    exists p, pr. split_and!; [done..| |done].
    by eapply ready_popped.
Qed.

Lemma stop_ok_step (s s' : state) : wf s -> stop_ok s -> step s = Return s' -> stop_ok s'.
Proof.
  intros Hs Hstop Hstep.
  destruct (step_cases_cbs _ _ Hs Hstep)
    as (x & q & cbs & Hq & Hcb & Hne & Hwf & Hcases).
  pose proof (stop_ok_popped x q cbs s Hq Hcb Hne Hstop) as Hpop.
  destruct Hcases as [[_ ->]|[[_ ->]|(p & pr & _ & Hp & _ & Hseg)]]; [done| |].
  - by apply stop_ok_trigger_put.
  - by eapply segment_stop_ok.
Qed.

Lemma reachable_stop_ok (g : rng) (s : state) : reachable g s -> stop_ok s.
Proof.
  induction 1 as [|s s' Hr IH Hstep]; [apply stop_ok_main_from|].
  eapply stop_ok_step; [by eapply reachable_wf|done..].
Qed.

(** The last step of a run: it pops the event that ends the run, which is
    the head of the queue and due at [SIM_TIME]. *)
Lemma run_stops (g : rng) (e : exception) (s' : state) :
  runs_to (main_from g) e s' ->
  e = StopSimulation /\
  exists s x q, reachable g s /\ queue s = x :: q /\ s' = popped x q s /\
    get_callbacks (item x) s = Some [stop_simulation_cb] /\
    (at_time x == SIM_TIME)%Q.
Proof.
  intros Hrun.
  destruct (runs_to_last g _ _ _ (reachable_main g) Hrun) as (s & Hr & Hstep).
  pose proof (reachable_wf _ _ Hr) as Hs.
  pose proof (reachable_live_ok _ _ Hr) as Hlive.
  destruct (step_outcome s Hs Hlive)
    as (x & q & cbs & Hq & Hcb & [[_ [s1 Hs1]]|[-> Hstop]]); [congruence|].
  rewrite Hstep in Hstop. injection Hstop as -> ->. split; [done|].
  exists s, x, q. split_and!; [done..|].
  destruct (reachable_stop_ok _ _ Hr)
    as (_ & l & y & k & Hqs & Hl & Hy & _ & _ & Hcby & Huniq).
  assert (item x = item y) as Hxy by (apply (Huniq _ _ Hcb); set_solver).
  destruct l as [|x' l]; simpl in Hqs; rewrite Hq in Hqs; injection Hqs as -> ->; [done|].
  destruct Hlive as (Hnd & _). rewrite Hq in Hnd. simpl in Hnd.
  apply NoDup_cons in Hnd as [Hnot _]. destruct Hnot.
  rewrite Hxy. apply list_elem_of_fmap_2. set_solver.
Qed.

(** ** What a segment does to the clock, to the samples and to the queue *)

Lemma now_trigger_put (s : state) : now (trigger_put s) = now s.
Proof. by destruct (trigger_put_frame s) as (H & _). Qed.

Lemma capacity_trigger_put (s : state) : capacity (trigger_put s) = capacity s.
Proof. by destruct (trigger_put_frame s) as (_ & _ & _ & H & _). Qed.

Lemma wait_times_trigger_put (s : state) : wait_times (trigger_put s) = wait_times s.
Proof. by destruct (trigger_put_frame s) as (_ & _ & _ & _ & _ & H & _). Qed.

Lemma queue_lengths_trigger_put (s : state) :
  queue_lengths (trigger_put s) = queue_lengths s.
Proof. by destruct (trigger_put_frame s) as (_ & _ & _ & _ & _ & _ & H & _). Qed.

Lemma queue_time_trigger_put (s : state) : queue_time (trigger_put s) = queue_time s.
Proof. by destruct (trigger_put_frame s) as (_ & _ & _ & _ & _ & _ & _ & H & _). Qed.

Lemma busy_time_trigger_put (s : state) : busy_time (trigger_put s) = busy_time s.
Proof.
  by destruct (trigger_put_frame s) as (_ & _ & _ & _ & _ & _ & _ & _ & _ & H & _).
Qed.

Lemma events_trigger_put (s : state) : events (trigger_put s) = events s.
Proof. by destruct (trigger_put_frame s) as (_ & H & _). Qed.

Lemma capacity_exit_request (r : nat) (s : state) :
  capacity (exit_request r s) = capacity s.
Proof. by destruct (exit_request_frame r s) as (_ & _ & _ & H & _). Qed.

Lemma wait_times_exit_request (r : nat) (s : state) :
  wait_times (exit_request r s) = wait_times s.
Proof. by destruct (exit_request_frame r s) as (_ & _ & _ & _ & _ & H & _). Qed.

Lemma queue_lengths_exit_request (r : nat) (s : state) :
  queue_lengths (exit_request r s) = queue_lengths s.
Proof. by destruct (exit_request_frame r s) as (_ & _ & _ & _ & _ & _ & H & _). Qed.

Lemma queue_time_exit_request (r : nat) (s : state) :
  queue_time (exit_request r s) = queue_time s.
Proof. by destruct (exit_request_frame r s) as (_ & _ & _ & _ & _ & _ & _ & H & _). Qed.

Lemma busy_time_exit_request (r : nat) (s : state) :
  busy_time (exit_request r s) = busy_time s.
Proof.
  by destruct (exit_request_frame r s) as (_ & _ & _ & _ & _ & _ & _ & _ & _ & H).
Qed.

Ltac fields :=
  rewrite ?now_trigger_put, ?capacity_trigger_put, ?wait_times_trigger_put,
    ?queue_lengths_trigger_put, ?queue_time_trigger_put, ?busy_time_trigger_put,
    ?trigger_put_processed_cars;
  cbn;
  rewrite ?now_exit_request, ?capacity_exit_request, ?wait_times_exit_request,
    ?queue_lengths_exit_request, ?queue_time_exit_request, ?busy_time_exit_request,
    ?exit_request_processed_cars;
  cbn; rewrite ?app_nil_r.

(** The clock stands still while a generator runs; a car at line 45
    records its waiting time, [track_queue_length] records one sample, and
    a car at lines 51-52 adds the time of its wash to [busy_time] and
    counts itself as processed. Nothing else touches the tracking
    variables. *)
Lemma segment_fields (p : nat) (g : generator) (s s' : state) :
  segment p g s s' ->
  now s' = now s /\ capacity s' = capacity s /\
  wait_times s' =
    wait_times s ++ match g with car_L42 _ a _ => [(now s - a)%Q] | _ => [] end /\
  queue_lengths s' =
    queue_lengths s ++
      match function_of g with track_fn => [length (put_queue s)] | _ => [] end /\
  queue_time s' =
    queue_time s ++ match function_of g with track_fn => [now s] | _ => [] end /\
  processed_cars s' = processed_cars s + in_wash g /\
  busy_time s' =
    match g with
    | car_L48 _ _ _ _ start => (busy_time s + (now s - start))%Q
    | _ => busy_time s
    end.
Proof.
  intros Hseg. destruct g; unfold segment in Hseg; destruct_segment;
    split_and!; fields; first [reflexivity | lia].
Qed.

Lemma popped_samples (x : scheduled) (q : list scheduled) (s : state) :
  queue_lengths (popped x q s) = queue_lengths s /\
  queue_time (popped x q s) = queue_time s.
Proof. unfold popped. by destruct (item x). Qed.

Lemma pushes_refl (s : state) : pushes s s.
Proof. split_and!; [done|done|by left]. Qed.

Lemma pushes_trans (s1 s2 s3 : state) : pushes s1 s2 -> pushes s2 s3 -> pushes s1 s3.
Proof.
  intros (He1 & Hm1 & Hn1) (He2 & Hm2 & Hn2). split_and!; [lia|by auto|].
  intros x Hx. destruct (Hn2 x Hx) as [Hold|Hnew].
  - by apply Hn1.
  - right. intros i Hi. specialize (Hnew i Hi). lia.
Qed.

Lemma pushes_ext (s s' : state) :
  events s' = events s -> queue s' = queue s -> pushes s s'.
Proof. intros He Hq. unfold pushes. rewrite He, Hq. apply pushes_refl. Qed.

Lemma pushes_push (s s' : state) (z : scheduled) (l : list (option (list callback))) :
  events s' = events s ++ l -> queue s' = heappush z (queue s) ->
  (forall i, item z = Ev i -> length (events s) <= i) -> pushes s s'.
Proof.
  intros He Hq Hz. unfold pushes. rewrite He, Hq, length_app. split_and!; [lia|..].
  - intros x Hx. apply elem_of_heappush. by right.
  - intros x [->|Hx]%elem_of_heappush; [by right|by left].
Qed.

Lemma pushes_after_timeout (p : nat) (g : generator) (d : Q) (s : state) :
  pushes s (after_timeout p g d s).
Proof.
  eapply pushes_push; [simpl; reflexivity..|]. simpl. intros i [= <-]. done.
Qed.

Lemma pushes_spawn (g : generator) (s : state) : pushes s (spawn g s).
Proof.
  eapply pushes_push; [simpl; reflexivity..|]. simpl. intros i [= <-]. done.
Qed.

Lemma pushes_spawn_wait (p : nat) (g gw : generator) (s : state) :
  pushes s (spawn_wait p g gw s).
Proof.
  eapply pushes_push; [simpl; reflexivity..|]. simpl. intros i [= <-]. done.
Qed.

Lemma pushes_finish (p : nat) (g : generator) (s : state) : pushes s (finish p g s).
Proof.
  eapply (pushes_push _ _ _ []); [simpl; by rewrite app_nil_r|simpl; reflexivity|done].
Qed.

Lemma pushes_exit_request (r : nat) (s : state) : pushes s (exit_request r s).
Proof.
  eapply pushes_push; [apply events_exit_request|apply queue_exit_request_eq|].
  simpl. intros i [= <-]. done.
Qed.

Lemma pushes_trigger_put (s : state) : pushes s (trigger_put s).
Proof.
  unfold trigger_put, do_put. destruct (put_queue s) as [|h rest]; [apply pushes_refl|].
  destruct (length (users s) <? capacity s)%nat; cbn;
    match goal with |- context [triggered ?a ?b] => destruct (triggered a b) end;
    try apply pushes_refl; try (by apply pushes_ext).
  all: eapply (pushes_push _ _ _ []); [simpl; by rewrite app_nil_r|simpl; reflexivity|done].
Qed.

Ltac pushes_tac :=
  repeat lazymatch goal with
    | |- pushes ?s ?s => apply pushes_refl
    | |- pushes ?s (trigger_put ?s1) =>
        apply (pushes_trans s s1); [|apply pushes_trigger_put]
    | |- pushes ?s (exit_request _ ?s1) =>
        apply (pushes_trans s s1); [|apply pushes_exit_request]
    | |- pushes ?s (after_timeout _ _ _ ?s1) =>
        apply (pushes_trans s s1); [|apply pushes_after_timeout]
    | |- pushes ?s (spawn_wait _ _ _ ?s1) =>
        apply (pushes_trans s s1); [|apply pushes_spawn_wait]
    | |- pushes ?s (finish _ _ ?s1) =>
        apply (pushes_trans s s1); [|apply pushes_finish]
    | |- pushes ?s (spawn _ ?s1) =>
        apply (pushes_trans s s1); [|apply pushes_spawn]
    | |- pushes ?s (?f ?s1) =>
        apply (pushes_trans s s1); [|apply pushes_ext; simpl; reflexivity]
    end.

Lemma segment_pushes (p : nat) (g : generator) (s s' : state) :
  segment p g s s' -> pushes s s'.
Proof.
  intros Hseg. destruct g; unfold segment in Hseg; destruct_segment; pushes_tac.
Qed.

(** The generator that a segment leaves behind, and the processes that it
    starts: only a car at line 41 comes to wait for a machine, having
    arrived now, and only a car that is granted its machine comes to be
    washed. *)
Lemma segment_gens (p : nat) (pr : Process) (s s' : state) :
  procs s !! p = Some pr -> segment p (gen pr) s s' ->
  exists g tg l,
    procs s' = alter (with_gen g tg) p (procs s) ++ l /\
    in_wash g = at_request (gen pr) /\
    (forall n a r, g = car_L42 n a r -> a = now s) /\
    Forall (λ pr', in_wash (gen pr') = 0 /\ at_request (gen pr') = 0) l.
Proof.
  intros Hp Hseg. pose proof (lookup_lt_Some _ _ _ Hp) as Hlt.
  destruct (gen pr) eqn:Hgen; unfold segment in Hseg; destruct_segment;
    eexists _, _, _; (split; [procs_shape|]); (split; [reflexivity|]);
    (split; [intros ? ? ?; by intros [= _ <- _]|]); by repeat constructor.
Qed.

(** ** Counting the processes at a point of their generator *)

Lemma weight_alter (f : generator -> nat) (g : generator) (tg : option event) (p : nat)
    (pr : Process) (l : list Process) :
  l !! p = Some pr ->
  sum_list_with (λ pr, f (gen pr)) (alter (with_gen g tg) p l) + f (gen pr) =
    sum_list_with (λ pr, f (gen pr)) l + f g.
Proof.
  revert p. induction l as [|x l IH]; intros [|p] Hp; simplify_eq/=; try lia.
  specialize (IH p Hp). lia.
Qed.

Lemma weight_callbacks (f : generator -> nat) (cbs : option (list callback)) (p : nat)
    (l : list Process) :
  sum_list_with (λ pr, f (gen pr)) (alter (with_proc_callbacks cbs) p l) =
    sum_list_with (λ pr, f (gen pr)) l.
Proof.
  revert p. induction l as [|x l IH]; intros [|p]; simpl; try done.
  f_equal. apply IH.
Qed.

Lemma weight_zero (f : generator -> nat) (l : list Process) :
  Forall (λ pr, f (gen pr) = 0) l -> sum_list_with (λ pr, f (gen pr)) l = 0.
Proof. induction 1 as [|x l Hx _ IH]; simpl; lia. Qed.

Lemma weight_popped (f : generator -> nat) (x : scheduled) (q : list scheduled)
    (s : state) :
  sum_list_with (λ pr, f (gen pr)) (procs (popped x q s)) =
    sum_list_with (λ pr, f (gen pr)) (procs s).
Proof.
  unfold popped. destruct (item x); simpl; try done. apply weight_callbacks.
Qed.

(** ** The samples of track_queue_length *)

Lemma track_ok_frame (s s' : state) :
  queue_lengths s' = queue_lengths s -> queue_time s' = queue_time s ->
  target_of s' 1 = target_of s 1 -> grows s s' -> pushes s s' ->
  track_ok s -> track_ok s'.
Proof.
  intros Hql Hqt Htg Hg (He & Hmono & Hnew)
    (Hlen & Htimes & Hlt & i & x & Ht & Hev & Hx & Hi & Hdue).
  unfold track_ok. rewrite Hql, Hqt, Htg. split_and!; [done..|].
  exists i, x. split_and!; [done| |by apply Hmono|done|].
  - assert (get_callbacks (Ev i) s' = Some [resume_cb 1]) as H.
    { apply Hg. simpl. by rewrite Hev. }
    simpl in H. by destruct (events s' !! i) as [[cbs|]|]; simplify_eq/=.
  - intros y Hy Hyi. destruct (Hnew y Hy) as [Hold|Hfresh]; [by apply Hdue|].
    specialize (Hfresh i Hyi). apply lookup_lt_Some in Hev. lia.
Qed.

Lemma of_nat_S (n : nat) : (of_nat (S n) == of_nat n + 1)%Q.
Proof.
  unfold of_nat. rewrite Nat2Z.inj_succ, <- Z.add_1_r, inject_Z_plus. reflexivity.
Qed.

(** The segment of [track_queue_length]: it is resumed at the minute that
    is the number of its samples, takes one more and waits for the next
    minute. *)
Lemma track_ok_sample (g : generator) (s s' : state) :
  function_of g = track_fn -> range_ok s -> (now s < SIM_TIME)%Q ->
  (now s == of_nat (length (queue_time s)))%Q ->
  length (queue_lengths s) = length (queue_time s) ->
  (forall k t, queue_time s !! k = Some t -> (t == of_nat k)%Q) ->
  Forall (λ t, (t < SIM_TIME)%Q) (queue_time s) ->
  is_Some (procs s !! 1) ->
  segment 1 g s s' -> track_ok s'.
Proof.
  intros Hf Hrange Hstop Hnow Hlen Htimes Hlt Hp Hseg.
  assert (s' = after_timeout 1 track_L68 1%Q
                 (set_queue_time (queue_time s ++ [now s])
                    (set_queue_lengths (queue_lengths s ++ [length (put_queue s)]) s)))
    as -> by (by destruct g).
  unfold track_ok. cbn. rewrite !length_app. cbn. split_and!.
  - lia.
  - intros k t Hk. destruct (decide (k < length (queue_time s))) as [Hlt'|Hge].
    + rewrite lookup_app_l in Hk by done. by apply Htimes.
    + rewrite lookup_app_r in Hk by lia.
      destruct (k - length (queue_time s)) as [|j] eqn:Hj; [|by destruct j].
      injection Hk as <-. assert (k = length (queue_time s)) as -> by lia. done.
  - apply Forall_app. split; [done|]. by repeat constructor.
  - exists (length (events s)),
      (Scheduled (now s + 1)%Q NORMAL (eid s) (Ev (length (events s)))).
    split_and!.
    + unfold target_of. cbn. rewrite list_lookup_alter_eq. by destruct Hp as [pr ->].
    + by rewrite lookup_snoc.
    + apply elem_of_heappush. by left.
    + done.
    + intros y [->|Hy]%elem_of_heappush Hi.
      * cbn. rewrite Nat.add_1_r, of_nat_S, Hnow. reflexivity.
      * pose proof (Hrange y _ Hy Hi). lia.
Qed.

Lemma track_ok_step (s s' : state) :
  wf s -> stop_ok s -> track_ok s -> step s = Return s' -> track_ok s'.
Proof.
  intros Hs Hstop Htrack Hstep.
  destruct (step_cases_cbs _ _ Hs Hstep)
    as (x & q & cbs & Hq & Hcb & Hne & Hwf & Hcases).
  pose proof (stop_ok_popped x q cbs s Hq Hcb Hne Hstop) as [Hnow _].
  destruct (popped_samples x q s) as [Hql Hqt].
  destruct Htrack as (Hlen & Htimes & Hlt & i & xt & Htg & Hev & Hxt & Hit & Hdue).
  assert (x ∈ queue s) as Hx by (rewrite Hq; set_solver).
  destruct (wf_kind _ Hwf) as [Hthree Hkind].
  destruct (decide (item x = Ev i)) as [Hxi|Hxi].
  - (* the timeout of [track_queue_length] is due *)
    rewrite Hxi in Hcb. simpl in Hcb. rewrite Hev in Hcb. injection Hcb as <-.
    destruct Hcases as [[? _]|[[? _]|(p & pr & Hin & Hp & _ & Hseg)]]; [done..|].
    apply list_elem_of_singleton in Hin. injection Hin as ->.
    pose proof (Hkind 1 _ (gen_of_Some _ _ _ Hp)) as Hf. simpl in Hf.
    eapply (track_ok_sample (gen pr)); [done|apply Hwf|done|..|done].
    + rewrite Hqt, now_popped. by apply Hdue.
    + by rewrite Hql, Hqt.
    + by rewrite Hqt.
    + by rewrite Hqt.
    + by eexists.
  - (* another entry is *)
    assert (track_ok (popped x q s)) as Hpop.
    { unfold track_ok. rewrite Hql, Hqt, target_of_popped, queue_popped.
      split_and!; [done..|]. exists i, xt. split_and!; [done| | |done|].
      - pose proof (get_callbacks_popped x q (Ev i) s) as H.
        rewrite decide_False in H by congruence. simpl in H. rewrite Hev in H.
        simpl in H. by destruct (events (popped x q s) !! i) as [[?|]|]; simplify_eq/=.
      - rewrite Hq in Hxt. apply elem_of_cons in Hxt as [->|Hxt]; [done|done].
      - intros y Hy. apply Hdue. rewrite Hq. set_solver. }
    destruct Hcases as [[_ ->]|[[_ ->]|(p & pr & _ & Hp & Hready & Hseg)]]; [done| |].
    + revert Hpop. apply track_ok_frame;
        [apply queue_lengths_trigger_put|apply queue_time_trigger_put
        |unfold target_of; by rewrite trigger_put_procs
        |apply grows_trigger_put|apply pushes_trigger_put].
    + assert (p <> 1) as Hp1.
      { intros ->. pose proof (ready_target _ _ _ Hready) as Ht.
        rewrite target_of_popped, Htg in Ht. congruence. }
      pose proof (Hkind p _ (gen_of_Some _ _ _ Hp)) as Hf.
      apply function_at_inj in Hf as (_ & Htrack & _).
      destruct (segment_fields _ _ _ _ Hseg) as (_ & _ & _ & Hql' & Hqt' & _).
      destruct (function_of (gen pr)) eqn:Hfn;
        try (assert (p = 1) by (by apply Htrack); done);
        rewrite app_nil_r in Hql', Hqt'.
      all: destruct (segment_procs _ _ _ _ Hp Hseg) as (g & tg & l & Hprocs & _).
      all: revert Hpop; apply track_ok_frame;
        [done|done| |by eapply segment_grows|by eapply segment_pushes].
      all: eapply regen_ne; [done|done|lia].
Qed.

Lemma track_ok_main_from (g : rng) : track_ok (main_from g).
Proof.
  rewrite main_from_eq. unfold track_ok, target_of. simpl. split_and!; [done|done|done|].
  exists 1, (Scheduled 0%Q URGENT 1 (Ev 1)). split_and!; [done|done|set_solver|done|].
  intros y Hy Hi. in_list Hy; simpl in Hi; simplify_eq. reflexivity.
Qed.

Lemma reachable_track_ok (g : rng) (s : state) : reachable g s -> track_ok s.
Proof.
  induction 1 as [|s s' Hr IH Hstep]; [apply track_ok_main_from|].
  eapply track_ok_step; [by eapply reachable_wf|by eapply reachable_stop_ok|done..].
Qed.

(** ** The waiting times *)

Lemma arrive_ok_later (s s' : state) :
  (forall c, gen_of s' c = gen_of s c) -> wait_times s' = wait_times s ->
  (now s <= now s')%Q -> arrive_ok s -> arrive_ok s'.
Proof.
  intros Hg Hw Hnow [Ha Hwt]. split; [|by rewrite Hw].
  intros c n a r. rewrite Hg. intros Hc. destruct (Ha c n a r Hc). split; lra.
Qed.

Lemma arrive_ok_segment (p : nat) (pr : Process) (s s' : state) :
  procs s !! p = Some pr -> (0 <= now s)%Q -> (now s < SIM_TIME)%Q ->
  arrive_ok s -> segment p (gen pr) s s' -> arrive_ok s'.
Proof.
  intros Hp H0 Hstop [Ha Hwt] Hseg.
  pose proof (lookup_lt_Some _ _ _ Hp) as Hlt.
  destruct (segment_fields _ _ _ _ Hseg) as (Hnow & _ & Hw & _).
  destruct (segment_gens _ _ _ _ Hp Hseg) as (g & tg & l & Hprocs & _ & Hnew & Hl).
  split.
  - intros c n a r Hc. rewrite Hnow.
    destruct (decide (c < length (procs s))) as [Hc'|Hc'].
    + destruct (decide (c = p)) as [->|Hcp].
      * destruct (regen_eq _ _ _ _ _ _ Hprocs Hlt) as [Hg _].
        rewrite Hg in Hc. injection Hc as ->. rewrite (Hnew n a r eq_refl). lra.
      * destruct (regen_ne _ _ _ _ _ _ _ Hprocs Hcp Hc') as [Hg _].
        rewrite Hg in Hc. by apply (Ha c n a r).
    + assert (length (procs s) <= c) as Hle by lia.
      destruct (regen_new _ _ _ _ _ _ _ _ Hprocs Hle Hc) as (pr' & Hin & Hgen).
      rewrite Forall_forall in Hl. destruct (Hl pr' Hin) as [_ Hreq].
      by rewrite Hgen in Hreq.
  - rewrite Hw. apply Forall_app. split; [done|].
    destruct (gen pr) eqn:Hgen; try by constructor.
    match goal with
    | Hg : gen pr = car_L42 ?n ?a ?r |- _ =>
        destruct (Ha p n a r) as [Ha0 Ha1]; [by rewrite (gen_of_Some _ _ _ Hp), Hg|]
    end.
    repeat constructor; lra.
Qed.

Lemma arrive_ok_step (s s' : state) :
  wf s -> stop_ok s -> arrive_ok s -> step s = Return s' -> arrive_ok s'.
Proof.
  intros Hs Hstop Harr Hstep.
  destruct (step_cases_cbs _ _ Hs Hstep)
    as (x & q & cbs & Hq & Hcb & Hne & Hwf & Hcases).
  pose proof (stop_ok_popped x q cbs s Hq Hcb Hne Hstop) as [Hnow _].
  assert (arrive_ok (popped x q s)) as Hpop.
  { revert Harr. apply arrive_ok_later.
    - intros c. apply gen_of_popped.
    - by destruct (popped_frame x q s) as (H & _).
    - rewrite now_popped. apply (head_due x q s); [apply Hs|done]. }
  destruct Hcases as [[_ ->]|[[_ ->]|(p & pr & _ & Hp & _ & Hseg)]]; [done| |].
  - revert Hpop. apply arrive_ok_later.
    + intros c. unfold gen_of. by rewrite trigger_put_procs.
    + apply wait_times_trigger_put.
    + rewrite now_trigger_put. lra.
  - eapply arrive_ok_segment; [done| |done|done|done].
    by destruct (wf_time _ Hwf) as (H & _).
Qed.

Lemma arrive_ok_main_from (g : rng) : arrive_ok (main_from g).
Proof.
  rewrite main_from_eq. split; [|by constructor].
  intros c n a r. unfold gen_of. simpl. by destruct c as [|[|[|c]]].
Qed.

Lemma reachable_arrive_ok (g : rng) (s : state) : reachable g s -> arrive_ok s.
Proof.
  induction 1 as [|s s' Hr IH Hstep]; [apply arrive_ok_main_from|].
  eapply arrive_ok_step; [by eapply reachable_wf|by eapply reachable_stop_ok|done..].
Qed.

(** ** One waiting time for each car that has been granted a machine *)

Lemma waits_ok_step (s s' : state) :
  wf s -> waits_ok s -> step s = Return s' -> waits_ok s'.
Proof.
  intros Hs Hw Hstep.
  destruct (step_cases _ _ Hs Hstep)
    as (x & q & Hq & Hwf & Hcases).
  assert (waits_ok (popped x q s)) as Hpop.
  { unfold waits_ok, washing in *. rewrite weight_popped.
    destruct (popped_frame x q s) as (-> & _ & -> & _). done. }
  destruct Hcases as [->|[->|(p & pr & Hp & _ & Hseg)]]; [done| |].
  - unfold waits_ok, washing in *.
    by rewrite wait_times_trigger_put, trigger_put_processed_cars, trigger_put_procs.
  - destruct (segment_fields _ _ _ _ Hseg) as (_ & _ & Hwt & _ & _ & Hproc & _).
    destruct (segment_gens _ _ _ _ Hp Hseg) as (g & tg & l & Hprocs & Hg & _ & Hl).
    pose proof (weight_alter in_wash g tg p pr (procs (popped x q s)) Hp) as Halter.
    assert (sum_list_with (λ pr, in_wash (gen pr)) l = 0) as Hzero.
    { apply weight_zero. eapply Forall_impl; [exact Hl|]. by intros ? [? _]. }
    unfold waits_ok, washing in *.
    rewrite Hwt, Hproc, Hprocs, length_app, sum_list_with_app, Hzero.
    assert (length (match gen pr with
                    | car_L42 _ a _ => [(now (popped x q s) - a)%Q]
                    | _ => []
                    end) = at_request (gen pr)) as -> by (by destruct (gen pr)).
    lia.
Qed.

Lemma reachable_waits_ok (g : rng) (s : state) : reachable g s -> waits_ok s.
Proof.
  induction 1 as [|s s' Hr IH Hstep]; [by rewrite main_from_eq|].
  eapply waits_ok_step; [by eapply reachable_wf|done..].
Qed.

(** ** The samples, the clock and the machines in every run *)

Lemma of_nat_next (n : nat) : (of_nat n < SIM_TIME)%Q -> (of_nat (S n) <= SIM_TIME)%Q.
Proof.
  unfold of_nat, SIM_TIME. change 500%Q with (inject_Z 500).
  rewrite <- Zlt_Qlt, <- Zle_Qle. lia.
Qed.

Lemma samples_bounded (s : state) :
  track_ok s -> (of_nat (length (queue_time s)) <= SIM_TIME)%Q.
Proof.
  intros (_ & Htimes & Hlt & _).
  destruct (length (queue_time s)) as [|n] eqn:Hn; [by vm_compute|].
  destruct (lookup_lt_is_Some_2 (queue_time s) n) as [t Ht]; [lia|].
  apply of_nat_next. rewrite <- (Htimes n t Ht).
  rewrite Forall_forall in Hlt. apply Hlt. by eapply list_elem_of_lookup_2.
Qed.

(** When the run stops, the timeout of [track_queue_length] is still
    scheduled, for [SIM_TIME] or later. *)
Lemma samples_complete (s : state) (x : scheduled) (q : list scheduled) :
  wf s -> track_ok s -> queue s = x :: q ->
  get_callbacks (item x) s = Some [stop_simulation_cb] -> (at_time x == SIM_TIME)%Q ->
  (SIM_TIME <= of_nat (length (queue_time s)))%Q.
Proof.
  intros Hs (_ & _ & _ & i & xt & _ & Hev & Hxt & Hi & Hdue) Hq Hcb Hx.
  rewrite <- (Hdue xt Hxt Hi), <- Hx.
  destruct (wf_time _ Hs) as (_ & _ & Hsort). rewrite Hq in Hxt, Hsort.
  apply elem_of_cons in Hxt as [->|Hxt].
  - rewrite Hi in Hcb. simpl in Hcb. rewrite Hev in Hcb. done.
  - apply StronglySorted_inv in Hsort as [_ Hle].
    rewrite Forall_forall in Hle. by apply Hle.
Qed.

(** X1: [track_queue_length] samples the queue once a minute. In every
    state of every run there are as many samples of the length of the
    queue as of the time, the sample of index [k] was taken at minute [k],
    and there are at most [SIM_TIME] of them; and when
    [env.run(until=SIM_TIME)] returns there are exactly [SIM_TIME] samples,
    those of the minutes 0 to 499. *)
Theorem queue_sampled_every_minute (g : rng) :
  (forall s, reachable g s ->
     length (queue_lengths s) = length (queue_time s) /\
     (forall k t, queue_time s !! k = Some t -> (t == of_nat k)%Q) /\
     (of_nat (length (queue_time s)) <= SIM_TIME)%Q) /\
  (forall e s', runs_to (main_from g) e s' ->
     length (queue_lengths s') = length (queue_time s') /\
     (forall k t, queue_time s' !! k = Some t -> (t == of_nat k)%Q) /\
     (of_nat (length (queue_time s')) == SIM_TIME)%Q).
Proof.
  split.
  - intros s Hr. pose proof (reachable_track_ok _ _ Hr) as Ht.
    pose proof (samples_bounded _ Ht). by destruct Ht as (Hlen & Htimes & _).
  - intros e s' (_ & s & x & q & Hr & Hq & -> & Hcb & Hx)%run_stops.
    destruct (popped_samples x q s) as [-> ->].
    pose proof (reachable_track_ok _ _ Hr) as Ht.
    pose proof (samples_bounded _ Ht) as Hle.
    pose proof (samples_complete s x q (reachable_wf _ _ Hr) Ht Hq Hcb Hx) as Hge.
    destruct Ht as (Hlen & Htimes & _). split_and!; [done..|]. by apply Qle_antisym.
Qed.

Lemma now_step (s s' : state) : wf s -> step s = Return s' -> (now s <= now s')%Q.
Proof.
  intros Hs Hstep.
  destruct (step_cases _ _ Hs Hstep) as (x & q & Hq & Hwf & Hcases).
  pose proof (head_due x q s (wf_time _ Hs) Hq) as Hdue.
  rewrite <- (now_popped x q s) in Hdue.
  destruct Hcases as [->|[->|(p & pr & _ & _ & Hseg)]]; [done| |].
  - by rewrite now_trigger_put.
  - destruct (segment_fields _ _ _ _ Hseg) as (-> & _). done.
Qed.

(** X2: the clock of the run. In every state of every run the time is at
    least 0 and less than [SIM_TIME]: no process runs at [SIM_TIME] or
    later; a step never turns the clock back; and when
    [env.run(until=SIM_TIME)] returns, which is the only way in which the
    run ends, the time is [SIM_TIME]. *)
Theorem clock_runs_to_SIM_TIME (g : rng) :
  (forall s, reachable g s -> (0 <= now s)%Q /\ (now s < SIM_TIME)%Q) /\
  (forall s s', reachable g s -> step s = Return s' -> (now s <= now s')%Q) /\
  (forall e s', runs_to (main_from g) e s' ->
     e = StopSimulation /\ (now s' == SIM_TIME)%Q).
Proof.
  split_and!.
  - intros s Hr. destruct (wf_time _ (reachable_wf _ _ Hr)) as (H0 & _).
    by destruct (reachable_stop_ok _ _ Hr) as (Hlt & _).
  - intros s s' Hr. apply now_step. by eapply reachable_wf.
  - intros e s' (-> & s & x & q & Hr & Hq & -> & Hcb & Hx)%run_stops.
    split; [done|]. by rewrite now_popped.
Qed.

(** X3: the waiting times that the cars record. In every state of every
    run a car that waits for its machine at line 42 has arrived at a time
    between 0 and now, and every waiting time that has been recorded is at
    least 0 and less than [SIM_TIME]. *)
Theorem wait_times_in_range (g : rng) (s : state) :
  reachable g s ->
  (forall c n a r, gen_of s c = Some (car_L42 n a r) -> (0 <= a)%Q /\ (a <= now s)%Q) /\
  (forall k w, wait_times s !! k = Some w -> (0 <= w)%Q /\ (w < SIM_TIME)%Q).
Proof.
  intros Hr. destruct (reachable_arrive_ok _ _ Hr) as [Ha Hw]. split; [done|].
  intros k w Hk. rewrite Forall_forall in Hw. apply Hw.
  by eapply list_elem_of_lookup_2.
Qed.

Lemma washing_omap (l : list Process) :
  sum_list_with (λ pr, in_wash (gen pr)) l = length (omap (λ pr, wash_req (gen pr)) l).
Proof.
  induction l as [|x l IH]; simpl; [done|]. rewrite IH. by destruct (gen x).
Qed.

Lemma NoDup_omap_lookup {A B} (f : A -> option B) (l : list A) :
  (forall i j x y b, l !! i = Some x -> l !! j = Some y ->
     f x = Some b -> f y = Some b -> i = j) ->
  NoDup (omap f l).
Proof.
  induction l as [|x l IH]; intros Hinj; simpl; [constructor|].
  assert (NoDup (omap f l)) as Hnd.
  { apply IH. intros i j y z b Hi Hj Hy Hz.
    assert (S i = S j) by (by eapply (Hinj (S i) (S j))). lia. }
  destruct (f x) as [b|] eqn:Hx; [|done].
  constructor; [|done]. intros (y & Hy & Hfy)%list_elem_of_omap.
  apply list_elem_of_lookup in Hy as [j Hj].
  by specialize (Hinj 0 (S j) x y b eq_refl Hj Hx Hfy).
Qed.

Lemma length_filter_split {A} (P : A -> Prop) `{!forall x, Decision (P x)} (l : list A) :
  length (filter P l) + length (filter (λ x, ~ P x) l) = length l.
Proof.
  induction l as [|x l IH]; [done|]. rewrite !filter_cons.
  destruct (decide (P x)), (decide (~ P x)); simpl; try tauto; lia.
Qed.

(** Every car that is being washed holds a machine of its own, which is
    not offline. *)
Lemma washing_users (s : state) :
  wf s -> washing s + offline_count s <= length (users s).
Proof.
  intros Hs. unfold washing, offline_count. rewrite washing_omap.
  rewrite <- (length_filter_split (λ r, offline s r = true) (users s)).
  assert (length (omap (λ pr, wash_req (gen pr)) (procs s)) <=
          length (filter (λ r, offline s r <> true) (users s))); [|lia].
  apply submseteq_length, NoDup_submseteq.
  - apply NoDup_omap_lookup. intros i j x y r Hi Hj Hx Hy.
    destruct (wf_hold _ Hs i x Hi) as [Hoi _], (wf_hold _ Hs j y Hj) as [Hoj _].
    assert (holds (gen x) = Some r) as Hhx by (by destruct (gen x)).
    assert (holds (gen y) = Some r) as Hhy by (by destruct (gen y)).
    specialize (Hoi r Hhx). specialize (Hoj r Hhy). congruence.
  - intros r (pr & Hpr & Hreq)%list_elem_of_omap.
    apply list_elem_of_lookup in Hpr as [c Hc].
    destruct (wf_hold _ Hs c pr Hc) as [Hown Hat].
    destruct (gen pr) eqn:Hgen; try done. simpl in Hreq. injection Hreq as ->.
    destruct Hat as [Hin _]. apply list_elem_of_filter. split; [|done].
    unfold offline. rewrite (Hown r eq_refl). simpl.
    by rewrite (gen_of_Some _ _ _ Hc), Hgen.
Qed.

Lemma washing_in_service (l : list Process) :
  sum_list_with (λ pr, in_wash (gen pr)) l <= cars_in_service l.
Proof.
  unfold cars_in_service. induction l as [|x l IH]; simpl; [done|].
  assert (in_wash (gen x) <= in_service (gen x)) by (destruct (gen x); simpl; lia). lia.
Qed.

(** X4: there are as many waiting times as cars that have gone past
    [yield request], line 42: a car records its waiting time when it is
    resumed after the grant of its request, not at the grant. In every state
    of every run the number of the waiting times is the number of the cars
    that have been processed plus the number of those that are at line 48,
    being washed; hence it is at least [processed_cars], at most
    [processed_cars + NUM_MACHINES] and at most the [car_count] of
    [setup]. *)
Theorem one_wait_per_washed_car (g : rng) (s : state) :
  reachable g s ->
  length (wait_times s) = processed_cars s + washing s /\
  processed_cars s <= length (wait_times s) /\
  length (wait_times s) <= processed_cars s + NUM_MACHINES /\
  length (wait_times s) <= car_count s.
Proof.
  intros Hr. pose proof (reachable_wf _ _ Hr) as Hs.
  pose proof (reachable_waits_ok _ _ Hr) as Hw. unfold waits_ok in Hw.
  pose proof (washing_users _ Hs) as Hu. destruct (wf_res _ Hs) as [Hle Hcap].
  pose proof (wf_count _ Hs) as Hc. unfold count_ok in Hc.
  pose proof (washing_in_service (procs s)) as Hin. fold (washing s) in Hin.
  rewrite Hcap in Hle. split_and!; lia.
Qed.

(** X5: the two machines are shared between the cars and the repair
    person. In every state of every run the cars that are being washed and
    the machines that the repair person holds offline are at most the users
    of the pool, so that at most [NUM_MACHINES] cars are washed at a time,
    and at most one while a machine is offline. *)
Theorem machines_shared (g : rng) (s : state) :
  reachable g s ->
  washing s + offline_count s <= length (users s) /\
  washing s <= NUM_MACHINES /\
  (offline_count s = 1 -> washing s <= 1).
Proof.
  intros Hr. pose proof (reachable_wf _ _ Hr) as Hs.
  pose proof (washing_users _ Hs) as Hu. destruct (wf_res _ Hs) as [Hle Hcap].
  rewrite Hcap in Hle. unfold NUM_MACHINES in *. split_and!; lia.
Qed.

Lemma offline_count_zero (s : state) (g2 : generator) :
  wf s -> gen_of s 2 = Some g2 -> holds g2 = None -> offline_count s = 0.
Proof.
  intros Hs Hg Hh. unfold offline_count.
  destruct (filter _ (users s)) as [|r l] eqn:Hf; [done|].
  assert (r ∈ filter (λ r, offline s r = true) (users s)) as Hin
    by (rewrite Hf; set_solver).
  apply list_elem_of_filter in Hin as [Hoff Hin].
  destruct (offline_owner _ _ Hs Hin Hoff) as (g2' & Hg' & Hh'). congruence.
Qed.

Lemma repair_interval_drawn (g : rng) (z : Z) (g' : rng) :
  randint REPAIR_INTERVAL_MIN REPAIR_INTERVAL_MAX g = (z, g') ->
  (REPAIR_INTERVAL_MIN <= z <= REPAIR_INTERVAL_MAX)%Z.
Proof. intros Hz. pose proof (repair_interval_range g) as H. by rewrite Hz in H. Qed.


(** ** The averages of calculate_metrics *)

Lemma sum_Q_bounds (lo hi : Q) (l : list Q) :
  Forall (λ w, (lo <= w)%Q /\ (w <= hi)%Q) l ->
  (lo * of_nat (length l) <= sum_Q l)%Q /\ (sum_Q l <= hi * of_nat (length l))%Q.
Proof.
  induction 1 as [|w l [Hlo Hhi] _ [IHlo IHhi]].
  - unfold sum_Q. simpl. change (of_nat 0) with 0%Q. lra.
  - rewrite sum_Q_cons. cbn [length]. rewrite of_nat_S. lra.
Qed.

Lemma of_nat_pos (n : nat) : n <> 0 -> (0 < of_nat n)%Q.
Proof.
  intros Hn. unfold of_nat. change 0%Q with (inject_Z 0). rewrite <- Zlt_Qlt. lia.
Qed.

Lemma mean_bounds (lo hi : Q) (l : list Q) :
  l <> [] -> Forall (λ w, (lo <= w)%Q /\ (w <= hi)%Q) l ->
  (lo <= sum_Q l / of_nat (length l))%Q /\ (sum_Q l / of_nat (length l) <= hi)%Q.
Proof.
  intros Hl Hall. destruct (sum_Q_bounds lo hi l Hall) as [Hlo Hhi].
  assert (0 < of_nat (length l))%Q as Hpos by (apply of_nat_pos; by destruct l).
  split.
  - apply Qle_shift_div_l; [done|]. lra.
  - apply Qle_shift_div_r; [done|]. lra.
Qed.

Lemma sum_nat_Q (l : list nat) : (of_nat (sum_nat l) == sum_Q (of_nat <$> l))%Q.
Proof.
  induction l as [|n l IH]; [reflexivity|].
  rewrite fmap_cons, sum_Q_cons, <- IH. unfold sum_nat. simpl. unfold of_nat.
  by rewrite Nat2Z.inj_add, inject_Z_plus.
Qed.

(** Without rounding, adding from the left is adding from the right. *)
Lemma foldl_exact (acc : Q) (l : list Q) :
  (foldl (λ a x, fl (a + x)) acc l == acc + sum_Q l)%Q.
Proof.
  revert acc. induction l as [|x l IH]; intros acc; simpl.
  - unfold sum_Q. simpl. lra.
  - rewrite IH. unfold sum_Q, fl, unrounded. simpl. lra.
Qed.

Lemma sum_exact (l : list Q) : (sum l == sum_Q l)%Q.
Proof. unfold sum. rewrite foldl_exact. lra. Qed.

(** The averages that [calculate_metrics] computes. *)
Lemma calculate_metrics_averages (s : state) (m : metrics) :
  calculate_metrics s = Some m ->
  (wait_times s <> [] ->
     (avg_wait_time m == sum_Q (wait_times s) / of_nat (length (wait_times s)))%Q) /\
  (queue_lengths s <> [] ->
     avg_queue_length m =
       (of_nat (sum_nat (queue_lengths s)) / of_nat (length (queue_lengths s)))%Q).
Proof.
  unfold calculate_metrics. intros Hm. split; intros Hne.
  - rewrite (bool_decide_eq_false_2 (wait_times s = [])) in Hm by done.
    rewrite (truediv_of_nat _ (length (wait_times s))) in Hm
      by (by destruct (wait_times s)).
    simpl in Hm.
    destruct (if bool_decide (queue_lengths s = []) then _ else _) as [b|]; [|done].
    simpl in Hm. injection Hm as <-. simpl. by rewrite sum_exact.
  - destruct (if bool_decide (wait_times s = []) then _ else _) as [a|]; [|done].
    simpl in Hm. rewrite (bool_decide_eq_false_2 (queue_lengths s = [])) in Hm by done.
    rewrite (truediv_of_nat _ (length (queue_lengths s))) in Hm
      by (by destruct (queue_lengths s)).
    simpl in Hm.
    by injection Hm as <-.
Qed.


Lemma sum_nat_nonneg (l : list nat) : (0 <= of_nat (sum_nat l))%Q.
Proof. unfold of_nat. change 0%Q with (inject_Z 0). rewrite <- Zle_Qle. lia. Qed.

Lemma mean_lt (hi : Q) (l : list Q) :
  l <> [] -> Forall (λ w, (w < hi)%Q) l -> (sum_Q l / of_nat (length l) < hi)%Q.
Proof.
  intros Hl Hall.
  assert (0 < of_nat (length l))%Q as Hpos by (apply of_nat_pos; by destruct l).
  apply Qlt_shift_div_r; [done|].
  destruct Hall as [|w l Hw Hall]; [done|]. clear Hl Hpos.
  revert w Hw. induction Hall as [|v l Hv _ IH]; intros w Hw.
  - rewrite sum_Q_cons. unfold sum_Q. simpl. change (of_nat 1) with 1%Q. lra.
  - rewrite sum_Q_cons. cbn [length]. rewrite of_nat_S.
    specialize (IH v Hv). cbn [length] in IH. lra.
Qed.


(** ** plot_graphs *)

Lemma plot_Some (x y : list Q) :
  length x = length y -> plot x y = Some {| xs := x; ys := y |}.
Proof. intros H. unfold plot. by rewrite decide_True. Qed.

(** X9: [plot_graphs] plots lists of matching lengths. [plt.plot] is
    handed the waiting times over as many indices, on any values of the
    tracking variables, so that only the plot of the queue lengths can fail,
    and it does when there are not as many times as lengths; in every state
    of every run, and in the state in which [env.run(until=SIM_TIME)]
    returns, there are, so that [plot_graphs] plots the queue lengths over
    the minutes at which they were sampled and the waiting times over the
    indices of the cars. *)
Theorem plot_graphs_dimensions (g : rng) :
  (forall s, plot_graphs s = None <-> length (queue_time s) <> length (queue_lengths s)) /\
  (forall s, reachable g s -> is_Some (plot_graphs s)) /\
  (forall e s', runs_to (main_from g) e s' ->
     plot_graphs s' =
       Some ({| xs := queue_time s'; ys := of_nat <$> queue_lengths s' |},
             {| xs := range (length (wait_times s')); ys := wait_times s' |}) /\
     forall k t, queue_time s' !! k = Some t -> (t == of_nat k)%Q).
Proof.
  assert (forall s, length (queue_time s) = length (queue_lengths s) ->
            plot_graphs s =
              Some ({| xs := queue_time s; ys := of_nat <$> queue_lengths s |},
                    {| xs := range (length (wait_times s)); ys := wait_times s |}))
    as Hplot.
  { intros s Hlen. unfold plot_graphs.
    rewrite (plot_Some (queue_time s)) by (by rewrite length_fmap). simpl.
    rewrite plot_Some; [done|]. unfold range. by rewrite length_fmap, length_seq. }
  split_and!.
  - intros s. split.
    + intros Hnone Hlen. by rewrite (Hplot s Hlen) in Hnone.
    + intros Hne. unfold plot_graphs.
      assert (plot (queue_time s) (of_nat <$> queue_lengths s) = None) as ->; [|done].
      unfold plot. rewrite decide_False; [done|]. by rewrite length_fmap.
  - intros s Hr. destruct (reachable_track_ok _ _ Hr) as (Hlen & _).
    by rewrite Hplot.
  - intros e s' (_ & s & x & q & Hr & Hq & -> & Hcb & Hx)%run_stops.
    destruct (reachable_track_ok _ _ Hr) as (Hlen & Htimes & _).
    destruct (popped_samples x q s) as [Hql Hqt]. split.
    + apply Hplot. by rewrite Hql, Hqt.
    + by rewrite Hqt.
Qed.

(** ** The tracking variables only grow *)

Lemma wash_started (s : state) (c : nat) (pr : Process) (n : nat) (a : Q) (r : nat)
    (wt start : Q) :
  wf s -> procs s !! c = Some pr -> gen pr = car_L48 n a r wt start ->
  (start <= now s)%Q.
Proof.
  intros Hs Hc Hgen. destruct (wf_hold _ Hs c pr Hc) as [_ Hat]. rewrite Hgen in Hat.
  destruct Hat as (Hin & u & Hu & Heq).
  destruct (wf_reqs _ Hs) as (_ & _ & Husers & _).
  destruct (Husers r Hin) as (u' & Hu' & Hle). rewrite Hu in Hu'. injection Hu' as <-.
  lra.
Qed.

(** X10: the tracking variables of lines 16-20 only grow. A step of a run
    keeps the waiting times, the queue lengths and their times that have
    been recorded, and may add samples at the end of these lists; it
    processes at most one car; and it never decreases [busy_time]. *)
Theorem tracking_variables_grow (g : rng) (s s' : state) :
  reachable g s -> step s = Return s' ->
  wait_times s `prefix_of` wait_times s' /\
  queue_lengths s `prefix_of` queue_lengths s' /\
  queue_time s `prefix_of` queue_time s' /\
  processed_cars s <= processed_cars s' <= processed_cars s + 1 /\
  (busy_time s <= busy_time s')%Q.
Proof.
  intros Hr Hstep. pose proof (reachable_wf _ _ Hr) as Hs.
  destruct (step_cases _ _ Hs Hstep) as (x & q & Hq & Hwf & Hcases).
  destruct (popped_frame x q s) as (Hwt & Hbusy & Hproc & _).
  destruct (popped_samples x q s) as [Hql Hqt].
  rewrite <- Hwt, <- Hbusy, <- Hproc, <- Hql, <- Hqt.
  destruct Hcases as [->|[->|(p & pr & Hp & _ & Hseg)]].
  - split_and!; (done || lia || lra).
  - rewrite wait_times_trigger_put, queue_lengths_trigger_put, queue_time_trigger_put,
      trigger_put_processed_cars, busy_time_trigger_put.
    split_and!; (done || lia || lra).
  - destruct (segment_fields _ _ _ _ Hseg) as (_ & _ & -> & -> & -> & -> & ->).
    split_and!; try (by apply prefix_app_r).
    + lia.
    + destruct (gen pr); simpl; lia.
    + destruct (gen pr) eqn:Hgen; try lra.
      pose proof (wash_started _ _ _ _ _ _ _ _ Hwf Hp Hgen). lra.
Qed.

(** ** The requests in the queue of the pool *)

Lemma queued_ok_ext (s s' : state) :
  reqs s' = reqs s -> put_queue s' = put_queue s -> queued_ok s -> queued_ok s'.
Proof. unfold queued_ok, usage_of. by intros -> ->. Qed.

Lemma queued_ok_enqueue (p : nat) (g : generator) (s : state) :
  queued_ok s -> queued_ok (enqueue p g s).
Proof.
  intros Hs r. simpl. rewrite length_app. simpl. intros Hlt Hu.
  apply elem_of_app. destruct (decide (r = length (reqs s))) as [->|Hne].
  - right. set_solver.
  - left. apply Hs; [lia|]. rewrite <- Hu. symmetry.
    eapply (usage_of_app s); [simpl; reflexivity|lia].
Qed.

Lemma queued_ok_grant (h : nat) (rest : list nat) (s : state) :
  put_queue s = h :: rest -> h < length (reqs s) -> queued_ok s ->
  queued_ok (grant h rest s).
Proof.
  intros Hpq Hh Hs r. simpl. rewrite length_alter. intros Hlt.
  erewrite usage_of_alter_usage by (simpl; reflexivity).
  destruct (decide (h = r)) as [->|Hne]; [by rewrite decide_True|].
  intros Hu. specialize (Hs r Hlt Hu). rewrite Hpq in Hs. set_solver.
Qed.

Lemma queued_ok_trigger_put (s : state) :
  reqs_ok s -> queued_ok s -> queued_ok (trigger_put s).
Proof.
  intros Hreqs Hs.
  destruct (trigger_put_cases s (reqs_ok_pending s Hreqs))
    as [[-> _]|(h & rest & Hpq & _ & ->)]; [done|].
  apply queued_ok_grant; [done| |done].
  apply (reqs_ok_pending s Hreqs). rewrite Hpq. set_solver.
Qed.

Lemma queued_ok_exit_request (r : nat) (s : state) :
  is_Some (usage_of s r) -> queued_ok s -> queued_ok (exit_request r s).
Proof.
  intros Hr. rewrite (exit_request_release r s Hr). by apply queued_ok_ext.
Qed.

Lemma queued_ok_popped (x : scheduled) (q : list scheduled) (s : state) :
  queued_ok s -> queued_ok (popped x q s).
Proof.
  intros Hs r. destruct (popped_frame x q s) as (_ & _ & _ & _ & _ & ->).
  rewrite usage_of_popped, put_queue_popped. apply Hs.
Qed.

Ltac queued_ok_tac :=
  repeat lazymatch goal with
    | H : queued_ok ?s |- queued_ok ?s => exact H
    | |- queued_ok (trigger_put _) => apply queued_ok_trigger_put; [reqs_ok_tac|]
    | |- queued_ok (exit_request _ _) => apply queued_ok_exit_request; [done|]
    | |- queued_ok (enqueue _ _ _) => apply queued_ok_enqueue
    | |- _ => peel queued_ok_ext
    end.

Lemma segment_queued_ok (p : nat) (pr : Process) (s s' : state) :
  procs s !! p = Some pr -> reqs_ok s -> hold_ok s -> queued_ok s ->
  segment p (gen pr) s s' -> queued_ok s'.
Proof.
  intros Hp Hreqs Hhold Hs Hseg.
  pose proof (Hhold p pr Hp) as [_ Hg].
  destruct (gen pr) eqn:Hgen; unfold segment in Hseg; destruct_segment;
    queued_ok_tac.
Qed.

Lemma queued_ok_step (s s' : state) :
  wf s -> queued_ok s -> step s = Return s' -> queued_ok s'.
Proof.
  intros Hs Hq Hstep.
  destruct (step_cases _ _ Hs Hstep) as (x & q & _ & Hwf & Hcases).
  pose proof (queued_ok_popped x q s Hq) as Hpop.
  destruct Hcases as [->|[->|(p & pr & Hp & _ & Hseg)]]; [done| |].
  - apply queued_ok_trigger_put; [apply Hwf|done].
  - eapply segment_queued_ok; [done|apply Hwf|apply Hwf|done|done].
Qed.

Lemma reachable_queued_ok (g : rng) (s : state) : reachable g s -> queued_ok s.
Proof.
  induction 1 as [|s s' Hr IH Hstep].
  - rewrite main_from_eq. intros r. simpl. lia.
  - eapply queued_ok_step; [by eapply reachable_wf|done..].
Qed.

Lemma waits_for_Some (s : state) (g : generator) (r : nat) :
  waits_for s g = Some r <-> awaits g = Some r /\ usage_of s r = None.
Proof.
  unfold waits_for. destruct (awaits g) as [r'|]; simpl; [|by split; [|intros []]].
  destruct (triggered r' s) eqn:Ht.
  - split; [done|]. intros [[= ->] Hu]. apply triggered_false in Hu. congruence.
  - apply triggered_false in Ht. split; [by intros [= ->]|by intros [[= ->] _]].
Qed.

Lemma awaits_holds (g : generator) (r : nat) : awaits g = Some r -> holds g = Some r.
Proof. by destruct g. Qed.

(** The requests in the queue are those for which a process waits. *)
Lemma put_queue_waits (s : state) (r : nat) :
  wf s -> queued_ok s ->
  r ∈ put_queue s <-> exists p g, gen_of s p = Some g /\ waits_for s g = Some r.
Proof.
  intros Hs Hq. split.
  - intros Hr. destruct (wf_own _ Hs r) as (p & g & Ho & Hg & Hh); [set_solver|].
    destruct (reqs_ok_pending _ (wf_reqs _ Hs) r Hr) as [_ Hu].
    exists p, g. split; [done|]. apply waits_for_Some. split; [|done].
    apply gen_of_lookup in Hg as (pr & Hp & <-).
    destruct (wf_hold _ Hs p pr Hp) as [_ Hat].
    destruct (gen pr); simplify_eq/=; try done.
    + rewrite Hu in Hat. by destruct Hat.
    + rewrite Hu in Hat. by destruct Hat.
    + destruct Hat as (_ & u & Hu' & _). congruence.
  - intros (p & g & Hg & [Ha Hu]%waits_for_Some).
    apply gen_of_lookup in Hg as (pr & Hp & <-).
    destruct (wf_hold _ Hs p pr Hp) as [Hown _].
    apply Hq; [|done]. eapply owner_of_lt, Hown. by apply awaits_holds.
Qed.

Lemma length_omap_sum {A B} (f : A -> option B) (l : list A) :
  length (omap f l) = sum_list_with (λ x, match f x with Some _ => 1 | None => 0 end) l.
Proof.
  induction l as [|x l IH]; simpl; [done|]. destruct (f x); simpl; [f_equal|]; apply IH.
Qed.

Lemma sum_list_with_add {A} (f h : A -> nat) (l : list A) :
  sum_list_with (λ x, f x + h x) l = sum_list_with f l + sum_list_with h l.
Proof. induction l as [|x l IH]; simpl; lia. Qed.

Lemma sum_list_with_ext {A} (f h : A -> nat) (l : list A) :
  (forall x, f x = h x) -> sum_list_with f l = sum_list_with h l.
Proof. intros H. induction l as [|x l IH]; simpl; [done|]. by rewrite H, IH. Qed.

Lemma sum_list_with_zero {A} (f : A -> nat) (l : list A) :
  (forall i x, l !! i = Some x -> f x = 0) -> sum_list_with f l = 0.
Proof.
  induction l as [|x l IH]; intros H; simpl; [done|].
  rewrite (H 0 x eq_refl), IH; [done|]. intros i y Hi. by apply (H (S i)).
Qed.

(** Only the third process of the script is the repair person. *)
Lemma repair_waits_third (s : state) :
  kind_ok s -> sum_list_with (λ pr, repair_waits s (gen pr)) (procs s) = repair_waiting s.
Proof.
  intros [Hlen Hkind]. unfold repair_waiting, gen_of.
  assert (forall i pr, procs s !! i = Some pr -> i <> 2 -> repair_waits s (gen pr) = 0)
    as Hother.
  { intros i pr Hi Hne. pose proof (Hkind i _ (gen_of_Some _ _ _ Hi)) as Hf.
    apply function_at_inj in Hf as (_ & _ & [Hrep _]). unfold repair_waits.
    destruct (function_of (gen pr)); try done. by destruct Hne, Hrep. }
  destruct (procs s) as [|a [|b [|c l]]]; simpl in Hlen; try lia. simpl.
  rewrite (Hother 0 a eq_refl), (Hother 1 b eq_refl) by lia.
  rewrite sum_list_with_zero; [lia|].
  intros i x Hi. apply (Hother (3 + i)); [done|lia].
Qed.

Lemma length_put_queue (s : state) :
  wf s -> queued_ok s -> length (put_queue s) = waiting_cars s + repair_waiting s.
Proof.
  intros Hs Hq.
  assert (put_queue s ≡ₚ omap (λ pr, waits_for s (gen pr)) (procs s)) as Hperm.
  { apply NoDup_Permutation.
    - apply (wf_reqs _ Hs).
    - apply NoDup_omap_lookup. intros i j x y r Hi Hj [Hx _]%waits_for_Some
        [Hy _]%waits_for_Some.
      destruct (wf_hold _ Hs i x Hi) as [Hoi _], (wf_hold _ Hs j y Hj) as [Hoj _].
      specialize (Hoi r (awaits_holds _ _ Hx)).
      specialize (Hoj r (awaits_holds _ _ Hy)). congruence.
    - intros r. rewrite (put_queue_waits s r Hs Hq), list_elem_of_omap. split.
      + intros (p & g & Hg & Hw). apply gen_of_lookup in Hg as (pr & Hp & <-).
        exists pr. split; [by eapply list_elem_of_lookup_2|done].
      + intros (pr & [p Hp]%list_elem_of_lookup & Hw).
        exists p, (gen pr). split; [by apply gen_of_Some|done]. }
  rewrite Hperm, length_omap_sum, <- (repair_waits_third s (wf_kind _ Hs)).
  unfold waiting_cars. rewrite <- sum_list_with_add.
  apply sum_list_with_ext. intros pr. unfold car_waits, repair_waits, waits_for.
  destruct (gen pr); simpl; try done;
    match goal with |- context [triggered ?r s] => by destruct (triggered r s) end.
Qed.

(** X11: the queue of the machine pool holds the requests of the processes
    that wait for a machine, and no others. In every state of every run a
    request is in [carwash.machine.queue] exactly if a process is suspended
    at its [yield request] and the request has not been granted; the
    length of the queue, which [track_queue_length] samples, is the number
    of the cars that wait at line 42 plus one if the repair person waits at
    line 82 or 90. *)
Theorem queue_holds_the_waiting (g : rng) (s : state) :
  reachable g s ->
  (forall r, r ∈ put_queue s <->
     exists p g, gen_of s p = Some g /\ waits_for s g = Some r) /\
  length (put_queue s) = waiting_cars s + repair_waiting s /\
  repair_waiting s <= 1.
Proof.
  intros Hr. pose proof (reachable_wf _ _ Hr) as Hs.
  pose proof (reachable_queued_ok _ _ Hr) as Hq. split_and!.
  - intros r. by apply put_queue_waits.
  - by apply length_put_queue.
  - unfold repair_waiting, repair_waits. destruct (gen_of s 2) as [g2|]; simpl; [|lia].
    destruct (function_of g2), (waits_for s g2); lia.
Qed.

Lemma in_service_split (l : list Process) :
  cars_in_service l =
    sum_list_with (λ pr, at_start (gen pr)) l + sum_list_with (λ pr, at_request (gen pr)) l +
    sum_list_with (λ pr, in_wash (gen pr)) l.
Proof.
  unfold cars_in_service. induction l as [|x l IH]; simpl; [done|].
  rewrite IH. destruct (gen x); simpl; lia.
Qed.

(** X12: no car is lost. In every state of every run the [car_count] of
    [setup] is the number of the cars that have been processed, plus those
    whose process has been started and has not run yet, plus those that are
    at line 42, where they wait for a machine, plus those that are being
    washed. *)
Theorem cars_accounted_for (g : rng) (s : state) :
  reachable g s ->
  car_count s =
    processed_cars s + new_cars s +
    sum_list_with (λ pr, at_request (gen pr)) (procs s) + washing s.
Proof.
  intros Hr. pose proof (wf_count _ (reachable_wf _ _ Hr)) as Hc.
  unfold count_ok in Hc. rewrite in_service_split in Hc.
  unfold new_cars, washing. lia.
Qed.

(** ** No machine idles while a request waits *)

Lemma is_release_true (s : state) (x : scheduled) :
  is_release s x = true <->
  get_callbacks (item x) s = Some [trigger_put_cb] /\ (at_time x == now s)%Q.
Proof.
  unfold is_release. rewrite andb_true_iff, Qeq_bool_iff.
  assert (releases_cb (get_callbacks (item x) s) = true <->
          get_callbacks (item x) s = Some [trigger_put_cb]) as ->; [|done].
  destruct (get_callbacks (item x) s) as [[|[] []]|]; simpl; split; done.
Qed.

Lemma is_release_grows (s s' : state) (x : scheduled) :
  grows s s' -> now s' = now s -> is_release s x = true -> is_release s' x = true.
Proof.
  intros Hg Hnow. rewrite !is_release_true, Hnow. intros [Hcb Ht]. split; [|done].
  by apply Hg.
Qed.

Lemma filter_length_mono {A} (P P' : A -> Prop) `{!forall x, Decision (P x)}
    `{!forall x, Decision (P' x)} (l : list A) :
  (forall x, x ∈ l -> P x -> P' x) -> length (filter P l) <= length (filter P' l).
Proof.
  induction l as [|x l IH]; intros Himp; [done|]. rewrite !filter_cons.
  assert (length (filter P l) <= length (filter P' l)) by (apply IH; set_solver).
  destruct (decide (P x)) as [HP|HP], (decide (P' x)) as [HP'|HP']; simpl; try lia.
  destruct HP'. apply Himp; [set_solver|done].
Qed.

Lemma releases_same (s s' : state) :
  queue s' = queue s -> grows s s' -> now s' = now s -> releases s <= releases s'.
Proof.
  intros Hq Hg Hnow. unfold releases. rewrite Hq. apply filter_length_mono.
  intros x _. by apply is_release_grows.
Qed.

Lemma releases_push (s s' : state) (z : scheduled) :
  queue s' = heappush z (queue s) -> grows s s' -> now s' = now s ->
  releases s + (if is_release s' z then 1 else 0) <= releases s'.
Proof.
  intros Hq Hg Hnow. unfold releases. rewrite Hq, (heappush_perm z (queue s)).
  rewrite filter_cons.
  assert (length (filter (λ x, is_release s x = true) (queue s)) <=
          length (filter (λ x, is_release s' x = true) (queue s))) as Hle.
  { apply filter_length_mono. intros x _. by apply is_release_grows. }
  destruct (is_release s' z); [rewrite decide_True by done|rewrite decide_False by done];
    simpl; lia.
Qed.

Lemma serve_ok_grow (s s' : state) :
  users s' = users s -> put_queue s' = put_queue s -> capacity s' = capacity s ->
  now s' = now s -> grows s s' ->
  (queue s' = queue s \/ exists z, queue s' = heappush z (queue s)) ->
  serve_ok s -> serve_ok s'.
Proof.
  intros Hu Hpq Hc Hnow Hg Hq [Hs|Hs]; unfold serve_ok; rewrite Hu, Hpq, Hc; [by left|].
  right. destruct Hq as [Hq|[z Hq]].
  - pose proof (releases_same s s' Hq Hg Hnow). lia.
  - pose proof (releases_push s s' z Hq Hg Hnow). lia.
Qed.

Lemma serve_ok_ext (s s' : state) :
  users s' = users s -> put_queue s' = put_queue s -> capacity s' = capacity s ->
  now s' = now s -> queue s' = queue s ->
  events s' = events s -> procs s' = procs s -> reqs s' = reqs s ->
  serve_ok s -> serve_ok s'.
Proof.
  intros Hu Hpq Hc Hnow Hq He Hp Hr.
  apply serve_ok_grow; [done..|by apply grows_ext|by left].
Qed.

Lemma serve_ok_after_timeout (p : nat) (g : generator) (d : Q) (s : state) :
  serve_ok s -> serve_ok (after_timeout p g d s).
Proof.
  apply serve_ok_grow; [reflexivity..|apply grows_after_timeout|right; by eexists].
Qed.

Lemma serve_ok_spawn (g : generator) (s : state) : serve_ok s -> serve_ok (spawn g s).
Proof. apply serve_ok_grow; [reflexivity..|apply grows_spawn|right; by eexists]. Qed.

Lemma serve_ok_spawn_wait (p : nat) (g gw : generator) (s : state) :
  serve_ok s -> serve_ok (spawn_wait p g gw s).
Proof.
  apply serve_ok_grow; [reflexivity..|apply grows_spawn_wait|right; by eexists].
Qed.

Lemma serve_ok_finish (p : nat) (g : generator) (s : state) :
  serve_ok s -> serve_ok (finish p g s).
Proof. apply serve_ok_grow; [reflexivity..|apply grows_finish|right; by eexists]. Qed.

Lemma length_list_remove_first_ge (x : nat) (l : list nat) :
  length l <= S (length (list_remove_first x l)).
Proof. induction l as [|y l IH]; cbn; [lia|]. case_decide; cbn; lia. Qed.

(** A release makes a machine free and schedules the event that serves
    the queue. *)
Lemma serve_ok_exit_request (r : nat) (s : state) :
  is_Some (usage_of s r) -> serve_ok s -> serve_ok (exit_request r s).
Proof.
  intros Hr Hs. rewrite (exit_request_release r s Hr) in *.
  assert (grows s (release r s)) as Hg.
  { rewrite <- (exit_request_release r s Hr). apply grows_exit_request. }
  set (z := Scheduled (now s + 0)%Q NORMAL (eid s) (Ev (length (events s)))).
  pose proof (releases_push s (release r s) z eq_refl Hg eq_refl) as Hle.
  assert (is_release (release r s) z = true) as Hz.
  { apply is_release_true. simpl. rewrite lookup_snoc. split; [done|]. ring. }
  rewrite Hz in Hle.
  pose proof (length_list_remove_first_ge r (users s)).
  destruct Hs as [Hs|Hs]; [by left|right]. simpl. lia.
Qed.

(** Serving the queue grants its head if a machine is free. *)
Lemma serve_ok_trigger_put (s : state) :
  reqs_ok s ->
  put_queue s = [] \/ capacity s <= length (users s) + releases s + 1 \/
    (exists r, put_queue s = [r]) ->
  serve_ok (trigger_put s).
Proof.
  intros Hreqs Hs.
  destruct (trigger_put_cases s (reqs_ok_pending s Hreqs))
    as [[-> [Hpq|Hfull]]|(h & rest & Hpq & Hlt & ->)].
  - by left.
  - right. lia.
  - assert (grows s (grant h rest s)) as Hg.
    { eapply (grows_tables _ _ [] (with_usage_since (now s)) h [] id 0 []); simpl;
        [by rewrite app_nil_r|by rewrite app_nil_r|by rewrite list_alter_id, app_nil_r
        |done|done|..]; no_stop. }
    pose proof (releases_push s (grant h rest s) _ eq_refl Hg eq_refl) as Hle.
    unfold serve_ok. simpl. rewrite length_app. simpl.
    destruct Hs as [Hs|[Hs|[r Hs]]].
    + congruence.
    + right. lia.
    + left. congruence.
Qed.

(** A request is served at once if a machine is free. *)
Lemma serve_ok_request (p : nat) (g : generator) (s : state) :
  reqs_ok s -> serve_ok s -> serve_ok (trigger_put (enqueue p g s)).
Proof.
  intros Hreqs Hs. apply serve_ok_trigger_put; [by apply reqs_ok_enqueue|].
  destruct Hs as [Hs|Hs].
  - right; right. simpl. rewrite Hs. by eexists.
  - right; left.
    pose proof (releases_same s (enqueue p g s) eq_refl (grows_enqueue p g s) eq_refl).
    simpl. lia.
Qed.

(** The entries that stay in the queue when its head is popped. *)
Lemma releases_popped (x : scheduled) (q : list scheduled) (s : state) :
  time_ok s -> NoDup (item <$> queue s) -> queue s = x :: q ->
  releases s <= (if is_release s x then 1 else 0) + releases (popped x q s).
Proof.
  intros (_ & Hall & Hsort) Hnd Hq. unfold releases. rewrite queue_popped, Hq, filter_cons.
  rewrite Hq in Hall, Hsort, Hnd. simpl in Hnd.
  apply Forall_cons in Hall as [Hx _]. apply StronglySorted_inv in Hsort as [_ Hle].
  apply NoDup_cons in Hnd as [Hnot _]. rewrite Forall_forall in Hle.
  assert (length (filter (λ y, is_release s y = true) q) <=
          length (filter (λ y, is_release (popped x q s) y = true) q)) as Hmono.
  { apply filter_length_mono. intros y Hy. rewrite !is_release_true.
    rewrite get_callbacks_popped, now_popped. intros [Hcb Ht].
    rewrite decide_False.
    - split; [done|]. specialize (Hle y Hy). simpl in Hle. lra.
    - intros Heq. apply Hnot. rewrite <- Heq. by apply list_elem_of_fmap_2. }
  destruct (is_release s x); [rewrite decide_True by done|rewrite decide_False by done];
    simpl; lia.
Qed.

Lemma capacity_popped (x : scheduled) (q : list scheduled) (s : state) :
  capacity (popped x q s) = capacity s.
Proof. by destruct (popped_frame x q s) as (_ & _ & _ & H & _). Qed.

Ltac serve_ok_tac :=
  repeat lazymatch goal with
    | H : serve_ok ?s |- serve_ok ?s => exact H
    | |- serve_ok (trigger_put (enqueue _ _ _)) => apply serve_ok_request; [reqs_ok_tac|]
    | |- serve_ok (exit_request _ _) => apply serve_ok_exit_request; [done|]
    | |- serve_ok (after_timeout _ _ _ _) => apply serve_ok_after_timeout
    | |- serve_ok (spawn_wait _ _ _ _) => apply serve_ok_spawn_wait
    | |- serve_ok (finish _ _ _) => apply serve_ok_finish
    | |- serve_ok (spawn _ _) => apply serve_ok_spawn
    | |- _ => peel serve_ok_ext
    end.

Lemma segment_serve_ok (p : nat) (pr : Process) (s s' : state) :
  procs s !! p = Some pr -> reqs_ok s -> hold_ok s -> serve_ok s ->
  segment p (gen pr) s s' -> serve_ok s'.
Proof.
  intros Hp Hreqs Hhold Hs Hseg.
  pose proof (Hhold p pr Hp) as [_ Hg].
  destruct (gen pr) eqn:Hgen; unfold segment in Hseg; destruct_segment;
    serve_ok_tac.
Qed.

Lemma serve_ok_step (s s' : state) :
  wf s -> live_ok s -> serve_ok s -> step s = Return s' -> serve_ok s'.
Proof.
  intros Hs Hlive Hserve Hstep.
  destruct (step_cases_cbs _ _ Hs Hstep)
    as (x & q & cbs & Hq & Hcb & Hne & Hwf & Hcases).
  destruct Hlive as (Hnd & _).
  pose proof (releases_popped x q s (wf_time _ Hs) Hnd Hq) as Hrel.
  assert (cbs <> [trigger_put_cb] -> serve_ok (popped x q s)) as Hpop.
  { intros Hcbs. assert (is_release s x = false) as Hx.
    { apply not_true_is_false. rewrite is_release_true, Hcb. by intros [[= ->] _]. }
    rewrite Hx in Hrel. unfold serve_ok.
    rewrite put_queue_popped, users_popped, capacity_popped.
    destruct Hserve as [?|?]; [by left|right; lia]. }
  destruct Hcases as [[-> ->]|[[-> ->]|(p & pr & Hin & Hp & _ & Hseg)]].
  - by apply Hpop.
  - apply serve_ok_trigger_put; [apply Hwf|].
    rewrite put_queue_popped, users_popped, capacity_popped.
    destruct Hserve as [?|?]; [by left|]. right; left. destruct (is_release s x); lia.
  - eapply segment_serve_ok; [done|apply Hwf|apply Hwf| |done].
    apply Hpop. intros ->. set_solver.
Qed.

Lemma reachable_serve_ok (g : rng) (s : state) : reachable g s -> serve_ok s.
Proof.
  induction 1 as [|s s' Hr IH Hstep].
  - left. by rewrite main_from_eq.
  - eapply serve_ok_step; [by eapply reachable_wf|by eapply reachable_live_ok|done..].
Qed.

(** X13: no machine idles while a request waits. In every state of every
    run in which a request is in the queue of the pool and a machine is
    free, a [Release] event, whose callback serves the queue, is scheduled
    for the current time; hence the clock does not advance from a state in
    which a request waits and a machine is free. *)
Theorem no_machine_idles_while_a_request_waits (g : rng) (s : state) :
  reachable g s ->
  (put_queue s <> [] -> length (users s) < capacity s ->
   exists x, x ∈ queue s /\ get_callbacks (item x) s = Some [trigger_put_cb] /\
     (at_time x == now s)%Q) /\
  (forall s', step s = Return s' -> (now s < now s')%Q ->
     put_queue s = [] \/ length (users s) = capacity s).
Proof.
  intros Hr. pose proof (reachable_wf _ _ Hr) as Hs.
  pose proof (reachable_serve_ok _ _ Hr) as Hserve.
  assert (put_queue s <> [] -> length (users s) < capacity s ->
          exists x, x ∈ queue s /\ get_callbacks (item x) s = Some [trigger_put_cb] /\
            (at_time x == now s)%Q) as Hrelease.
  { intros Hpq Hfree. destruct Hserve as [?|Hle]; [done|].
    unfold releases in Hle.
    destruct (filter _ (queue s)) as [|x l] eqn:Hf; [simpl in Hle; lia|].
    assert (x ∈ filter (λ x, is_release s x = true) (queue s)) as Hx
      by (rewrite Hf; set_solver).
    apply list_elem_of_filter in Hx as [Hrel Hx]. apply is_release_true in Hrel.
    by exists x. }
  split; [done|]. intros s' Hstep Hlt.
  destruct (decide (put_queue s = [])) as [|Hpq]; [by left|right].
  destruct (wf_res _ Hs) as [Hle _].
  destruct (decide (length (users s) < capacity s)) as [Hfree|]; [|lia].
  destruct (Hrelease Hpq Hfree) as (x & Hx & _ & Ht).
  destruct (step_cases _ _ Hs Hstep) as (y & q & Hq & _ & Hcases).
  assert (now s' = at_time y) as Hnow.
  { destruct Hcases as [->|[->|(p & pr & _ & _ & Hseg)]].
    - apply now_popped.
    - by rewrite now_trigger_put, now_popped.
    - destruct (segment_fields _ _ _ _ Hseg) as (-> & _). apply now_popped. }
  rewrite Hnow in Hlt.
  destruct (wf_time _ Hs) as (_ & _ & Hsort). rewrite Hq in Hx, Hsort.
  apply StronglySorted_inv in Hsort as [_ Hall]. rewrite Forall_forall in Hall.
  apply elem_of_cons in Hx as [->|Hx]; [lra|].
  specialize (Hall x Hx). simpl in Hall. lra.
Qed.

(** ** The arrivals *)

(** X14: [setup] starts one car for each arrival. The step of a run that
    resumes [setup] at line 59 counts one more car, starts the process of
    the car whose name is the new count, which is a new process at the end
    of the table, and makes [setup] wait for the next arrival, after a gap
    that is not negative; the first step of [setup] starts no car. *)
Theorem setup_starts_one_car_per_arrival (g : rng) (s s' : state) :
  reachable g s -> step s = Return s' ->
  (forall n, gen_of s 0 = Some (setup_L59 n) -> gen_of s' 0 <> Some (setup_L59 n) ->
     gen_of s' 0 = Some (setup_L59 (S n)) /\
     car_count s' = S (car_count s) /\
     length (procs s') = S (length (procs s)) /\
     gen_of s' (length (procs s)) = Some (car_start (S n)) /\
     exists x gap, x ∈ queue s' /\ target_of s' 0 = Some (item x) /\
       (at_time x == now s' + gap)%Q /\ (0 <= gap)%Q) /\
  (gen_of s 0 = Some setup_start -> gen_of s' 0 <> Some setup_start ->
     gen_of s' 0 = Some (setup_L59 0) /\ car_count s' = 0 /\
     length (procs s') = length (procs s)).
Proof.
  intros Hr Hstep. pose proof (reachable_wf _ _ Hr) as Hs. split.
  - intros n Hg Hne.
    destruct (step_of _ _ _ _ Hs Hstep Hg Hne) as (x & q & Hq & Hwf & Hready & Hseg).
    assert (car_count s = n) as Hn by (unfold car_count; by rewrite Hg).
    rewrite <- (gen_of_popped x q) in Hg.
    apply gen_of_lookup in Hg as (pr & Hp & Hgen).
    rewrite <- (length_procs_popped x q s). set (s0 := popped x q s) in *.
    simpl in Hseg. destruct Hseg as (gap & g' & Hgap & ->). draws.
    pose proof (lookup_lt_Some _ _ _ Hp) as Hlt.
    assert (gen_of (after_timeout 0 (setup_L59 (S n)) gap
                      (set_random g' (spawn (car_start (S n)) s0))) 0 =
            Some (setup_L59 (S n))) as Hg0.
    { eapply (gen_of_alter_eq (spawn (car_start (S n)) s0)); [cbn; reflexivity|]. cbn.
      apply is_Some_lookup_app. by eexists. }
    split_and!.
    + done.
    + rewrite Hn. unfold car_count. by rewrite Hg0.
    + cbn. rewrite length_alter, length_app. simpl. lia.
    + unfold gen_of. cbn. rewrite list_lookup_alter_ne by lia.
      by rewrite lookup_snoc.
    + eexists _, gap. split; [cbn; apply elem_of_heappush; by left|]. cbn.
      split_and!; [|done|done].
      eapply (target_of_alter_eq (spawn (car_start (S n)) s0)); [cbn; reflexivity|]. cbn.
      apply is_Some_lookup_app. by eexists.
  - intros Hg Hne.
    destruct (step_of _ _ _ _ Hs Hstep Hg Hne) as (x & q & Hq & Hwf & Hready & Hseg).
    rewrite <- (gen_of_popped x q) in Hg.
    apply gen_of_lookup in Hg as (pr & Hp & Hgen).
    rewrite <- (length_procs_popped x q s). set (s0 := popped x q s) in *.
    simpl in Hseg. destruct Hseg as (gap & g' & Hgap & ->).
    assert (gen_of (after_timeout 0 (setup_L59 0) gap (set_random g' s0)) 0 =
            Some (setup_L59 0)) as Hg0.
    { eapply (gen_of_alter_eq s0); [cbn; reflexivity|]. by eexists. }
    split_and!; [done|unfold car_count; by rewrite Hg0|].
    cbn. by rewrite length_alter.
Qed.

(** ** The order of the event queue *)

Lemma scheduled_lt_trans (a b c : scheduled) :
  scheduled_lt a b = true -> scheduled_lt b c = true -> scheduled_lt a c = true.
Proof.
  unfold scheduled_lt.
  destruct (Qcompare_spec (at_time a) (at_time b)) as [Hab|Hab|Hab]; [| |done];
    destruct (Qcompare_spec (at_time b) (at_time c)) as [Hbc|Hbc|Hbc]; try done;
    destruct (Qcompare_spec (at_time a) (at_time c)) as [Hac|Hac|Hac]; try done;
    try lra.
  repeat match goal with
         | |- context [(?m <? ?n)%nat] => destruct (Nat.ltb_spec m n)
         end; try done; try lia.
Qed.

Lemma scheduled_lt_total (a b : scheduled) :
  sid a <> sid b -> scheduled_lt a b = false -> scheduled_lt b a = true.
Proof.
  unfold scheduled_lt. intros Hne.
  destruct (Qcompare_spec (at_time a) (at_time b)) as [Hab|Hab|Hab]; [|done|];
    destruct (Qcompare_spec (at_time b) (at_time a)) as [Hba|Hba|Hba]; try done;
    try lra.
  repeat match goal with
         | |- context [(?m <? ?n)%nat] => destruct (Nat.ltb_spec m n)
         end; try done; try lia.
Qed.

Lemma heappush_strictly_sorted (x : scheduled) (q : list scheduled) :
  Forall (λ y, sid y <> sid x) q ->
  StronglySorted (λ a b, scheduled_lt a b = true) q ->
  StronglySorted (λ a b, scheduled_lt a b = true) (heappush x q).
Proof.
  intros Hne. induction 1 as [|z q Hq IH Hz]; simpl; [repeat constructor|].
  apply Forall_cons in Hne as [Hzx Hne].
  change (heappush x (z :: q))
    with (if scheduled_lt x z then x :: z :: q else z :: heappush x q).
  destruct (scheduled_lt x z) eqn:Hlt.
  - constructor; [by constructor|]. constructor; [done|].
    eapply Forall_impl; [exact Hz|]. simpl. intros y Hy. by eapply scheduled_lt_trans.
  - constructor; [by apply IH|].
    apply Forall_forall. intros y [->|Hy]%elem_of_heappush.
    + apply scheduled_lt_total; [congruence|done].
    + rewrite Forall_forall in Hz. by apply Hz.
Qed.

Lemma tie_ok_ext (s s' : state) :
  queue s' = queue s -> eid s' = eid s -> tie_ok s -> tie_ok s'.
Proof. unfold tie_ok. by intros -> ->. Qed.

Lemma tie_ok_push (s s' : state) (z : scheduled) :
  queue s' = heappush z (queue s) -> sid z = eid s -> eid s' = S (eid s) ->
  tie_ok s -> tie_ok s'.
Proof.
  intros Hq Hz He [Hlt Hsorted]. unfold tie_ok. rewrite Hq, He. split.
  - apply Forall_forall. intros y [->|Hy]%elem_of_heappush; [lia|].
    rewrite Forall_forall in Hlt. specialize (Hlt y Hy). lia.
  - apply heappush_strictly_sorted; [|done].
    eapply Forall_impl; [exact Hlt|]. simpl. intros y Hy. lia.
Qed.

Lemma tie_ok_after_timeout (p : nat) (g : generator) (d : Q) (s : state) :
  tie_ok s -> tie_ok (after_timeout p g d s).
Proof. eapply tie_ok_push; simpl; reflexivity. Qed.

Lemma tie_ok_spawn (g : generator) (s : state) : tie_ok s -> tie_ok (spawn g s).
Proof. eapply tie_ok_push; simpl; reflexivity. Qed.

Lemma tie_ok_spawn_wait (p : nat) (g gw : generator) (s : state) :
  tie_ok s -> tie_ok (spawn_wait p g gw s).
Proof. eapply tie_ok_push; simpl; reflexivity. Qed.

Lemma tie_ok_finish (p : nat) (g : generator) (s : state) :
  tie_ok s -> tie_ok (finish p g s).
Proof. eapply tie_ok_push; simpl; reflexivity. Qed.

Lemma tie_ok_exit_request (r : nat) (s : state) :
  tie_ok s -> tie_ok (exit_request r s).
Proof.
  eapply tie_ok_push; [apply queue_exit_request_eq|reflexivity|apply eid_exit_request].
Qed.

Lemma tie_ok_trigger_put (s : state) : tie_ok s -> tie_ok (trigger_put s).
Proof.
  intros Hs. unfold trigger_put, do_put. destruct (put_queue s) as [|h rest]; [done|].
  destruct (length (users s) <? capacity s)%nat; cbn;
    match goal with |- context [triggered ?a ?b] => destruct (triggered a b) end;
    try done; try (by eapply tie_ok_ext; [| |exact Hs]).
  all: revert Hs; eapply tie_ok_push; simpl; reflexivity.
Qed.

Lemma tie_ok_popped (x : scheduled) (q : list scheduled) (s : state) :
  queue s = x :: q -> tie_ok s -> tie_ok (popped x q s).
Proof.
  intros Hq [Hlt Hsorted]. unfold tie_ok. rewrite queue_popped.
  assert (eid (popped x q s) = eid s) as -> by (unfold popped; by destruct (item x)).
  rewrite Hq in Hlt, Hsorted. apply Forall_cons in Hlt as [_ Hlt].
  split; [done|]. by apply StronglySorted_inv in Hsorted as [? _].
Qed.

Ltac tie_ok_tac :=
  repeat lazymatch goal with
    | H : tie_ok ?s |- tie_ok ?s => exact H
    | |- tie_ok (trigger_put _) => apply tie_ok_trigger_put
    | |- tie_ok (exit_request _ _) => apply tie_ok_exit_request
    | |- tie_ok (after_timeout _ _ _ _) => apply tie_ok_after_timeout
    | |- tie_ok (spawn_wait _ _ _ _) => apply tie_ok_spawn_wait
    | |- tie_ok (finish _ _ _) => apply tie_ok_finish
    | |- tie_ok (spawn _ _) => apply tie_ok_spawn
    | |- _ => peel tie_ok_ext
    end.

Lemma segment_tie_ok (p : nat) (g : generator) (s s' : state) :
  tie_ok s -> segment p g s s' -> tie_ok s'.
Proof.
  intros Hs Hseg. destruct g; unfold segment in Hseg; destruct_segment; tie_ok_tac.
Qed.

Lemma tie_ok_main_from (g : rng) : tie_ok (main_from g).
Proof.
  rewrite main_from_eq. split; simpl.
  - repeat constructor.
  - repeat (constructor; [|by repeat constructor]). constructor.
Qed.

Lemma reachable_tie_ok (g : rng) (s : state) : reachable g s -> tie_ok s.
Proof.
  induction 1 as [|s s' Hr IH Hstep]; [apply tie_ok_main_from|].
  pose proof (reachable_wf _ _ Hr) as Hs.
  destruct (step_cases _ _ Hs Hstep) as (x & q & Hq & Hwf & Hcases).
  pose proof (tie_ok_popped x q s Hq IH) as Hpop.
  destruct Hcases as [->|[->|(p & pr & Hp & _ & Hseg)]]; [done| |].
  - by apply tie_ok_trigger_put.
  - by eapply segment_tie_ok.
Qed.

(** A generator that runs draws from the random module or leaves it as
    it is. *)
Lemma segment_random (p : nat) (g : generator) (s s' : state) :
  segment p g s s' ->
  random s' = random s \/
  (exists lambd, random s' = snd (expovariate lambd (random s))) \/
  (exists a b, random s' = snd (randint a b (random s))).
Proof.
  intros Hseg.
  assert (forall s0, random (trigger_put s0) = random s0) as Hput
    by (intros s0; by destruct (trigger_put_frame s0) as (_ & _ & _ & _ & H & _)).
  destruct g; unfold segment in Hseg; destruct_segment;
    rewrite ?Hput; cbn; rewrite ?exit_request_random; cbn;
    first [ by left
          | right; left; eexists;
            match goal with H : expovariate _ _ = _ |- _ => by rewrite H end
          | right; right; eexists _, _;
            match goal with H : randint _ _ _ = _ |- _ => by rewrite H end ].
Qed.

Lemma reachable_drawn (g : rng) (s : state) : reachable g s -> drawn g (random s).
Proof.
  induction 1 as [|s s' Hr IH Hstep]; [rewrite main_from_eq; constructor|].
  pose proof (reachable_wf _ _ Hr) as Hs.
  destruct (step_cases _ _ Hs Hstep) as (x & q & Hq & Hwf & Hcases).
  destruct (popped_frame x q s) as (_ & _ & _ & _ & Hrandom & _).
  destruct Hcases as [->|[->|(p & pr & Hp & _ & Hseg)]].
  - by rewrite Hrandom.
  - destruct (trigger_put_frame (popped x q s)) as (_ & _ & _ & _ & -> & _).
    by rewrite Hrandom.
  - destruct (segment_random _ _ _ _ Hseg) as [->|[[lambd ->]|(a & b & ->)]];
      rewrite Hrandom; [done|by constructor..].
Qed.

Lemma runs_to_deterministic (s : state) (e1 e2 : exception) (s1 s2 : state) :
  runs_to s e1 s1 -> runs_to s e2 s2 -> e1 = e2 /\ s1 = s2.
Proof.
  intros H1. revert e2 s2. induction H1 as [s e s' Hs|s sa e s' Hs _ IH]; intros e2 s2 H2.
  - inversion H2 as [? ? ? Hs2|? ? ? ? Hs2 _]; subst; rewrite Hs in Hs2; by simplify_eq.
  - inversion H2 as [? ? ? Hs2|? ? ? ? Hs2 Hr]; subst; rewrite Hs in Hs2; simplify_eq.
    by apply IH.
Qed.

(** C5: the simulation is deterministic. The state in which the loop of
    [env.run] takes its first step is that of the seed of line 141,
    whatever the state of the random module was when the script started,
    and in every state of the run the random module is in a state that
    draws of the program have reached from that of the seed. In every
    state of the run the entries of the event queue are in the strict
    order of their [(time, priority, eid)]: no two of them tie, so that the
    events themselves are never compared, and the entry that the next step
    pops is the least of them, whichever way the heap holds them. Hence
    two runs of the script for one seed end with the same exception in the
    same state, with the same [wait_times], [queue_lengths], [queue_time],
    [processed_cars] and [busy_time]. *)
Theorem runs_deterministic (z : Z) (g0 g1 : rng) :
  main_from (random_seed z g0) = main_from (random_seed z g1) /\
  (forall s, reachable (random_seed z g0) s -> drawn (seed z) (random s)) /\
  (forall s, reachable (random_seed z g0) s ->
     StronglySorted (λ a b, scheduled_lt a b = true /\ scheduled_lt b a = false)
       (queue s)) /\
  (forall e1 e2 s1 s2,
     runs_to (main_from (random_seed z g0)) e1 s1 ->
     runs_to (main_from (random_seed z g1)) e2 s2 ->
     e1 = e2 /\ s1 = s2 /\
     wait_times s1 = wait_times s2 /\ queue_lengths s1 = queue_lengths s2 /\
     queue_time s1 = queue_time s2 /\ processed_cars s1 = processed_cars s2 /\
     busy_time s1 = busy_time s2).
Proof.
  split; [done|]. split; [by apply reachable_drawn|]. split.
  - intros s Hr. destruct (reachable_tie_ok _ _ Hr) as [Hlt Hsorted].
    clear Hlt. induction Hsorted as [|x q Hq IH Hx]; constructor; [done|].
    eapply Forall_impl; [exact Hx|]. simpl. intros y Hxy. split; [done|].
    destruct (scheduled_lt y x) eqn:Hyx; [|done].
    pose proof (scheduled_lt_trans _ _ _ Hxy Hyx) as Hxx. revert Hxx.
    unfold scheduled_lt. destruct (Qcompare_spec (at_time x) (at_time x)); try lra.
    rewrite Nat.ltb_irrefl. by rewrite Nat.ltb_irrefl.
  - intros e1 e2 s1 s2 H1 H2.
    destruct (runs_to_deterministic _ _ _ _ _ H1 H2) as [-> ->]. done.
Qed.

(** ** The order in which requests are granted *)

Lemma usage_of_enqueue (p : nat) (g : generator) (s : state) (r : nat) :
  usage_of (enqueue p g s) r = usage_of s r.
Proof.
  unfold usage_of. simpl. destruct (decide (r < length (reqs s))) as [Hlt|Hge].
  - by rewrite lookup_app_l.
  - rewrite (lookup_ge_None_2 (reqs s)) by lia.
    rewrite lookup_app_r by lia. by destruct (r - length (reqs s)) as [|[|k]].
Qed.

Lemma sorted_snoc (l : list nat) (n : nat) :
  StronglySorted lt l -> Forall (λ r, r < n) l -> StronglySorted lt (l ++ [n]).
Proof.
  induction 1 as [|x l Hl IH Hx]; intros Hn; simpl; [repeat constructor|].
  apply Forall_cons in Hn as [Hxn Hn]. constructor; [by apply IH|].
  apply Forall_app. split; [done|]. by repeat constructor.
Qed.

Lemma sorted_remove_first (x : nat) (l : list nat) :
  StronglySorted lt l -> StronglySorted lt (list_remove_first x l).
Proof.
  induction 1 as [|y l Hl IH Hy]; simpl; [constructor|].
  case_decide; [done|]. constructor; [done|].
  apply Forall_forall. intros z Hz%elem_of_list_remove_first.
  rewrite Forall_forall in Hy. by apply Hy.
Qed.

Lemma order_ok_ext (s s' : state) :
  reqs s' = reqs s -> put_queue s' = put_queue s -> now s' = now s ->
  order_ok s -> order_ok s'.
Proof. unfold order_ok, usage_of. by intros -> -> ->. Qed.

Lemma order_ok_enqueue (p : nat) (g : generator) (s : state) :
  reqs_ok s -> order_ok s -> order_ok (enqueue p g s).
Proof.
  intros Hreqs (Hsorted & Hpast & Horder). split_and!.
  - simpl. apply sorted_snoc; [done|]. apply Forall_forall. intros r Hr.
    by apply (reqs_ok_pending s Hreqs).
  - intros r t. rewrite usage_of_enqueue. apply Hpast.
  - intros r1 r2 t2. rewrite !usage_of_enqueue. apply Horder.
Qed.

Lemma order_ok_grant (h : nat) (rest : list nat) (s : state) :
  put_queue s = h :: rest -> reqs_ok s -> queued_ok s -> order_ok s ->
  order_ok (grant h rest s).
Proof.
  intros Hpq Hreqs Hqueued (Hsorted & Hpast & Horder).
  destruct (reqs_ok_pending s Hreqs h) as [Hh Hnone]; [rewrite Hpq; set_solver|].
  assert (forall r, usage_of (grant h rest s) r =
            if decide (h = r) then Some (now s) else usage_of s r) as Husage.
  { intros r. erewrite usage_of_alter_usage by (simpl; reflexivity).
    destruct (decide (h = r)) as [<-|]; [|done]. by rewrite decide_True. }
  rewrite Hpq in Hsorted. apply StronglySorted_inv in Hsorted as [Hrest Hhead].
  split_and!.
  - done.
  - intros r t. rewrite Husage. simpl. destruct (decide (h = r)) as [<-|].
    + intros [= <-]. lra.
    + apply Hpast.
  - intros r1 r2 t2 Hlt. rewrite !Husage.
    destruct (decide (h = r2)) as [<-|Hne2].
    + intros [= <-]. rewrite decide_False by lia.
      destruct (usage_of s r1) as [t1|] eqn:Hu1; [by eauto|].
      assert (r1 ∈ put_queue s) as Hin by (apply Hqueued; [lia|done]).
      rewrite Hpq in Hin. apply elem_of_cons in Hin as [->|Hin]; [lia|].
      rewrite Forall_forall in Hhead. specialize (Hhead r1 Hin). lia.
    + intros Hu2. destruct (Horder r1 r2 t2 Hlt Hu2) as (t1 & Hu1 & Hle).
      destruct (decide (h = r1)) as [<-|]; [congruence|by eauto].
Qed.

Lemma order_ok_trigger_put (s : state) :
  reqs_ok s -> queued_ok s -> order_ok s -> order_ok (trigger_put s).
Proof.
  intros Hreqs Hqueued Hs.
  destruct (trigger_put_cases s (reqs_ok_pending s Hreqs))
    as [[-> _]|(h & rest & Hpq & _ & ->)]; [done|].
  by apply order_ok_grant.
Qed.

Lemma order_ok_exit_request (r : nat) (s : state) :
  is_Some (usage_of s r) -> order_ok s -> order_ok (exit_request r s).
Proof.
  intros Hr. rewrite (exit_request_release r s Hr). by apply order_ok_ext.
Qed.

Lemma order_ok_popped (x : scheduled) (q : list scheduled) (s : state) :
  time_ok s -> queue s = x :: q -> order_ok s -> order_ok (popped x q s).
Proof.
  intros Htime Hq (Hsorted & Hpast & Horder).
  pose proof (head_due x q s Htime Hq) as Hdue. split_and!.
  - by rewrite put_queue_popped.
  - intros r t. rewrite usage_of_popped, now_popped. intros Hu.
    specialize (Hpast r t Hu). lra.
  - intros r1 r2 t2. rewrite !usage_of_popped. apply Horder.
Qed.

Ltac order_ok_tac :=
  repeat lazymatch goal with
    | H : order_ok ?s |- order_ok ?s => exact H
    | |- order_ok (trigger_put _) =>
        apply order_ok_trigger_put; [reqs_ok_tac|queued_ok_tac|]
    | |- order_ok (exit_request _ _) => apply order_ok_exit_request; [done|]
    | |- order_ok (enqueue _ _ _) => apply order_ok_enqueue; [reqs_ok_tac|]
    | |- _ => peel order_ok_ext
    end.

Lemma segment_order_ok (p : nat) (pr : Process) (s s' : state) :
  procs s !! p = Some pr -> reqs_ok s -> hold_ok s -> queued_ok s -> order_ok s ->
  segment p (gen pr) s s' -> order_ok s'.
Proof.
  intros Hp Hreqs Hhold Hqueued Hs Hseg.
  pose proof (Hhold p pr Hp) as [_ Hg].
  destruct (gen pr) eqn:Hgen; unfold segment in Hseg; destruct_segment;
    order_ok_tac.
Qed.

Lemma order_ok_step (s s' : state) :
  wf s -> queued_ok s -> order_ok s -> step s = Return s' -> order_ok s'.
Proof.
  intros Hs Hq Ho Hstep.
  destruct (step_cases _ _ Hs Hstep) as (x & q & Hqs & Hwf & Hcases).
  pose proof (queued_ok_popped x q s Hq) as Hqpop.
  pose proof (order_ok_popped x q s (wf_time _ Hs) Hqs Ho) as Hpop.
  destruct Hcases as [->|[->|(p & pr & Hp & _ & Hseg)]]; [done| |].
  - apply order_ok_trigger_put; [apply Hwf|done|done].
  - eapply segment_order_ok; [done|apply Hwf|apply Hwf|done|done|done].
Qed.

Lemma reachable_order_ok (g : rng) (s : state) : reachable g s -> order_ok s.
Proof.
  induction 1 as [|s s' Hr IH Hstep].
  - rewrite main_from_eq. split_and!; simpl; [constructor|done|done].
  - eapply order_ok_step;
      [by eapply reachable_wf|by eapply reachable_queued_ok|done..].
Qed.

(** ** What a step grants *)

(** A request of the queue that a step grants was the head of the queue,
    and a slot was free. *)
Lemma granted_was_head (s s' : state) (r : nat) :
  wf s -> step s = Return s' -> r ∈ put_queue s -> r ∈ users s' ->
  (exists rest, put_queue s = r :: rest) /\
  exists U, (U = users s \/ exists r', U = list_remove_first r' (users s)) /\
    length U < capacity s /\ users s' = U ++ [r].
Proof.
  intros Hs Hstep Hq Hu. destruct (wf_reqs _ Hs) as (_ & _ & Husers & Hpend).
  assert (forall U, U = users s \/ (exists r', U = list_remove_first r' (users s)) ->
            r ∉ U) as Hnot.
  { intros U HU Hin.
    assert (r ∈ users s) as Hin'.
    { destruct HU as [->|[r' ->]]; [done|]. by apply elem_of_list_remove_first in Hin. }
    destruct (Husers r Hin') as (u & Hu2 & _). destruct (Hpend r Hq) as [_ Hnone].
    congruence. }
  destruct (step_fifo _ _ Hs Hstep)
    as (U & new & HU & Hnew & [[Hu' _]|(h & rest & Hpq & Hlt & Hu' & _)]);
    rewrite Hu' in Hu.
  - by apply Hnot in Hu.
  - apply elem_of_app in Hu as [Hu|Hu]; [by apply Hnot in Hu|].
    apply list_elem_of_singleton in Hu as ->. split; [|by exists U].
    destruct (put_queue s) as [|h' l]; [by apply elem_of_nil in Hq|].
    simpl in Hpq. injection Hpq as -> _. by eexists.
Qed.

(** No request is granted while another one is ahead of it in the queue. *)
Lemma not_granted_behind (s s' : state) (i j r1 r2 : nat) :
  wf s -> step s = Return s' ->
  put_queue s !! i = Some r1 -> put_queue s !! j = Some r2 -> i < j -> r2 ∉ users s'.
Proof.
  intros Hs Hstep Hi Hj Hlt Hin.
  destruct (granted_was_head s s' r2 Hs Hstep) as [[rest Hpq] _];
    [by eapply list_elem_of_lookup_2|done|].
  destruct (wf_reqs _ Hs) as (_ & Hnd & _).
  assert (put_queue s !! 0 = Some r2) as H0 by (by rewrite Hpq).
  pose proof (NoDup_lookup _ _ _ _ Hnd H0 Hj). lia.
Qed.

(** A request that is made while no slot is free joins the queue. *)
Lemma request_saturated (s s' : state) (c : nat) (g0 : generator) :
  wf s -> step s = Return s' -> gen_of s c = Some g0 ->
  g0 = repair_L75 \/ (exists n, g0 = car_start n) -> gen_of s' c <> Some g0 ->
  capacity s <= length (users s) ->
  users s' = users s /\ put_queue s' = put_queue s ++ [length (reqs s)].
Proof.
  intros Hs Hstep Hg Hg0 Hne Hfull.
  destruct (step_of _ _ _ _ Hs Hstep Hg Hne) as (x & q & Hq & Hwf & Hready & Hseg).
  destruct (popped_frame x q s) as (_ & _ & _ & Hcap & _ & Hlen).
  rewrite <- Hlen, <- (users_popped x q s), <- (put_queue_popped x q s).
  rewrite <- Hcap, <- (users_popped x q s) in Hfull.
  set (s0 := popped x q s) in *.
  assert (forall g1, s' = trigger_put (enqueue c g1 s0) ->
            users s' = users s0 /\ put_queue s' = put_queue s0 ++ [length (reqs s0)])
    as Hsame.
  { intros g1 ->.
    pose proof (reqs_ok_enqueue c g1 s0 (wf_reqs _ Hwf)) as Hok.
    destruct (trigger_put_cases _ (reqs_ok_pending _ Hok))
      as [[-> _]|(h & rest & _ & Hlt & _)]; [done|].
    simpl in Hlt. lia. }
  destruct Hg0 as [->|[n ->]]; simpl in Hseg; by eapply Hsame.
Qed.

(** The step that processes a [Release] event grants the head of the
    queue when a slot is free. *)
Lemma release_grants_head (s s' : state) (x : scheduled) (q : list scheduled)
    (h : nat) (rest : list nat) :
  wf s -> step s = Return s' -> queue s = x :: q ->
  get_callbacks (item x) s = Some [trigger_put_cb] ->
  put_queue s = h :: rest -> length (users s) < capacity s ->
  users s' = users s ++ [h] /\ put_queue s' = rest /\ usage_of s' h = Some (now s').
Proof.
  intros Hs Hstep Hq Hcb Hpq Hfree.
  assert (wf (popped x q s)) as Hwf by (by eapply wf_popped).
  apply step_inv in Hstep as (x' & q' & cbs & Hq' & Hcb' & Hrun).
  rewrite Hq in Hq'. injection Hq' as <- <-. rewrite Hcb in Hcb'. injection Hcb' as <-.
  simpl in Hrun. injection Hrun as <-.
  destruct (popped_frame x q s) as (_ & _ & _ & Hcap & _).
  destruct (trigger_put_cases _ (reqs_ok_pending _ (wf_reqs _ Hwf)))
    as [[_ Hno]|(h' & rest' & Hpq' & _ & ->)];
    rewrite ?put_queue_popped, ?users_popped, ?Hcap in *.
  - rewrite Hpq in Hno. destruct Hno as [?|?]; [done|lia].
  - rewrite Hpq in Hpq'. injection Hpq' as <- <-. simpl.
    rewrite users_popped. split; [done|]. split; [done|].
    erewrite usage_of_alter_usage by (simpl; reflexivity).
    rewrite decide_True by done. rewrite decide_True; [done|].
    apply (reqs_ok_pending _ (wf_reqs _ Hwf)). rewrite put_queue_popped, Hpq. set_solver.
Qed.

(** A [Release] event is due now when a request waits and a slot is free. *)
Lemma release_pending (s : state) :
  serve_ok s -> put_queue s <> [] -> length (users s) < capacity s ->
  exists x, x ∈ queue s /\ get_callbacks (item x) s = Some [trigger_put_cb] /\
    (at_time x == now s)%Q.
Proof.
  intros Hserve Hpq Hfree. destruct Hserve as [?|Hle]; [done|].
  unfold releases in Hle.
  destruct (filter _ (queue s)) as [|x l] eqn:Hf; [simpl in Hle; lia|].
  assert (x ∈ filter (λ x, is_release s x = true) (queue s)) as Hx
    by (rewrite Hf; set_solver).
  apply list_elem_of_filter in Hx as [Hrel Hx]. apply is_release_true in Hrel.
  by exists x.
Qed.

(** C4: the queue of the machine pool is served first in, first out. A
    step of a run grants at most one request, the head of the queue (to
    which the step may have added a request at the tail), and only when a
    slot is free; no request is granted while another one is ahead of it in
    the queue. A request that is made while no slot is free joins the queue
    and is not granted. The release of a slot schedules a [Release] event
    for the same time: whenever a request waits and a slot is free such an
    event is due, and the step that processes it grants the head of the
    queue. Hence the requests are granted in the order in which they were
    made: a request that was made before a granted one was granted no
    later. *)
Theorem pool_is_fifo (g : rng) (s s' : state) :
  reachable g s -> step s = Return s' ->
  fifo_step s s' /\
  (forall i j r1 r2, put_queue s !! i = Some r1 -> put_queue s !! j = Some r2 ->
     i < j -> r2 ∉ users s') /\
  (forall c g0, gen_of s c = Some g0 ->
     g0 = repair_L75 \/ (exists n, g0 = car_start n) -> gen_of s' c <> Some g0 ->
     capacity s <= length (users s) ->
     users s' = users s /\ put_queue s' = put_queue s ++ [length (reqs s)]) /\
  (forall x q h rest, queue s = x :: q ->
     get_callbacks (item x) s = Some [trigger_put_cb] ->
     put_queue s = h :: rest -> length (users s) < capacity s ->
     users s' = users s ++ [h] /\ put_queue s' = rest /\
     usage_of s' h = Some (now s')) /\
  (put_queue s' <> [] -> length (users s') < capacity s' ->
   exists x, x ∈ queue s' /\ get_callbacks (item x) s' = Some [trigger_put_cb] /\
     (at_time x == now s')%Q) /\
  (forall r1 r2 t2, r1 < r2 -> usage_of s' r2 = Some t2 ->
     exists t1, usage_of s' r1 = Some t1 /\ (t1 <= t2)%Q).
Proof.
  intros Hr Hstep. pose proof (reachable_wf _ _ Hr) as Hs.
  assert (reachable g s') as Hr' by (by eapply reachable_step).
  split_and!.
  - by apply step_fifo.
  - intros i j r1 r2. by apply not_granted_behind.
  - intros c g0. by apply request_saturated.
  - intros x q h rest. by apply release_grants_head.
  - apply release_pending. by eapply reachable_serve_ok.
  - by destruct (reachable_order_ok _ _ Hr') as (_ & _ & Horder).
Qed.

(** C2, as the program has it: the repair person acquires a machine with
    the request that a car makes, on the same pool. The step that takes a
    process past [carwash.machine.request()], the repair person at line 80
    or at line 88 as well as a car at line 41, adds its request at the tail
    of the one queue of the pool; the request is granted in that step only
    if it is the head of the queue, that is if no earlier request waits,
    and a slot is free, and otherwise it waits behind the requests that
    were queued before it. In every later step, a request of the queue,
    that of the repair person as well as that of a car, is granted only if
    it is the head of the queue and a slot is free, and never while another
    request is ahead of it: not when a wash finishes either. *)
Theorem repair_request_queues (g : rng) (s s' : state) :
  reachable g s -> step s = Return s' ->
  (forall c g0, gen_of s c = Some g0 ->
     g0 = repair_L75 \/ (exists n, g0 = car_start n) ->
     gen_of s' c <> Some g0 ->
     (exists g1, gen_of s' c = Some g1 /\ awaits g1 = Some (length (reqs s))) /\
     owner_of s' (length (reqs s)) = Some c /\
     ((users s' = users s /\ put_queue s' = put_queue s ++ [length (reqs s)]) \/
      (exists h rest, put_queue s ++ [length (reqs s)] = h :: rest /\
         length (users s) < capacity s /\
         users s' = users s ++ [h] /\ put_queue s' = rest))) /\
  (forall c r1, gen_of s c = Some (repair_L83 r1) ->
     gen_of s' c <> Some (repair_L83 r1) ->
     gen_of s' c = Some (repair_L90 (length (reqs s))) /\
     owner_of s' (length (reqs s)) = Some c /\
     ((users s' = list_remove_first r1 (users s) /\
       put_queue s' = put_queue s ++ [length (reqs s)]) \/
      (exists h rest, put_queue s ++ [length (reqs s)] = h :: rest /\
         length (list_remove_first r1 (users s)) < capacity s /\
         users s' = list_remove_first r1 (users s) ++ [h] /\ put_queue s' = rest))) /\
  (forall r, r ∈ put_queue s -> r ∈ users s' ->
     (exists rest, put_queue s = r :: rest) /\
     exists U, (U = users s \/ exists r', U = list_remove_first r' (users s)) /\
       length U < capacity s /\ users s' = U ++ [r]) /\
  (forall i j r1 r2, put_queue s !! i = Some r1 -> put_queue s !! j = Some r2 ->
     i < j -> r2 ∉ users s').
Proof.
  intros Hr Hstep. pose proof (reachable_wf _ _ Hr) as Hs.
  assert (forall c (g0 g1 : generator) (s0 s1 : state) pr,
    procs s0 !! c = Some pr -> procs s1 = procs s0 -> reqs s1 = reqs s0 ->
    reqs_ok s1 ->
    gen_of (trigger_put (enqueue c g1 s1)) c = Some g1 /\
    owner_of (trigger_put (enqueue c g1 s1)) (length (reqs s0)) = Some c /\
    ((users (trigger_put (enqueue c g1 s1)) = users s1 /\
      put_queue (trigger_put (enqueue c g1 s1)) = put_queue s1 ++ [length (reqs s0)]) \/
     (exists h rest, put_queue s1 ++ [length (reqs s0)] = h :: rest /\
        length (users s1) < capacity s1 /\
        users (trigger_put (enqueue c g1 s1)) = users s1 ++ [h] /\
        put_queue (trigger_put (enqueue c g1 s1)) = rest))) as Hreq.
  { intros c g0 g1 s0 s1 pr Hp Hprocs Hreqs Hok. split; [|split].
    - rewrite (gen_of_ext _ (enqueue c g1 s1)) by apply trigger_put_procs.
      eapply gen_of_alter_eq; [cbn; reflexivity|]. rewrite Hprocs. by eexists.
    - rewrite owner_of_trigger_put. unfold owner_of. simpl.
      rewrite Hreqs, lookup_snoc. done.
    - pose proof (reqs_ok_enqueue c g1 s1 Hok) as Hok'.
      destruct (trigger_put_cases _ (reqs_ok_pending _ Hok'))
        as [[-> _]|(h & rest & Hpq & Hlt & ->)]; simpl; rewrite ?Hreqs.
      + by left.
      + right. exists h, rest. simpl in Hpq, Hlt. rewrite Hreqs in Hpq. done. }
  split_and!.
  - intros c g0 Hg Hg0 Hne.
    destruct (step_of _ _ _ _ Hs Hstep Hg Hne) as (x & q & Hq & Hwf & Hready & Hseg).
    rewrite <- (gen_of_popped x q) in Hg.
    apply gen_of_lookup in Hg as (pr & Hp & Hgen).
    destruct (popped_frame x q s) as (_ & _ & _ & Hcap & _ & Hlen).
    rewrite <- Hlen, <- Hcap, <- (users_popped x q s), <- (put_queue_popped x q s).
    destruct Hg0 as [->|[n ->]]; simpl in Hseg; subst s'.
    + destruct (Hreq c repair_L75 (repair_L82 (length (reqs (popped x q s))))
                  (popped x q s) (popped x q s) pr Hp eq_refl eq_refl (wf_reqs _ Hwf))
        as (H1 & H2 & H3). split; [by eexists|done].
    + destruct (Hreq c (car_start n)
                  (car_L42 n (now (popped x q s)) (length (reqs (popped x q s))))
                  (popped x q s) (popped x q s) pr Hp eq_refl eq_refl (wf_reqs _ Hwf))
        as (H1 & H2 & H3). split; [by eexists|done].
  - intros c r1 Hg Hne.
    destruct (step_of _ _ _ _ Hs Hstep Hg Hne) as (x & q & Hq & Hwf & Hready & Hseg).
    rewrite <- (gen_of_popped x q) in Hg.
    apply gen_of_lookup in Hg as (pr & Hp & Hgen).
    destruct (popped_frame x q s) as (_ & _ & _ & Hcap & _ & Hlen).
    rewrite <- Hlen, <- Hcap, <- (users_popped x q s), <- (put_queue_popped x q s).
    simpl in Hseg. subst s'.
    destruct (wf_hold _ Hwf c pr Hp) as [_ Hhold]. rewrite Hgen in Hhold.
    pose proof (reqs_ok_exit_request r1 _ (wf_reqs _ Hwf)) as Hok.
    revert Hok. rewrite (exit_request_release r1 _ Hhold). intros Hok.
    by destruct (Hreq c (repair_L83 r1) (repair_L90 (length (reqs (popped x q s))))
                  (popped x q s) (release r1 (popped x q s)) pr Hp eq_refl eq_refl Hok)
      as (H1 & H2 & H3).
  - intros r. by apply granted_was_head.
  - intros i j r1 r2. by apply not_granted_behind.
Qed.

End Proofs.

(** ** A run of the program on scripted draws *)

Lemma script_expovariate_nonneg (lambd : Q) (g : Script.t) :
  (0 < lambd)%Q -> (0 <= fst (Script.expovariate lambd g))%Q.
Proof.
  intros _. unfold Script.expovariate.
  destruct (Qeq_bool lambd LAMBDA), (Script.gaps g), (Script.services g); simpl;
    first [apply Qabs_nonneg | by vm_compute].
Qed.

Lemma script_randint_range (a b : Z) (g : Script.t) :
  (a <= b)%Z -> (a <= fst (Script.randint a b g) <= b)%Z.
Proof.
  intros Hab. unfold Script.randint. destruct (Script.intervals g) as [|x l]; simpl.
  - lia.
  - pose proof (Z.mod_pos_bound x (b - a + 1)). lia.
Qed.

(** The bound on the pool after 62 steps of the scripted run, when the
    third car has been granted its machine. *)
Lemma pool_within_capacity_witness :
  0 <= length (users (scripted 62)) <= capacity (scripted 62) /\
  capacity (scripted 62) = NUM_MACHINES.
Proof.
  assert (reachable three_cars (scripted 62)) as Hr
    by (apply (run_reachable (R := script_random) three_cars 62); vm_compute; reflexivity).
  exact (proj1 (pool_within_capacity (R := script_random) three_cars (scripted 62) Hr)).
Defined.

(** The scripted run refutes C2 as the specification states it: at minute
    40 the request of the repair person (request 3, of process 2) joins
    the queue of the pool behind the request of the third car (request 2);
    when the first car leaves at minute 45 and a machine is free, the step
    that serves the queue grants the machine to the car, and the repair
    person still waits. *)
Lemma repair_waits_behind_car :
  exists s s', run 61 (main_from three_cars) = Return s /\ step s = Return s' /\
    put_queue s = [2; 3] /\
    function_of <$> (owner_of s 2 ≫= gen_of s) = Some car_fn /\
    function_of <$> (owner_of s 3 ≫= gen_of s) = Some repair_fn /\
    length (users s) < capacity s /\
    users s' = users s ++ [2] /\ put_queue s' = [3].
Proof.
  exists (scripted 61), (scripted 62).
  split_and!; vm_compute; first [reflexivity | lia].
Qed.

(** The step of the scripted run in which the repair person makes its
    first request: the request joins the queue behind that of the third
    car; and the step that serves the queue when the first car has left:
    the request of the car, which becomes a user, was the head of the
    queue, and that of the repair person, behind it, does not. *)
Lemma repair_request_queues_witness :
  ((users (scripted 53) = users (scripted 52) /\
    put_queue (scripted 53) = put_queue (scripted 52) ++ [length (reqs (scripted 52))]) \/
   (exists h rest,
      put_queue (scripted 52) ++ [length (reqs (scripted 52))] = h :: rest /\
      length (users (scripted 52)) < capacity (scripted 52) /\
      users (scripted 53) = users (scripted 52) ++ [h] /\ put_queue (scripted 53) = rest)) /\
  (exists rest, put_queue (scripted 61) = 2 :: rest) /\ (3 ∉ users (scripted 62)).
Proof.
  assert (reachable three_cars (scripted 52)) as Hr
    by (apply (run_reachable (R := script_random) three_cars 52); vm_compute; reflexivity).
  assert (step (scripted 52) = Return (scripted 53)) as Hstep
    by (vm_compute; reflexivity).
  assert (reachable three_cars (scripted 61)) as Hr'
    by (apply (run_reachable (R := script_random) three_cars 61); vm_compute; reflexivity).
  assert (step (scripted 61) = Return (scripted 62)) as Hstep'
    by (vm_compute; reflexivity).
  destruct (repair_request_queues (R := script_random) script_expovariate_nonneg script_randint_range
              three_cars (scripted 52) (scripted 53) Hr Hstep) as [H _].
  destruct (repair_request_queues (R := script_random) script_expovariate_nonneg script_randint_range
              three_cars (scripted 61) (scripted 62) Hr' Hstep') as (_ & _ & H3 & H4).
  split_and!.
  - apply (H 2 repair_L75).
    + vm_compute. reflexivity.
    + by left.
    + vm_compute. discriminate.
  - apply (H3 2); apply (bool_decide_unpack _); vm_compute; reflexivity.
  - apply (H4 0 1 2 3); [vm_compute; reflexivity..|lia].
Defined.


(** The step of the scripted run that serves the queue when the first car
    has left: it processes the [Release] event of that car, and the request
    of the third car, the head of the queue, is granted, at the time of the
    step; that of the repair person, behind it, is not. *)
Lemma pool_is_fifo_witness :
  fifo_step (scripted 61) (scripted 62) /\ (3 ∉ users (scripted 62)) /\
  users (scripted 62) = users (scripted 61) ++ [2] /\ put_queue (scripted 62) = [3] /\
  usage_of (scripted 62) 2 = Some (now (scripted 62)).
Proof.
  assert (reachable three_cars (scripted 61)) as Hr
    by (apply (run_reachable (R := script_random) three_cars 61); vm_compute; reflexivity).
  assert (step (scripted 61) = Return (scripted 62)) as Hstep
    by (vm_compute; reflexivity).
  destruct (pool_is_fifo (R := script_random) script_expovariate_nonneg
              script_randint_range three_cars (scripted 61) (scripted 62) Hr Hstep)
    as (H1 & H2 & _ & H4 & _).
  split; [exact H1|]. split; [apply (H2 0 1 2 3); [vm_compute; reflexivity..|lia]|].
  eapply (H4 _ _ 2 [3]); [vm_compute; reflexivity..|vm_compute; lia].
Defined.

(** Two runs of the script, of which one starts with the random module in
    the state of the three cars and the other in that of the eight: both
    run on the draws of the seed and end in the same state, in which three
    waiting times have been recorded. *)
Lemma runs_deterministic_witness :
  final_state (run 600 (script three_cars)) = final_state (run 1000 (script eight_cars)) /\
  length (wait_times (final_state (run 600 (script three_cars)))) = 3.
Proof.
  assert (runs_to (main_from (random_seed RANDOM_SEED three_cars)) StopSimulation
            (final_state (run 600 (script three_cars)))) as H1
    by (apply (run_runs_to (R := script_random) 600); vm_compute; reflexivity).
  assert (runs_to (main_from (random_seed RANDOM_SEED eight_cars)) StopSimulation
            (final_state (run 1000 (script eight_cars)))) as H2
    by (apply (run_runs_to (R := script_random) 1000); vm_compute; reflexivity).
  destruct (runs_deterministic (R := script_random) script_expovariate_nonneg
              script_randint_range RANDOM_SEED three_cars eight_cars)
    as (_ & _ & _ & H).
  split; [exact (proj1 (proj2 (H _ _ _ _ H1 H2)))|]. vm_compute. reflexivity.
Defined.




(** The scripted run does not end in a negative delay. *)
Lemma no_negative_delay_witness :
  exists o, run 1000 (main_from three_cars) = o /\
    forall d s', o <> Raise (NegativeDelay d) s'.
Proof.
  eexists. split; [reflexivity|]. intros d s'.
  exact (no_negative_delay (R := script_random) script_expovariate_nonneg script_randint_range
           three_cars 1000 d s').
Defined.

(** ** Runs in binary64 *)

(** [round64] is the rounding of the kernel's floats, on the operations of
    the two runs below. *)
Example round64_literal :
  round64 (1 # 10) = float_to_Q (PrimFloat.div (float_of_Z 1) (float_of_Z 10)) /\
  round64 (2 # 10) = float_to_Q (PrimFloat.div (float_of_Z 2) (float_of_Z 10)).
Proof. split; vm_compute; reflexivity. Qed.

Example round64_add_sub :
  let a := PrimFloat.div (float_of_Z 1) (float_of_Z 10) in
  let b := PrimFloat.div (float_of_Z 2) (float_of_Z 10) in
  round64 (float_to_Q a + float_to_Q b) = float_to_Q (PrimFloat.add a b) /\
  round64 (float_to_Q (PrimFloat.add a b) - float_to_Q a) =
    float_to_Q (PrimFloat.sub (PrimFloat.add a b) a).
Proof. split; vm_compute; reflexivity. Qed.

Example round64_ties_to_even :
  let x :=
    PrimFloat.add (float_of_Z 512) (PrimFloat.div (float_of_Z 3) (float_of_Z (2 ^ 44))) in
  round64 (512 + 3 * ulp) = float_to_Q x /\ (round64 (512 + 3 * ulp) == 512 + 4 * ulp)%Q.
Proof. split; vm_compute; reflexivity. Qed.



(** ** The further properties on the scripted run *)

(** The samples of the queue after 62 steps of the scripted run and at
    its end. *)
Lemma queue_sampled_every_minute_witness :
  length (queue_lengths (scripted 62)) = length (queue_time (scripted 62)) /\
  (of_nat (length (queue_time (final_state (run 1000 (main_from three_cars)))))
   == SIM_TIME)%Q.
Proof.
  assert (reachable three_cars (scripted 62)) as Hr
    by (apply (run_reachable (R := script_random) three_cars 62); vm_compute; reflexivity).
  assert (runs_to (main_from three_cars) StopSimulation
            (final_state (run 1000 (main_from three_cars)))) as Hrun
    by (apply (run_runs_to (R := script_random) 1000); vm_compute; reflexivity).
  destruct (queue_sampled_every_minute (R := script_random) script_expovariate_nonneg
              script_randint_range three_cars) as [H1 H2].
  split.
  - exact (proj1 (H1 _ Hr)).
  - exact (proj2 (proj2 (H2 _ _ Hrun))).
Defined.

(** The clock after 62 steps of the scripted run and at its end. *)
Lemma clock_runs_to_SIM_TIME_witness :
  (now (scripted 62) < SIM_TIME)%Q /\
  (now (final_state (run 1000 (main_from three_cars))) == SIM_TIME)%Q.
Proof.
  assert (reachable three_cars (scripted 62)) as Hr
    by (apply (run_reachable (R := script_random) three_cars 62); vm_compute; reflexivity).
  assert (runs_to (main_from three_cars) StopSimulation
            (final_state (run 1000 (main_from three_cars)))) as Hrun
    by (apply (run_runs_to (R := script_random) 1000); vm_compute; reflexivity).
  destruct (clock_runs_to_SIM_TIME (R := script_random) script_expovariate_nonneg
              script_randint_range three_cars) as (H1 & _ & H3).
  split.
  - exact (proj2 (H1 _ Hr)).
  - exact (proj2 (H3 _ _ Hrun)).
Defined.

(** The waiting time of the third car of the scripted run, 15 minutes. *)
Lemma wait_times_in_range_witness :
  exists w, wait_times (scripted 64) !! 2 = Some w /\ (0 <= w)%Q /\ (w < SIM_TIME)%Q.
Proof.
  assert (reachable three_cars (scripted 64)) as Hr
    by (apply (run_reachable (R := script_random) three_cars 64); vm_compute; reflexivity).
  destruct (wait_times_in_range (R := script_random) script_expovariate_nonneg
              script_randint_range three_cars (scripted 64) Hr) as [_ H].
  eexists. split; [vm_compute; reflexivity|].
  apply (H 2). vm_compute. reflexivity.
Defined.

(** The waiting times when the third car of the scripted run is being
    washed. *)
Lemma one_wait_per_washed_car_witness :
  length (wait_times (scripted 64)) = processed_cars (scripted 64) + washing (scripted 64).
Proof.
  assert (reachable three_cars (scripted 64)) as Hr
    by (apply (run_reachable (R := script_random) three_cars 64); vm_compute; reflexivity).
  exact (proj1 (one_wait_per_washed_car (R := script_random) script_expovariate_nonneg
                  script_randint_range three_cars (scripted 64) Hr)).
Defined.

(** The machines of the scripted run while the repair person holds its
    first machine: one car is being washed. *)
Lemma machines_shared_witness :
  washing (scripted 77) + offline_count (scripted 77) <= length (users (scripted 77)) /\
  washing (scripted 77) <= 1.
Proof.
  assert (reachable three_cars (scripted 77)) as Hr
    by (apply (run_reachable (R := script_random) three_cars 77); vm_compute; reflexivity).
  destruct (machines_shared (R := script_random) script_expovariate_nonneg
              script_randint_range three_cars (scripted 77) Hr) as (H1 & _ & H3).
  split; [exact H1|]. apply H3. vm_compute. reflexivity.
Defined.




(** The plots of the scripted run. *)
Lemma plot_graphs_dimensions_witness :
  is_Some (plot_graphs (scripted 62)) /\
  is_Some (plot_graphs (final_state (run 1000 (main_from three_cars)))).
Proof.
  assert (reachable three_cars (scripted 62)) as Hr
    by (apply (run_reachable (R := script_random) three_cars 62); vm_compute; reflexivity).
  assert (runs_to (main_from three_cars) StopSimulation
            (final_state (run 1000 (main_from three_cars)))) as Hrun
    by (apply (run_runs_to (R := script_random) 1000); vm_compute; reflexivity).
  destruct (plot_graphs_dimensions (R := script_random) script_expovariate_nonneg
              script_randint_range three_cars) as (_ & H2 & H3).
  split.
  - exact (H2 _ Hr).
  - rewrite (proj1 (H3 _ _ Hrun)). by eexists.
Defined.

(** The steps of the scripted run in which the third car records its
    waiting time and in which the first car leaves. *)
Lemma tracking_variables_grow_witness :
  wait_times (scripted 63) `prefix_of` wait_times (scripted 64) /\
  (busy_time (scripted 60) <= busy_time (scripted 61))%Q.
Proof.
  assert (reachable three_cars (scripted 63)) as Hr1
    by (apply (run_reachable (R := script_random) three_cars 63); vm_compute; reflexivity).
  assert (step (scripted 63) = Return (scripted 64)) as Hstep1
    by (vm_compute; reflexivity).
  assert (reachable three_cars (scripted 60)) as Hr2
    by (apply (run_reachable (R := script_random) three_cars 60); vm_compute; reflexivity).
  assert (step (scripted 60) = Return (scripted 61)) as Hstep2
    by (vm_compute; reflexivity).
  split.
  - exact (proj1 (tracking_variables_grow (R := script_random) script_expovariate_nonneg
                    script_randint_range three_cars _ _ Hr1 Hstep1)).
  - exact (proj2 (proj2 (proj2 (proj2
             (tracking_variables_grow (R := script_random) script_expovariate_nonneg
                script_randint_range three_cars _ _ Hr2 Hstep2))))).
Defined.

(** The queue of the scripted run at minute 45: the third car and the
    repair person wait. *)
Lemma queue_holds_the_waiting_witness :
  length (put_queue (scripted 61)) =
    waiting_cars (scripted 61) + repair_waiting (scripted 61).
Proof.
  assert (reachable three_cars (scripted 61)) as Hr
    by (apply (run_reachable (R := script_random) three_cars 61); vm_compute; reflexivity).
  exact (proj1 (proj2 (queue_holds_the_waiting (R := script_random)
                         script_expovariate_nonneg script_randint_range three_cars
                         (scripted 61) Hr))).
Defined.

(** The cars of the scripted run when the third one is being washed. *)
Lemma cars_accounted_for_witness :
  car_count (scripted 64) =
    processed_cars (scripted 64) + new_cars (scripted 64) +
    sum_list_with (λ pr, at_request (gen pr)) (procs (scripted 64)) + washing (scripted 64).
Proof.
  assert (reachable three_cars (scripted 64)) as Hr
    by (apply (run_reachable (R := script_random) three_cars 64); vm_compute; reflexivity).
  exact (cars_accounted_for (R := script_random) script_expovariate_nonneg
           script_randint_range three_cars (scripted 64) Hr).
Defined.

(** The scripted run at minute 45, when the first car has left and two
    requests wait: the release that serves the queue is due; and at minute
    40, when the clock advances, both machines are in use. *)
Lemma no_machine_idles_while_a_request_waits_witness :
  (exists x, x ∈ queue (scripted 61) /\
     get_callbacks (item x) (scripted 61) = Some [trigger_put_cb] /\
     (at_time x == now (scripted 61))%Q) /\
  (put_queue (scripted 54) = [] \/ length (users (scripted 54)) = capacity (scripted 54)).
Proof.
  assert (reachable three_cars (scripted 61)) as Hr1
    by (apply (run_reachable (R := script_random) three_cars 61); vm_compute; reflexivity).
  assert (reachable three_cars (scripted 54)) as Hr2
    by (apply (run_reachable (R := script_random) three_cars 54); vm_compute; reflexivity).
  destruct (no_machine_idles_while_a_request_waits (R := script_random)
              script_expovariate_nonneg script_randint_range three_cars _ Hr1) as [H1 _].
  destruct (no_machine_idles_while_a_request_waits (R := script_random)
              script_expovariate_nonneg script_randint_range three_cars _ Hr2) as [_ H2].
  split.
  - apply H1; [vm_compute; discriminate|vm_compute; lia].
  - apply (H2 (scripted 55)); vm_compute; reflexivity.
Defined.

(** The first arrival of the scripted run, at minute 10. *)
Lemma setup_starts_one_car_per_arrival_witness :
  gen_of (scripted 13) 0 = Some (setup_L59 1) /\
  car_count (scripted 13) = S (car_count (scripted 12)).
Proof.
  assert (reachable three_cars (scripted 12)) as Hr
    by (apply (run_reachable (R := script_random) three_cars 12); vm_compute; reflexivity).
  assert (step (scripted 12) = Return (scripted 13)) as Hstep
    by (vm_compute; reflexivity).
  destruct (setup_starts_one_car_per_arrival (R := script_random) script_expovariate_nonneg
              script_randint_range three_cars _ _ Hr Hstep) as [H _].
  destruct (H 0) as (H1 & H2 & _); [vm_compute; reflexivity|vm_compute; discriminate|].
  split; [exact H1|exact H2].
Defined.
